(** * A shallow embedding of the data registry utilities

    The development follows the TypeScript sources:
    - [src/utils/equivalent-key-map.ts]   (module [EKM])
    - [src/utils/is-shallow-equal.ts], the memoizing [createSelector]
      (module [Selector])
    - the resolution metadata reducer and selectors (module [Resolution])
    - the registry (module [Registry])
    - [src/redux-store/combine-reducers.ts] (module [Combine]). *)

From Stdlib Require Import List String Ascii ZArith Lia Bool Arith.
From Stdlib Require Import Permutation Sorted.
Import ListNotations.
Local Open Scope string_scope.
Local Open Scope list_scope.

Set Implicit Arguments.
Set Warnings "-register-all".

(** ** JavaScript values

    Primitives are compared by value, objects and arrays by reference.  An
    object carries the reference [ref] the runtime gave it, so two objects
    with the same properties but distinct references are distinct values,
    and "the same reference" is Leibniz equality.  Numbers are integers;
    NaN, the one value that [===] tells apart from itself, is added where
    the code compares state slices ([Combine]) and counts
    ([Resolution.countSelectorsByStatus]). *)

Inductive kind : Type := KArray | KObject.

Inductive value : Type :=
| VUndefined
| VNull
| VBool (b : bool)
| VNum (n : Z)
| VStr (s : string)
| VObj (ref : nat) (k : kind) (props : list (string * value)).

Definition kind_eqb (a b : kind) : bool :=
  match a, b with
  | KArray, KArray | KObject, KObject => true
  | _, _ => false
  end.

Fixpoint value_eqb (a b : value) {struct a} : bool :=
  match a, b with
  | VUndefined, VUndefined => true
  | VNull, VNull => true
  | VBool x, VBool y => Bool.eqb x y
  | VNum x, VNum y => Z.eqb x y
  | VStr x, VStr y => String.eqb x y
  | VObj r k ps, VObj r' k' ps' =>
      Nat.eqb r r' && kind_eqb k k' &&
      (fix props_eqb (l l' : list (string * value)) {struct l} : bool :=
         match l, l' with
         | [], [] => true
         | (n, v) :: t, (n', v') :: t' =>
             String.eqb n n' && value_eqb v v' && props_eqb t t'
         | _, _ => false
         end) ps ps'
  | _, _ => false
  end.

(** Induction on values that reaches the values held in properties. *)
Section value_ind_deep.
Variable P : value -> Prop.
Hypothesis Hundef : P VUndefined.
Hypothesis Hnull : P VNull.
Hypothesis Hbool : forall b, P (VBool b).
Hypothesis Hnum : forall n, P (VNum n).
Hypothesis Hstr : forall s, P (VStr s).
Hypothesis Hobj : forall r k ps,
      Forall (fun nv => P (snd nv)) ps -> P (VObj r k ps).

Fixpoint value_ind_deep (v : value) : P v :=
    match v with
    | VUndefined => Hundef
    | VNull => Hnull
    | VBool b => Hbool b
    | VNum n => Hnum n
    | VStr s => Hstr s
    | VObj r k ps =>
        Hobj r k
          ((fix go (l : list (string * value)) : Forall (fun nv => P (snd nv)) l :=
              match l with
              | [] => Forall_nil _
              | nv :: t => Forall_cons nv (value_ind_deep (snd nv)) (go t)
              end) ps)
    end.
End value_ind_deep.

(** [key === null || typeof key !== 'object'] *)
Definition is_primitive (v : value) : bool :=
  match v with
  | VObj _ _ _ => false
  | _ => true
  end.

(** [!!value] *)
Definition truthy (v : value) : bool :=
  match v with
  | VUndefined | VNull => false
  | VBool b => b
  | VNum n => negb (Z.eqb n 0)
  | VStr s => negb (String.eqb s "")
  | VObj _ _ _ => true
  end.

(** Results of code that may throw a [TypeError].  [OutOfFuel] is the
    answer of a recursion bounded by a counter when the counter is too
    small; the operations below are always run with a sufficient one. *)
Inductive res (A : Type) : Type :=
| Ok (a : A)
| TypeError
| OutOfFuel.
Arguments Ok {A} a.
Arguments TypeError {A}.
Arguments OutOfFuel {A}.

Definition bind {A B : Type} (r : res A) (f : A -> res B) : res B :=
  match r with
  | Ok a => f a
  | TypeError => TypeError
  | OutOfFuel => OutOfFuel
  end.

Notation "x <- c ;; k" := (bind c (fun x => k))
  (at level 61, c at next level, right associativity).
Notation "' p <- c ;; k" := (bind c (fun x => let p := x in k))
  (at level 61, p pattern, c at next level, right associativity).

(** ** Association lists in insertion order: a JS [Map], or the own
    properties of a plain object used as a record. *)
Section Assoc.
Variables (K V : Type) (eqb : K -> K -> bool).

Fixpoint assoc_get (m : list (K * V)) (k : K) : option V :=
    match m with
    | [] => None
    | (k', v) :: t => if eqb k' k then Some v else assoc_get t k
    end.

Definition assoc_has (m : list (K * V)) (k : K) : bool :=
    match assoc_get m k with Some _ => true | None => false end.

  (** [Map.prototype.set]: an existing key keeps its position. *)
Fixpoint assoc_set (m : list (K * V)) (k : K) (v : V) : list (K * V) :=
    match m with
    | [] => [(k, v)]
    | (k', v') :: t =>
        if eqb k' k then (k', v) :: t else (k', v') :: assoc_set t k v
    end.

Fixpoint assoc_delete (m : list (K * V)) (k : K) : list (K * V) :=
    match m with
    | [] => []
    | (k', v') :: t =>
        if eqb k' k then t else (k', v') :: assoc_delete t k
    end.
End Assoc.

(** ** Plain objects used as tables

    An object literal inherits from [Object.prototype]: [o[name]] finds
    a member of the prototype under each of these names when [o] has no
    own property of that name.  Each member is an object (a function,
    or [Object.prototype] itself under [__proto__]), hence truthy, and
    none of them has a [get], [getSelectors], [getActions] or
    [subscribe] method. *)
Definition object_prototype_names : list string :=
  ["constructor"; "__defineGetter__"; "__defineSetter__"; "hasOwnProperty";
   "__lookupGetter__"; "__lookupSetter__"; "isPrototypeOf";
   "propertyIsEnumerable"; "toString"; "valueOf"; "__proto__";
   "toLocaleString"].

(** Whether [name] is found in [{}]. *)
Definition inherited (name : string) : bool :=
  existsb (String.eqb name) object_prototype_names.

(** Whether a property name is an array index: the decimal numeral,
    without a leading zero, of a number below [2^32 - 1]. *)
Definition digit (c : ascii) : option N :=
  let n := N_of_ascii c in
  if (48 <=? n)%N && (n <=? 57)%N then Some (n - 48)%N else None.

Fixpoint numeral (s : string) (acc : N) : option N :=
  match s with
  | EmptyString => Some acc
  | String c rest =>
      match digit c with
      | Some d => numeral rest (acc * 10 + d)%N
      | None => None
      end
  end.

Definition array_index (name : string) : option N :=
  match name with
  | EmptyString => None
  | String c rest =>
      if Ascii.eqb c "0" && negb (String.eqb rest "") then None
      else
        match numeral name 0 with
        | Some i => if (i <=? 4294967294)%N then Some i else None
        | None => None
        end
  end.

(** The order in which [Object.keys], [Object.values] and
    [Object.entries] go through the own properties of an object: the
    array indices in ascending order, then the other names in the order
    in which they were added. *)
Section Enumerate.
Variable A : Type.

Fixpoint insert_index (i : N) (entry : string * A) (l : list (N * (string * A)))
  : list (N * (string * A)) :=
  match l with
  | [] => [(i, entry)]
  | (j, e) :: rest =>
      if (i <? j)%N then (i, entry) :: l else (j, e) :: insert_index i entry rest
  end.

Fixpoint indexed_first (o : list (string * A)) : list (N * (string * A)) :=
  match o with
  | [] => []
  | entry :: rest =>
      match array_index (fst entry) with
      | Some i => insert_index i entry (indexed_first rest)
      | None => indexed_first rest
      end
  end.

Definition enumerate (o : list (string * A)) : list (string * A) :=
  map snd (indexed_first o)
  ++ filter (fun entry => match array_index (fst entry) with
                          | Some _ => false
                          | None => true
                          end) o.
End Enumerate.

(** ** [combineReducers] (src/redux-store/combine-reducers.ts) *)
Module Combine.

(** What a property of the state holds: a value, NaN, or the member
    of [Object.prototype] that a read finds under an inherited name. *)
Inductive jsvalue : Type :=
| JVal (v : value)
| JNaN
| JInherited (name : string).

(** [a === b]: NaN is not equal to itself, and the members of
    [Object.prototype] are distinct objects. *)
Definition strict_eqb (a b : jsvalue) : bool :=
  match a, b with
  | JVal x, JVal y => value_eqb x y
  | JInherited x, JInherited y => String.eqb x y
  | _, _ => false
  end.

(** A plain object: the reference the runtime gave it and its own
    properties in insertion order; its prototype is [Object.prototype]. *)
Record jsobject : Type := JsObject {
  obj_ref : nat;
  obj_props : list (string * jsvalue)
}.

(** [o[key]]: the own property, else the inherited member, else
    [undefined]. *)
Definition prop_get (o : jsobject) (key : string) : jsvalue :=
  match assoc_get String.eqb (obj_props o) key with
  | Some v => v
  | None => if inherited key then JInherited key else JVal VUndefined
  end.

(** Adding or replacing an own property. *)
Definition prop_set (o : jsobject) (key : string) (v : jsvalue) : jsobject :=
  JsObject (obj_ref o) (assoc_set String.eqb (obj_props o) key v).

(** An object the reducer has made: the plain object it started as with
    the own properties it has received, and the prototype an assignment
    to [__proto__] has given it, [None] while it is still
    [Object.prototype]. *)
Record created : Type := Created {
  own : jsobject;
  proto : option jsvalue
}.

(** What the setter of [__proto__] accepts: an object or [null]. *)
Definition object_or_null (v : jsvalue) : bool :=
  match v with
  | JVal VNull | JVal (VObj _ _ _) | JInherited _ => true
  | _ => false
  end.

(** [o[key] = v] on an object without an own property [__proto__]: the
    assignment to [__proto__] reaches the setter of [Object.prototype],
    which changes the prototype when [v] is an object or [null]
    ([Object.prototype] itself is what a plain object reads under
    [__proto__]), does nothing otherwise, and adds no own property; any
    other key becomes an own property. *)
Definition prop_assign (o : created) (key : string) (v : jsvalue) : created :=
  if String.eqb key "__proto__" then
    if object_or_null v then
      if strict_eqb v (JInherited "__proto__") then Created (own o) None
      else Created (own o) (Some v)
    else o
  else Created (prop_set (own o) key v) (proto o).

Section Reducers.
Variable Action : Type.

Definition Reducer : Type := jsvalue -> Action -> jsvalue.

(** One turn of [for (const key of keys)]; the accumulator is
    [(nextState, hasChanged)]. *)
Definition combine_step (state : jsobject) (action : Action)
    (acc : created * bool) (kr : string * Reducer) : created * bool :=
  let reducer := snd kr in
  let prevStateForKey := prop_get state (fst kr) in
  let nextStateForKey := reducer prevStateForKey action in
  (prop_assign (fst acc) (fst kr) nextStateForKey,
   snd acc || negb (strict_eqb nextStateForKey prevStateForKey)).

(** [combineReducers(reducers)(state, action)].  [reducers] lists the
    own properties of the reducers object in [Object.keys] order; the
    state is a plain object or [undefined]; [fresh_default] and
    [fresh_next] are the references of the two object literals the call
    evaluates: the default [{}] for an [undefined] state, and
    [nextState]. *)
Definition combinedReducer (reducers : list (string * Reducer))
    (fresh_default fresh_next : nat)
    (state : option jsobject) (action : Action) : created :=
  let state :=
    match state with
    | Some o => o
    | None => JsObject fresh_default []
    end in
  let r := fold_left (combine_step state action) reducers
             (Created (JsObject fresh_next []) None, false) in
  if snd r then fst r else Created state None.
End Reducers.
End Combine.

(** ** The registry (createRegistry) *)
Module Registry.
Section Stores.

(** What [store.getSelectors()] and [store.getActions()] return. *)
Variables (Selectors Actions : Type).

(** A store instance.  A method is [None] when the property is not a
    function; [getSelectors] and [getActions] hold what the call returns.
    [emitter] records that registration installed the per-store emitter
    and wrapped [subscribe]. *)
Record StoreInstance : Type := mkStore {
  getSelectors : option Selectors;
  getActions : option Actions;
  subscribe : bool;
  emitter : bool
}.

(** The state closed over by [createRegistry]: the [stores] object, the
    [parent] registry and [listeningStores] ([None] is [null]).

    The code only ever reads [stores[name]] and, where that is falsy,
    writes [stores[name] = store]; [stores] is the table of what
    [stores[name]] finds, the members inherited from [Object.prototype]
    included (see [new_stores]). *)
Inductive registry : Type :=
| mkRegistry (stores : list (string * StoreInstance))
             (parent : option registry)
             (listeningStores : option (list string)).

Definition stores (r : registry) : list (string * StoreInstance) :=
  match r with mkRegistry s _ _ => s end.
Definition parent (r : registry) : option registry :=
  match r with mkRegistry _ p _ => p end.
Definition listeningStores (r : registry) : option (list string) :=
  match r with mkRegistry _ _ l => l end.

(** What [stores[name]] finds under an inherited name: an object with
    none of the methods of a store. *)
Definition prototype_member : StoreInstance := mkStore None None false false.

(** [const stores = {}]: the table before any store is registered. *)
Definition new_stores : list (string * StoreInstance) :=
  map (fun name => (name, prototype_member)) object_prototype_names.

(** A store name or a store descriptor, of which only [name] is read. *)
Inductive nameOrDescriptor : Type :=
| StoreName (name : string)
| StoreDescriptor (name : string).

Definition getStoreName (storeNameOrDescriptor : nameOrDescriptor) : string :=
  match storeNameOrDescriptor with
  | StoreName n => n
  | StoreDescriptor n => n
  end.

(** [listeningStores?.add(storeName)] on a [Set]. *)
Definition listening_add (l : option (list string)) (storeName : string)
  : option (list string) :=
  match l with
  | None => None
  | Some names =>
      if existsb (String.eqb storeName) names then Some names
      else Some (names ++ [storeName])
  end.

(** [store.getSelectors()] *)
Definition call_getSelectors (store : StoreInstance) : res (option Selectors) :=
  match getSelectors store with
  | Some sel => Ok (Some sel)
  | None => TypeError
  end.

(** [select(storeNameOrDescriptor)]: the selectors ([None] is
    [undefined]) and the registry with its tracking set updated.
    [stores[storeName]] is the entry of the table; under an inherited
    name it is a member of [Object.prototype], on which
    [store.getSelectors()] throws. *)
Fixpoint select_name (r : registry) (storeName : string)
  : res (option Selectors) * registry :=
  match r with
  | mkRegistry stores parent listening =>
      let listening := listening_add listening storeName in
      match assoc_get String.eqb stores storeName with
      | Some store =>
          (call_getSelectors store, mkRegistry stores parent listening)
      | None =>
          match parent with
          | Some p =>
              let (result, p') := select_name p storeName in
              (result, mkRegistry stores (Some p') listening)
          | None => (Ok None, mkRegistry stores None listening)
          end
      end
  end.

Definition select (r : registry) (storeNameOrDescriptor : nameOrDescriptor)
  : res (option Selectors) * registry :=
  select_name r (getStoreName storeNameOrDescriptor).

Definition dquote : string := String (ascii_of_nat 34) EmptyString.

Definition already_registered (name : string) : string :=
  "Store " ++ dquote ++ name ++ dquote ++ " is already registered.".

(** The outcome of a registration: the store returned, the registry
    afterwards and the lines written with [console.error]; the three
    [typeof] checks throw.  [if (stores[name])] is true of every entry
    of the table, the inherited members included, which are returned as
    they are. *)
Definition registerStoreInstance (r : registry) (name : string)
    (createStore : unit -> StoreInstance)
  : res (StoreInstance * registry * list string) :=
  match assoc_get String.eqb (stores r) name with
  | Some existing => Ok (existing, r, [already_registered name])
  | None =>
      let store := createStore tt in
      match getSelectors store, getActions store, subscribe store with
      | Some sel, Some act, true =>
          let store := mkStore (Some sel) (Some act) true true in
          Ok (store,
              mkRegistry (assoc_set String.eqb (stores r) name store)
                         (parent r) (listeningStores r),
              [])
      | _, _, _ => TypeError
      end
  end.

(** [register(store)]: [store.instantiate(registry)] is the creator. *)
Definition register (r : registry) (store : nameOrDescriptor)
    (instantiate : unit -> StoreInstance)
  : res (registry * list string) :=
  ' (_, r', log) <- registerStoreInstance r (getStoreName store) instantiate ;;
  Ok (r', log).

(** [registerGenericStore(name, store)] *)
Definition registerGenericStore (r : registry) (name : string)
    (store : StoreInstance) : res (registry * list string) :=
  ' (_, r', log) <- registerStoreInstance r name (fun _ => store) ;;
  Ok (r', log).

(** [registerStore(storeName, options)]: [has_reducer] is whether
    [options.reducer] is truthy, the creator instantiates the store
    built by [createReduxStore]. *)
Definition registerStore (r : registry) (storeName : string)
    (has_reducer : bool) (createReduxStore : unit -> StoreInstance)
  : res (registry * list string) :=
  if negb has_reducer then TypeError
  else
    ' (_, r', log) <- registerStoreInstance r storeName createReduxStore ;;
    Ok (r', log).

(** [store.getActions()] *)
Definition call_getActions (store : StoreInstance) : res (option Actions) :=
  match getActions store with
  | Some act => Ok (Some act)
  | None => TypeError
  end.

(** [dispatch(storeNameOrDescriptor)]: the actions of the store; [None]
    is the [null] that [parent && parent.dispatch(storeName)] yields
    when no registry up the chain has the store.  The tracking set is
    not touched.  Under an inherited name [store.getActions()] throws. *)
Fixpoint dispatch_name (r : registry) (storeName : string) : res (option Actions) :=
  match r with
  | mkRegistry stores parent _ =>
      match assoc_get String.eqb stores storeName with
      | Some store => call_getActions store
      | None =>
          match parent with
          | Some p => dispatch_name p storeName
          | None => Ok None
          end
      end
  end.

Definition dispatch (r : registry) (storeNameOrDescriptor : nameOrDescriptor)
  : res (option Actions) :=
  dispatch_name r (getStoreName storeNameOrDescriptor).

(** [__unstableMarkListeningStores(callback, ref)]: the value the
    callback returns, what is assigned to [ref.current], and the
    registry afterwards.  The callback runs on the registry with a new
    tracking set; when it throws, the [finally] block runs and the
    exception goes on.  [Array.from(null)] throws. *)
Definition markListeningStores (A : Type) (r : registry)
    (callback : registry -> res (A * registry))
  : res (A * list string * registry) :=
  ' (a, r1) <- callback (mkRegistry (stores r) (parent r) (Some [])) ;;
  match listeningStores r1 with
  | Some names => Ok (a, names, mkRegistry (stores r1) (parent r1) None)
  | None => TypeError
  end.

End Stores.
End Registry.

(** ** EquivalentKeyMap (src/utils/equivalent-key-map.ts) *)
Module EKM.

(** What a slot of a [Map] of the structure can hold: a plain value, a
    value pair [[keyRef, value]], or an [EquivalentKeyMap] instance with
    its three maps [_map], [_arrayTreeMap] and [_objectTreeMap].  Every
    instance is referenced from one slot only, so it is held by value.
    [zero] is the own property ["0"] of the instance, [undefined] unless
    [getValuePair] assigned it. *)
Inductive stored : Type :=
| SVal (v : value)
| SPair (keyRef : value) (x : stored)
| SEkm (zero : value) (map arrayTree objectTree : list (value * stored)).

Definition jsmap : Type := list (value * stored).

Record ekm : Type := mkEkm {
  e_zero : value;
  _map : jsmap;
  _arrayTreeMap : jsmap;
  _objectTreeMap : jsmap
}.

Definition SNode (e : ekm) : stored :=
  SEkm (e_zero e) (_map e) (_arrayTreeMap e) (_objectTreeMap e).

(** [new EquivalentKeyMap()] *)
Definition empty : ekm := mkEkm VUndefined [] [] [].

Definition undefined : stored := SVal VUndefined.

Definition sentinel : value := VStr "_ekm_value".

Definition map_get (m : jsmap) (k : value) : stored :=
  match assoc_get value_eqb m k with
  | Some x => x
  | None => undefined
  end.
Definition map_has (m : jsmap) (k : value) : bool := assoc_has value_eqb m k.
Definition map_set (m : jsmap) (k : value) (x : stored) : jsmap :=
  assoc_set value_eqb m k x.
Definition map_delete (m : jsmap) (k : value) : jsmap :=
  assoc_delete value_eqb m k.

(** [!x] is false *)
Definition stored_truthy (x : stored) : bool :=
  match x with
  | SVal v => truthy v
  | _ => true
  end.

(** [x === undefined] *)
Definition is_undefined (x : stored) : bool :=
  match x with
  | SVal VUndefined => true
  | _ => false
  end.

(** [s[i]] for a string: the character at [i], or [undefined]. *)
Definition char_at (s : string) (i : nat) : value :=
  match String.get i s with
  | Some c => VStr (String c EmptyString)
  | None => VUndefined
  end.

(** [v[property]] for a value that is neither [undefined] nor [null]. *)
Definition value_index (v : value) (i : nat) (property : string) : value :=
  match v with
  | VObj _ _ props =>
      match assoc_get String.eqb props property with
      | Some x => x
      | None => VUndefined
      end
  | VStr s => char_at s i
  | _ => VUndefined
  end.

(** [x[0]] for a truthy [x]; the first member of a pair is always a key. *)
Definition index0 (x : stored) : value :=
  match x with
  | SPair k _ => k
  | SEkm zero _ _ _ => zero
  | SVal v => value_index v 0 "0"
  end.

(** [x[1]] for a truthy [x]. *)
Definition index1 (x : stored) : stored :=
  match x with
  | SPair _ v => v
  | SEkm _ _ _ _ => undefined
  | SVal v => SVal (value_index v 1 "1")
  end.

(** [x[1]] for any [x]: reading a property of [undefined] or [null]
    throws. *)
Definition read1 (x : stored) : res stored :=
  match x with
  | SVal VUndefined | SVal VNull => TypeError
  | _ => Ok (index1 x)
  end.

(** [valuePair[0] = key].  No operation puts a plain value in the slot
    read here; assigning a property of a primitive throws. *)
Definition assign0 (x : stored) (key : value) : res stored :=
  match x with
  | SPair _ v => Ok (SPair key v)
  | SEkm _ m a o => Ok (SEkm key m a o)
  | SVal _ => TypeError
  end.

(** [Object.keys(key).sort()]: insertion into a sorted list, by code
    unit order. *)
Fixpoint insert_sorted (s : string) (l : list string) : list string :=
  match l with
  | [] => [s]
  | h :: t => if String.leb s h then s :: l else h :: insert_sorted s t
  end.

Fixpoint sort (l : list string) : list string :=
  match l with
  | [] => []
  | h :: t => insert_sorted h (sort t)
  end.

Definition own_props (key : value) : list (string * value) :=
  match key with
  | VObj _ _ props => props
  | _ => []
  end.

Definition object_keys (key : value) : list string :=
  map fst (own_props key).

(** [key[property]] *)
Definition prop (key : value) (property : string) : value :=
  match assoc_get String.eqb (own_props key) property with
  | Some v => v
  | None => VUndefined
  end.

(** [Array.isArray(key)] *)
Definition isArray (key : value) : bool :=
  match key with
  | VObj _ KArray _ => true
  | _ => false
  end.

(** [Array.isArray(key) ? _arrayTreeMap : _objectTreeMap] *)
Definition tree_of (e : ekm) (key : value) : jsmap :=
  if isArray key then _arrayTreeMap e else _objectTreeMap e.

Definition set_tree (e : ekm) (key : value) (t : jsmap) : ekm :=
  if isArray key then mkEkm (e_zero e) (_map e) t (_objectTreeMap e)
  else mkEkm (e_zero e) (_map e) (_arrayTreeMap e) t.

Definition set_map (e : ekm) (m : jsmap) : ekm :=
  mkEkm (e_zero e) m (_arrayTreeMap e) (_objectTreeMap e).

(** The nesting depth of a key: the counter its operations need. *)
Fixpoint depth (v : value) : nat :=
  match v with
  | VObj _ _ props =>
      S ((fix go (l : list (string * value)) : nat :=
            match l with
            | [] => 0
            | nv :: t => Nat.max (depth (snd nv)) (go t)
            end) props)
  | _ => 0
  end.

(** *** One level of the structure

    The methods of an instance call the methods of the instances stored
    in its trees, on the property values of the key.  [nested_has],
    [nested_get] and [nested_set] are those methods. *)
Section Level.
Variable nested_has : ekm -> value -> res (bool * ekm).
Variable nested_get : ekm -> value -> res (stored * ekm).
Variable nested_set : ekm -> value -> stored -> res ekm.

(** The loop and the tail of [getValuePair] on the tree: [map] is the
    content of the map the walk is at, a tree root or the [_map] of a
    stored instance (its keys are property names, which are primitive).
    Returns [None] where the source returns [undefined], else the old
    [valuePair[0]] and the pair with the new one; and the map after the
    walk.

    The source holds the instances it meets by reference and changes
    them in place.  Here an instance is a value: after the walk below
    it, the instance [child] is filed again in [e1] under the property
    value it was read from ([nested_set]), and the instance [e2] is put
    back in the slot of [map] it was read from.  A method called on
    something that has no such method throws. *)
Fixpoint walk_get (key : value) (map : jsmap) (properties : list string)
  : res (option (value * stored) * jsmap) :=
  match properties with
  | [] =>
      let valuePair := map_get map sentinel in
      if negb (stored_truthy valuePair) then Ok (None, map)
      else
        valuePair' <- assign0 valuePair key ;;
        Ok (Some (index0 valuePair, valuePair'), map_set map sentinel valuePair')
  | property :: rest =>
      match map_get map (VStr property) with
      | SVal VUndefined => Ok (None, map)
      | SEkm z m a o =>
          let propertyValue := prop key property in
          ' (child, e1) <- nested_get (mkEkm z m a o) propertyValue ;;
          match child with
          | SVal VUndefined => Ok (None, map_set map (VStr property) (SNode e1))
          | SEkm cz cm ca co =>
              ' (r, cm') <- walk_get key cm rest ;;
              e2 <- nested_set e1 propertyValue (SEkm cz cm' ca co) ;;
              Ok (r, map_set map (VStr property) (SNode e2))
          | _ => TypeError
          end
      | _ => TypeError
      end
  end.

(** [getValuePair(instance, key)] *)
Definition getValuePair (e : ekm) (key : value) : res (stored * ekm) :=
  if map_has (_map e) key then Ok (map_get (_map e) key, e)
  else
    let properties := sort (object_keys key) in
    ' (r, tree) <- walk_get key (tree_of e key) properties ;;
    let e := set_tree e key tree in
    match r with
    | None => Ok (undefined, e)
    | Some (old, valuePair) =>
        Ok (valuePair,
            set_map e (map_set (map_delete (_map e) old) key valuePair))
    end.

(** The loop of [set] on the tree, up to [map.set('_ekm_value',
    valuePair)]: returns [previousValuePair] and the map after the walk.
    As in [walk_get], the instance [child] changed by the rest of the
    walk is filed again under [propertyValue], and [e4] is put back in
    its slot. *)
Fixpoint walk_set (key : value) (valuePair : stored) (map : jsmap)
    (properties : list string) : res (stored * jsmap) :=
  match properties with
  | [] => Ok (map_get map sentinel, map_set map sentinel valuePair)
  | property :: rest =>
      let map :=
        if negb (map_has map (VStr property))
        then map_set map (VStr property) (SNode empty) else map in
      match map_get map (VStr property) with
      | SEkm z m a o =>
          let propertyValue := prop key property in
          ' (present, e1) <- nested_has (mkEkm z m a o) propertyValue ;;
          e2 <- (if negb present
                 then nested_set e1 propertyValue (SNode empty) else Ok e1) ;;
          ' (child, e3) <- nested_get e2 propertyValue ;;
          match child with
          | SEkm cz cm ca co =>
              ' (previousValuePair, cm') <- walk_set key valuePair cm rest ;;
              e4 <- nested_set e3 propertyValue (SEkm cz cm' ca co) ;;
              Ok (previousValuePair, map_set map (VStr property) (SNode e4))
          | _ => TypeError
          end
      | _ => TypeError
      end
  end.

(** [set(key, value)] *)
Definition set_level (e : ekm) (key : value) (value : stored) : res ekm :=
  if is_primitive key then Ok (set_map e (map_set (_map e) key value))
  else
    let properties := sort (object_keys key) in
    let valuePair := SPair key value in
    ' (previousValuePair, tree) <-
        walk_set key valuePair (tree_of e key) properties ;;
    let m :=
      if stored_truthy previousValuePair
      then map_delete (_map e) (index0 previousValuePair) else _map e in
    Ok (set_tree (set_map e (map_set m key valuePair)) key tree).

(** [get(key)] *)
Definition get_level (e : ekm) (key : value) : res (stored * ekm) :=
  if is_primitive key then Ok (map_get (_map e) key, e)
  else
    ' (valuePair, e) <- getValuePair e key ;;
    if stored_truthy valuePair then Ok (index1 valuePair, e)
    else Ok (undefined, e).

(** [has(key)] *)
Definition has_level (e : ekm) (key : value) : res (bool * ekm) :=
  if is_primitive key then Ok (map_has (_map e) key, e)
  else
    ' (valuePair, e) <- getValuePair e key ;;
    Ok (negb (is_undefined valuePair), e).
End Level.

(** The methods for keys nested at most [n] deep. *)
Record methods : Type := mkMethods {
  m_has : ekm -> value -> res (bool * ekm);
  m_get : ekm -> value -> res (stored * ekm);
  m_set : ekm -> value -> stored -> res ekm
}.

Fixpoint methods_at (n : nat) : methods :=
  match n with
  | O =>
      mkMethods (has_level (fun _ _ => OutOfFuel) (fun _ _ _ => OutOfFuel))
                (get_level (fun _ _ => OutOfFuel) (fun _ _ _ => OutOfFuel))
                (set_level (fun _ _ => OutOfFuel) (fun _ _ => OutOfFuel)
                           (fun _ _ _ => OutOfFuel))
  | S n' =>
      let nested := methods_at n' in
      mkMethods (has_level (m_get nested) (m_set nested))
                (get_level (m_get nested) (m_set nested))
                (set_level (m_has nested) (m_get nested) (m_set nested))
  end.

(** *** The methods of the class *)

Definition set (e : ekm) (key : value) (v : value) : res ekm :=
  m_set (methods_at (depth key)) e key (SVal v).

Definition get (e : ekm) (key : value) : res (stored * ekm) :=
  m_get (methods_at (depth key)) e key.

Definition has (e : ekm) (key : value) : res (bool * ekm) :=
  m_has (methods_at (depth key)) e key.

(** [delete(key)] *)
Definition delete (e : ekm) (key : value) : res (bool * ekm) :=
  ' (present, e) <- has e key ;;
  if negb present then Ok (false, e)
  else
    e <- set e key VUndefined ;;
    Ok (true, e).

(** The pairs [forEach] hands to its callback, in order. *)
Definition entries (e : ekm) : list (value * stored) :=
  map (fun kx => (fst kx, if is_primitive (fst kx) then snd kx else index1 (snd kx)))
      (_map e).

(** [values()] *)
Definition values (e : ekm) : list stored := map snd (_map e).

(** [size] *)
Definition size (e : ekm) : nat := List.length (_map e).

(** [some(callback)], for a callback that may throw. *)
Fixpoint some_loop (callback : value -> stored -> res bool)
    (l : list (value * stored)) : res bool :=
  match l with
  | [] => Ok false
  | (key, value) :: rest =>
      value1 <- read1 value ;;
      b <- callback key value1 ;;
      if b then Ok true else some_loop callback rest
  end.

Definition some (e : ekm) (callback : value -> stored -> res bool) : res bool :=
  some_loop callback (_map e).

(** A value held for a key, as [set] receives it back from [forEach]. *)
Definition set_stored (e : ekm) (key : value) (x : stored) : res ekm :=
  m_set (methods_at (depth key)) e key x.

(** [new EquivalentKeyMap(iterable)] for an [EquivalentKeyMap]. *)
Definition copy (iterable : ekm) : res ekm :=
  fold_left (fun acc kx => e <- acc ;; set_stored e (fst kx) (snd kx))
            (entries iterable) (Ok empty).

(** [new EquivalentKeyMap(iterable)] for an array of [[key, value]]
    pairs: [clear()], then [set] for each pair in turn. *)
Definition from_pairs (iterable : list (value * value)) : res ekm :=
  fold_left (fun acc kv => e <- acc ;; set e (fst kv) (snd kv)) iterable (Ok empty).

(** [clear()] *)
Definition clear (e : ekm) : ekm := mkEkm (e_zero e) [] [] [].
End EKM.

(** ** Resolution metadata: actions, reducer and selectors *)
Module Resolution.
Import EKM.

Inductive Action : Type :=
| START_RESOLUTION (selectorName : string) (args : value)
| FINISH_RESOLUTION (selectorName : string) (args : value)
| FAIL_RESOLUTION (selectorName : string) (args : value) (error : value)
| START_RESOLUTIONS (selectorName : string) (args : list value)
| FINISH_RESOLUTIONS (selectorName : string) (args : list value)
| FAIL_RESOLUTIONS (selectorName : string) (args : list value) (errors : list value)
| INVALIDATE_RESOLUTION (selectorName : string) (args : value)
| INVALIDATE_RESOLUTION_FOR_STORE
| INVALIDATE_RESOLUTION_FOR_STORE_SELECTOR (selectorName : string)
| OTHER_ACTION (type : string).

(** The action creators. *)
Definition startResolution (selectorName : string) (args : value) : Action :=
  START_RESOLUTION selectorName args.
Definition finishResolution (selectorName : string) (args : value) : Action :=
  FINISH_RESOLUTION selectorName args.
Definition failResolution (selectorName : string) (args : value) (error : value)
  : Action := FAIL_RESOLUTION selectorName args error.
Definition invalidateResolution (selectorName : string) (args : value) : Action :=
  INVALIDATE_RESOLUTION selectorName args.
Definition startResolutions (selectorName : string) (args : list value) : Action :=
  START_RESOLUTIONS selectorName args.
Definition finishResolutions (selectorName : string) (args : list value) : Action :=
  FINISH_RESOLUTIONS selectorName args.
Definition failResolutions (selectorName : string) (args errors : list value)
  : Action := FAIL_RESOLUTIONS selectorName args errors.
Definition invalidateResolutionForStore : Action := INVALIDATE_RESOLUTION_FOR_STORE.
Definition invalidateResolutionForStoreSelector (selectorName : string) : Action :=
  INVALIDATE_RESOLUTION_FOR_STORE_SELECTOR selectorName.

(** [action.selectorName], [None] where the action has none. *)
Definition action_selectorName (action : Action) : option string :=
  match action with
  | START_RESOLUTION n _ | FINISH_RESOLUTION n _ | FAIL_RESOLUTION n _ _
  | START_RESOLUTIONS n _ | FINISH_RESOLUTIONS n _ | FAIL_RESOLUTIONS n _ _
  | INVALIDATE_RESOLUTION n _ | INVALIDATE_RESOLUTION_FOR_STORE_SELECTOR n => Some n
  | INVALIDATE_RESOLUTION_FOR_STORE | OTHER_ACTION _ => None
  end.

(** The resolution state: selector name to [EquivalentKeyMap], the own
    properties of a plain object in the order in which they were added;
    [Object.values] and [Object.entries] go through them in the order
    of [enumerate]. *)
Definition State : Type := list (string * ekm).

(** The status objects the reducer builds; [ref] is the reference of
    the object literal. *)
Definition status_object (ref : nat) (status : string) : value :=
  VObj ref KObject [("status", VStr status)].
Definition error_object (ref : nat) (error : value) : value :=
  VObj ref KObject [("status", VStr "error"); ("error", error)].

(** [x.status] for [x] neither [undefined] nor [null]. *)
Definition status_property (x : stored) : value :=
  match x with
  | SVal (VObj _ _ props) =>
      match assoc_get String.eqb props "status" with
      | Some s => s
      | None => VUndefined
      end
  | _ => VUndefined
  end.

(** [x?.status] *)
Definition optional_status (x : stored) : value :=
  match x with
  | SVal VUndefined | SVal VNull => VUndefined
  | _ => status_property x
  end.

(** [x.status]: throws on [undefined] and [null]. *)
Definition read_status (x : stored) : res value :=
  match x with
  | SVal VUndefined | SVal VNull => TypeError
  | _ => Ok (status_property x)
  end.

(** [x.error] for a status object. *)
Definition error_property (x : stored) : value :=
  match x with
  | SVal (VObj _ _ props) =>
      match assoc_get String.eqb props "error" with
      | Some s => s
      | None => VUndefined
      end
  | _ => VUndefined
  end.

(** [getCachedResolvers(state)] *)
Definition getCachedResolvers (state : State) : State := state.

Section Utils.

(** The key under which the arguments of a selector call are filed.
    [selectorArgsToStateKey] belongs to [./utils], which is not among
    the sources: it is a parameter here. *)
Variable selectorArgsToStateKey : value -> value.

(** Modelled from the spec: [onSubKey] of [./utils] is not among the
    sources.  The resolution state maps a selector name to an
    [EquivalentKeyMap]: the reducer runs on the map filed under
    [action.selectorName] ([None] when there is none yet) and its result
    is filed under that name. *)
Definition onSubKey (reducer : option ekm -> Action -> res ekm)
    (state : State) (action : Action) : res State :=
  match action_selectorName action with
  | None => Ok state
  | Some key =>
      next <- reducer (assoc_get String.eqb state key) action ;;
      Ok (assoc_set String.eqb state key next)
  end.

(** The [for ... of] loops of the batch actions. *)
Fixpoint set_each (nextState : ekm) (ref : nat) (status : string)
    (args : list value) : res ekm :=
  match args with
  | [] => Ok nextState
  | resolutionArgs :: rest =>
      e <- set nextState (selectorArgsToStateKey resolutionArgs)
             (status_object ref status) ;;
      set_each e (S ref) status rest
  end.

(** [action.args.forEach((resolutionArgs, idx) => ...)] of
    [FAIL_RESOLUTIONS]. *)
Fixpoint fail_each (nextState : ekm) (ref : nat) (args errors : list value)
  : res ekm :=
  match args with
  | [] => Ok nextState
  | resolutionArgs :: rest =>
      let error := hd VUndefined errors in
      let resolutionState :=
        error_object ref (if truthy error then error else VUndefined) in
      e <- set nextState (selectorArgsToStateKey resolutionArgs) resolutionState ;;
      fail_each e (S ref) rest (tl errors)
  end.

(** The reducer wrapped by [onSubKey('selectorName')].  [ref] is the
    reference of the first object literal the call evaluates. *)
Definition subKeys_reducer (ref : nat) (state : option ekm) (action : Action)
  : res ekm :=
  let state := match state with Some e => e | None => empty end in
  match action with
  | START_RESOLUTION _ args =>
      nextState <- copy state ;;
      set nextState (selectorArgsToStateKey args) (status_object ref "resolving")
  | FINISH_RESOLUTION _ args =>
      nextState <- copy state ;;
      set nextState (selectorArgsToStateKey args) (status_object ref "finished")
  | FAIL_RESOLUTION _ args error =>
      nextState <- copy state ;;
      set nextState (selectorArgsToStateKey args) (error_object ref error)
  | START_RESOLUTIONS _ args =>
      nextState <- copy state ;;
      set_each nextState ref "resolving" args
  | FINISH_RESOLUTIONS _ args =>
      nextState <- copy state ;;
      set_each nextState ref "finished" args
  | FAIL_RESOLUTIONS _ args errors =>
      nextState <- copy state ;;
      fail_each nextState ref args errors
  | INVALIDATE_RESOLUTION _ args =>
      nextState <- copy state ;;
      ' (_, nextState) <- delete nextState (selectorArgsToStateKey args) ;;
      Ok nextState
  | _ => Ok state
  end.

Definition subKeysIsResolved (ref : nat) : State -> Action -> res State :=
  onSubKey (subKeys_reducer ref).

(** [isResolved(state, action)], the reducer.  [selectorName in state]
    is true of an inherited name too; the rest object then has the own
    properties of the state. *)
Definition isResolved (ref : nat) (state : State) (action : Action) : res State :=
  match action with
  | INVALIDATE_RESOLUTION_FOR_STORE => Ok []
  | INVALIDATE_RESOLUTION_FOR_STORE_SELECTOR selectorName =>
      if assoc_has String.eqb state selectorName || inherited selectorName
      then Ok (assoc_delete String.eqb state selectorName)
      else Ok state
  | START_RESOLUTION _ _ | FINISH_RESOLUTION _ _ | FAIL_RESOLUTION _ _ _
  | START_RESOLUTIONS _ _ | FINISH_RESOLUTIONS _ _ | FAIL_RESOLUTIONS _ _ _
  | INVALIDATE_RESOLUTION _ _ => subKeysIsResolved ref state action
  | OTHER_ACTION _ => Ok state
  end.

(** The number of object literals the reducer evaluates for an action. *)
Definition literal_count (action : Action) : nat :=
  match action with
  | START_RESOLUTION _ _ | FINISH_RESOLUTION _ _ | FAIL_RESOLUTION _ _ _ => 1
  | START_RESOLUTIONS _ args | FINISH_RESOLUTIONS _ args
  | FAIL_RESOLUTIONS _ args _ => List.length args
  | _ => 0
  end.

(** Dispatching the actions of a list in order, from the state [state];
    [ref] is the next unused reference. *)
Fixpoint dispatch_all (ref : nat) (state : State) (actions : list Action)
  : res State :=
  match actions with
  | [] => Ok state
  | action :: rest =>
      state <- isResolved ref state action ;;
      dispatch_all (ref + literal_count action) state rest
  end.

(** [getResolutionState(state, selectorName, args)].  [map.get] may
    replace the key reference the map remembers, so the state is
    returned too.  Without an own property, [state[selectorName]] finds
    a member of [Object.prototype] under an inherited name: it is truthy
    and has no [get], so the call throws. *)
Definition getResolutionState (state : State) (selectorName : string)
    (args : value) : res (stored * State) :=
  match assoc_get String.eqb state selectorName with
  | None => if inherited selectorName then TypeError else Ok (undefined, state)
  | Some map =>
      ' (x, map) <- get map (selectorArgsToStateKey args) ;;
      Ok (x, assoc_set String.eqb state selectorName map)
  end.

Definition hasStartedResolution (state : State) (selectorName : string)
    (args : value) : res (bool * State) :=
  ' (x, state) <- getResolutionState state selectorName args ;;
  Ok (negb (is_undefined x), state).

Definition hasFinishedResolution (state : State) (selectorName : string)
    (args : value) : res (bool * State) :=
  ' (x, state) <- getResolutionState state selectorName args ;;
  let status := optional_status x in
  Ok (value_eqb status (VStr "finished") || value_eqb status (VStr "error"), state).

Definition hasResolutionFailed (state : State) (selectorName : string)
    (args : value) : res (bool * State) :=
  ' (x, state) <- getResolutionState state selectorName args ;;
  Ok (value_eqb (optional_status x) (VStr "error"), state).

Definition getResolutionError (state : State) (selectorName : string)
    (args : value) : res (value * State) :=
  ' (x, state) <- getResolutionState state selectorName args ;;
  Ok (if value_eqb (optional_status x) (VStr "error") then error_property x
      else VNull, state).

Definition isResolving (state : State) (selectorName : string)
    (args : value) : res (bool * State) :=
  ' (x, state) <- getResolutionState state selectorName args ;;
  Ok (value_eqb (optional_status x) (VStr "resolving"), state).

(** *** The resolvers cache middleware (createResolversCacheMiddleware)

    What is modelled is what the middleware asks of the store before it
    calls [next(action)]: the [invalidateResolution] actions it
    dispatches, in order, given the resolution state [state] that
    [getCachedResolvers] returns.  The loops go through that state as it
    was read, whatever the dispatches do to the store.  [resolvers]
    gives the [shouldInvalidate] of the resolver of a selector, [None]
    when the selector has no resolver or the resolver has none, as is
    the case of what [resolvers[selectorName]] finds under a name
    inherited from [Object.prototype];
    [shouldInvalidate] receives the action and the elements of the key
    listed in the map, and is given as a function of that key. *)
Section Middleware.
Variable A : Type.
Variable resolvers : string -> option (A -> value -> bool).

(** Whether [...args] can be evaluated: arrays and strings are
    iterable, the other values are not. *)
Definition iterable (args : value) : bool :=
  match args with
  | VObj _ KArray _ | VStr _ => true
  | _ => false
  end.

(** The tests of the inner callback, up to the dispatch: whether the
    entry is invalidated.  [value.status] throws on [null], and
    [...args] on a key that is not iterable. *)
Definition invalidates (shouldInvalidate : A -> value -> bool) (action : A)
    (args : value) (value : stored) : res bool :=
  if is_undefined value then Ok false
  else
    status <- read_status value ;;
    if negb (value_eqb status (VStr "finished")) &&
       negb (value_eqb status (VStr "error"))
    then Ok false
    else if iterable args then Ok (shouldInvalidate action args)
    else TypeError.

(** [resolversByArgs.forEach((value, args) => ...)] *)
Fixpoint invalidate_entries (shouldInvalidate : A -> value -> bool) (action : A)
    (selectorName : string) (entries : list (value * stored)) : res (list Action) :=
  match entries with
  | [] => Ok []
  | (args, value) :: rest =>
      b <- invalidates shouldInvalidate action args value ;;
      dispatched <- invalidate_entries shouldInvalidate action selectorName rest ;;
      Ok (if b then invalidateResolution selectorName args :: dispatched
          else dispatched)
  end.

(** [resolverEntries.forEach(([selectorName, resolversByArgs]) => ...)] *)
Fixpoint invalidate_selectors (action : A) (resolverEntries : list (string * ekm))
  : res (list Action) :=
  match resolverEntries with
  | [] => Ok []
  | (selectorName, resolversByArgs) :: rest =>
      first <-
        match resolvers selectorName with
        | None => Ok []
        | Some shouldInvalidate =>
            invalidate_entries shouldInvalidate action selectorName
              (entries resolversByArgs)
        end ;;
      dispatched <- invalidate_selectors action rest ;;
      Ok (first ++ dispatched)%list
  end.

(** The middleware up to [next(action)]; [resolverEntries] is
    [Object.entries(resolvers)]. *)
Definition resolversCacheMiddleware (action : A) (state : State)
  : res (list Action) :=
  invalidate_selectors action (enumerate (getCachedResolvers state)).
End Middleware.

End Utils.

(** The callback [hasResolvingSelectors] passes to [some]. *)
Definition is_resolving_entry (_ : value) (resolution : stored) : res bool :=
  status <- read_status resolution ;;
  Ok (value_eqb status (VStr "resolving")).

(** [Array.prototype.some] over the maps of the state. *)
Fixpoint some_selectorState (selectorStates : list (string * ekm)) : res bool :=
  match selectorStates with
  | [] => Ok false
  | (_, selectorState) :: rest =>
      b <- some selectorState is_resolving_entry ;;
      if b then Ok true else some_selectorState rest
  end.

(** [hasResolvingSelectors(state)] *)
Definition hasResolvingSelectors (state : State) : res bool :=
  some_selectorState (enumerate state).

(** *** [countSelectorsByStatus]

    The selector given to [createSelector]; the dependant is the state
    itself.  A property name is a string: a status that is a string is
    its own name, and [other_key] stands for the conversion of any other
    value to a property name. *)
Section Count.
Variable other_key : value -> string.

Definition property_key (v : value) : string :=
  match v with
  | VStr s => s
  | _ => other_key v
  end.

(** [resolution[1]?.status ?? 'error'] *)
Definition current_status (resolution : stored) : res value :=
  resolution1 <- read1 resolution ;;
  Ok (match optional_status resolution1 with
      | VUndefined | VNull => VStr "error"
      | status => status
      end).

(** A total in [selectorsByStatus]: a whole number, or the NaN that
    [++] makes of a member of [Object.prototype]. *)
Inductive total : Type :=
| Total (n : nat)
| TotalNaN.

(** The body of the inner [forEach].  [selectorsByStatus] is a plain
    object: under an inherited name the test finds a truthy member, the
    total is not set to 0, and [++] stores NaN, except under [__proto__],
    where the assignment stores nothing.  A total that is NaN is falsy
    and is set to 0 at the next entry. *)
Definition count_one (selectorsByStatus : list (string * total)) (resolution : stored)
  : res (list (string * total)) :=
  currentStatus <- current_status resolution ;;
  let key := property_key currentStatus in
  let selectorsByStatus :=
    match assoc_get String.eqb selectorsByStatus key with
    | Some (Total (S _)) => selectorsByStatus
    | Some _ => assoc_set String.eqb selectorsByStatus key (Total 0)
    | None =>
        if inherited key then selectorsByStatus
        else assoc_set String.eqb selectorsByStatus key (Total 0)
    end in
  Ok (match assoc_get String.eqb selectorsByStatus key with
      | Some (Total c) => assoc_set String.eqb selectorsByStatus key (Total (S c))
      | Some TotalNaN => assoc_set String.eqb selectorsByStatus key TotalNaN
      | None =>
          if String.eqb key "__proto__" then selectorsByStatus
          else assoc_set String.eqb selectorsByStatus key TotalNaN
      end).

Definition countSelectorsByStatus (state : State) : res (list (string * total)) :=
  fold_left
    (fun acc selectorState =>
       fold_left (fun acc resolution => c <- acc ;; count_one c resolution)
                 (values (snd selectorState)) acc)
    (enumerate state) (Ok []).
End Count.
End Resolution.

(** ** The memoizing selector (createSelector) *)
Module Selector.

(** [isShallowEqual(a, b, fromIndex)] (src/utils/is-shallow-equal.ts) *)
Definition isShallowEqual (a b : list value) (fromIndex : nat) : bool :=
  if negb (Nat.eqb (List.length a) (List.length b)) then false
  else forallb
         (fun i => value_eqb (nth i a VUndefined) (nth i b VUndefined))
         (seq fromIndex (List.length a - fromIndex)).

(** [isObject(value)] (src/utils/is-object.ts) *)
Definition isObject (v : value) : bool :=
  truthy v && negb (is_primitive v).

(** A cache entry; [prev] and [next] are the order of the list holding it. *)
Record CacheNode : Type := mkNode {
  node_args : list value;
  node_val : value
}.

(** A cache object; [head] is the linked list from its head, [None] for
    [lastDependants] is [undefined]. *)
Record Cache : Type := mkCache {
  isUniqueByDependants : bool;
  head : list CacheNode;
  lastDependants : option (list value)
}.

(** [cache.clear()] *)
Definition cache_clear (c : Cache) : Cache :=
  mkCache (isUniqueByDependants c) [] (lastDependants c).

(** The tree of WeakMaps: the cache under [LEAF_KEY], if any, and the
    nested maps under the object-like dependants. *)
Inductive CacheMap : Type :=
| mkCacheMap (leaf : option Cache) (children : list (value * CacheMap)).

Definition emptyCacheMap : CacheMap := mkCacheMap None [].

(** [getCache(dependants)] followed by what the caller does to the cache
    it returns: the cache object is shared with the tree, so the updated
    cache [f] yields is the one the tree holds afterwards.
    [isUniqueByDependants] stays [true] unless the loop breaks on a
    dependant that is not object-like. *)
Fixpoint with_cache (A : Type) (caches : CacheMap) (dependants : list value)
    (f : Cache -> A * Cache) {struct dependants} : A * CacheMap :=
  let at_leaf (isUnique : bool) :=
    match caches with
    | mkCacheMap leaf children =>
        let cache :=
          match leaf with
          | Some c => c
          | None => mkCache isUnique [] None
          end in
        let (a, cache') := f cache in
        (a, mkCacheMap (Some cache') children)
    end in
  match dependants with
  | [] => at_leaf true
  | dependant :: rest =>
      if negb (isObject dependant) then at_leaf false
      else
        match caches with
        | mkCacheMap leaf children =>
            let map :=
              match assoc_get value_eqb children dependant with
              | Some m => m
              | None => emptyCacheMap
              end in
            let (a, map') := with_cache map rest f in
            (a, mkCacheMap leaf (assoc_set value_eqb children dependant map'))
        end
  end.

(** The cache [getCache(dependants)] returns, without the side effects. *)
Definition getCache (caches : CacheMap) (dependants : list value) : Cache :=
  fst (with_cache caches dependants (fun c => (c, c))).

(** The [while (node)] loop: the first node whose arguments match from
    index 1, with the nodes before and after it. *)
Fixpoint find_node (nodes : list CacheNode) (args : list value)
  : option (list CacheNode * CacheNode * list CacheNode) :=
  match nodes with
  | [] => None
  | node :: next =>
      if isShallowEqual (node_args node) args 1 then Some ([], node, next)
      else
        match find_node next args with
        | Some (before, found, after) => Some (node :: before, found, after)
        | None => None
        end
  end.

(** [args[0] = null] *)
Definition null_source (args : list value) : list value :=
  match args with
  | [] => [VNull]
  | _ :: extraArgs => VNull :: extraArgs
  end.

Section CreateSelector.

(** The wrapped selector and the dependants getter.  The selector may
    return a new reference at each invocation, so it also receives the
    number of invocations made so far. *)
Variable selector : nat -> list value -> value.
Variable getDependants : list value -> list value.

(** The state closed over by [createSelector], and the number of times
    the wrapped selector has been invoked. *)
Record state : Type := mkState {
  rootCache : CacheMap;
  invocations : nat
}.

(** [createSelector] ends with [clear()]. *)
Definition initial : state := mkState emptyCacheMap 0.

(** [callSelector.clear()] *)
Definition clear (st : state) : state :=
  mkState emptyCacheMap (invocations st).

(** The body of [callSelector] once the cache is at hand.  [guardFrom]
    is the third argument of the [isShallowEqual] call that compares
    the dependants with [cache.lastDependants]. *)
Definition use_cache (guardFrom : nat) (count : nat)
    (args dependants : list value) (cache : Cache)
  : (value * nat) * Cache :=
  let cache :=
    if negb (isUniqueByDependants cache) then
      let cache :=
        match lastDependants cache with
        | Some last =>
            if negb (isShallowEqual dependants last guardFrom)
            then cache_clear cache else cache
        | None => cache
        end in
      mkCache (isUniqueByDependants cache) (head cache) (Some dependants)
    else cache in
  match find_node (head cache) args with
  | Some (before, node, after) =>
      ((node_val node, count),
       mkCache (isUniqueByDependants cache) (node :: (before ++ after)%list)
               (lastDependants cache))
  | None =>
      let val := selector count args in
      let node := mkNode (null_source args) val in
      ((val, S count),
       mkCache (isUniqueByDependants cache) (node :: head cache)
               (lastDependants cache))
  end.

Definition callSelector_from (guardFrom : nat) (st : state)
    (args : list value) : value * state :=
  let dependants := getDependants args in
  let '((val, count), root) :=
    with_cache (rootCache st) dependants
      (use_cache guardFrom (invocations st) args dependants) in
  (val, mkState root count).

(** [callSelector(source, ...extraArgs)]: the source compares the
    dependants with [isShallowEqual(dependants, cache.lastDependants, 0)]. *)
Definition callSelector : state -> list value -> value * state :=
  callSelector_from 0.

(** The selector as the specification words it: the comparison of the
    dependants leaves out index 0. *)
Definition callSelector_ignoring_source : state -> list value -> value * state :=
  callSelector_from 1.

End CreateSelector.

(** [arrayOf.apply(null, args)]: the first argument as the sole entry
    of an array, [undefined] when there is none. *)
Definition arrayOf (args : list value) : list value := [hd VUndefined args].

(** [getDependants ? getDependants : arrayOf] *)
Definition normalizedGetDependants (getDependants : option (list value -> list value))
  : list value -> list value :=
  match getDependants with
  | Some f => f
  | None => arrayOf
  end.

(** [createSelector(selector, getDependants)]: the memoized selector,
    on the state [initial]. *)
Definition createSelector (selector : nat -> list value -> value)
    (getDependants : option (list value -> list value))
  : state -> list value -> value * state :=
  callSelector selector (normalizedGetDependants getDependants).
End Selector.

(* ================================================================== *)
(** * Properties *)

Lemma kind_eqb_eq (a b : kind) : kind_eqb a b = true <-> a = b.
Proof. destruct a, b; simpl; split; congruence. Qed.

Lemma value_eqb_eq (a b : value) : value_eqb a b = true <-> a = b.
Proof.
  revert b. induction a as [| | x | x | x | r k ps IH] using value_ind_deep;
    intros [| | y | y | y | r' k' ps']; simpl; try (split; congruence).
  - rewrite Bool.eqb_true_iff. split; congruence.
  - rewrite Z.eqb_eq. split; congruence.
  - rewrite String.eqb_eq. split; congruence.
  - rewrite !andb_true_iff, Nat.eqb_eq, kind_eqb_eq.
    assert (Hps : (fix props_eqb (l l' : list (string * value)) {struct l} : bool :=
         match l, l' with
         | [], [] => true
         | (n, v) :: t, (n', v') :: t' =>
             String.eqb n n' && value_eqb v v' && props_eqb t t'
         | _, _ => false
         end) ps ps' = true <-> ps = ps').
    { clear r r' k k'. revert ps'.
      induction IH as [| [n v] t Hv _ IHt]; intros [| [n' v'] t']; simpl;
        try (split; congruence).
      rewrite !andb_true_iff, String.eqb_eq, IHt. simpl in Hv. rewrite Hv.
      split; [intros [[-> ->] ->]; reflexivity | intros H; inversion H; auto]. }
    rewrite Hps. split; [intros [[-> ->] ->]; reflexivity | intros H; inversion H; auto].
Qed.

Lemma value_eqb_refl (a : value) : value_eqb a a = true.
Proof. apply value_eqb_eq. reflexivity. Qed.

Lemma value_eqb_neq (a b : value) : value_eqb a b = false <-> a <> b.
Proof.
  rewrite <- value_eqb_eq. destruct (value_eqb a b); split; congruence.
Qed.

Definition value_eq_dec (a b : value) : {a = b} + {a <> b}.
Proof.
  destruct (value_eqb a b) eqn:E.
  - left. apply value_eqb_eq, E.
  - right. apply value_eqb_neq, E.
Defined.


(** ** Association lists *)
Section AssocFacts.
Variables (K V : Type) (eqb : K -> K -> bool).
Hypothesis eqb_spec : forall a b, eqb a b = true <-> a = b.

Lemma eqb_refl_hyp (a : K) : eqb a a = true.
Proof. apply eqb_spec. reflexivity. Qed.

Lemma eqb_false_hyp (a b : K) : a <> b -> eqb a b = false.
Proof.
    intros H. destruct (eqb a b) eqn:E; [|reflexivity].
    apply eqb_spec in E. contradiction.
Qed.

Lemma assoc_get_set_same (m : list (K * V)) k v :
    assoc_get eqb (assoc_set eqb m k v) k = Some v.
Proof.
    induction m as [| [k' v'] t IH]; simpl.
    - rewrite eqb_refl_hyp. reflexivity.
    - destruct (eqb k' k) eqn:E; simpl; rewrite E; auto.
Qed.

Lemma assoc_get_set_other (m : list (K * V)) k k' v :
    k <> k' -> assoc_get eqb (assoc_set eqb m k v) k' = assoc_get eqb m k'.
Proof.
    intros Hne. induction m as [| [k0 v0] t IH]; simpl.
    - rewrite eqb_false_hyp; auto.
    - destruct (eqb k0 k) eqn:E; simpl.
      + apply eqb_spec in E. subst k0. rewrite eqb_false_hyp; auto.
      + destruct (eqb k0 k'); auto.
Qed.

Lemma assoc_get_delete_same (m : list (K * V)) k :
    NoDup (map fst m) -> assoc_get eqb (assoc_delete eqb m k) k = None.
Proof.
    induction m as [| [k0 v0] t IH]; simpl; intros Hnd; [reflexivity|].
    inversion Hnd as [| ? ? Hnotin Hnd']; subst.
    destruct (eqb k0 k) eqn:E; simpl.
    - apply eqb_spec in E. subst k0.
      clear IH Hnd Hnd'. induction t as [| [k1 v1] t IH]; simpl; [reflexivity|].
      simpl in Hnotin. rewrite eqb_false_hyp by intuition. apply IH. intuition.
    - rewrite E. auto.
Qed.

Lemma assoc_get_delete_other (m : list (K * V)) k k' :
    k <> k' -> assoc_get eqb (assoc_delete eqb m k) k' = assoc_get eqb m k'.
Proof.
    intros Hne. induction m as [| [k0 v0] t IH]; simpl; [reflexivity|].
    destruct (eqb k0 k) eqn:E; simpl.
    - apply eqb_spec in E. subst k0. rewrite eqb_false_hyp; auto.
    - destruct (eqb k0 k'); auto.
Qed.

Lemma assoc_get_None_notin (m : list (K * V)) k :
    assoc_get eqb m k = None <-> ~ In k (map fst m).
Proof.
    induction m as [| [k0 v0] t IH]; simpl; [tauto|].
    destruct (eqb k0 k) eqn:E.
    - apply eqb_spec in E. split; [discriminate | intros H; exfalso; auto].
    - rewrite IH. split; [intros H [H1|H1]; auto | tauto].
      subst. rewrite eqb_refl_hyp in E. discriminate.
Qed.

Lemma assoc_set_fresh (m : list (K * V)) k v :
    ~ In k (map fst m) -> assoc_set eqb m k v = m ++ [(k, v)].
Proof.
    induction m as [| [k0 v0] t IH]; simpl; intros H; [reflexivity|].
    rewrite eqb_false_hyp by intuition. f_equal. apply IH. intuition.
Qed.

Lemma assoc_set_keys_in (m : list (K * V)) k v x :
    In x (map fst (assoc_set eqb m k v)) <-> x = k \/ In x (map fst m).
Proof.
    induction m as [| [k0 v0] t IH]; simpl; [intuition|].
    destruct (eqb k0 k) eqn:E; simpl.
    - apply eqb_spec in E. subst. intuition.
    - rewrite IH. intuition.
Qed.

Lemma assoc_set_NoDup (m : list (K * V)) k v :
    NoDup (map fst m) -> NoDup (map fst (assoc_set eqb m k v)).
Proof.
    induction m as [| [k0 v0] t IH]; simpl; intros H.
    - constructor; [intros []|constructor].
    - inversion H; subst. destruct (eqb k0 k) eqn:E; simpl.
      + constructor; auto.
      + constructor; auto. rewrite assoc_set_keys_in. intros [->|Hin]; auto.
        rewrite eqb_refl_hyp in E. discriminate.
Qed.

Lemma assoc_delete_keys_in (m : list (K * V)) k x :
    In x (map fst (assoc_delete eqb m k)) -> In x (map fst m).
Proof.
    induction m as [| [k0 v0] t IH]; simpl; [tauto|].
    destruct (eqb k0 k); simpl; intuition.
Qed.

Lemma assoc_delete_NoDup (m : list (K * V)) k :
    NoDup (map fst m) -> NoDup (map fst (assoc_delete eqb m k)).
Proof.
    induction m as [| [k0 v0] t IH]; simpl; intros H; [constructor|].
    inversion H; subst. destruct (eqb k0 k); simpl; auto.
    constructor; auto. intros Hin. apply assoc_delete_keys_in in Hin. auto.
Qed.
End AssocFacts.

(** ** The order of enumeration *)
Section EnumerateFacts.
Variable A : Type.

Lemma insert_index_perm (i : N) (entry : string * A) l :
  Permutation (insert_index i entry l) ((i, entry) :: l).
Proof.
  induction l as [|[j e] rest IH]; simpl; [apply Permutation_refl|].
  destruct (i <? j)%N; [apply Permutation_refl|].
  apply Permutation_trans with ((j, e) :: (i, entry) :: rest).
  - apply perm_skip. exact IH.
  - apply perm_swap.
Qed.

(** [enumerate] rearranges the properties and loses none. *)
Lemma enumerate_perm (o : list (string * A)) : Permutation (enumerate o) o.
Proof.
  unfold enumerate. induction o as [|entry rest IH]; simpl; [apply Permutation_refl|].
  destruct (array_index (fst entry)) as [i|].
  - apply Permutation_trans with
      (map snd ((i, entry) :: indexed_first rest)
         ++ filter (fun entry => match array_index (fst entry) with
                                 | Some _ => false
                                 | None => true
                                 end) rest).
    + apply Permutation_app_tail. apply Permutation_map. apply insert_index_perm.
    + simpl. apply perm_skip. exact IH.
  - apply Permutation_sym. apply Permutation_cons_app. apply Permutation_sym. exact IH.
Qed.

Lemma enumerate_in (o : list (string * A)) entry : In entry (enumerate o) <-> In entry o.
Proof.
  split; apply Permutation_in; [|apply Permutation_sym]; apply enumerate_perm.
Qed.

(** Without array indices among the names the order is that of
    insertion. *)
Lemma enumerate_names (o : list (string * A)) :
  Forall (fun entry => array_index (fst entry) = None) o -> enumerate o = o.
Proof.
  unfold enumerate. induction o as [|entry rest IH]; intros H; [reflexivity|].
  inversion H as [|? ? He Hr]; subst. simpl. rewrite He. simpl in *.
  specialize (IH Hr).
  assert (E : indexed_first rest = []).
  { clear IH H. induction rest as [|e t IHt]; [reflexivity|].
    inversion Hr as [|? ? He' Ht]; subst. simpl. rewrite He'. apply IHt. exact Ht. }
  rewrite E in *. simpl in *. f_equal. exact IH.
Qed.
End EnumerateFacts.

(** ** combineReducers *)
Module CombineFacts.
Import Combine.

Lemma strict_eqb_eq (a b : jsvalue) : strict_eqb a b = true -> a = b.
Proof.
  destruct a as [x| |x], b as [y| |y]; simpl; try discriminate.
  - intros H. apply value_eqb_eq in H. congruence.
  - intros H. apply String.eqb_eq in H. congruence.
Qed.

Section Reducers.
Variable Action : Type.
Variables (state : jsobject) (action : Action).

(** What the reducer under [kr] returns for its slice of [state]. *)
Definition next_of (kr : string * Reducer Action) : jsvalue :=
  snd kr (prop_get state (fst kr)) action.

(** [nextStateForKey !== prevStateForKey] is false. *)
Definition unchanged (kr : string * Reducer Action) : Prop :=
  strict_eqb (next_of kr) (prop_get state (fst kr)) = true.

Lemma fold_changed (l : list (string * Reducer Action)) acc :
  snd (fold_left (combine_step state action) l acc) = true <->
  snd acc = true \/ Exists (fun kr => ~ unchanged kr) l.
Proof.
  revert acc. induction l as [| kr t IH]; intros acc; simpl.
  - split; [auto | intros [H|H]; [auto | inversion H]].
  - rewrite IH. unfold combine_step at 1. simpl.
    rewrite orb_true_iff, negb_true_iff, Exists_cons.
    fold (next_of kr). unfold unchanged at 2.
    destruct (strict_eqb (next_of kr) (prop_get state (fst kr)));
      intuition congruence.
Qed.

Lemma fold_props (l : list (string * Reducer Action)) r ps p ch :
  NoDup (map fst ps ++ map fst l) ->
  ~ In "__proto__" (map fst l) ->
  fst (fold_left (combine_step state action) l (Created (JsObject r ps) p, ch)) =
  Created (JsObject r (ps ++ map (fun kr => (fst kr, next_of kr)) l)) p.
Proof.
  revert ps ch. induction l as [| kr t IH]; intros ps ch Hnd Hp; simpl.
  - rewrite app_nil_r. reflexivity.
  - unfold combine_step at 2. simpl. unfold prop_assign.
    assert (E : String.eqb (fst kr) "__proto__" = false).
    { apply String.eqb_neq. intros H. apply Hp. left. exact H. }
    rewrite E. unfold prop_set. simpl.
    rewrite (assoc_set_fresh String.eqb String.eqb_eq).
    + rewrite IH.
      * rewrite <- app_assoc. reflexivity.
      * rewrite map_app, <- app_assoc. exact Hnd.
      * intros H. apply Hp. right. exact H.
    + simpl in Hnd. apply NoDup_remove_2 in Hnd.
      intros Hin. apply Hnd. apply in_or_app. auto.
Qed.
End Reducers.


Definition keep : Reducer unit := fun s _ => s.
Definition bump : Reducer unit :=
  fun s _ => match s with JVal (VNum n) => JVal (VNum (n + 1)) | _ => JVal (VNum 0) end.
Definition five : Reducer unit := fun _ _ => JVal (VNum 5).
Definition demo_state : jsobject :=
  JsObject 7 [("a", JVal (VNum 1)); ("b", JVal (VObj 3 KObject []))].
Definition nan_state : jsobject := JsObject 7 [("a", JNaN)].


End CombineFacts.

(** ** The registry *)
Module RegistryFacts.
Import Registry.
Section Stores.
Variables (Selectors Actions : Type).
Local Abbreviation StoreInstance := (StoreInstance Selectors Actions).
Local Abbreviation registry := (registry Selectors Actions).

Lemma registered_after_register (r r1 : registry) name create
    (s1 : StoreInstance) log :
  registerStoreInstance r name create = Ok (s1, r1, log) ->
  assoc_get String.eqb (stores r1) name = Some s1.
Proof.
  unfold registerStoreInstance.
  destruct (assoc_get String.eqb (stores r) name) as [existing|] eqn:E.
  - intros H. inversion H; subst. exact E.
  - destruct (getSelectors (create tt)) as [sel|]; [|discriminate].
    destruct (getActions (create tt)) as [act|]; [|discriminate].
    destruct (subscribe (create tt)); [|discriminate].
    intros H. inversion H; subst. simpl.
    apply (assoc_get_set_same String.eqb String.eqb_eq).
Qed.

Lemma select_local (r : registry) name (s : StoreInstance) :
  assoc_get String.eqb (stores r) name = Some s ->
  fst (select_name r name) = call_getSelectors s.
Proof. destruct r as [st p l]. simpl. intros ->. reflexivity. Qed.

(** C8.  Once a registration under [name] has returned store [s1], a
    further registration under the same name, whatever its creator,
    does not throw: it reports the one error line, returns [s1], leaves
    the registry (and so its store map) as it was, and a following
    [select(name)] still yields what [s1.getSelectors()] yields.  The
    same holds through [register], [registerGenericStore] and
    [registerStore] with a reducer. *)
Theorem duplicate_registration_rejected (r r1 : registry) name create1 create2
    (s1 s2 : StoreInstance) log1 :
  registerStoreInstance r name create1 = Ok (s1, r1, log1) ->
  registerStoreInstance r1 name create2
    = Ok (s1, r1, [already_registered name]) /\
  register r1 (StoreDescriptor name) create2 = Ok (r1, [already_registered name]) /\
  registerGenericStore r1 name s2 = Ok (r1, [already_registered name]) /\
  registerStore r1 name true create2 = Ok (r1, [already_registered name]) /\
  assoc_get String.eqb (stores r1) name = Some s1 /\
  fst (select r1 (StoreName name)) = call_getSelectors s1.
Proof.
  intros H. apply registered_after_register in H.
  assert (R : forall create, registerStoreInstance r1 name create
                             = Ok (s1, r1, [already_registered name])).
  { intros create. unfold registerStoreInstance. rewrite H. reflexivity. }
  split; [apply R|].
  split; [unfold register; simpl getStoreName; rewrite R; reflexivity|].
  split; [unfold registerGenericStore; rewrite R; reflexivity|].
  split; [unfold registerStore; simpl; rewrite R; reflexivity|].
  split; [exact H|apply select_local, H].
Qed.

(** What [stores[name]] finds in [{}]. *)
Lemma new_stores_get (name : string) :
  assoc_get String.eqb (new_stores Selectors Actions) name
  = if inherited name then Some (prototype_member Selectors Actions) else None.
Proof.
  unfold new_stores, inherited.
  induction object_prototype_names as [|n t IH]; simpl; [reflexivity|].
  rewrite (String.eqb_sym name n). destruct (String.eqb n name); [reflexivity|].
  exact IH.
Qed.

(** The table of a registry inherits from [Object.prototype]. *)
Definition inherits (r : registry) : Prop :=
  forall name, inherited name = true ->
    assoc_get String.eqb (stores r) name = Some (prototype_member Selectors Actions).

Lemma inherits_new parent listening :
  inherits (mkRegistry (new_stores Selectors Actions) parent listening).
Proof. intros name H. pose proof (new_stores_get name) as E. rewrite H in E. exact E. Qed.

(** Registration keeps the inherited members where they are. *)
Lemma inherits_registerStoreInstance (r r1 : registry) name create
    (s1 : StoreInstance) log :
  inherits r -> registerStoreInstance r name create = Ok (s1, r1, log) ->
  inherits r1.
Proof.
  unfold registerStoreInstance. intros Hr.
  destruct (assoc_get String.eqb (stores r) name) as [existing|] eqn:E.
  - intros H. inversion H; subst. exact Hr.
  - destruct (getSelectors (create tt)) as [sel|]; [|discriminate].
    destruct (getActions (create tt)) as [act|]; [|discriminate].
    destruct (subscribe (create tt)); [|discriminate].
    intros H. inversion H; subst. intros n Hn. simpl.
    rewrite (assoc_get_set_other String.eqb String.eqb_eq).
    + apply (Hr n Hn).
    + intros ->. rewrite (Hr n Hn) in E. discriminate E.
Qed.

(** Under an inherited name no store is ever served or registered:
    [select] and [dispatch] throw, and a registration is refused as a
    duplicate. *)
Lemma inherited_name_is_taken (r : registry) name create :
  inherits r -> inherited name = true ->
  fst (select r (StoreName name)) = TypeError /\
  dispatch r (StoreName name) = TypeError /\
  registerStoreInstance r name create
  = Ok (prototype_member Selectors Actions, r, [already_registered name]).
Proof.
  intros Hr Hn. pose proof (Hr name Hn) as E. destruct r as [st p l].
  simpl in E. unfold select, dispatch, registerStoreInstance. simpl.
  rewrite E. repeat split.
Qed.

(** C9, as amended.  [select] for a name under which [stores[name]]
    finds nothing, which is a name with no local store that is not the
    name of a member of [Object.prototype], returns what the parent's
    [select] returns for that name when there is a parent, and
    [undefined] when there is none. *)
Theorem select_delegates_to_parent (r : registry) (n : nameOrDescriptor) :
  assoc_get String.eqb (stores r) (getStoreName n) = None ->
  fst (select r n) =
    match parent r with
    | Some p => fst (select p (StoreName (getStoreName n)))
    | None => Ok None
    end.
Proof.
  destruct r as [st p l]. unfold select. simpl. intros ->.
  destruct p as [p|]; [|reflexivity].
  destruct (select_name p (getStoreName n)). reflexivity.
Qed.
End Stores.

Definition store_a : Registry.StoreInstance nat nat := mkStore (Some 1) (Some 10) true false.
Definition store_b : Registry.StoreInstance nat nat := mkStore (Some 2) (Some 20) true false.
Definition empty_registry : Registry.registry nat nat :=
  mkRegistry (new_stores nat nat) None None.
Definition parent_registry : Registry.registry nat nat :=
  mkRegistry (new_stores nat nat
                ++ [("parentOnlyStore", mkStore (Some 5) (Some 50) true true)])
             None None.
Definition child_registry : Registry.registry nat nat :=
  mkRegistry (new_stores nat nat ++ [("local", store_a)]) (Some parent_registry) None.

Lemma duplicate_registration_rejected_witness :
  exists s1 r1,
    registerStoreInstance empty_registry "todos" (fun _ => store_a)
      = Ok (s1, r1, []) /\
    registerStoreInstance r1 "todos" (fun _ => store_b)
      = Ok (s1, r1, [already_registered "todos"]) /\
    fst (select r1 (StoreName "todos")) = Ok (Some 1).
Proof.
  eexists. eexists. split; [reflexivity|].
  pose proof (@duplicate_registration_rejected nat nat empty_registry _ "todos"
                (fun _ => store_a) (fun _ => store_b) _ store_b _ eq_refl)
    as [H1 [_ [_ [_ [_ H3]]]]].
  split; [exact H1 | exact H3].
Defined.

Lemma select_delegates_to_parent_witness :
  fst (select child_registry (StoreName "parentOnlyStore")) = Ok (Some 5) /\
  fst (select parent_registry (StoreName "missing")) = Ok None.
Proof.
  split.
  - exact (@select_delegates_to_parent nat nat child_registry
             (StoreName "parentOnlyStore") eq_refl).
  - exact (@select_delegates_to_parent nat nat parent_registry
             (StoreName "missing") eq_refl).
Defined.

(** C9 as stated fails: no store is registered under ["constructor"],
    in the registry or in its parent, and [select] neither returns
    [undefined] nor what the parent's [select] returns: [stores[name]]
    finds a member of [Object.prototype] and [store.getSelectors()]
    throws.  The parent of [child_registry] does serve
    ["parentOnlyStore"], and for ["toString"] the child throws before it
    could delegate. *)
Lemma select_throws_on_inherited_name :
  assoc_get String.eqb (new_stores nat nat) "constructor"
    = Some (prototype_member nat nat) /\
  fst (select empty_registry (StoreName "constructor")) = TypeError /\
  fst (select child_registry (StoreName "toString")) = TypeError /\
  fst (select empty_registry (StoreName "missing")) = Ok None.
Proof. repeat split. Qed.
End RegistryFacts.


(** ** EquivalentKeyMap *)
Module EKMFacts.
Import EKM.
Unset Implicit Arguments.

(** Keys used in the examples. *)
Definition key_ba : value := VObj 1 KObject [("b", VNum 2); ("a", VNum 1)].
Definition key_ab : value := VObj 2 KObject [("a", VNum 1); ("b", VNum 2)].
Definition key_empty : value := VObj 5 KObject [].
Definition key_reserved : value := VObj 6 KObject [("_ekm_value", VNum 1)].
Definition key_reserved' : value := VObj 7 KObject [("_ekm_value", VNum 1)].

Lemma methods_at_set_primitive n e key x :
  is_primitive key = true ->
  m_set (methods_at n) e key x = Ok (set_map e (map_set (_map e) key x)).
Proof. intros H. destruct n; simpl; unfold set_level; rewrite H; reflexivity. Qed.

Lemma methods_at_has_primitive n e key :
  is_primitive key = true ->
  m_has (methods_at n) e key = Ok (map_has (_map e) key, e).
Proof. intros H. destruct n; simpl; unfold has_level; rewrite H; reflexivity. Qed.

Lemma methods_at_get_primitive n e key :
  is_primitive key = true ->
  m_get (methods_at n) e key = Ok (map_get (_map e) key, e).
Proof. intros H. destruct n; simpl; unfold get_level; rewrite H; reflexivity. Qed.

Lemma map_has_set m k x : map_has (map_set m k x) k = true.
Proof.
  unfold map_has, assoc_has, map_set.
  rewrite (assoc_get_set_same value_eqb value_eqb_eq). reflexivity.
Qed.

Lemma map_get_set m k x : map_get (map_set m k x) k = x.
Proof.
  unfold map_get, map_set.
  rewrite (assoc_get_set_same value_eqb value_eqb_eq). reflexivity.
Qed.

Lemma map_get_set_other m k k' x :
  k <> k' -> map_get (map_set m k x) k' = map_get m k'.
Proof.
  intros H. unfold map_get, map_set.
  rewrite (assoc_get_set_other value_eqb value_eqb_eq) by exact H. reflexivity.
Qed.

Lemma map_has_set_other m k k' x :
  k <> k' -> map_has (map_set m k x) k' = map_has m k'.
Proof.
  intros H. unfold map_has, assoc_has, map_set.
  rewrite (assoc_get_set_other value_eqb value_eqb_eq) by exact H. reflexivity.
Qed.

Lemma map_of_set_tree e key t : _map (set_tree e key t) = _map e.
Proof. unfold set_tree. destruct (isArray key); reflexivity. Qed.

(** After a [set] the key itself is in [_map], whatever the value. *)
Lemma set_level_registers nh ng ns e key x e' :
  set_level nh ng ns e key x = Ok e' -> map_has (_map e') key = true.
Proof.
  unfold set_level. destruct (is_primitive key).
  - intros H. inversion H; subst. simpl. apply map_has_set.
  - destruct (walk_set _ _ _ _ _ _ _) as [[prev tree]| |]; simpl; try discriminate.
    intros H. inversion H; subst. rewrite map_of_set_tree. simpl. apply map_has_set.
Qed.

Lemma set_level_stores nh ng ns e key x e' :
  set_level nh ng ns e key x = Ok e' ->
  map_get (_map e') key = if is_primitive key then x else SPair key x.
Proof.
  unfold set_level. destruct (is_primitive key).
  - intros H. inversion H; subst. simpl. apply map_get_set.
  - destruct (walk_set _ _ _ _ _ _ _) as [[prev tree]| |]; simpl; try discriminate.
    intros H. inversion H; subst. rewrite map_of_set_tree. simpl. apply map_get_set.
Qed.

Lemma set_registers e key v e' :
  set e key v = Ok e' ->
  map_has (_map e') key = true /\
  map_get (_map e') key = if is_primitive key then SVal v else SPair key (SVal v).
Proof.
  unfold set. destruct (depth key); simpl; intros H;
    (split; [eapply set_level_registers | eapply set_level_stores]); exact H.
Qed.

(** The key in [_map] is found without walking the tree. *)
Lemma has_registered e key :
  map_has (_map e) key = true ->
  (is_primitive key = false -> is_undefined (map_get (_map e) key) = false) ->
  has e key = Ok (true, e).
Proof.
  intros Hh Hu. unfold has. destruct (is_primitive key) eqn:P.
  - rewrite methods_at_has_primitive by exact P. rewrite Hh. reflexivity.
  - destruct (depth key); simpl; unfold has_level, getValuePair;
      rewrite P, Hh; simpl; rewrite (Hu eq_refl); reflexivity.
Qed.

Lemma get_registered e key :
  map_has (_map e) key = true ->
  get e key =
    Ok (if is_primitive key then map_get (_map e) key
        else if stored_truthy (map_get (_map e) key)
             then index1 (map_get (_map e) key) else undefined, e).
Proof.
  intros Hh. unfold get. destruct (is_primitive key) eqn:P.
  - rewrite methods_at_get_primitive by exact P. reflexivity.
  - destruct (depth key); simpl; unfold get_level, getValuePair;
      rewrite P, Hh; simpl; destruct (stored_truthy _); reflexivity.
Qed.

(** What [delete] leaves behind: whenever it returns [true] the key is
    still reported present by [has], and [get] returns [undefined]. *)
Lemma delete_keeps_key e key e' :
  delete e key = Ok (true, e') ->
  has e' key = Ok (true, e') /\ get e' key = Ok (undefined, e').
Proof.
  unfold delete. destruct (has e key) as [[present e1]| |]; simpl; try discriminate.
  destruct present; simpl; [|discriminate].
  destruct (set e1 key VUndefined) as [e2| |] eqn:S; simpl; try discriminate.
  intros H. inversion H; subst e2. clear H.
  destruct (set_registers _ _ _ _ S) as [Hh Hg]. split.
  - apply has_registered; [exact Hh|]. intros P. rewrite Hg, P. reflexivity.
  - rewrite get_registered by exact Hh. rewrite Hg.
    destruct (is_primitive key); reflexivity.
Qed.

(** *** Keys that stay clear of the reserved property name

    The leaf of a key is kept under ["_ekm_value"] in the same map as
    the next property names, so the structure is sound for keys none of
    whose property names, at any depth, is that name.  [clean] also
    asks what holds of every JS object: its property names are
    distinct. *)
Fixpoint distinct (l : list string) : bool :=
  match l with
  | [] => true
  | h :: t => negb (existsb (String.eqb h) t) && distinct t
  end.

Definition names_ok (l : list string) : bool :=
  distinct l && negb (existsb (String.eqb "_ekm_value") l).

Fixpoint clean (v : value) : bool :=
  match v with
  | VObj _ _ props =>
      names_ok (map fst props) &&
      (fix all (l : list (string * value)) : bool :=
         match l with
         | [] => true
         | nv :: t => clean (snd nv) && all t
         end) props
  | _ => true
  end.

Lemma clean_obj r k props :
  clean (VObj r k props) =
  names_ok (map fst props) && forallb (fun nv => clean (snd nv)) props.
Proof.
  simpl.
  assert (H : forall l : list (string * value),
             (fix all (l : list (string * value)) : bool :=
                match l with
                | [] => true
                | nv :: t => clean (snd nv) && all t
                end) l = forallb (fun nv => clean (snd nv)) l).
  { induction l as [|nv t IH]; simpl; [reflexivity|]. rewrite IH. reflexivity. }
  rewrite H. reflexivity.
Qed.

Lemma depth_obj_le r k props n :
  depth (VObj r k props) <= S n <->
  Forall (fun nv => depth (snd nv) <= n) props.
Proof.
  simpl. rewrite <- Nat.succ_le_mono.
  induction props as [|nv t IH]; simpl.
  - split; [constructor | lia].
  - rewrite Nat.max_lub_iff, IH. split.
    + intros [H1 H2]. constructor; assumption.
    + intros H. inversion H; auto.
Qed.

Lemma prop_in key p :
  In p (object_keys key) ->
  exists v, In (p, v) (own_props key) /\ prop key p = v.
Proof.
  unfold object_keys, prop. induction (own_props key) as [|[n v] t IH]; simpl.
  - intros [].
  - destruct (String.eqb n p) eqn:E.
    + apply String.eqb_eq in E. subst. intros _. exists v. auto.
    + intros [H|H]; [subst; rewrite String.eqb_refl in E; discriminate|].
      destruct (IH H) as [v' [Hin Hv]]. exists v'. auto.
Qed.

(** The value of a property of a clean key is clean and less deep. *)
Lemma clean_prop key p n :
  clean key = true -> depth key <= S n -> In p (object_keys key) ->
  clean (prop key p) = true /\ depth (prop key p) <= n.
Proof.
  intros Hc Hd Hin. destruct (prop_in key p Hin) as [v [Hv ->]].
  destruct key as [| | | | |r k props]; simpl in Hv; try contradiction.
  rewrite clean_obj in Hc. apply andb_true_iff in Hc. destruct Hc as [_ Hc].
  rewrite forallb_forall in Hc. apply depth_obj_le in Hd.
  rewrite Forall_forall in Hd. split; [apply (Hc _ Hv) | apply (Hd _ Hv)].
Qed.

Lemma primitive_depth key : is_primitive key = true -> depth key = 0.
Proof. destruct key; simpl; congruence. Qed.

Lemma composite_depth key : is_primitive key = false -> exists n, depth key = S n.
Proof. destruct key; simpl; try discriminate. eexists. reflexivity. Qed.

(** *** Sorting the property names *)
Lemma insert_sorted_perm s l : Permutation (s :: l) (insert_sorted s l).
Proof.
  induction l as [|h t IH]; simpl; [reflexivity|].
  destruct (String.leb s h); [reflexivity|].
  rewrite perm_swap. constructor. exact IH.
Qed.

Lemma sort_perm l : Permutation l (sort l).
Proof.
  induction l as [|h t IH]; simpl; [constructor|].
  rewrite <- insert_sorted_perm. constructor. exact IH.
Qed.

Lemma sort_in l p : In p (sort l) <-> In p l.
Proof.
  split; apply Permutation_in; [symmetry|]; apply sort_perm.
Qed.

Lemma sort_in_1 l p : In p (sort l) -> In p l.
Proof. apply sort_in. Qed.

Lemma sort_in_2 l p : In p l -> In p (sort l).
Proof. apply sort_in. Qed.

Lemma forallb_ext_in (A : Type) (f g : A -> bool) (l : list A) :
  (forall x, In x l -> f x = g x) -> forallb f l = forallb g l.
Proof.
  induction l as [|h t IH]; simpl; intros H; [reflexivity|].
  rewrite H by (left; reflexivity). f_equal. apply IH. intros x Hx. apply H. right. exact Hx.
Qed.

Definition leb_prop (a b : string) : Prop := String.leb a b = true.

Lemma insert_sorted_sorted s l :
  Sorted leb_prop l -> Sorted leb_prop (insert_sorted s l).
Proof.
  induction l as [|h t IH]; simpl; intros H.
  - repeat constructor.
  - destruct (String.leb s h) eqn:E.
    + constructor; [exact H|]. constructor. exact E.
    + inversion H as [|? ? Hs Hh]; subst. constructor; [apply IH, Hs|].
      assert (Hhs : leb_prop h s).
      { destruct (String.leb_total s h) as [T|T]; [congruence|exact T]. }
      destruct t as [|h' t']; simpl.
      * constructor. exact Hhs.
      * destruct (String.leb s h'); constructor; [exact Hhs|].
        inversion Hh; assumption.
Qed.

Lemma sort_sorted l : Sorted leb_prop (sort l).
Proof.
  induction l as [|h t IH]; simpl; [constructor|].
  apply insert_sorted_sorted, IH.
Qed.

Lemma ascii_compare_refl a : Ascii.compare a a = Eq.
Proof. unfold Ascii.compare. apply N.compare_refl. Qed.

Lemma ascii_compare_lt_trans a b c :
  Ascii.compare a b = Lt -> Ascii.compare b c = Lt -> Ascii.compare a c = Lt.
Proof.
  unfold Ascii.compare. rewrite !N.compare_lt_iff. apply N.lt_trans.
Qed.

Lemma string_compare_lt_trans a b c :
  String.compare a b = Lt -> String.compare b c = Lt -> String.compare a c = Lt.
Proof.
  revert b c. induction a as [|ca a IH]; intros [|cb b] [|cc c]; simpl;
    try discriminate; try reflexivity.
  destruct (Ascii.compare ca cb) eqn:E1; try discriminate;
    destruct (Ascii.compare cb cc) eqn:E2; try discriminate; intros H1 H2.
  - apply Ascii.compare_eq_iff in E1, E2. subst.
    rewrite ascii_compare_refl. eapply IH; eassumption.
  - apply Ascii.compare_eq_iff in E1. subst. rewrite E2. reflexivity.
  - apply Ascii.compare_eq_iff in E2. subst. rewrite E1. reflexivity.
  - rewrite (ascii_compare_lt_trans _ _ _ E1 E2). reflexivity.
Qed.

Lemma leb_prop_trans a b c : leb_prop a b -> leb_prop b c -> leb_prop a c.
Proof.
  unfold leb_prop, String.leb. intros H1 H2.
  destruct (String.compare a b) eqn:E1; try discriminate;
    destruct (String.compare b c) eqn:E2; try discriminate.
  - apply String.compare_eq_iff in E1. subst. rewrite E2. reflexivity.
  - apply String.compare_eq_iff in E1. subst. rewrite E2. reflexivity.
  - apply String.compare_eq_iff in E2. subst. rewrite E1. reflexivity.
  - rewrite (string_compare_lt_trans _ _ _ E1 E2). reflexivity.
Qed.

(** Two sorted lists with the same elements are the same list. *)
Lemma sorted_perm_eq (l l' : list string) :
  Sorted leb_prop l -> Sorted leb_prop l' -> Permutation l l' -> l = l'.
Proof.
  intros Hl Hl'.
  apply Sorted_StronglySorted in Hl; [|exact leb_prop_trans].
  apply Sorted_StronglySorted in Hl'; [|exact leb_prop_trans].
  revert l' Hl'. induction Hl as [|h t Ht IH Hh]; intros l' Hl' Hp.
  - apply Permutation_nil in Hp. subst. reflexivity.
  - destruct Hl' as [|h' t' Ht' Hh'].
    + apply Permutation_sym, Permutation_nil in Hp. discriminate.
    + assert (Ehh : h = h').
      { apply String.leb_antisym.
        - assert (Hin : In h' (h :: t))
            by (eapply Permutation_in; [symmetry; exact Hp | left; reflexivity]).
          destruct Hin as [->|Hin].
          + destruct (String.leb_total h' h') as [T|T]; exact T.
          + rewrite Forall_forall in Hh. apply Hh, Hin.
        - assert (Hin : In h (h' :: t'))
            by (eapply Permutation_in; [exact Hp | left; reflexivity]).
          destruct Hin as [->|Hin].
          + destruct (String.leb_total h h) as [T|T]; exact T.
          + rewrite Forall_forall in Hh'. apply Hh', Hin. }
      subst h'. f_equal. apply IH; [exact Ht'|].
      eapply Permutation_cons_inv. exact Hp.
Qed.

Lemma sort_permutation (l l' : list string) :
  Permutation l l' -> sort l = sort l'.
Proof.
  intros Hp. apply sorted_perm_eq; try apply sort_sorted.
  rewrite <- (sort_perm l), <- (sort_perm l'). exact Hp.
Qed.

(** *** Reading the tree without the side effects *)

(** [valuePair[1]] of what a leaf holds. *)
Definition payload (x : stored) : stored :=
  match x with
  | SPair _ y => y
  | _ => undefined
  end.

Section PeekLevel.
Variable nested_peek : ekm -> value -> stored.

(** What the leaf slot at the end of the path of [key] holds. *)
Fixpoint peek_walk (key : value) (m : jsmap) (properties : list string) : stored :=
  match properties with
  | [] => map_get m sentinel
  | property :: rest =>
      match map_get m (VStr property) with
      | SEkm z nm na no =>
          match nested_peek (mkEkm z nm na no) (prop key property) with
          | SEkm _ cm _ _ => peek_walk key cm rest
          | _ => undefined
          end
      | _ => undefined
      end
  end.

Definition leaf_level (e : ekm) (key : value) : stored :=
  peek_walk key (tree_of e key) (sort (object_keys key)).

Definition peek_level (e : ekm) (key : value) : stored :=
  if is_primitive key then map_get (_map e) key
  else payload (leaf_level e key).
End PeekLevel.

Fixpoint peek_at (n : nat) : ekm -> value -> stored :=
  match n with
  | O => peek_level (fun _ _ => undefined)
  | S n' => peek_level (peek_at n')
  end.

(** The value held for [key], through the tree for an object key. *)
Definition peek (e : ekm) (key : value) : stored := peek_at (depth key) e key.

(** The leaf slot of an object key. *)
Definition leaf (e : ekm) (key : value) : stored :=
  peek_walk peek key (tree_of e key) (sort (object_keys key)).

Lemma peek_walk_ext f g key m properties :
  (forall p e, In p properties -> f e (prop key p) = g e (prop key p)) ->
  peek_walk f key m properties = peek_walk g key m properties.
Proof.
  revert m. induction properties as [|p rest IH]; intros m H; simpl; [reflexivity|].
  destruct (map_get m (VStr p)) as [v|k x|z nm na no]; try reflexivity.
  rewrite (H p) by (left; reflexivity).
  destruct (g _ _); try reflexivity. apply IH. intros q e Hq. apply H. right. exact Hq.
Qed.

Lemma depth_prop key p n :
  depth key <= S n -> In p (object_keys key) -> depth (prop key p) <= n.
Proof.
  intros Hd Hin. destruct (prop_in key p Hin) as [v [Hv ->]].
  destruct key as [| | | | |r k props]; simpl in Hv; try contradiction.
  apply depth_obj_le in Hd. rewrite Forall_forall in Hd. apply (Hd _ Hv).
Qed.

Lemma peek_at_irrelevant n m e key :
  depth key <= n -> depth key <= m -> peek_at n e key = peek_at m e key.
Proof.
  revert m e key. induction n as [|n IH]; intros m e key Hn Hm.
  - destruct key; simpl in Hn; try lia; destruct m; reflexivity.
  - destruct (is_primitive key) eqn:P.
    + destruct m; simpl; unfold peek_level; rewrite P; reflexivity.
    + destruct m as [|m].
      * destruct key; simpl in Hm; try discriminate; lia.
      * simpl. unfold peek_level, leaf_level. rewrite P. f_equal.
        apply peek_walk_ext. intros p e' Hp. apply sort_in_1 in Hp.
        apply IH; eapply depth_prop; eassumption.
Qed.

Lemma peek_primitive e key :
  is_primitive key = true -> peek e key = map_get (_map e) key.
Proof.
  intros P. unfold peek. destruct (depth key); simpl; unfold peek_level;
    rewrite P; reflexivity.
Qed.

Lemma peek_composite e key :
  is_primitive key = false -> peek e key = payload (leaf e key).
Proof.
  intros P. unfold peek, leaf. destruct (composite_depth key P) as [d Hd].
  rewrite Hd. simpl. unfold peek_level, leaf_level. rewrite P. f_equal.
  apply peek_walk_ext. intros p e' Hp. apply sort_in_1 in Hp.
  apply peek_at_irrelevant; [|lia].
  eapply depth_prop; [|exact Hp]. lia.
Qed.

(** *** Equivalent keys: the same kind, the same property names and
    equivalent property values. *)
Definition names_eqb (l l' : list string) : bool :=
  if list_eq_dec string_dec l l' then true else false.

Fixpoint equivb (a b : value) : bool :=
  match a with
  | VObj _ k ps =>
      match b with
      | VObj _ k' ps' =>
          kind_eqb k k' &&
          names_eqb (sort (map fst ps)) (sort (map fst ps')) &&
          (fix all (l : list (string * value)) : bool :=
             match l with
             | [] => true
             | nv :: t => equivb (snd nv) (prop b (fst nv)) && all t
             end) ps
      | _ => false
      end
  | _ => value_eqb a b
  end.

(** The rest of two paths agree: the same names, equivalent values. *)
Definition path_eqb (a b : value) (pa pb : list string) : bool :=
  names_eqb pa pb && forallb (fun p => equivb (prop a p) (prop b p)) pa.

Lemma names_eqb_eq l l' : names_eqb l l' = true <-> l = l'.
Proof.
  unfold names_eqb. destruct (list_eq_dec string_dec l l'); split; congruence.
Qed.

Lemma distinct_notin h t : distinct (h :: t) = true -> ~ In h t /\ distinct t = true.
Proof.
  simpl. rewrite andb_true_iff, negb_true_iff. intros [H1 H2]. split; [|exact H2].
  intros Hin. assert (E : existsb (String.eqb h) t = true).
  { apply existsb_exists. exists h. split; [exact Hin|apply String.eqb_refl]. }
  congruence.
Qed.

Lemma assoc_get_first (V : Type) (l : list (string * V)) n v :
  ~ In n (map fst l) ->
  forall p, In p (map fst l) ->
    assoc_get String.eqb ((n, v) :: l) p = assoc_get String.eqb l p.
Proof.
  intros Hn p Hp. simpl. destruct (String.eqb n p) eqn:E; [|reflexivity].
  apply String.eqb_eq in E. subst. contradiction.
Qed.

Lemma equivb_unfold r k ps b :
  equivb (VObj r k ps) b =
    match b with
    | VObj _ k' ps' =>
        kind_eqb k k' && names_eqb (sort (map fst ps)) (sort (map fst ps')) &&
        forallb (fun nv => equivb (snd nv) (prop b (fst nv))) ps
    | _ => false
    end.
Proof.
  destruct b as [| | | | |r' k' ps']; reflexivity.
Qed.

Lemma prop_head r k n v t : prop (VObj r k ((n, v) :: t)) n = v.
Proof. unfold prop. simpl. rewrite String.eqb_refl. reflexivity. Qed.

Lemma prop_tail r k n v t p :
  p <> n -> prop (VObj r k ((n, v) :: t)) p = prop (VObj r k t) p.
Proof.
  intros H. unfold prop. simpl. destruct (String.eqb n p) eqn:E; [|reflexivity].
  apply String.eqb_eq in E. congruence.
Qed.

Lemma forallb_props r k ps (f : value -> string -> bool) :
  distinct (map fst ps) = true ->
  forallb (fun nv => f (snd nv) (fst nv)) ps =
  forallb (fun p => f (prop (VObj r k ps) p) p) (map fst ps).
Proof.
  induction ps as [|[n v] t IH]; intros Hd; [reflexivity|].
  apply distinct_notin in Hd. destruct Hd as [Hn Hd].
  simpl map. simpl forallb. rewrite prop_head. f_equal.
  rewrite IH by exact Hd. apply forallb_ext_in. intros p Hp.
  rewrite prop_tail; [reflexivity|]. intros ->. contradiction.
Qed.

Lemma forallb_sort (f : string -> bool) l :
  forallb f (sort l) = forallb f l.
Proof.
  apply Bool.eq_true_iff_eq. rewrite !forallb_forall.
  split; intros H p Hp; apply H; [apply sort_in_2|apply sort_in_1]; exact Hp.
Qed.

Lemma equivb_obj r k ps b :
  distinct (map fst ps) = true ->
  equivb (VObj r k ps) b =
    negb (is_primitive b) && Bool.eqb (isArray (VObj r k ps)) (isArray b) &&
    path_eqb (VObj r k ps) b (sort (map fst ps)) (sort (object_keys b)).
Proof.
  intros Hd. rewrite equivb_unfold.
  destruct b as [| | | | |r' k' ps']; try reflexivity.
  unfold path_eqb, object_keys. simpl own_props. simpl is_primitive. simpl negb.
  rewrite forallb_sort.
  rewrite (forallb_props r k ps (fun v p => equivb v (prop (VObj r' k' ps') p)) Hd).
  replace (Bool.eqb (isArray (VObj r k ps)) (isArray (VObj r' k' ps')))
    with (kind_eqb k k') by (destruct k, k'; reflexivity).
  simpl andb. rewrite andb_assoc. reflexivity.
Qed.

Lemma equivb_primitive a b :
  is_primitive a = true -> equivb a b = value_eqb a b.
Proof. destruct a; simpl; try reflexivity. discriminate. Qed.

Lemma clean_distinct key :
  clean key = true -> distinct (object_keys key) = true.
Proof.
  destruct key as [| | | | |r k ps]; try reflexivity.
  rewrite clean_obj. unfold names_ok, object_keys. simpl own_props.
  rewrite !andb_true_iff. tauto.
Qed.

Lemma clean_no_sentinel key p :
  clean key = true -> In p (object_keys key) -> VStr p <> sentinel.
Proof.
  destruct key as [| | | | |r k ps]; try (intros _ []).
  rewrite clean_obj. unfold names_ok, object_keys. simpl own_props.
  rewrite !andb_true_iff, negb_true_iff. intros [[_ H] _] Hin E.
  unfold sentinel in E. inversion E; subst.
  assert (X : existsb (String.eqb "_ekm_value") (map fst ps) = true).
  { apply existsb_exists. exists "_ekm_value". split; [exact Hin|reflexivity]. }
  rewrite X in H. discriminate H.
Qed.

(** An equivalence for clean keys. *)
Lemma equivb_composite a b :
  clean a = true -> is_primitive a = false ->
  equivb a b =
    negb (is_primitive b) && Bool.eqb (isArray a) (isArray b) &&
    path_eqb a b (sort (object_keys a)) (sort (object_keys b)).
Proof.
  intros Hc P. destruct a as [| | | | |r k ps]; try discriminate.
  apply equivb_obj. apply (clean_distinct _ Hc).
Qed.

Lemma equivb_refl_clean n a : depth a <= n -> clean a = true -> equivb a a = true.
Proof.
  revert a. induction n as [|n IH]; intros a Hd Hc.
  - destruct a; simpl in Hd; try lia; apply value_eqb_refl.
  - destruct (is_primitive a) eqn:P.
    + rewrite equivb_primitive by exact P. apply value_eqb_refl.
    + rewrite equivb_composite by assumption. rewrite P. simpl.
      rewrite Bool.eqb_reflx. simpl. unfold path_eqb.
      rewrite (proj2 (names_eqb_eq _ _) eq_refl). simpl.
      apply forallb_forall. intros p Hp. apply sort_in_1 in Hp.
      destruct (clean_prop a p _ Hc Hd Hp) as [Hc' Hd']. apply IH; assumption.
Qed.

Lemma equivb_refl a : clean a = true -> equivb a a = true.
Proof. apply (equivb_refl_clean (depth a)). lia. Qed.

Lemma peek_walk_equiv a b m properties :
  (forall p e, In p properties -> peek e (prop a p) = peek e (prop b p)) ->
  peek_walk peek a m properties = peek_walk peek b m properties.
Proof.
  revert m. induction properties as [|p rest IH]; intros m H; simpl; [reflexivity|].
  destruct (map_get m (VStr p)) as [v|k x|z nm na no]; try reflexivity.
  rewrite (H p) by (left; reflexivity).
  destruct (peek _ _); try reflexivity. apply IH. intros q e Hq. apply H. right. exact Hq.
Qed.

(** Equivalent keys are looked up along the same path. *)
Lemma peek_equiv n a b :
  depth a <= n -> clean a = true -> equivb a b = true ->
  forall e, peek e a = peek e b /\ (is_primitive a = false -> leaf e a = leaf e b).
Proof.
  revert a b. induction n as [|n IH]; intros a b Hd Hc He e.
  - assert (P : is_primitive a = true) by (destruct a; simpl in *; try reflexivity; lia).
    rewrite equivb_primitive in He by exact P. apply value_eqb_eq in He. subst b.
    split; [reflexivity|congruence].
  - destruct (is_primitive a) eqn:P.
    + rewrite equivb_primitive in He by exact P. apply value_eqb_eq in He. subst b.
      split; [reflexivity|discriminate].
    + rewrite equivb_composite in He by assumption.
      apply andb_true_iff in He. destruct He as [He Hp].
      apply andb_true_iff in He. destruct He as [Pb Ha].
      apply negb_true_iff in Pb. apply Bool.eqb_prop in Ha.
      unfold path_eqb in Hp. apply andb_true_iff in Hp. destruct Hp as [Hn Hv].
      apply names_eqb_eq in Hn. rewrite forallb_forall in Hv.
      assert (Hleaf : leaf e a = leaf e b).
      { unfold leaf, tree_of. rewrite <- Hn, <- Ha. apply peek_walk_equiv.
        intros p e' Hp. specialize (Hv p Hp). apply sort_in_1 in Hp.
        destruct (clean_prop a p _ Hc Hd Hp) as [Hc' Hd'].
        apply (IH _ _ Hd' Hc' Hv). }
      split; [|intros _; exact Hleaf].
      rewrite !peek_composite by assumption. rewrite Hleaf. reflexivity.
Qed.

(** *** The shape of a map built with clean keys

    The payload of a map is a user value; the payload of a map stored
    in a tree, under a property name, is the node for the next level. *)
Inductive role : Type :=
| User
| Nested (r : role).

Inductive okPayload : role -> stored -> Prop :=
| ok_user v : okPayload User (SVal v)
| ok_nested r z cm ca co : okV r cm -> okPayload (Nested r) (SEkm z cm ca co)
with okV : role -> jsmap -> Prop :=
| okV_intro r m :
    (forall k x, assoc_get value_eqb m k = Some x -> okSlot r k x) -> okV r m
with okSlot : role -> value -> stored -> Prop :=
| ok_leaf r keyRef y :
    is_primitive keyRef = false -> okPayload r y ->
    okSlot r sentinel (SPair keyRef y)
| ok_name r name z nm na no :
    VStr name <> sentinel -> okE (Nested r) (mkEkm z nm na no) ->
    okSlot r (VStr name) (SEkm z nm na no)
with okE : role -> ekm -> Prop :=
| okE_intro r e :
    NoDup (map fst (_map e)) ->
    (forall k x, assoc_get value_eqb (_map e) k = Some x ->
       (is_primitive k = true /\ okPayload r x) \/
       (is_primitive k = false /\ clean k = true /\
        exists y, x = SPair k y /\ okPayload r y /\ leaf e k = SPair k y)) ->
    okV r (_arrayTreeMap e) -> okV r (_objectTreeMap e) ->
    okE r e.

(** Two maps that answer every clean key alike. *)
Definition same_view (e e' : ekm) : Prop :=
  forall k, clean k = true -> peek e' k = peek e k.

(** Whether [has] finds the key. *)
Definition present (e : ekm) (key : value) : bool :=
  if is_primitive key then map_has (_map e) key
  else negb (is_undefined (leaf e key)).

Definition spec_get (n : nat) : Prop :=
  forall key, depth key <= n -> clean key = true ->
  forall r e, okE r e ->
  exists e', m_get (methods_at n) e key = Ok (peek e key, e') /\
             okE r e' /\ same_view e e'.

Definition spec_has (n : nat) : Prop :=
  forall key, depth key <= n -> clean key = true ->
  forall r e, okE r e ->
  exists e', m_has (methods_at n) e key = Ok (present e key, e') /\
             okE r e' /\ same_view e e'.

Definition spec_set (n : nat) : Prop :=
  forall key, depth key <= n -> clean key = true ->
  forall r e x, okE r e -> okPayload r x ->
  exists e', m_set (methods_at n) e key x = Ok e' /\
             okE r e' /\
             (forall k, clean k = true ->
                peek e' k = if equivb k key then x else peek e k) /\
             present e' key = true.

(** *** Facts on well-shaped maps *)
Lemma okV_nil r : okV r [].
Proof. constructor. intros k x H. discriminate H. Qed.

Lemma okE_empty r : okE r empty.
Proof.
  constructor; simpl; try apply okV_nil; [constructor|].
  intros k x H. discriminate H.
Qed.

Lemma okV_slot r m k x :
  okV r m -> assoc_get value_eqb m k = Some x -> okSlot r k x.
Proof. intros H. inversion H; subst. auto. Qed.

(** What a tree map holds under a property name of a clean key. *)
Lemma okV_name r m p :
  okV r m -> VStr p <> sentinel ->
  map_get m (VStr p) = undefined \/
  exists z nm na no, map_get m (VStr p) = SEkm z nm na no /\
                     okE (Nested r) (mkEkm z nm na no).
Proof.
  intros H Hp. unfold map_get.
  destruct (assoc_get value_eqb m (VStr p)) as [x|] eqn:E; [|left; reflexivity].
  apply (okV_slot _ _ _ _ H) in E. inversion E; subst.
  - exfalso. apply Hp. reflexivity.
  - right. exists z, nm, na, no. split; [reflexivity|assumption].
Qed.

(** What a tree map holds in the leaf slot. *)
Inductive leaf_ok (r : role) : stored -> Prop :=
| leaf_none : leaf_ok r undefined
| leaf_pair keyRef y :
    is_primitive keyRef = false -> okPayload r y -> leaf_ok r (SPair keyRef y).

Lemma okV_leaf r m : okV r m -> leaf_ok r (map_get m sentinel).
Proof.
  intros H. unfold map_get.
  destruct (assoc_get value_eqb m sentinel) as [x|] eqn:E; [|constructor].
  apply (okV_slot _ _ _ _ H) in E. inversion E; subst.
  - constructor; assumption.
  - exfalso. match goal with X : VStr _ <> sentinel |- _ => apply X end.
    reflexivity.
Qed.

Lemma okV_set r m k x : okV r m -> okSlot r k x -> okV r (map_set m k x).
Proof.
  intros H Hs. constructor. intros k' x' E. unfold map_set in E.
  destruct (value_eq_dec k k') as [->|Hne].
  - rewrite (assoc_get_set_same value_eqb value_eqb_eq) in E. inversion E; subst. exact Hs.
  - rewrite (assoc_get_set_other value_eqb value_eqb_eq) in E by exact Hne.
    apply (okV_slot _ _ _ _ H E).
Qed.

Lemma okV_set_name r m p e :
  okV r m -> VStr p <> sentinel -> okE (Nested r) e ->
  okV r (map_set m (VStr p) (SNode e)).
Proof.
  intros H Hp He. apply okV_set; [exact H|]. destruct e. constructor; assumption.
Qed.

Lemma okV_set_leaf r m key y :
  okV r m -> is_primitive key = false -> okPayload r y ->
  okV r (map_set m sentinel (SPair key y)).
Proof. intros H P Hy. apply okV_set; [exact H|]. constructor; assumption. Qed.

Lemma nested_payload r x :
  okPayload (Nested r) x -> exists z cm ca co, x = SEkm z cm ca co /\ okV r cm.
Proof.
  intros H. inversion H; subst. exists z, cm, ca, co. split; [reflexivity|assumption].
Qed.

Lemma payload_not_undefined_nested r x :
  okPayload (Nested r) x -> is_undefined x = false.
Proof. intros H. inversion H; reflexivity. Qed.

Lemma okE_entry r e k x :
  okE r e -> assoc_get value_eqb (_map e) k = Some x ->
  (is_primitive k = true /\ okPayload r x) \/
  (is_primitive k = false /\ clean k = true /\
   exists y, x = SPair k y /\ okPayload r y /\ leaf e k = SPair k y).
Proof. intros H. inversion H; subst. auto. Qed.

Lemma okE_tree r e key : okE r e -> okV r (tree_of e key).
Proof. intros H. inversion H; subst. unfold tree_of. destruct (isArray key); assumption. Qed.

Lemma okE_nodup r e : okE r e -> NoDup (map fst (_map e)).
Proof. intros H. inversion H; subst. assumption. Qed.

(** Along the path of a key a well-shaped tree holds well-shaped
    leaves. *)
Lemma peek_walk_ok key :
  clean key = true ->
  (forall p r e, In p (object_keys key) -> okE r e ->
     peek e (prop key p) = undefined \/ okPayload r (peek e (prop key p))) ->
  forall properties r m,
    (forall p, In p properties -> In p (object_keys key)) ->
    okV r m -> leaf_ok r (peek_walk peek key m properties).
Proof.
  intros Hc Hn. induction properties as [|p rest IH]; intros r m Hin Hm; simpl.
  - apply okV_leaf, Hm.
  - assert (Hp : In p (object_keys key)) by (apply Hin; left; reflexivity).
    destruct (okV_name _ _ p Hm (clean_no_sentinel _ _ Hc Hp))
      as [E | [z [nm [na [no [E He]]]]]]; rewrite E; [constructor|].
    destruct (Hn p _ _ Hp He) as [U|Hpay].
    + rewrite U. constructor.
    + destruct (nested_payload _ _ Hpay) as [cz [cm [ca [co [Ec Hcm]]]]]. rewrite Ec.
      apply IH; [|exact Hcm]. intros q Hq. apply Hin. right. exact Hq.
Qed.

(** What a well-shaped map answers is absent or a payload of its role. *)
Lemma peek_ok n key :
  depth key <= n -> clean key = true ->
  forall r e, okE r e -> peek e key = undefined \/ okPayload r (peek e key).
Proof.
  revert key. induction n as [|n IH]; intros key Hd Hc r e He;
    destruct (is_primitive key) eqn:P.
  1,3: rewrite peek_primitive by exact P; unfold map_get;
       destruct (assoc_get value_eqb (_map e) key) as [x|] eqn:E; [|left; reflexivity];
       destruct (okE_entry _ _ _ _ He E) as [[_ H]|[P' _]]; [right; exact H|congruence].
  - destruct (composite_depth key P) as [d Hd']. lia.
  - rewrite peek_composite by exact P.
    assert (L : leaf_ok r (leaf e key)).
    { unfold leaf. apply peek_walk_ok; [exact Hc| |intros p; apply sort_in_1|].
      - intros p r' e' Hp He'. destruct (clean_prop key p _ Hc Hd Hp) as [Hc' Hd'].
        apply IH; assumption.
      - apply okE_tree, He. }
    inversion L; simpl; [left; reflexivity|right; assumption].
Qed.

(** *** Paths *)
Lemma path_eqb_nil a b : path_eqb a b [] [] = true.
Proof. reflexivity. Qed.

Lemma path_eqb_nil_cons a b p ps : path_eqb a b [] (p :: ps) = false.
Proof. reflexivity. Qed.

Lemma path_eqb_cons_nil a b q qs : path_eqb a b (q :: qs) [] = false.
Proof. reflexivity. Qed.

Lemma path_eqb_cons a b q qs p ps :
  path_eqb a b (q :: qs) (p :: ps) =
  String.eqb q p && equivb (prop a q) (prop b q) && path_eqb a b qs ps.
Proof.
  unfold path_eqb, names_eqb. simpl forallb.
  destruct (String.eqb q p) eqn:E.
  - apply String.eqb_eq in E. subst q.
    destruct (list_eq_dec string_dec qs ps) as [->|Hne].
    + destruct (list_eq_dec string_dec (p :: ps) (p :: ps)) as [_|X]; [|congruence].
      simpl. reflexivity.
    + destruct (list_eq_dec string_dec (p :: qs) (p :: ps)) as [X|_]; [congruence|].
      simpl. rewrite andb_false_r. reflexivity.
  - apply String.eqb_neq in E.
    destruct (list_eq_dec string_dec (q :: qs) (p :: ps)) as [X|_]; [congruence|].
    reflexivity.
Qed.

Definition retag (key : value) (x : stored) : stored :=
  match x with
  | SPair _ y => SPair key y
  | _ => x
  end.

Definition found (key : value) (x : stored) : option (value * stored) :=
  match x with
  | SPair keyRef y => Some (keyRef, SPair key y)
  | _ => None
  end.

Lemma peek_walk_other_slot k m p x q qs :
  q <> p ->
  peek_walk peek k (map_set m (VStr p) x) (q :: qs) = peek_walk peek k m (q :: qs).
Proof.
  intros H. simpl. rewrite map_get_set_other by congruence. reflexivity.
Qed.

Lemma peek_walk_leaf_slot k m p x :
  VStr p <> sentinel ->
  peek_walk peek k (map_set m (VStr p) x) [] = peek_walk peek k m [].
Proof. intros H. simpl. rewrite map_get_set_other by exact H. reflexivity. Qed.

Lemma peek_walk_this_slot k m p e qs :
  peek_walk peek k (map_set m (VStr p) (SNode e)) (p :: qs) =
  match peek e (prop k p) with
  | SEkm _ cm _ _ => peek_walk peek k cm qs
  | _ => undefined
  end.
Proof. simpl. rewrite map_get_set. destruct e. reflexivity. Qed.

Lemma peek_walk_at_slot k m p z nm na no qs :
  map_get m (VStr p) = SEkm z nm na no ->
  peek_walk peek k m (p :: qs) =
  match peek (mkEkm z nm na no) (prop k p) with
  | SEkm _ cm _ _ => peek_walk peek k cm qs
  | _ => undefined
  end.
Proof. intros E. simpl. rewrite E. reflexivity. Qed.

Lemma peek_walk_absent k m p qs :
  map_get m (VStr p) = undefined -> peek_walk peek k m (p :: qs) = undefined.
Proof. intros E. simpl. rewrite E. reflexivity. Qed.

Lemma in_tail (A : Type) (P : A -> Prop) (q : A) (qs : list A) :
  (forall p, In p (q :: qs) -> P p) -> P q /\ (forall p, In p qs -> P p).
Proof. intros H. split; [apply H; left; reflexivity|]. intros p Hp. apply H. right. exact Hp. Qed.

Lemma clean_prop_any k p :
  clean k = true -> In p (object_keys k) -> clean (prop k p) = true.
Proof.
  intros Hc Hp. apply (clean_prop k p (depth k) Hc); [lia|exact Hp].
Qed.

(** *** The tree of a map after a walk *)
Lemma tree_of_set_tree e key t k :
  tree_of (set_tree e key t) k =
  if Bool.eqb (isArray k) (isArray key) then t else tree_of e k.
Proof.
  unfold tree_of, set_tree. destruct (isArray k), (isArray key); reflexivity.
Qed.

Lemma tree_of_set_map e m k : tree_of (set_map e m) k = tree_of e k.
Proof. reflexivity. Qed.

Lemma map_of_set_map e m : _map (set_map e m) = m.
Proof. reflexivity. Qed.

Lemma payload_retag key x : payload (retag key x) = payload x.
Proof. destruct x; reflexivity. Qed.

Lemma is_undefined_retag key x : is_undefined (retag key x) = is_undefined x.
Proof. destruct x; reflexivity. Qed.

Lemma equivb_same_path k key :
  clean k = true -> is_primitive k = false -> is_primitive key = false ->
  equivb k key =
  Bool.eqb (isArray k) (isArray key) &&
  path_eqb k key (sort (object_keys k)) (sort (object_keys key)).
Proof.
  intros Hc P Pk. rewrite equivb_composite by assumption. rewrite Pk. reflexivity.
Qed.

(** The leaf of [k] in a map whose tree for [key] was replaced by the
    outcome [t] of a walk along the path of [key]. *)
Lemma leaf_after_walk e e' key t (f : stored -> stored) k :
  clean k = true -> is_primitive k = false -> is_primitive key = false ->
  (forall k', tree_of e' k' =
     if Bool.eqb (isArray k') (isArray key) then t else tree_of e k') ->
  (forall k' qs, clean k' = true -> (forall p, In p qs -> In p (object_keys k')) ->
     peek_walk peek k' t qs =
       if path_eqb k' key qs (sort (object_keys key))
       then f (peek_walk peek k' (tree_of e key) qs)
       else peek_walk peek k' (tree_of e key) qs) ->
  leaf e' k = if equivb k key then f (leaf e k) else leaf e k.
Proof.
  intros Hc P Pk Ht F. rewrite equivb_same_path by assumption.
  unfold leaf. rewrite Ht.
  destruct (Bool.eqb (isArray k) (isArray key)) eqn:A; simpl; [|reflexivity].
  apply Bool.eqb_prop in A.
  rewrite F; [|exact Hc|intros p; apply sort_in_1].
  unfold tree_of. rewrite A. reflexivity.
Qed.

Lemma leaf_is_ok key r e :
  clean key = true -> okE r e -> leaf_ok r (leaf e key).
Proof.
  intros Hc He. unfold leaf.
  apply peek_walk_ok; [exact Hc| |intros p; apply sort_in_1|apply (okE_tree r e key He)].
  intros p r' e' Hp He'.
  destruct (clean_prop key p (depth key) Hc (Nat.le_succ_diag_r _) Hp) as [Hc' Hd'].
  apply (peek_ok (depth key) _ Hd' Hc' r' e' He').
Qed.

Lemma map_has_false m k : map_has m k = false -> assoc_get value_eqb m k = None.
Proof.
  unfold map_has, assoc_has. destruct (assoc_get value_eqb m k); [discriminate|reflexivity].
Qed.

Lemma map_has_true m k :
  map_has m k = true -> exists x, assoc_get value_eqb m k = Some x /\ map_get m k = x.
Proof.
  unfold map_has, assoc_has, map_get.
  destruct (assoc_get value_eqb m k) as [x|]; [|discriminate].
  intros _. exists x. split; reflexivity.
Qed.

Lemma assoc_get_map_set m k x k' :
  assoc_get value_eqb (map_set m k x) k' =
  if value_eqb k k' then Some x else assoc_get value_eqb m k'.
Proof.
  unfold map_set. destruct (value_eqb k k') eqn:E.
  - apply value_eqb_eq in E. subst. apply (assoc_get_set_same value_eqb value_eqb_eq).
  - apply value_eqb_neq in E. apply (assoc_get_set_other value_eqb value_eqb_eq). exact E.
Qed.

Lemma assoc_get_map_delete m k k' :
  NoDup (map fst m) ->
  assoc_get value_eqb (map_delete m k) k' =
  if value_eqb k k' then None else assoc_get value_eqb m k'.
Proof.
  intros Hnd. unfold map_delete. destruct (value_eqb k k') eqn:E.
  - apply value_eqb_eq in E. subst.
    apply (assoc_get_delete_same value_eqb value_eqb_eq). exact Hnd.
  - apply value_eqb_neq in E.
    apply (assoc_get_delete_other value_eqb value_eqb_eq). exact E.
Qed.

Lemma equivb_primitive_left k key :
  is_primitive k = true -> is_primitive key = false -> equivb k key = false.
Proof.
  intros P Pk. rewrite equivb_primitive by exact P.
  apply value_eqb_neq. intros ->. congruence.
Qed.

(** The [_map] of [set], and of [getValuePair] when it finds the leaf:
    the reference held by the leaf is dropped and [key] registered. *)
Definition registered (e : ekm) (key : value) (y : stored) : jsmap :=
  map_set (if stored_truthy (leaf e key)
           then map_delete (_map e) (index0 (leaf e key)) else _map e)
          key (SPair key y).

Lemma registered_get r e key y k :
  okE r e -> clean key = true -> k <> key ->
  assoc_get value_eqb (registered e key y) k =
  if value_eqb (index0 (leaf e key)) k && stored_truthy (leaf e key)
  then None else assoc_get value_eqb (_map e) k.
Proof.
  intros He Hc Hne. unfold registered. rewrite assoc_get_map_set.
  rewrite (proj2 (value_eqb_neq key k)) by congruence.
  destruct (stored_truthy (leaf e key)).
  - rewrite assoc_get_map_delete by apply (okE_nodup r e He). rewrite andb_true_r. reflexivity.
  - rewrite andb_false_r. reflexivity.
Qed.

Section Register.
Variables (r : role) (e e' : ekm) (key : value) (y : stored).
Hypothesis He : okE r e.
Hypothesis Hc : clean key = true.
Hypothesis P : is_primitive key = false.
Hypothesis Hy : okPayload r y.
Hypothesis Harr : okV r (_arrayTreeMap e').
Hypothesis Hobj : okV r (_objectTreeMap e').
Hypothesis Hleaf : forall k, clean k = true -> is_primitive k = false ->
  leaf e' k = if equivb k key then SPair key y else leaf e k.
Hypothesis Hmap : _map e' = registered e key y.

Lemma okE_register : okE r e'.
Proof.
  constructor; [| |exact Harr|exact Hobj].
  - rewrite Hmap. unfold registered, map_set, map_delete.
    apply (assoc_set_NoDup value_eqb value_eqb_eq).
    destruct (stored_truthy (leaf e key));
      [apply (assoc_delete_NoDup value_eqb)|]; apply (okE_nodup r e He).
  - intros k x E. rewrite Hmap in E.
    destruct (value_eq_dec k key) as [->|Hne].
    + unfold registered in E. rewrite assoc_get_map_set, value_eqb_refl in E.
      inversion E; subst x. right. split; [exact P|]. split; [exact Hc|].
      exists y. split; [reflexivity|]. split; [exact Hy|].
      rewrite Hleaf by assumption. rewrite equivb_refl by exact Hc. reflexivity.
    + rewrite (registered_get r e key y k He Hc Hne) in E.
      destruct (value_eqb (index0 (leaf e key)) k && stored_truthy (leaf e key)) eqn:D;
        [discriminate|].
      destruct (okE_entry r e k x He E) as [[Pk Hx]|[Pk [Hck [y' [-> [Hy' Hl]]]]]].
      * left. split; assumption.
      * right. split; [exact Pk|]. split; [exact Hck|].
        exists y'. split; [reflexivity|]. split; [exact Hy'|].
        rewrite Hleaf by assumption.
        destruct (equivb k key) eqn:EQ; [|exact Hl]. exfalso.
        destruct (peek_equiv (depth k) k key (le_n _) Hck EQ e) as [_ X].
        rewrite <- (X Pk), Hl in D. simpl in D. rewrite value_eqb_refl in D. discriminate.
Qed.

Lemma view_register k :
  clean k = true -> peek e' k = if equivb k key then y else peek e k.
Proof.
  intros Hk. destruct (is_primitive k) eqn:Pk.
  - rewrite (equivb_primitive_left k key Pk P), !peek_primitive by exact Pk.
    unfold map_get. rewrite Hmap.
    assert (Hne : k <> key) by (intros ->; congruence).
    rewrite (registered_get r e key y k He Hc Hne).
    destruct (value_eqb (index0 (leaf e key)) k && stored_truthy (leaf e key)) eqn:D;
      [|reflexivity].
    exfalso. apply andb_true_iff in D. destruct D as [D T].
    apply value_eqb_eq in D.
    pose proof (leaf_is_ok key r e Hc He) as L. inversion L as [U|kr y0 Pkr Hy0 U].
    + rewrite <- U in T. discriminate.
    + rewrite <- U in D. simpl in D. congruence.
  - rewrite !peek_composite by exact Pk. rewrite Hleaf by assumption.
    destruct (equivb k key); reflexivity.
Qed.
End Register.

Section SameLeaves.
Variables (r : role) (e e' : ekm).
Hypothesis He : okE r e.
Hypothesis Harr : okV r (_arrayTreeMap e').
Hypothesis Hobj : okV r (_objectTreeMap e').
Hypothesis Hleaf : forall k, clean k = true -> is_primitive k = false ->
  leaf e' k = leaf e k.
Hypothesis Hmap : _map e' = _map e.

Lemma okE_same_leaves : okE r e'.
Proof.
  constructor; [| |exact Harr|exact Hobj].
  - rewrite Hmap. apply (okE_nodup r e He).
  - intros k x E. rewrite Hmap in E.
    destruct (okE_entry r e k x He E) as [[Pk Hx]|[Pk [Hck [y' [-> [Hy' Hl]]]]]].
    + left. split; assumption.
    + right. split; [exact Pk|]. split; [exact Hck|].
      exists y'. split; [reflexivity|]. split; [exact Hy'|].
      rewrite Hleaf by assumption. exact Hl.
Qed.

Lemma view_same_leaves : same_view e e'.
Proof.
  intros k Hk. destruct (is_primitive k) eqn:Pk.
  - rewrite !peek_primitive by exact Pk. rewrite Hmap. reflexivity.
  - rewrite !peek_composite by exact Pk. rewrite Hleaf by assumption. reflexivity.
Qed.
End SameLeaves.

Lemma okV_set_tree r e key t :
  okE r e -> okV r t ->
  okV r (_arrayTreeMap (set_tree e key t)) /\ okV r (_objectTreeMap (set_tree e key t)).
Proof.
  intros He Ht. inversion He; subst. unfold set_tree.
  destruct (isArray key); simpl; split; assumption.
Qed.

Lemma peek_walk_nil k qs : peek_walk peek k [] qs = undefined.
Proof. destruct qs; reflexivity. Qed.

Lemma peek_empty k : peek empty k = undefined.
Proof.
  destruct (is_primitive k) eqn:P.
  - rewrite peek_primitive by exact P. reflexivity.
  - rewrite peek_composite by exact P. unfold leaf, tree_of. simpl.
    destruct (isArray k); rewrite peek_walk_nil; reflexivity.
Qed.

(** Where the walk goes on from what a stored map answers. *)
Definition onward (k : value) (qs : list string) (x : stored) : stored :=
  match x with
  | SEkm _ cm _ _ => peek_walk peek k cm qs
  | _ => undefined
  end.

Lemma onward_empty k qs : onward k qs (SNode empty) = undefined.
Proof. apply peek_walk_nil. Qed.

Lemma peek_walk_onward k m p e qs :
  peek_walk peek k (map_set m (VStr p) (SNode e)) (p :: qs) = onward k qs (peek e (prop k p)).
Proof. apply peek_walk_this_slot. Qed.

Lemma peek_walk_onward_at k m p z nm na no qs :
  map_get m (VStr p) = SEkm z nm na no ->
  peek_walk peek k m (p :: qs) = onward k qs (peek (mkEkm z nm na no) (prop k p)).
Proof. apply peek_walk_at_slot. Qed.

Lemma present_spec key r e :
  clean key = true -> okE r e ->
  (present e key = true -> okPayload r (peek e key)) /\
  (present e key = false -> peek e key = undefined).
Proof.
  intros Hc He. unfold present. destruct (is_primitive key) eqn:P.
  - rewrite peek_primitive by exact P. split; intros H.
    + destruct (map_has_true _ _ H) as [x [E G]]. rewrite G.
      destruct (okE_entry r e key x He E) as [[_ Hx]|[X _]]; [exact Hx|congruence].
    + unfold map_get. rewrite (map_has_false _ _ H). reflexivity.
  - rewrite peek_composite by exact P.
    pose proof (leaf_is_ok key r e Hc He) as L.
    inversion L as [U|kr y Pk Hy U]; simpl; split; intros H;
      try discriminate; try reflexivity; assumption.
Qed.

(** A slot created empty on the way does not change what is read. *)
Lemma peek_walk_add_empty k m p qs :
  VStr p <> sentinel -> map_has m (VStr p) = false ->
  peek_walk peek k (map_set m (VStr p) (SNode empty)) qs = peek_walk peek k m qs.
Proof.
  intros Hns Hh. destruct qs as [|q qs].
  - apply peek_walk_leaf_slot. exact Hns.
  - destruct (string_dec q p) as [->|Hne].
    + rewrite peek_walk_onward, peek_empty. simpl.
      unfold map_get. rewrite (map_has_false _ _ Hh). reflexivity.
    + apply peek_walk_other_slot. exact Hne.
Qed.

Lemma okV_set_tree_of r e key t :
  okV r (_arrayTreeMap e) -> okV r (_objectTreeMap e) -> okV r t ->
  okV r (_arrayTreeMap (set_tree e key t)) /\ okV r (_objectTreeMap (set_tree e key t)).
Proof.
  intros Ha Ho Ht. unfold set_tree. destruct (isArray key); simpl; split; assumption.
Qed.

Lemma okE_trees r e : okE r e -> okV r (_arrayTreeMap e) /\ okV r (_objectTreeMap e).
Proof. intros H. inversion H; subst. split; assumption. Qed.

(** [set] with a primitive key. *)
Lemma set_primitive_spec key r e x :
  is_primitive key = true -> okE r e -> okPayload r x ->
  okE r (set_map e (map_set (_map e) key x)) /\
  (forall k, clean k = true ->
    peek (set_map e (map_set (_map e) key x)) k = if equivb k key then x else peek e k) /\
  present (set_map e (map_set (_map e) key x)) key = true.
Proof.
  intros P He Hx. destruct (okE_trees r e He) as [Ha Ho].
  assert (Hleaf : forall k, leaf (set_map e (map_set (_map e) key x)) k = leaf e k)
    by reflexivity.
  split; [|split; [|unfold present; rewrite P; simpl; apply map_has_set]].
  - constructor; [| |exact Ha|exact Ho].
    + simpl. apply (assoc_set_NoDup value_eqb value_eqb_eq), (okE_nodup r e He).
    + intros k y E. simpl in E. rewrite assoc_get_map_set in E.
      destruct (value_eqb key k) eqn:EQ.
      * apply value_eqb_eq in EQ. subst k. inversion E; subst y. left. split; assumption.
      * destruct (okE_entry r e k y He E) as [[Pk Hy]|[Pk [Hck [y' [-> [Hy' Hl]]]]]].
        -- left. split; assumption.
        -- right. split; [exact Pk|]. split; [exact Hck|].
           exists y'. split; [reflexivity|]. split; [exact Hy'|]. rewrite Hleaf. exact Hl.
  - intros k Hk. destruct (is_primitive k) eqn:Pk.
    + rewrite (equivb_primitive k key Pk), !peek_primitive by exact Pk.
      simpl. unfold map_get. rewrite assoc_get_map_set.
      destruct (value_eqb k key) eqn:EQ.
      * apply value_eqb_eq in EQ. subst k. rewrite value_eqb_refl. reflexivity.
      * apply value_eqb_neq in EQ.
        rewrite (proj2 (value_eqb_neq key k)) by congruence. reflexivity.
    + rewrite equivb_composite by assumption. rewrite P. simpl.
      rewrite !peek_composite by exact Pk. rewrite Hleaf. reflexivity.
Qed.

(** *** One level, given the levels below *)
Section Step.
Variable n : nat.
Hypothesis Hget : spec_get n.
Hypothesis Hhas : spec_has n.
Hypothesis Hset : spec_set n.

Lemma walk_get_spec key :
  clean key = true -> is_primitive key = false -> depth key <= S n ->
  forall properties r m,
    (forall p, In p properties -> In p (object_keys key)) -> okV r m ->
    exists m',
      walk_get (m_get (methods_at n)) (m_set (methods_at n)) key m properties
        = Ok (found key (peek_walk peek key m properties), m') /\
      okV r m' /\
      forall k qs, clean k = true -> (forall p, In p qs -> In p (object_keys k)) ->
        peek_walk peek k m' qs =
          if path_eqb k key qs properties then retag key (peek_walk peek k m qs)
          else peek_walk peek k m qs.
Proof.
  intros Hc P Hd. induction properties as [|p ps IH]; intros r m Hin Hm.
  - simpl walk_get. simpl peek_walk.
    pose proof (okV_leaf r m Hm) as L.
    inversion L as [E | keyRef y Pk Hy E].
    + exists m. simpl. split; [reflexivity|]. split; [exact Hm|].
      intros k qs Hk Hq. destruct qs as [|q qs]; [|reflexivity].
      simpl. rewrite <- E. reflexivity.
    + simpl. eexists. split; [reflexivity|].
      split; [apply okV_set_leaf; assumption|].
      intros k qs Hk Hq. destruct qs as [|q qs].
      * simpl. rewrite map_get_set, <- E. reflexivity.
      * rewrite path_eqb_cons_nil. simpl.
        apply in_tail in Hq. destruct Hq as [Hq _].
        rewrite map_get_set_other; [reflexivity|].
        intros X. apply (clean_no_sentinel k q Hk Hq). symmetry. exact X.
  - apply in_tail in Hin. destruct Hin as [Hp Hps].
    pose proof (clean_no_sentinel key p Hc Hp) as Hns.
    destruct (clean_prop key p n Hc Hd Hp) as [Hc' Hd'].
    destruct (okV_name r m p Hm Hns) as [E | [z [nm [na [no [E He]]]]]].
    + exists m. rewrite (peek_walk_absent key m p ps E).
      simpl walk_get. rewrite E. simpl. split; [reflexivity|].
      split; [exact Hm|].
      intros k qs Hk Hq. destruct (path_eqb k key qs (p :: ps)) eqn:PE; [|reflexivity].
      destruct qs as [|q qs]; [discriminate|].
      rewrite path_eqb_cons in PE. apply andb_true_iff in PE. destruct PE as [PE _].
      apply andb_true_iff in PE. destruct PE as [PE _].
      apply String.eqb_eq in PE. subst q.
      rewrite (peek_walk_absent k m p qs E). reflexivity.
    + rewrite (peek_walk_at_slot key m p z nm na no ps E).
      simpl walk_get. rewrite E.
      destruct (Hget (prop key p) Hd' Hc' (Nested r) _ He) as [e1 [G [He1 V1]]].
      rewrite G. simpl bind.
      destruct (peek_ok n (prop key p) Hd' Hc' (Nested r) _ He) as [U | Hpay].
      * rewrite U. simpl. eexists. split; [reflexivity|].
        split; [apply okV_set_name; assumption|].
        intros k qs Hk Hq. destruct qs as [|q qs].
        -- rewrite path_eqb_nil_cons. apply peek_walk_leaf_slot. exact Hns.
        -- apply in_tail in Hq. destruct Hq as [Hq Hqs].
           rewrite path_eqb_cons.
           destruct (string_dec q p) as [->|Hne].
           ++ rewrite String.eqb_refl. simpl andb.
              rewrite peek_walk_this_slot, (peek_walk_at_slot k m p z nm na no qs E).
              rewrite (V1 _ (clean_prop_any k p Hk Hq)).
              destruct (equivb (prop k p) (prop key p)) eqn:EQ; simpl; [|reflexivity].
              destruct (peek_equiv (depth (prop k p)) _ _ (le_n _)
                          (clean_prop_any k p Hk Hq) EQ (mkEkm z nm na no)) as [X _].
              rewrite X, U. destruct (path_eqb k key qs ps); reflexivity.
           ++ rewrite (proj2 (String.eqb_neq q p) Hne). simpl.
              apply peek_walk_other_slot. exact Hne.
      * destruct (nested_payload _ _ Hpay) as [cz [cm [ca [co [Ec Hcm]]]]].
        rewrite Ec.
        destruct (IH r cm Hps Hcm) as [cm' [W [Hcm' F]]].
        rewrite W. simpl bind.
        destruct (Hset (prop key p) Hd' Hc' (Nested r) e1 (SEkm cz cm' ca co) He1
                    (ok_nested r cz cm' ca co Hcm')) as [e2 [S2 [He2 [F2 _]]]].
        rewrite S2. simpl bind. eexists. split; [reflexivity|].
        split; [apply okV_set_name; assumption|].
        intros k qs Hk Hq. destruct qs as [|q qs].
        -- rewrite path_eqb_nil_cons. apply peek_walk_leaf_slot. exact Hns.
        -- apply in_tail in Hq. destruct Hq as [Hq Hqs].
           rewrite path_eqb_cons.
           destruct (string_dec q p) as [->|Hne].
           ++ rewrite String.eqb_refl. simpl andb.
              rewrite peek_walk_this_slot, (peek_walk_at_slot k m p z nm na no qs E).
              rewrite (F2 _ (clean_prop_any k p Hk Hq)).
              destruct (equivb (prop k p) (prop key p)) eqn:EQ; simpl.
              ** destruct (peek_equiv (depth (prop k p)) _ _ (le_n _)
                            (clean_prop_any k p Hk Hq) EQ (mkEkm z nm na no)) as [X _].
                 rewrite X, Ec. apply F; assumption.
              ** rewrite (V1 _ (clean_prop_any k p Hk Hq)). reflexivity.
           ++ rewrite (proj2 (String.eqb_neq q p) Hne). simpl.
              apply peek_walk_other_slot. exact Hne.
Qed.

Lemma getValuePair_spec key :
  clean key = true -> is_primitive key = false -> depth key <= S n ->
  forall r e, okE r e ->
  exists e',
    getValuePair (m_get (methods_at n)) (m_set (methods_at n)) e key
      = Ok (retag key (leaf e key), e') /\
    okE r e' /\ same_view e e'.
Proof.
  intros Hc P Hd r e He. unfold getValuePair.
  destruct (map_has (_map e) key) eqn:Hh.
  - destruct (map_has_true _ _ Hh) as [x [E G]]. rewrite G.
    destruct (okE_entry r e key x He E) as [[Pk _]|[_ [_ [y [-> [Hy Hl]]]]]];
      [congruence|].
    exists e. rewrite Hl. simpl. split; [reflexivity|].
    split; [exact He|]. intros k _. reflexivity.
  - destruct (walk_get_spec key Hc P Hd (sort (object_keys key)) r (tree_of e key)
                (fun p => sort_in_1 _ p) (okE_tree r e key He)) as [t [W [Ht F]]].
    rewrite W. simpl bind.
    change (peek_walk peek key (tree_of e key) (sort (object_keys key)))
      with (leaf e key).
    destruct (okV_set_tree r e key t He Ht) as [Ha Ho].
    assert (Hleaf : forall k, clean k = true -> is_primitive k = false ->
              leaf (set_tree e key t) k =
              if equivb k key then retag key (leaf e k) else leaf e k).
    { intros k Hk Pk.
      apply (leaf_after_walk e (set_tree e key t) key t (retag key) k Hk Pk P).
      - intros k'. apply tree_of_set_tree.
      - exact F. }
    pose proof (leaf_is_ok key r e Hc He) as L.
    inversion L as [U | kr y Pkr Hy U].
    + simpl. exists (set_tree e key t). split; [reflexivity|].
      assert (Hsame : forall k, clean k = true -> is_primitive k = false ->
                leaf (set_tree e key t) k = leaf e k).
      { intros k Hk Pk. rewrite Hleaf by assumption.
        destruct (equivb k key) eqn:EQ; [|reflexivity].
        destruct (peek_equiv (depth k) k key (le_n _) Hk EQ e) as [_ X].
        rewrite (X Pk), <- U. reflexivity. }
      split.
      * apply (okE_same_leaves r e _ He Ha Ho Hsame). apply map_of_set_tree.
      * apply (view_same_leaves e _ Hsame). apply map_of_set_tree.
    + simpl. eexists. split; [reflexivity|].
      set (e' := set_map (set_tree e key t)
                   (map_set (map_delete (_map (set_tree e key t)) kr) key (SPair key y))).
      assert (Hleaf' : forall k, clean k = true -> is_primitive k = false ->
                leaf e' k = if equivb k key then SPair key y else leaf e k).
      { intros k Hk Pk. change (leaf e' k) with (leaf (set_tree e key t) k).
        rewrite Hleaf by assumption.
        destruct (equivb k key) eqn:EQ; [|reflexivity].
        destruct (peek_equiv (depth k) k key (le_n _) Hk EQ e) as [_ X].
        rewrite (X Pk), <- U. reflexivity. }
      assert (Hmap : _map e' = registered e key y).
      { unfold e', registered. rewrite map_of_set_map, map_of_set_tree, <- U. reflexivity. }
      split.
      * apply (okE_register r e e' key y He Hc P Hy Ha Ho Hleaf' Hmap).
      * intros k Hk.
        rewrite (view_register r e e' key y He Hc P Hleaf' Hmap k Hk).
        destruct (equivb k key) eqn:EQ; [|reflexivity].
        destruct (peek_equiv (depth k) k key (le_n _) Hk EQ e) as [X _].
        rewrite X, (peek_composite e key P), <- U. reflexivity.
Qed.

Lemma get_level_spec key :
  clean key = true -> depth key <= S n ->
  forall r e, okE r e ->
  exists e',
    get_level (m_get (methods_at n)) (m_set (methods_at n)) e key
      = Ok (peek e key, e') /\
    okE r e' /\ same_view e e'.
Proof.
  intros Hc Hd r e He. unfold get_level. destruct (is_primitive key) eqn:P.
  - exists e. rewrite peek_primitive by exact P. split; [reflexivity|].
    split; [exact He|]. intros k _. reflexivity.
  - destruct (getValuePair_spec key Hc P Hd r e He) as [e' [G [He' V]]].
    rewrite G. simpl bind. exists e'. split; [|split; assumption].
    rewrite (peek_composite e key P).
    destruct (leaf e key) as [v|kr y|z m a o] eqn:L; simpl; try reflexivity.
    pose proof (leaf_is_ok key r e Hc He) as X. rewrite L in X.
    inversion X. reflexivity.
Qed.

Lemma has_level_spec key :
  clean key = true -> depth key <= S n ->
  forall r e, okE r e ->
  exists e',
    has_level (m_get (methods_at n)) (m_set (methods_at n)) e key
      = Ok (present e key, e') /\
    okE r e' /\ same_view e e'.
Proof.
  intros Hc Hd r e He. unfold has_level, present. destruct (is_primitive key) eqn:P.
  - exists e. split; [reflexivity|]. split; [exact He|]. intros k _. reflexivity.
  - destruct (getValuePair_spec key Hc P Hd r e He) as [e' [G [He' V]]].
    rewrite G. simpl bind. exists e'. rewrite is_undefined_retag.
    split; [reflexivity|split; assumption].
Qed.

Lemma walk_set_spec key vp :
  clean key = true -> is_primitive key = false -> depth key <= S n ->
  forall properties r m,
    (forall p, In p properties -> In p (object_keys key)) ->
    okV r m -> okSlot r sentinel vp ->
    exists m',
      walk_set (m_has (methods_at n)) (m_get (methods_at n)) (m_set (methods_at n))
               key vp m properties
        = Ok (peek_walk peek key m properties, m') /\
      okV r m' /\
      forall k qs, clean k = true -> (forall p, In p qs -> In p (object_keys k)) ->
        peek_walk peek k m' qs =
          if path_eqb k key qs properties then vp else peek_walk peek k m qs.
Proof.
  intros Hc P Hd. induction properties as [|p ps IH]; intros r m Hin Hm Hvp.
  - simpl. eexists. split; [reflexivity|]. split; [apply okV_set; assumption|].
    intros k qs Hk Hq. destruct qs as [|q qs].
    + simpl. apply map_get_set.
    + rewrite path_eqb_cons_nil. simpl. apply in_tail in Hq. destruct Hq as [Hq _].
      rewrite map_get_set_other; [reflexivity|].
      intros X. apply (clean_no_sentinel k q Hk Hq). symmetry. exact X.
  - apply in_tail in Hin. destruct Hin as [Hp Hps].
    pose proof (clean_no_sentinel key p Hc Hp) as Hns.
    destruct (clean_prop key p n Hc Hd Hp) as [Hc' Hd'].
    simpl walk_set.
    set (m1 := if negb (map_has m (VStr p))
               then map_set m (VStr p) (SNode empty) else m).
    assert (H1 : okV r m1 /\
                 (forall k qs, peek_walk peek k m1 qs = peek_walk peek k m qs) /\
                 exists z nm na no, map_get m1 (VStr p) = SEkm z nm na no /\
                                    okE (Nested r) (mkEkm z nm na no)).
    { subst m1. destruct (map_has m (VStr p)) eqn:Hh; simpl.
      - split; [exact Hm|]. split; [reflexivity|].
        destruct (okV_name r m p Hm Hns) as [U | X]; [|exact X].
        exfalso. destruct (map_has_true _ _ Hh) as [x [E G]].
        rewrite G in U. subst x. apply (okV_slot _ _ _ _ Hm) in E. inversion E.
      - split; [apply okV_set_name; [exact Hm|exact Hns|apply okE_empty]|].
        split; [intros k qs; apply peek_walk_add_empty; assumption|].
        exists VUndefined, [], [], []. split; [apply map_get_set|apply okE_empty]. }
    destruct H1 as [Hm1 [Hsame1 [z [nm [na [no [E He]]]]]]].
    rewrite E.
    destruct (Hhas (prop key p) Hd' Hc' (Nested r) _ He) as [e1 [G1 [He1 V1]]].
    rewrite G1. simpl bind.
    set (N := mkEkm z nm na no) in *.
    assert (H2 : exists e2,
               (if negb (present N (prop key p))
                then m_set (methods_at n) e1 (prop key p) (SNode empty) else Ok e1) = Ok e2 /\
               okE (Nested r) e2 /\
               (exists cz cm ca co, peek e2 (prop key p) = SEkm cz cm ca co /\ okV r cm /\
                  forall k qs, peek_walk peek k cm qs = onward k qs (peek N (prop key p))) /\
               (forall k, clean k = true -> equivb k (prop key p) = false ->
                  peek e2 k = peek N k)).
    { destruct (present_spec (prop key p) (Nested r) N Hc' He) as [Hpres Habs].
      destruct (present N (prop key p)) eqn:Pr; simpl.
      - exists e1. split; [reflexivity|]. split; [exact He1|]. split.
        + destruct (nested_payload _ _ (Hpres eq_refl)) as [cz [cm [ca [co [Ec Hcm]]]]].
          exists cz, cm, ca, co. rewrite (V1 _ Hc'). split; [exact Ec|].
          split; [exact Hcm|]. intros k qs. rewrite Ec. reflexivity.
        + intros k Hk _. apply V1. exact Hk.
      - destruct (Hset (prop key p) Hd' Hc' (Nested r) e1 (SNode empty) He1
                    (ok_nested r _ _ _ _ (okV_nil r))) as [e2 [S2 [He2 [F2 _]]]].
        exists e2. split; [exact S2|]. split; [exact He2|]. split.
        + exists VUndefined, [], [], [].
          rewrite (F2 _ Hc'), equivb_refl by exact Hc'. split; [reflexivity|].
          split; [apply okV_nil|]. intros k qs.
          rewrite (Habs eq_refl), peek_walk_nil. reflexivity.
        + intros k Hk EQ. rewrite (F2 k Hk), EQ. apply V1. exact Hk. }
    destruct H2 as [e2 [S2 [He2 [[cz [cm [ca [co [Ec [Hcm Hon]]]]]] Hother]]]].
    rewrite S2. simpl bind.
    destruct (Hget (prop key p) Hd' Hc' (Nested r) e2 He2) as [e3 [G3 [He3 V3]]].
    rewrite G3. simpl bind. rewrite Ec.
    destruct (IH r cm Hps Hcm Hvp) as [cm' [W [Hcm' F]]].
    rewrite W. simpl bind.
    destruct (Hset (prop key p) Hd' Hc' (Nested r) e3 (SEkm cz cm' ca co) He3
                (ok_nested r cz cm' ca co Hcm')) as [e4 [S4 [He4 [F4 _]]]].
    rewrite S4. simpl bind.
    rewrite <- (Hsame1 key (p :: ps)), (peek_walk_onward_at key m1 p z nm na no ps E).
    fold N. rewrite <- (Hon key ps).
    eexists. split; [reflexivity|].
    split; [apply okV_set_name; assumption|].
    intros k qs Hk Hq. rewrite <- (Hsame1 k qs). destruct qs as [|q qs].
    + rewrite path_eqb_nil_cons. apply peek_walk_leaf_slot. exact Hns.
    + apply in_tail in Hq. destruct Hq as [Hq Hqs]. rewrite path_eqb_cons.
      destruct (string_dec q p) as [->|Hne].
      * rewrite String.eqb_refl. simpl andb.
        rewrite peek_walk_onward, (peek_walk_onward_at k m1 p z nm na no qs E).
        fold N.
        pose proof (clean_prop_any k p Hk Hq) as Hck.
        rewrite (F4 _ Hck).
        destruct (equivb (prop k p) (prop key p)) eqn:EQ; simpl.
        -- rewrite (F k qs Hk Hqs).
           destruct (path_eqb k key qs ps); [reflexivity|].
           destruct (peek_equiv _ _ _ (le_n _) Hck EQ N) as [X _].
           rewrite X. apply Hon.
        -- rewrite (V3 _ Hck), (Hother _ Hck EQ). reflexivity.
      * rewrite (proj2 (String.eqb_neq q p) Hne). simpl.
        apply peek_walk_other_slot. exact Hne.
Qed.

Lemma set_level_spec key :
  clean key = true -> depth key <= S n ->
  forall r e x, okE r e -> okPayload r x ->
  exists e',
    set_level (m_has (methods_at n)) (m_get (methods_at n)) (m_set (methods_at n))
              e key x = Ok e' /\
    okE r e' /\
    (forall k, clean k = true -> peek e' k = if equivb k key then x else peek e k) /\
    present e' key = true.
Proof.
  intros Hc Hd r e x He Hx. unfold set_level. destruct (is_primitive key) eqn:P.
  - eexists. split; [reflexivity|]. apply set_primitive_spec; assumption.
  - destruct (walk_set_spec key (SPair key x) Hc P Hd (sort (object_keys key)) r
                (tree_of e key) (fun p => sort_in_1 _ p) (okE_tree r e key He)
                (ok_leaf r key x P Hx)) as [t [W [Ht F]]].
    rewrite W. simpl bind.
    change (peek_walk peek key (tree_of e key) (sort (object_keys key)))
      with (leaf e key).
    set (m := if stored_truthy (leaf e key)
              then map_delete (_map e) (index0 (leaf e key)) else _map e).
    set (e' := set_tree (set_map e (map_set m key (SPair key x))) key t).
    exists e'. split; [reflexivity|].
    destruct (okE_trees r e He) as [Ha Ho].
    destruct (okV_set_tree_of r (set_map e (map_set m key (SPair key x))) key t Ha Ho Ht)
      as [Ha' Ho'].
    assert (Hleaf : forall k, clean k = true -> is_primitive k = false ->
              leaf e' k = if equivb k key then SPair key x else leaf e k).
    { intros k Hk Pk.
      apply (leaf_after_walk e e' key t (fun _ => SPair key x) k Hk Pk P).
      - intros k'. unfold e'. rewrite tree_of_set_tree. reflexivity.
      - exact F. }
    assert (Hmap : _map e' = registered e key x).
    { unfold e'. rewrite map_of_set_tree. reflexivity. }
    split; [|split].
    + apply (okE_register r e e' key x He Hc P Hx Ha' Ho' Hleaf Hmap).
    + apply (view_register r e e' key x He Hc P Hleaf Hmap).
    + unfold present. rewrite P, (Hleaf key Hc P), equivb_refl by exact Hc. reflexivity.
Qed.
End Step.

(** The methods meet their specification at every depth. *)
Lemma depth_0_primitive key : depth key <= 0 -> is_primitive key = true.
Proof. destruct key; simpl; intros H; try reflexivity. lia. Qed.

Lemma spec_all n : spec_get n /\ spec_has n /\ spec_set n.
Proof.
  induction n as [|n [IHg [IHh IHs]]].
  - split; [|split].
    + intros key Hd Hc r e He. pose proof (depth_0_primitive key Hd) as P.
      rewrite methods_at_get_primitive, peek_primitive by exact P.
      exists e. split; [reflexivity|]. split; [exact He|]. intros k _. reflexivity.
    + intros key Hd Hc r e He. pose proof (depth_0_primitive key Hd) as P.
      rewrite methods_at_has_primitive by exact P. unfold present. rewrite P.
      exists e. split; [reflexivity|]. split; [exact He|]. intros k _. reflexivity.
    + intros key Hd Hc r e x He Hx. pose proof (depth_0_primitive key Hd) as P.
      rewrite methods_at_set_primitive by exact P.
      eexists. split; [reflexivity|]. apply set_primitive_spec; assumption.
  - split; [|split].
    + intros key Hd Hc r e He. apply (get_level_spec n IHg IHs key Hc Hd r e He).
    + intros key Hd Hc r e He. apply (has_level_spec n IHg IHs key Hc Hd r e He).
    + intros key Hd Hc r e x He Hx.
      apply (set_level_spec n IHg IHh IHs key Hc Hd r e x He Hx).
Qed.

(** *** Keys with the same properties in another order *)

(** Two object-like keys of the same kind whose own properties are the
    same names with the same values, in any order. *)
Definition same_properties (k1 k2 : value) : Prop :=
  is_primitive k1 = false /\ is_primitive k2 = false /\
  isArray k1 = isArray k2 /\
  Permutation (own_props k1) (own_props k2).

Lemma distinct_NoDup l : distinct l = true <-> NoDup l.
Proof.
  induction l as [|h t IH]; simpl.
  - split; [constructor|reflexivity].
  - rewrite andb_true_iff, negb_true_iff, IH. split.
    + intros [H1 H2]. constructor; [|exact H2]. intros Hin.
      assert (X : existsb (String.eqb h) t = true).
      { apply existsb_exists. exists h. split; [exact Hin|apply String.eqb_refl]. }
      congruence.
    + intros H. inversion H as [|? ? Hn Hd]; subst. split; [|exact Hd].
      destruct (existsb (String.eqb h) t) eqn:X; [|reflexivity].
      apply existsb_exists in X. destruct X as [y [Hy E]].
      apply String.eqb_eq in E. subst y. contradiction.
Qed.

Lemma assoc_get_in (V : Type) (l : list (string * V)) p v :
  NoDup (map fst l) ->
  (assoc_get String.eqb l p = Some v <-> In (p, v) l).
Proof.
  induction l as [|[n x] t IH]; simpl; intros Hnd.
  - split; [discriminate|intros []].
  - inversion Hnd as [|? ? Hn Hd]; subst.
    destruct (String.eqb n p) eqn:E.
    + apply String.eqb_eq in E. subst n. split.
      * intros H. inversion H. left. reflexivity.
      * intros [H|H]; [inversion H; reflexivity|].
        exfalso. apply Hn. apply (in_map fst) in H. exact H.
    + apply String.eqb_neq in E. rewrite (IH Hd). split.
      * intros H. right. exact H.
      * intros [H|H]; [inversion H; congruence|exact H].
Qed.

Lemma assoc_get_perm (V : Type) (l l' : list (string * V)) p :
  NoDup (map fst l) -> Permutation l l' ->
  assoc_get String.eqb l p = assoc_get String.eqb l' p.
Proof.
  intros Hnd Hp.
  assert (Hnd' : NoDup (map fst l')).
  { eapply Permutation_NoDup; [|exact Hnd]. apply Permutation_map. exact Hp. }
  destruct (assoc_get String.eqb l p) as [v|] eqn:E.
  - symmetry. apply (assoc_get_in V l' p v Hnd').
    eapply Permutation_in; [exact Hp|]. apply (assoc_get_in V l p v Hnd). exact E.
  - destruct (assoc_get String.eqb l' p) as [v'|] eqn:E'; [|reflexivity].
    apply (assoc_get_in V l' p v' Hnd') in E'.
    apply (Permutation_in _ (Permutation_sym Hp)) in E'.
    apply (assoc_get_in V l p v' Hnd) in E'. congruence.
Qed.

Lemma same_properties_prop k1 k2 p :
  clean k1 = true -> same_properties k1 k2 -> prop k1 p = prop k2 p.
Proof.
  intros Hc [_ [_ [_ Hp]]]. unfold prop.
  rewrite (assoc_get_perm value (own_props k1) (own_props k2) p); [reflexivity| |exact Hp].
  apply distinct_NoDup. apply (clean_distinct k1 Hc).
Qed.

Lemma same_properties_keys k1 k2 :
  same_properties k1 k2 -> sort (object_keys k1) = sort (object_keys k2).
Proof.
  intros [_ [_ [_ Hp]]]. apply sort_permutation. unfold object_keys.
  apply Permutation_map. exact Hp.
Qed.

Lemma same_properties_clean k1 k2 :
  clean k1 = true -> same_properties k1 k2 -> clean k2 = true.
Proof.
  intros Hc [P1 [P2 [_ Hp]]].
  destruct k1 as [| | | | |r1 a1 ps1]; try discriminate.
  destruct k2 as [| | | | |r2 a2 ps2]; try discriminate.
  simpl own_props in Hp. rewrite clean_obj in *. unfold names_ok in *.
  rewrite !andb_true_iff, negb_true_iff in *. destruct Hc as [[Hd Hr] Hall].
  pose proof (Permutation_map fst Hp) as Hpn.
  split; [split|].
  - apply distinct_NoDup. eapply Permutation_NoDup; [exact Hpn|].
    apply distinct_NoDup. exact Hd.
  - destruct (existsb (String.eqb "_ekm_value") (map fst ps2)) eqn:X; [|reflexivity].
    apply existsb_exists in X. destruct X as [y [Hy E]].
    assert (X : existsb (String.eqb "_ekm_value") (map fst ps1) = true).
    { apply existsb_exists. exists y. split; [|exact E].
      eapply Permutation_in; [apply Permutation_sym; exact Hpn|exact Hy]. }
    congruence.
  - rewrite forallb_forall in *. intros nv Hnv. apply Hall.
    eapply Permutation_in; [apply Permutation_sym; exact Hp|exact Hnv].
Qed.

(** Keys with the same properties are equivalent. *)
Lemma same_properties_equiv k1 k2 :
  clean k1 = true -> same_properties k1 k2 -> equivb k2 k1 = true.
Proof.
  intros Hc Hs. pose proof (same_properties_clean k1 k2 Hc Hs) as Hc2.
  destruct Hs as [P1 [P2 [Ha Hp]]].
  rewrite equivb_composite by assumption. rewrite P1, Ha, Bool.eqb_reflx. simpl.
  unfold path_eqb.
  rewrite (same_properties_keys k1 k2 (conj P1 (conj P2 (conj Ha Hp)))).
  rewrite (proj2 (names_eqb_eq _ _) eq_refl). simpl.
  apply forallb_forall. intros p Hin. apply sort_in_1 in Hin.
  rewrite (same_properties_prop k1 k2 p Hc (conj P1 (conj P2 (conj Ha Hp)))).
  apply equivb_refl. apply (clean_prop_any k2 p Hc2 Hin).
Qed.

(** *** The methods of the class on well-shaped maps *)
Lemma get_spec e key :
  okE User e -> clean key = true ->
  exists e', get e key = Ok (peek e key, e') /\ okE User e' /\ same_view e e'.
Proof.
  intros He Hc. destruct (spec_all (depth key)) as [G _].
  apply (G key (le_n _) Hc User e He).
Qed.

Lemma has_spec e key :
  okE User e -> clean key = true ->
  exists e', has e key = Ok (present e key, e') /\ okE User e' /\ same_view e e'.
Proof.
  intros He Hc. destruct (spec_all (depth key)) as [_ [H _]].
  apply (H key (le_n _) Hc User e He).
Qed.

Lemma set_stored_spec e key x :
  okE User e -> clean key = true -> okPayload User x ->
  exists e', set_stored e key x = Ok e' /\ okE User e' /\
    (forall k, clean k = true -> peek e' k = if equivb k key then x else peek e k) /\
    present e' key = true.
Proof.
  intros He Hc Hx. destruct (spec_all (depth key)) as [_ [_ S]].
  apply (S key (le_n _) Hc User e x He Hx).
Qed.

Lemma set_spec e key v :
  okE User e -> clean key = true ->
  exists e', set e key v = Ok e' /\ okE User e' /\
    (forall k, clean k = true -> peek e' k = if equivb k key then SVal v else peek e k) /\
    present e' key = true.
Proof. intros He Hc. apply set_stored_spec; [exact He|exact Hc|constructor]. Qed.

Lemma delete_spec e key :
  okE User e -> clean key = true ->
  exists e', delete e key = Ok (present e key, e') /\ okE User e' /\
    forall k, clean k = true ->
      peek e' k = if equivb k key && present e key then undefined else peek e k.
Proof.
  intros He Hc. unfold delete.
  destruct (has_spec e key He Hc) as [e1 [H1 [He1 V1]]]. rewrite H1. simpl bind.
  destruct (present e key); simpl.
  - destruct (set_spec e1 key VUndefined He1 Hc) as [e2 [S2 [He2 [F2 _]]]].
    rewrite S2. simpl bind. exists e2. split; [reflexivity|]. split; [exact He2|].
    intros k Hk. rewrite (F2 k Hk), andb_true_r.
    destruct (equivb k key); [reflexivity|apply V1; exact Hk].
  - exists e1. split; [reflexivity|]. split; [exact He1|].
    intros k Hk. rewrite andb_false_r. apply V1. exact Hk.
Qed.

Lemma present_equiv k key e :
  clean k = true -> equivb k key = true -> present e k = present e key.
Proof.
  intros Hk EQ. unfold present. destruct (is_primitive k) eqn:P.
  - rewrite equivb_primitive in EQ by exact P. apply value_eqb_eq in EQ. subst key.
    rewrite P. reflexivity.
  - assert (Pk : is_primitive key = false).
    { rewrite equivb_composite in EQ by assumption.
      destruct (is_primitive key); [discriminate|reflexivity]. }
    rewrite Pk. destruct (peek_equiv (depth k) k key (le_n _) Hk EQ e) as [_ X].
    rewrite (X P). reflexivity.
Qed.

(** *** Histories of a map *)
Inductive operation : Type :=
| DoSet (key : value) (v : value)
| DoGet (key : value)
| DoHas (key : value)
| DoDelete (key : value).

Definition operation_key (o : operation) : value :=
  match o with
  | DoSet k _ | DoGet k | DoHas k | DoDelete k => k
  end.

Definition run (e : ekm) (o : operation) : res ekm :=
  match o with
  | DoSet k v => set e k v
  | DoGet k => ' (_, e') <- get e k ;; Ok e'
  | DoHas k => ' (_, e') <- has e k ;; Ok e'
  | DoDelete k => ' (_, e') <- delete e k ;; Ok e'
  end.

Fixpoint run_all (e : ekm) (ops : list operation) : res ekm :=
  match ops with
  | [] => Ok e
  | o :: rest => e' <- run e o ;; run_all e' rest
  end.

(** A history all of whose keys are clean. *)
Definition clean_history (ops : list operation) : Prop :=
  Forall (fun o => clean (operation_key o) = true) ops.

Lemma run_ok e o :
  okE User e -> clean (operation_key o) = true ->
  exists e', run e o = Ok e' /\ okE User e'.
Proof.
  intros He Hc. destruct o as [k v|k|k|k]; simpl in *.
  - destruct (set_spec e k v He Hc) as [e' [S [He' _]]]. exists e'. split; assumption.
  - destruct (get_spec e k He Hc) as [e' [G [He' _]]]. rewrite G.
    exists e'. split; [reflexivity|assumption].
  - destruct (has_spec e k He Hc) as [e' [G [He' _]]]. rewrite G.
    exists e'. split; [reflexivity|assumption].
  - destruct (delete_spec e k He Hc) as [e' [G [He' _]]]. rewrite G.
    exists e'. split; [reflexivity|assumption].
Qed.

(** Every history with clean keys runs to the end, without a
    [TypeError], and leaves a well-shaped map. *)
Lemma run_all_ok ops e :
  okE User e -> clean_history ops ->
  exists e', run_all e ops = Ok e' /\ okE User e'.
Proof.
  revert e. induction ops as [|o rest IH]; intros e He Hc.
  - exists e. split; [reflexivity|exact He].
  - inversion Hc as [|? ? Ho Hrest]; subst.
    destruct (run_ok e o He Ho) as [e1 [R He1]]. simpl. rewrite R. simpl.
    apply IH; assumption.
Qed.

(** C1, as amended.  On a map whose history used only keys free of
    the reserved property name, setting [v] under a key [k1] free of it
    too makes every key [k2] of the same kind with the same properties
    and values, listed in any order and whatever its reference, answer
    [v] to [get] and [true] to [has]. *)
Theorem set_then_get_same_properties (ops : list operation) (k1 k2 v : value) :
  clean_history ops -> clean k1 = true -> same_properties k1 k2 ->
  exists e e' e1 e2,
    run_all empty ops = Ok e /\
    set e k1 v = Ok e' /\
    get e' k2 = Ok (SVal v, e1) /\
    has e' k2 = Ok (true, e2).
Proof.
  intros Hops Hc Hs.
  destruct (run_all_ok ops empty (okE_empty User) Hops) as [e [R He]].
  destruct (set_spec e k1 v He Hc) as [e' [S [He' [F Pr]]]].
  pose proof (same_properties_clean k1 k2 Hc Hs) as Hc2.
  pose proof (same_properties_equiv k1 k2 Hc Hs) as EQ.
  destruct (get_spec e' k2 He' Hc2) as [e1 [G _]].
  destruct (has_spec e' k2 He' Hc2) as [e2 [H _]].
  exists e, e', e1, e2. repeat split; try assumption.
  - rewrite G, (F k2 Hc2), EQ. reflexivity.
  - rewrite H, (present_equiv k2 k1 e' Hc2 EQ), Pr. reflexivity.
Qed.

Lemma set_then_get_same_properties_witness :
  exists e e' e1 e2,
    run_all empty [DoSet key_empty (VNum 0); DoGet key_ab] = Ok e /\
    set e key_ba (VNum 10) = Ok e' /\
    get e' key_ab = Ok (SVal (VNum 10), e1) /\
    has e' key_ab = Ok (true, e2).
Proof.
  apply (set_then_get_same_properties
           [DoSet key_empty (VNum 0); DoGet key_ab] key_ba key_ab (VNum 10)).
  - repeat constructor.
  - reflexivity.
  - repeat split. simpl. apply perm_swap.
Defined.

(** C1 as stated fails: on a map that holds the key [{}], [set] with a
    key whose first property is named ["_ekm_value"] throws, reading
    the value pair of [{}] as the map of the next level. *)
Lemma reserved_name_breaks_set :
  same_properties key_reserved key_reserved' /\
  (e <- set empty key_empty (VNum 0) ;; set e key_reserved (VNum 1)) = TypeError /\
  ~ (forall ops k1 k2 v e, same_properties k1 k2 -> run_all empty ops = Ok e ->
       exists e' e1, set e k1 v = Ok e' /\ get e' k2 = Ok (SVal v, e1)).
Proof.
  assert (Hs : same_properties key_reserved key_reserved')
    by (repeat split; simpl; apply Permutation_refl).
  split; [exact Hs|]. split; [reflexivity|].
  intros H.
  destruct (H [DoSet key_empty (VNum 0)] key_reserved key_reserved' (VNum 1) _ Hs eq_refl)
    as [e' [e1 [S _]]].
  vm_compute in S. discriminate S.
Qed.

(** C3 on concrete maps: [delete] of a present key returns [true] and
    the key is still reported by [has], an object key and a primitive
    key alike. *)
Lemma delete_then_has_example :
  (e <- set empty key_ba (VNum 10) ;;
   ' (deleted, e) <- delete e key_ba ;;
   ' (present_after, e) <- has e key_ba ;;
   ' (value_after, _) <- get e key_ba ;;
   Ok (deleted, present_after, value_after)) = Ok (true, true, undefined) /\
  (e <- set empty (VStr "id") (VNum 10) ;;
   ' (deleted, e) <- delete e (VStr "id") ;;
   ' (present_after, e) <- has e (VStr "id") ;;
   Ok (deleted, present_after)) = Ok (true, true).
Proof. split; reflexivity. Qed.
End EKMFacts.


(** ** Resolution metadata *)
Module ResolutionFacts.
Import EKM EKMFacts Resolution.
Unset Implicit Arguments.

(** A state all of whose maps are well shaped. *)
Definition okState (s : State) : Prop :=
  NoDup (map fst s) /\ forall n e, In (n, e) s -> okE User e.

Lemma okState_nil : okState [].
Proof. split; [constructor|intros n e []]. Qed.

Lemma assoc_get_some_in (V : Type) (s : list (string * V)) n e :
  assoc_get String.eqb s n = Some e -> In (n, e) s.
Proof.
  induction s as [|[k v] t IH]; simpl; [discriminate|].
  destruct (String.eqb k n) eqn:E.
  - apply String.eqb_eq in E. subst. intros H. inversion H. left. reflexivity.
  - intros H. right. apply IH, H.
Qed.

Lemma in_assoc_set (V : Type) (s : list (string * V)) n e n' e' :
  In (n', e') (assoc_set String.eqb s n e) -> (n', e') = (n, e) \/ In (n', e') s.
Proof.
  induction s as [|[k v] t IH]; simpl.
  - intros [H|[]]. left. symmetry. exact H.
  - destruct (String.eqb k n) eqn:E; simpl.
    + apply String.eqb_eq in E. subst k. intros [H|H]; [left; symmetry; exact H|right; right; exact H].
    + intros [H|H]; [right; left; exact H|].
      destruct (IH H) as [X|X]; [left; exact X|right; right; exact X].
Qed.

Lemma in_assoc_delete (V : Type) (s : list (string * V)) n n' e' :
  In (n', e') (assoc_delete String.eqb s n) -> In (n', e') s.
Proof.
  induction s as [|[k v] t IH]; simpl; [tauto|].
  destruct (String.eqb k n); simpl; [tauto|]. intros [H|H]; [left; exact H|right; apply IH, H].
Qed.

Lemma okState_get s n e : okState s -> assoc_get String.eqb s n = Some e -> okE User e.
Proof. intros [_ Hs] H. apply (Hs n e). apply assoc_get_some_in, H. Qed.

Lemma okState_set s n e : okState s -> okE User e -> okState (assoc_set String.eqb s n e).
Proof.
  intros [Hnd Hs] He. split.
  - apply (assoc_set_NoDup String.eqb String.eqb_eq). exact Hnd.
  - intros n' e' H. destruct (in_assoc_set _ _ _ _ _ _ H) as [X|X].
    + inversion X; subst. exact He.
    + apply (Hs n' e' X).
Qed.

Lemma okState_delete s n : okState s -> okState (assoc_delete String.eqb s n).
Proof.
  intros [Hnd Hs]. split.
  - apply (assoc_delete_NoDup String.eqb). exact Hnd.
  - intros n' e' H. apply (Hs n' e'). apply (in_assoc_delete _ _ _ _ _ H).
Qed.

Lemma assoc_get_delete_some (V : Type) (s : list (string * V)) n n' e :
  assoc_get String.eqb (assoc_delete String.eqb s n) n' = Some e ->
  exists e', assoc_get String.eqb s n' = Some e'.
Proof.
  induction s as [|[k v] t IH]; simpl; [discriminate|].
  destruct (String.eqb k n) eqn:E.
  - intros H. destruct (String.eqb k n'); [eexists; reflexivity|eexists; exact H].
  - simpl. destruct (String.eqb k n'); [intros _; eexists; reflexivity|exact IH].
Qed.

(** *** Copying a map *)
Lemma in_assoc_get (l : jsmap) k x :
  NoDup (map fst l) -> In (k, x) l -> assoc_get value_eqb l k = Some x.
Proof.
  induction l as [|[k0 x0] t IH]; simpl; intros Hnd Hin; [contradiction|].
  inversion Hnd as [|? ? Hn Hd]; subst. destruct Hin as [H|H].
  - inversion H; subst. rewrite value_eqb_refl. reflexivity.
  - destruct (value_eqb k0 k) eqn:E.
    + apply value_eqb_eq in E. subst k0. exfalso. apply Hn.
      apply (in_map fst) in H. exact H.
    + apply IH; assumption.
Qed.

Lemma primitive_clean k : is_primitive k = true -> clean k = true.
Proof. destruct k; simpl; try reflexivity. discriminate. Qed.

Lemma entries_ok e :
  okE User e ->
  Forall (fun kx => clean (fst kx) = true /\ okPayload User (snd kx)) (entries e).
Proof.
  intros He. unfold entries. apply Forall_forall. intros [k x] Hin.
  apply in_map_iff in Hin. destruct Hin as [[k0 x0] [E Hin]]. simpl in E.
  inversion E; subst k. clear E.
  apply (in_assoc_get _ _ _ (okE_nodup User e He)) in Hin.
  destruct (okE_entry User e k0 x0 He Hin) as [[P Hx]|[P [Hc [y [-> [Hy _]]]]]];
    simpl; rewrite P.
  - split; [apply primitive_clean; exact P|subst; exact Hx].
  - split; [exact Hc|subst; exact Hy].
Qed.

Lemma copy_fold l acc :
  okE User acc ->
  Forall (fun kx => clean (fst kx) = true /\ okPayload User (snd kx)) l ->
  exists e', fold_left (fun acc kx => e <- acc ;; set_stored e (fst kx) (snd kx))
               l (Ok acc) = Ok e' /\ okE User e'.
Proof.
  revert acc. induction l as [|[k x] t IH]; intros acc Ha Hl; simpl.
  - exists acc. split; [reflexivity|exact Ha].
  - inversion Hl as [|? ? [Hc Hx] Ht]; subst. simpl in Hc, Hx.
    destruct (set_stored_spec acc k x Ha Hc Hx) as [e1 [S [He1 _]]].
    rewrite S. apply IH; assumption.
Qed.

(** [new EquivalentKeyMap(state)] does not throw on a well-shaped map. *)
Lemma copy_ok e : okE User e -> exists e', copy e = Ok e' /\ okE User e'.
Proof.
  intros He. unfold copy. apply copy_fold; [apply okE_empty|apply entries_ok; exact He].
Qed.

(** What [forEach] hands over for a key equivalent to [k] is what the
    map answers for [k]. *)
Lemma entries_view e k :
  okE User e -> clean k = true ->
  Forall (fun kx => clean (fst kx) = true /\ okPayload User (snd kx) /\
                    (equivb k (fst kx) = true -> snd kx = peek e k)) (entries e).
Proof.
  intros He Hk. unfold entries. apply Forall_forall. intros [k1 x] Hin.
  apply in_map_iff in Hin. destruct Hin as [[k0 x0] [E Hin]]. simpl in E.
  inversion E; subst k1. clear E.
  apply (in_assoc_get _ _ _ (okE_nodup User e He)) in Hin.
  destruct (okE_entry User e k0 x0 He Hin) as [[P Hx]|[P [Hc [y [-> [Hy Hl]]]]]];
    simpl; rewrite P.
  - split; [apply primitive_clean; exact P|]. split; [subst; exact Hx|].
    subst x. intros EQ. destruct (is_primitive k) eqn:Pk.
    + rewrite equivb_primitive in EQ by exact Pk. apply value_eqb_eq in EQ. subst k0.
      rewrite peek_primitive by exact Pk. unfold map_get. rewrite Hin. reflexivity.
    + rewrite equivb_composite in EQ by assumption. rewrite P in EQ. discriminate EQ.
  - split; [exact Hc|]. split; [subst; exact Hy|]. subst x. simpl.
    intros EQ. destruct (peek_equiv (depth k) k k0 (le_n _) Hk EQ e) as [X _].
    rewrite X, (peek_composite e k0 P), Hl. reflexivity.
Qed.

Lemma copy_fold_view k u l : forall acc,
  okE User acc -> clean k = true ->
  Forall (fun kx => clean (fst kx) = true /\ okPayload User (snd kx) /\
                    (equivb k (fst kx) = true -> snd kx = u)) l ->
  peek acc k = u \/ peek acc k = undefined ->
  exists e', fold_left (fun acc kx => e <- acc ;; set_stored e (fst kx) (snd kx))
               l (Ok acc) = Ok e' /\ okE User e' /\
             (peek e' k = u \/ peek e' k = undefined).
Proof.
  induction l as [|[k1 x] t IH]; intros acc Ha Hk Hl Hu; simpl.
  - exists acc. split; [reflexivity|]. split; assumption.
  - inversion Hl as [|? ? [Hc [Hx Hv]] Ht]; subst. simpl in Hc, Hx, Hv.
    destruct (set_stored_spec acc k1 x Ha Hc Hx) as [e1 [S [He1 [F _]]]].
    rewrite S. apply IH; try assumption.
    rewrite (F k Hk). destruct (equivb k k1); [left; apply Hv; reflexivity|exact Hu].
Qed.

(** A copy answers a key as the map does, or not at all. *)
Lemma copy_view e k :
  okE User e -> clean k = true ->
  exists c, copy e = Ok c /\ okE User c /\
            (peek c k = peek e k \/ peek c k = undefined).
Proof.
  intros He Hk. unfold copy.
  apply (copy_fold_view k (peek e k) (entries e) empty (okE_empty User) Hk).
  - apply entries_view; assumption.
  - right. apply peek_empty.
Qed.

Section Utils.
Variable selectorArgsToStateKey : value -> value.
Local Abbreviation key_of := selectorArgsToStateKey.

(** An action whose argument keys are all clean. *)
Definition clean_action (action : Action) : Prop :=
  match action with
  | START_RESOLUTION _ args | FINISH_RESOLUTION _ args | FAIL_RESOLUTION _ args _
  | INVALIDATE_RESOLUTION _ args => clean (key_of args) = true
  | START_RESOLUTIONS _ args | FINISH_RESOLUTIONS _ args | FAIL_RESOLUTIONS _ args _ =>
      Forall (fun a => clean (key_of a) = true) args
  | _ => True
  end.

Definition slice (s : State) (n : string) : ekm :=
  match assoc_get String.eqb s n with
  | Some e => e
  | None => empty
  end.

Lemma okE_slice s n : okState s -> okE User (slice s n).
Proof.
  intros Hs. unfold slice. destruct (assoc_get String.eqb s n) as [e|] eqn:E.
  - apply (okState_get s n e Hs E).
  - apply okE_empty.
Qed.

(** Copying the slice and setting one entry. *)
Lemma copy_set_spec s n args v :
  okState s -> clean (key_of args) = true ->
  exists e1,
    (nextState <- copy (slice s n) ;; set nextState (key_of args) v) = Ok e1 /\
    okE User e1 /\
    forall k, clean k = true -> equivb k (key_of args) = true -> peek e1 k = SVal v.
Proof.
  intros Hs Hc. destruct (copy_ok (slice s n) (okE_slice s n Hs)) as [c [C Hcopy]].
  rewrite C. simpl bind.
  destruct (set_spec c (key_of args) v Hcopy Hc) as [e1 [S [He1 [F _]]]].
  exists e1. split; [exact S|]. split; [exact He1|].
  intros k Hk EQ. rewrite (F k Hk), EQ. reflexivity.
Qed.

(** The value the reducer files for an action on one argument list. *)
Definition filed (ref : nat) (action : Action) : option (string * value * value) :=
  match action with
  | START_RESOLUTION n args => Some (n, args, status_object ref "resolving")
  | FINISH_RESOLUTION n args => Some (n, args, status_object ref "finished")
  | FAIL_RESOLUTION n args error => Some (n, args, error_object ref error)
  | _ => None
  end.

Lemma isResolved_filed ref s action n args v :
  filed ref action = Some (n, args, v) ->
  okState s -> clean (key_of args) = true ->
  exists e1,
    isResolved key_of ref s action = Ok (assoc_set String.eqb s n e1) /\
    okE User e1 /\
    forall k, clean k = true -> equivb k (key_of args) = true -> peek e1 k = SVal v.
Proof.
  intros Hf Hs Hc.
  destruct (copy_set_spec s n args v Hs Hc) as [e1 [R [He1 F]]].
  exists e1. split; [|split; assumption].
  destruct action; simpl in Hf; inversion Hf; subst; clear Hf;
    unfold isResolved, subKeysIsResolved, onSubKey; simpl action_selectorName;
    unfold subKeys_reducer; fold (slice s n); rewrite R; reflexivity.
Qed.

Lemma getResolutionState_spec s n e args :
  assoc_get String.eqb s n = Some e -> okE User e -> clean (key_of args) = true ->
  exists s', getResolutionState key_of s n args = Ok (peek e (key_of args), s').
Proof.
  intros E He Hc. unfold getResolutionState. rewrite E.
  destruct (get_spec e (key_of args) He Hc) as [e' [G _]]. rewrite G.
  simpl. eexists. reflexivity.
Qed.

Lemma getResolutionState_none s n args :
  assoc_get String.eqb s n = None -> inherited n = false ->
  getResolutionState key_of s n args = Ok (undefined, s).
Proof. intros E I. unfold getResolutionState. rewrite E, I. reflexivity. Qed.

Lemma getResolutionState_inherited s n args :
  assoc_get String.eqb s n = None -> inherited n = true ->
  getResolutionState key_of s n args = TypeError.
Proof. intros E I. unfold getResolutionState. rewrite E, I. reflexivity. Qed.

(** After an action that files [v] for [(n, args)], the state answers
    [v] for every equivalent argument list. *)
Lemma filed_then_read ref s action n args v args' :
  filed ref action = Some (n, args, v) ->
  okState s -> clean (key_of args) = true ->
  clean (key_of args') = true -> equivb (key_of args') (key_of args) = true ->
  exists s1 s1',
    isResolved key_of ref s action = Ok s1 /\ okState s1 /\
    getResolutionState key_of s1 n args' = Ok (SVal v, s1').
Proof.
  intros Hf Hs Hc Hc' EQ.
  destruct (isResolved_filed ref s action n args v Hf Hs Hc) as [e1 [R [He1 F]]].
  assert (E : assoc_get String.eqb (assoc_set String.eqb s n e1) n = Some e1)
    by apply (assoc_get_set_same String.eqb String.eqb_eq).
  destruct (getResolutionState_spec _ n e1 args' E He1 Hc') as [s1' G].
  rewrite (F _ Hc' EQ) in G.
  exists (assoc_set String.eqb s n e1), s1'.
  split; [exact R|]. split; [apply okState_set; assumption|exact G].
Qed.

Lemma set_each_ok status args : forall e ref,
  okE User e -> Forall (fun a => clean (key_of a) = true) args ->
  exists e', set_each key_of e ref status args = Ok e' /\ okE User e'.
Proof.
  induction args as [|a rest IH]; intros e ref He Hc; simpl.
  - exists e. split; [reflexivity|exact He].
  - inversion Hc as [|? ? Ha Hrest]; subst.
    destruct (set_spec e (key_of a) (status_object ref status) He Ha) as [e1 [S [He1 _]]].
    rewrite S. simpl bind. apply IH; assumption.
Qed.

Lemma fail_each_ok args : forall e ref errors,
  okE User e -> Forall (fun a => clean (key_of a) = true) args ->
  exists e', fail_each key_of e ref args errors = Ok e' /\ okE User e'.
Proof.
  induction args as [|a rest IH]; intros e ref errors He Hc; simpl.
  - exists e. split; [reflexivity|exact He].
  - inversion Hc as [|? ? Ha Hrest]; subst.
    destruct (set_spec e (key_of a)
                (error_object ref (if truthy (hd VUndefined errors)
                                   then hd VUndefined errors else VUndefined)) He Ha)
      as [e1 [S [He1 _]]].
    rewrite S. simpl bind. apply IH; assumption.
Qed.

(** The reducer does not throw on a clean action and keeps the state
    well shaped. *)
Lemma isResolved_ok ref s action :
  okState s -> clean_action action ->
  exists s', isResolved key_of ref s action = Ok s' /\ okState s'.
Proof.
  intros Hs Hc.
  destruct action as [n a|n a|n a err|n l|n l|n l errs|n a| |n|t]; simpl in Hc.
  - destruct (isResolved_filed ref s (START_RESOLUTION n a) n a _ eq_refl Hs Hc) as [e1 [R [He1 _]]].
    eexists. split; [exact R|apply okState_set; assumption].
  - destruct (isResolved_filed ref s (FINISH_RESOLUTION n a) n a _ eq_refl Hs Hc) as [e1 [R [He1 _]]].
    eexists. split; [exact R|apply okState_set; assumption].
  - destruct (isResolved_filed ref s (FAIL_RESOLUTION n a err) n a _ eq_refl Hs Hc) as [e1 [R [He1 _]]].
    eexists. split; [exact R|apply okState_set; assumption].
  - change (isResolved key_of ref s (START_RESOLUTIONS n l)) with
      (next <- (c <- copy (slice s n) ;; set_each key_of c ref "resolving" l) ;;
       Ok (assoc_set String.eqb s n next)).
    destruct (copy_ok (slice s n) (okE_slice s n Hs)) as [c [C Hcopy]]. rewrite C. simpl bind.
    destruct (set_each_ok "resolving" l c ref Hcopy Hc) as [e1 [S He1]]. rewrite S. simpl bind.
    eexists. split; [reflexivity|apply okState_set; assumption].
  - change (isResolved key_of ref s (FINISH_RESOLUTIONS n l)) with
      (next <- (c <- copy (slice s n) ;; set_each key_of c ref "finished" l) ;;
       Ok (assoc_set String.eqb s n next)).
    destruct (copy_ok (slice s n) (okE_slice s n Hs)) as [c [C Hcopy]]. rewrite C. simpl bind.
    destruct (set_each_ok "finished" l c ref Hcopy Hc) as [e1 [S He1]]. rewrite S. simpl bind.
    eexists. split; [reflexivity|apply okState_set; assumption].
  - change (isResolved key_of ref s (FAIL_RESOLUTIONS n l errs)) with
      (next <- (c <- copy (slice s n) ;; fail_each key_of c ref l errs) ;;
       Ok (assoc_set String.eqb s n next)).
    destruct (copy_ok (slice s n) (okE_slice s n Hs)) as [c [C Hcopy]]. rewrite C. simpl bind.
    destruct (fail_each_ok l c ref errs Hcopy Hc) as [e1 [S He1]]. rewrite S. simpl bind.
    eexists. split; [reflexivity|apply okState_set; assumption].
  - change (isResolved key_of ref s (INVALIDATE_RESOLUTION n a)) with
      (next <- (c <- copy (slice s n) ;; (' (_, nextState) <- delete c (key_of a) ;; Ok nextState)) ;;
       Ok (assoc_set String.eqb s n next)).
    destruct (copy_ok (slice s n) (okE_slice s n Hs)) as [c [C Hcopy]]. rewrite C. simpl bind.
    destruct (delete_spec c (key_of a) Hcopy Hc) as [e1 [D [He1 _]]]. rewrite D. simpl bind.
    eexists. split; [reflexivity|apply okState_set; assumption].
  - exists []. split; [reflexivity|apply okState_nil].
  - simpl. destruct (assoc_has String.eqb s n || inherited n).
    + eexists. split; [reflexivity|apply okState_delete; exact Hs].
    + exists s. split; [reflexivity|exact Hs].
  - exists s. split; [reflexivity|exact Hs].
Qed.

Lemma dispatch_all_ok actions : forall ref s,
  okState s -> Forall clean_action actions ->
  exists s', dispatch_all key_of ref s actions = Ok s' /\ okState s'.
Proof.
  induction actions as [|action rest IH]; intros ref s Hs Hc; simpl.
  - exists s. split; [reflexivity|exact Hs].
  - inversion Hc as [|? ? Ha Hrest]; subst.
    destruct (isResolved_ok ref s action Hs Ha) as [s1 [R Hs1]]. rewrite R. simpl bind.
    apply IH; assumption.
Qed.


Lemma slice_set s n0 e n :
  slice (assoc_set String.eqb s n0 e) n = if String.eqb n0 n then e else slice s n.
Proof.
  unfold slice. destruct (String.eqb n0 n) eqn:E.
  - apply String.eqb_eq in E. subst.
    rewrite (assoc_get_set_same String.eqb String.eqb_eq). reflexivity.
  - apply String.eqb_neq in E.
    rewrite (assoc_get_set_other String.eqb String.eqb_eq) by exact E. reflexivity.
Qed.

Lemma set_each_frame status args k : forall e ref e',
  okE User e -> Forall (fun a => clean (key_of a) = true) args -> clean k = true ->
  existsb (fun a => equivb k (key_of a)) args = false ->
  set_each key_of e ref status args = Ok e' -> peek e' k = peek e k.
Proof.
  induction args as [|a rest IH]; intros e ref e' He Hc Hk Hx R; simpl in R.
  - inversion R. reflexivity.
  - inversion Hc as [|? ? Ha Hrest]; subst. simpl in Hx.
    apply orb_false_iff in Hx. destruct Hx as [Hx1 Hx2].
    destruct (set_spec e (key_of a) (status_object ref status) He Ha)
      as [e1 [S1 [He1 [F _]]]].
    rewrite S1 in R. simpl in R.
    rewrite (IH e1 (S ref) e' He1 Hrest Hk Hx2 R), (F k Hk), Hx1. reflexivity.
Qed.

Lemma fail_each_frame args k : forall e ref errors e',
  okE User e -> Forall (fun a => clean (key_of a) = true) args -> clean k = true ->
  existsb (fun a => equivb k (key_of a)) args = false ->
  fail_each key_of e ref args errors = Ok e' -> peek e' k = peek e k.
Proof.
  induction args as [|a rest IH]; intros e ref errors e' He Hc Hk Hx R; simpl in R.
  - inversion R. reflexivity.
  - inversion Hc as [|? ? Ha Hrest]; subst. simpl in Hx.
    apply orb_false_iff in Hx. destruct Hx as [Hx1 Hx2].
    destruct (set_spec e (key_of a)
                (error_object ref (if truthy (hd VUndefined errors)
                                   then hd VUndefined errors else VUndefined)) He Ha)
      as [e1 [S1 [He1 [F _]]]].
    rewrite S1 in R. simpl in R.
    rewrite (IH e1 (S ref) (tl errors) e' He1 Hrest Hk Hx2 R), (F k Hk), Hx1. reflexivity.
Qed.

(** Whether an action is a resolution action for the selector [n] and
    an argument list whose key is equivalent to [k]. *)
Definition touches (n : string) (k : value) (action : Action) : bool :=
  match action with
  | START_RESOLUTION n0 a | FINISH_RESOLUTION n0 a | FAIL_RESOLUTION n0 a _
  | INVALIDATE_RESOLUTION n0 a => String.eqb n0 n && equivb k (key_of a)
  | START_RESOLUTIONS n0 l | FINISH_RESOLUTIONS n0 l | FAIL_RESOLUTIONS n0 l _ =>
      String.eqb n0 n && existsb (fun a => equivb k (key_of a)) l
  | _ => false
  end.

(** An entry that is absent stays absent through the actions that are
    not for it. *)
Lemma isResolved_untouched ref s action s' n k :
  okState s -> clean_action action -> clean k = true ->
  touches n k action = false ->
  isResolved key_of ref s action = Ok s' ->
  peek (slice s n) k = undefined -> peek (slice s' n) k = undefined.
Proof.
  intros Hs Hc Hk Ht R U.
  assert (Hcopy : forall n0, String.eqb n0 n = true ->
            exists c, copy (slice s n0) = Ok c /\ okE User c /\ peek c k = undefined).
  { intros n0 E. apply String.eqb_eq in E. subst n0.
    destruct (copy_view (slice s n) k (okE_slice s n Hs) Hk) as [c [C [Hcc [V|V]]]];
      exists c; (split; [exact C|split; [exact Hcc|]]); [rewrite V; exact U|exact V]. }
  assert (Hfile : forall n0 (r : res ekm),
            (next <- r ;; Ok (assoc_set String.eqb s n0 next)) = Ok s' ->
            (String.eqb n0 n = true -> forall e1, r = Ok e1 -> peek e1 k = undefined) ->
            peek (slice s' n) k = undefined).
  { intros n0 r H Hr. destruct r as [e1| |]; simpl in H; try discriminate.
    inversion H; subst s'. rewrite slice_set.
    destruct (String.eqb n0 n) eqn:E; [apply (Hr eq_refl e1 eq_refl)|exact U]. }
  destruct action as [n0 a|n0 a|n0 a err|n0 l|n0 l|n0 l errs|n0 a| |n0|t];
    simpl in Hc, Ht.
  - change (isResolved key_of ref s (START_RESOLUTION n0 a)) with
      (next <- (c <- copy (slice s n0) ;; set c (key_of a) (status_object ref "resolving")) ;;
       Ok (assoc_set String.eqb s n0 next)) in R.
    apply (Hfile n0 _ R). intros E e1 R1. rewrite E in Ht. simpl in Ht.
    destruct (Hcopy n0 E) as [c [C [Hcc Uc]]]. rewrite C in R1. simpl in R1.
    destruct (set_spec c (key_of a) (status_object ref "resolving") Hcc Hc)
      as [e2 [S2 [_ [F _]]]].
    rewrite S2 in R1. inversion R1; subst e1. rewrite (F k Hk), Ht. exact Uc.
  - change (isResolved key_of ref s (FINISH_RESOLUTION n0 a)) with
      (next <- (c <- copy (slice s n0) ;; set c (key_of a) (status_object ref "finished")) ;;
       Ok (assoc_set String.eqb s n0 next)) in R.
    apply (Hfile n0 _ R). intros E e1 R1. rewrite E in Ht. simpl in Ht.
    destruct (Hcopy n0 E) as [c [C [Hcc Uc]]]. rewrite C in R1. simpl in R1.
    destruct (set_spec c (key_of a) (status_object ref "finished") Hcc Hc)
      as [e2 [S2 [_ [F _]]]].
    rewrite S2 in R1. inversion R1; subst e1. rewrite (F k Hk), Ht. exact Uc.
  - change (isResolved key_of ref s (FAIL_RESOLUTION n0 a err)) with
      (next <- (c <- copy (slice s n0) ;; set c (key_of a) (error_object ref err)) ;;
       Ok (assoc_set String.eqb s n0 next)) in R.
    apply (Hfile n0 _ R). intros E e1 R1. rewrite E in Ht. simpl in Ht.
    destruct (Hcopy n0 E) as [c [C [Hcc Uc]]]. rewrite C in R1. simpl in R1.
    destruct (set_spec c (key_of a) (error_object ref err) Hcc Hc)
      as [e2 [S2 [_ [F _]]]].
    rewrite S2 in R1. inversion R1; subst e1. rewrite (F k Hk), Ht. exact Uc.
  - change (isResolved key_of ref s (START_RESOLUTIONS n0 l)) with
      (next <- (c <- copy (slice s n0) ;; set_each key_of c ref "resolving" l) ;;
       Ok (assoc_set String.eqb s n0 next)) in R.
    apply (Hfile n0 _ R). intros E e1 R1. rewrite E in Ht. simpl in Ht.
    destruct (Hcopy n0 E) as [c [C [Hcc Uc]]]. rewrite C in R1. simpl in R1.
    rewrite (set_each_frame "resolving" l k c ref e1 Hcc Hc Hk Ht R1). exact Uc.
  - change (isResolved key_of ref s (FINISH_RESOLUTIONS n0 l)) with
      (next <- (c <- copy (slice s n0) ;; set_each key_of c ref "finished" l) ;;
       Ok (assoc_set String.eqb s n0 next)) in R.
    apply (Hfile n0 _ R). intros E e1 R1. rewrite E in Ht. simpl in Ht.
    destruct (Hcopy n0 E) as [c [C [Hcc Uc]]]. rewrite C in R1. simpl in R1.
    rewrite (set_each_frame "finished" l k c ref e1 Hcc Hc Hk Ht R1). exact Uc.
  - change (isResolved key_of ref s (FAIL_RESOLUTIONS n0 l errs)) with
      (next <- (c <- copy (slice s n0) ;; fail_each key_of c ref l errs) ;;
       Ok (assoc_set String.eqb s n0 next)) in R.
    apply (Hfile n0 _ R). intros E e1 R1. rewrite E in Ht. simpl in Ht.
    destruct (Hcopy n0 E) as [c [C [Hcc Uc]]]. rewrite C in R1. simpl in R1.
    rewrite (fail_each_frame l k c ref errs e1 Hcc Hc Hk Ht R1). exact Uc.
  - change (isResolved key_of ref s (INVALIDATE_RESOLUTION n0 a)) with
      (next <- (c <- copy (slice s n0) ;; (' (_, nextState) <- delete c (key_of a) ;; Ok nextState)) ;;
       Ok (assoc_set String.eqb s n0 next)) in R.
    apply (Hfile n0 _ R). intros E e1 R1.
    destruct (Hcopy n0 E) as [c [C [Hcc Uc]]]. rewrite C in R1. simpl in R1.
    destruct (delete_spec c (key_of a) Hcc Hc) as [e2 [D [_ F]]].
    rewrite D in R1. simpl in R1. inversion R1; subst e1. rewrite (F k Hk), Uc.
    destruct (equivb k (key_of a) && present c (key_of a)); reflexivity.
  - simpl in R. inversion R; subst s'. apply peek_empty.
  - simpl in R. destruct (assoc_has String.eqb s n0 || inherited n0);
      inversion R; subst s'; [|exact U].
    unfold slice. destruct (string_dec n0 n) as [->|Hne].
    + rewrite (assoc_get_delete_same String.eqb String.eqb_eq) by apply Hs.
      apply peek_empty.
    + rewrite (assoc_get_delete_other String.eqb String.eqb_eq) by exact Hne. exact U.
  - simpl in R. inversion R; subst s'. exact U.
Qed.

Lemma dispatch_all_untouched n k actions : forall ref s s',
  okState s -> Forall clean_action actions -> clean k = true ->
  Forall (fun action => touches n k action = false) actions ->
  dispatch_all key_of ref s actions = Ok s' ->
  peek (slice s n) k = undefined -> peek (slice s' n) k = undefined.
Proof.
  induction actions as [|action rest IH]; intros ref s s' Hs Hc Hk Ht R U; simpl in R.
  - inversion R; subst. exact U.
  - inversion Hc as [|? ? Hca Hcrest]; subst. inversion Ht as [|? ? Hta Htrest]; subst.
    destruct (isResolved_ok ref s action Hs Hca) as [s1 [R1 Hs1]].
    rewrite R1 in R. simpl in R.
    apply (IH _ s1 s' Hs1 Hcrest Hk Htrest R).
    apply (isResolved_untouched ref s action s1 n k Hs Hca Hk Hta R1 U).
Qed.

Lemma isResolving_absent s n args :
  okState s -> clean (key_of args) = true -> inherited n = false ->
  peek (slice s n) (key_of args) = undefined ->
  exists s', isResolving key_of s n args = Ok (false, s').
Proof.
  intros Hs Hc I U. unfold isResolving.
  destruct (assoc_get String.eqb s n) as [e|] eqn:E.
  - destruct (getResolutionState_spec s n e args E (okState_get s n e Hs E) Hc) as [s' G].
    unfold slice in U. rewrite E in U. rewrite G, U. exists s'. reflexivity.
  - rewrite (getResolutionState_none s n args E I). exists s. reflexivity.
Qed.

(** C2, as amended.  For argument lists whose keys are free of the
    reserved property name, after any history of such actions:
    [isResolving(n, args')] is [false] when no resolution action of the
    history was for [n] and an argument list equivalent to [args'] and
    [n] is not the name of a member of [Object.prototype]; it is [true]
    after [startResolution(n, args)] for every [args'] equivalent to
    [args]; and it is [false] again after a following
    [finishResolution(n, args)] or [failResolution(n, args, error)]. *)
Theorem isResolving_lifecycle (history : list Action) (n : string)
    (args args' error : value) (ref : nat) :
  Forall clean_action history ->
  clean (key_of args) = true -> clean (key_of args') = true ->
  equivb (key_of args') (key_of args) = true ->
  exists s s1,
    dispatch_all key_of 0 [] history = Ok s /\
    (Forall (fun action => touches n (key_of args') action = false) history ->
     inherited n = false ->
     exists s', isResolving key_of s n args' = Ok (false, s')) /\
    isResolved key_of ref s (startResolution n args) = Ok s1 /\
    (exists s', isResolving key_of s1 n args' = Ok (true, s')) /\
    (exists s2 s',
       isResolved key_of (S ref) s1 (finishResolution n args) = Ok s2 /\
       isResolving key_of s2 n args' = Ok (false, s')) /\
    (exists s3 s',
       isResolved key_of (S ref) s1 (failResolution n args error) = Ok s3 /\
       isResolving key_of s3 n args' = Ok (false, s')).
Proof.
  intros Hh Hc Hc' EQ.
  destruct (dispatch_all_ok history 0 [] okState_nil Hh) as [s [D Hs]].
  destruct (filed_then_read ref s (startResolution n args) n args _ args'
              eq_refl Hs Hc Hc' EQ) as [s1 [s1' [R1 [Hs1 G1]]]].
  exists s, s1. split; [exact D|]. split; [|split; [exact R1|split; [|split]]].
  - intros Hn I. apply (isResolving_absent s n args' Hs Hc' I).
    apply (dispatch_all_untouched n (key_of args') history 0 [] s
             okState_nil Hh Hc' Hn D).
    apply peek_empty.
  - exists s1'. unfold isResolving. rewrite G1. reflexivity.
  - destruct (filed_then_read (S ref) s1 (finishResolution n args) n args _ args'
                eq_refl Hs1 Hc Hc' EQ) as [s2 [s2' [R2 [_ G2]]]].
    exists s2, s2'. split; [exact R2|]. unfold isResolving. rewrite G2. reflexivity.
  - destruct (filed_then_read (S ref) s1 (failResolution n args error) n args _ args'
                eq_refl Hs1 Hc Hc' EQ) as [s3 [s3' [R3 [_ G3]]]].
    exists s3, s3'. split; [exact R3|]. unfold isResolving. rewrite G3. reflexivity.
Qed.

(** C6, as amended.  For argument lists whose keys are free of the
    reserved property name, after any history of such actions and
    [failResolution(n, args, error)], whatever [error] is, a falsy
    value included: [hasResolutionFailed(n, args')] is [true] and
    [getResolutionError(n, args')] is [error], for every [args']
    equivalent to [args]. *)
Theorem hasResolutionFailed_after_fail (history : list Action) (n : string)
    (args args' error : value) (ref : nat) :
  Forall clean_action history ->
  clean (key_of args) = true -> clean (key_of args') = true ->
  equivb (key_of args') (key_of args) = true ->
  exists s s1 s',
    dispatch_all key_of 0 [] history = Ok s /\
    isResolved key_of ref s (failResolution n args error) = Ok s1 /\
    hasResolutionFailed key_of s1 n args' = Ok (true, s') /\
    getResolutionError key_of s1 n args' = Ok (error, s').
Proof.
  intros Hh Hc Hc' EQ.
  destruct (dispatch_all_ok history 0 [] okState_nil Hh) as [s [D Hs]].
  destruct (filed_then_read ref s (failResolution n args error) n args _ args'
              eq_refl Hs Hc Hc' EQ) as [s1 [s1' [R1 [_ G1]]]].
  exists s, s1, s1'. split; [exact D|]. split; [exact R1|].
  unfold hasResolutionFailed, getResolutionError. rewrite G1. split; reflexivity.
Qed.

End Utils.

(** Examples: the argument list is its own key. *)
Definition own_key (args : value) : value := args.

Definition args_1 : value := VObj 11 KArray [("0", VNum 1)].
Definition args_1' : value := VObj 12 KArray [("0", VNum 1)].
Definition args_2 : value := VObj 13 KArray [("0", VNum 2)].
Definition args_empty_object : value := VObj 14 KArray [("0", VObj 15 KObject [])].
Definition args_reserved : value :=
  VObj 16 KArray [("0", VObj 17 KObject [("_ekm_value", VNum 1)])].

Lemma isResolving_lifecycle_witness :
  exists s s1,
    dispatch_all own_key 0 []
      [startResolution "g" args_1; startResolution "f" args_2] = Ok s /\
    (Forall (fun action => touches own_key "f" args_1' action = false)
            [startResolution "g" args_1; startResolution "f" args_2] ->
     inherited "f" = false ->
     exists s', isResolving own_key s "f" args_1' = Ok (false, s')) /\
    isResolved own_key 5 s (startResolution "f" args_1) = Ok s1 /\
    (exists s', isResolving own_key s1 "f" args_1' = Ok (true, s')) /\
    (exists s2 s',
       isResolved own_key 6 s1 (finishResolution "f" args_1) = Ok s2 /\
       isResolving own_key s2 "f" args_1' = Ok (false, s')) /\
    (exists s3 s',
       isResolved own_key 6 s1 (failResolution "f" args_1 VNull) = Ok s3 /\
       isResolving own_key s3 "f" args_1' = Ok (false, s')).
Proof.
  apply (isResolving_lifecycle own_key
           [startResolution "g" args_1; startResolution "f" args_2] "f"
           args_1 args_1' VNull 5).
  - repeat constructor.
  - reflexivity.
  - reflexivity.
  - reflexivity.
Defined.

Lemma hasResolutionFailed_after_fail_witness :
  exists s s1 s',
    dispatch_all own_key 0 [] [startResolution "f" args_1] = Ok s /\
    isResolved own_key 5 s (failResolution "f" args_1 VNull) = Ok s1 /\
    hasResolutionFailed own_key s1 "f" args_1' = Ok (true, s') /\
    getResolutionError own_key s1 "f" args_1' = Ok (VNull, s').
Proof.
  apply (hasResolutionFailed_after_fail own_key [startResolution "f" args_1] "f"
           args_1 args_1' VNull 5).
  - repeat constructor.
  - reflexivity.
  - reflexivity.
  - reflexivity.
Defined.

(** C2 as stated fails twice.  With the entry of [[{}]] in the state,
    [startResolution] for an argument list holding an object with a
    property named ["_ekm_value"] throws.  And for the selector name
    ["constructor"], for which no action was dispatched, [isResolving]
    is not [false]: [state[selectorName]] finds the member of
    [Object.prototype] and [map.get] throws. *)
Lemma startResolution_throws_on_reserved_name :
  (s <- dispatch_all own_key 0 [] [startResolution "f" args_empty_object] ;;
   isResolved own_key 5 s (startResolution "f" args_reserved)) = TypeError /\
  ~ (forall history n args s,
       dispatch_all own_key 0 [] history = Ok s ->
       exists s1 s',
         isResolved own_key 5 s (startResolution n args) = Ok s1 /\
         isResolving own_key s1 n args = Ok (true, s')) /\
  (s <- dispatch_all own_key 0 [] [startResolution "f" args_1] ;;
   isResolving own_key s "constructor" args_1) = TypeError /\
  ~ (forall history n args s,
       dispatch_all own_key 0 [] history = Ok s ->
       Forall (fun action => touches own_key n args action = false) history ->
       exists s', isResolving own_key s n args = Ok (false, s')).
Proof.
  split; [reflexivity|]. split; [|split; [reflexivity|]].
  - intros H.
    destruct (H [startResolution "f" args_empty_object] "f" args_reserved _ eq_refl)
      as [s1 [s' [R _]]].
    vm_compute in R. discriminate R.
  - intros H.
    destruct (H [startResolution "f" args_1] "constructor" args_1 _ eq_refl)
      as [s' R]; [repeat constructor|].
    vm_compute in R. discriminate R.
Qed.

(** C6 as stated fails in the same way: [failResolution] throws. *)
Lemma failResolution_throws_on_reserved_name :
  (s <- dispatch_all own_key 0 [] [startResolution "f" args_empty_object] ;;
   isResolved own_key 5 s (failResolution "f" args_reserved VNull)) = TypeError /\
  ~ (forall history n args error s,
       dispatch_all own_key 0 [] history = Ok s ->
       exists s1 s',
         isResolved own_key 5 s (failResolution n args error) = Ok s1 /\
         hasResolutionFailed own_key s1 n args = Ok (true, s')).
Proof.
  split; [reflexivity|]. intros H.
  destruct (H [startResolution "f" args_empty_object] "f" args_reserved VNull _ eq_refl)
    as [s1 [s' [R _]]].
  vm_compute in R. discriminate R.
Qed.

(** C7 on concrete states: [hasResolvingSelectors] answers [false] and
    [true] as expected without invalidated entries, and throws on the
    entry that [invalidateResolution] leaves with the value
    [undefined], where it reads [resolution.status]. *)
Lemma hasResolvingSelectors_throws_on_invalidated :
  (s <- dispatch_all own_key 0 [] [] ;; hasResolvingSelectors s) = Ok false /\
  (s <- dispatch_all own_key 0 [] [startResolution "f" args_1] ;;
   hasResolvingSelectors s) = Ok true /\
  (s <- dispatch_all own_key 0 []
          [startResolution "f" args_1; finishResolution "f" args_1] ;;
   hasResolvingSelectors s) = Ok false /\
  (s <- dispatch_all own_key 0 []
          [startResolution "f" args_1; invalidateResolution "f" args_1] ;;
   hasResolvingSelectors s) = TypeError.
Proof. repeat split; reflexivity. Qed.
End ResolutionFacts.


(** ** The memoizing selector *)
Module SelectorFacts.
Import Selector.

Lemma forallb_seq_ext (f g : nat -> bool) start len :
  (forall i, start <= i < start + len -> f i = g i) ->
  forallb f (seq start len) = forallb g (seq start len).
Proof.
  revert start. induction len as [|len IH]; intros start H; simpl; [reflexivity|].
  rewrite H by lia. f_equal. apply IH. intros i Hi. apply H. lia.
Qed.

Lemma forallb_seq_true (f : nat -> bool) start len :
  forallb f (seq start len) = true <->
  (forall i, start <= i < start + len -> f i = true).
Proof.
  rewrite forallb_forall. split; intros H i Hi.
  - apply H. apply in_seq. lia.
  - apply in_seq in Hi. apply H. lia.
Qed.

Lemma isShallowEqual_refl (a : list value) n : isShallowEqual a a n = true.
Proof.
  unfold isShallowEqual. rewrite Nat.eqb_refl. simpl.
  apply forallb_seq_true. intros i _. apply value_eqb_refl.
Qed.

(** From index 0 the comparison is equality of the two arrays, element
    by element. *)
Lemma isShallowEqual_0 (a b : list value) :
  isShallowEqual a b 0 = true <-> a = b.
Proof.
  split; [|intros ->; apply isShallowEqual_refl].
  unfold isShallowEqual.
  destruct (Nat.eqb (List.length a) (List.length b)) eqn:E; simpl; [|discriminate].
  apply Nat.eqb_eq in E. rewrite forallb_seq_true. intros H.
  apply (nth_ext a b VUndefined VUndefined E).
  intros i Hi. apply value_eqb_eq. apply H. lia.
Qed.

(** From index 1 the first element of either array is not looked at. *)
Lemma isShallowEqual_1_source (x : list value) s1 s2 rest :
  isShallowEqual x (s1 :: rest) 1 = isShallowEqual x (s2 :: rest) 1.
Proof.
  unfold isShallowEqual. simpl List.length.
  destruct (negb _); [reflexivity|].
  apply forallb_seq_ext. intros i Hi.
  destruct i as [|i]; [lia|]. reflexivity.
Qed.

Lemma isShallowEqual_1_null s rest :
  isShallowEqual (VNull :: rest) (s :: rest) 1 = true.
Proof.
  rewrite (isShallowEqual_1_source _ s VNull). apply isShallowEqual_refl.
Qed.

Lemma find_node_matches nodes args before node after :
  find_node nodes args = Some (before, node, after) ->
  isShallowEqual (node_args node) args 1 = true.
Proof.
  revert before. induction nodes as [|n t IH]; simpl; intros before; [discriminate|].
  destruct (isShallowEqual (node_args n) args 1) eqn:E.
  - intros H. inversion H; subst. exact E.
  - destruct (find_node t args) as [[[b f] a]|]; [|discriminate].
    intros H. inversion H; subst. eapply IH. reflexivity.
Qed.

(** The cache stored for [dependants], without creating anything. *)
Fixpoint cache_at (caches : CacheMap) (dependants : list value) : option Cache :=
  match caches with
  | mkCacheMap leaf children =>
      match dependants with
      | [] => leaf
      | dependant :: rest =>
          if negb (isObject dependant) then leaf
          else
            match assoc_get value_eqb children dependant with
            | Some m => cache_at m rest
            | None => None
            end
      end
  end.

(** The object-like dependants before the first one that is not. *)
Fixpoint cache_path (dependants : list value) : list value :=
  match dependants with
  | [] => []
  | d :: rest => if isObject d then d :: cache_path rest else []
  end.

(** The cache a call with [dependants] works on. *)
Definition current (caches : CacheMap) (dependants : list value) : Cache :=
  match cache_at caches dependants with
  | Some c => c
  | None => mkCache (forallb isObject dependants) [] None
  end.

Lemma cache_at_path caches dependants :
  cache_at caches (cache_path dependants) = cache_at caches dependants.
Proof.
  revert caches. induction dependants as [|d rest IH]; intros [leaf children]; simpl.
  - reflexivity.
  - destruct (isObject d) eqn:E; simpl; [|reflexivity].
    rewrite E. simpl. destruct (assoc_get value_eqb children d); auto.
Qed.

Lemma cache_path_all dependants :
  forallb isObject dependants = true -> cache_path dependants = dependants.
Proof.
  induction dependants as [|d rest IH]; simpl; [reflexivity|].
  destruct (isObject d); simpl; [|discriminate]. intros H. f_equal. auto.
Qed.

Lemma cache_path_length dependants :
  List.length (cache_path dependants) = List.length dependants ->
  forallb isObject dependants = true.
Proof.
  induction dependants as [|d rest IH]; simpl; [reflexivity|].
  destruct (isObject d); simpl; [|discriminate]. intros H. apply IH. lia.
Qed.

Definition child_of (children : list (value * CacheMap)) (d : value) : CacheMap :=
  match assoc_get value_eqb children d with
  | Some m => m
  | None => emptyCacheMap
  end.

Definition leaf_or (leaf : option Cache) (isUnique : bool) : Cache :=
  match leaf with
  | Some c => c
  | None => mkCache isUnique [] None
  end.

Lemma cache_at_empty dependants : cache_at emptyCacheMap dependants = None.
Proof.
  destruct dependants as [|d rest]; simpl; [reflexivity|].
  destruct (isObject d); reflexivity.
Qed.

Lemma cache_at_obj leaf children d rest :
  isObject d = true ->
  cache_at (mkCacheMap leaf children) (d :: rest) = cache_at (child_of children d) rest.
Proof.
  intros E. simpl. rewrite E. simpl. unfold child_of.
  destruct (assoc_get value_eqb children d); [reflexivity|].
  symmetry. apply cache_at_empty.
Qed.

Lemma cache_at_prim leaf children d rest :
  isObject d = false -> cache_at (mkCacheMap leaf children) (d :: rest) = leaf.
Proof. intros E. simpl. rewrite E. reflexivity. Qed.

Lemma current_obj leaf children d rest :
  isObject d = true ->
  current (mkCacheMap leaf children) (d :: rest) = current (child_of children d) rest.
Proof.
  intros E. unfold current. rewrite cache_at_obj by exact E.
  simpl forallb. rewrite E. reflexivity.
Qed.

Lemma current_prim leaf children d rest :
  isObject d = false ->
  current (mkCacheMap leaf children) (d :: rest) = leaf_or leaf false.
Proof.
  intros E. unfold current. rewrite cache_at_prim by exact E.
  simpl forallb. rewrite E. reflexivity.
Qed.

Section WithCache.
Variable A : Type.
Variable f : Cache -> A * Cache.

Lemma with_cache_nil leaf children :
  with_cache (mkCacheMap leaf children) [] f =
    (fst (f (leaf_or leaf true)), mkCacheMap (Some (snd (f (leaf_or leaf true)))) children).
Proof. simpl. unfold leaf_or. destruct leaf; destruct (f _); reflexivity. Qed.

Lemma with_cache_prim leaf children d rest :
  isObject d = false ->
  with_cache (mkCacheMap leaf children) (d :: rest) f =
    (fst (f (leaf_or leaf false)), mkCacheMap (Some (snd (f (leaf_or leaf false)))) children).
Proof.
  intros E. simpl. rewrite E. simpl. unfold leaf_or.
  destruct leaf; destruct (f _); reflexivity.
Qed.

Lemma with_cache_obj leaf children d rest :
  isObject d = true ->
  with_cache (mkCacheMap leaf children) (d :: rest) f =
    (fst (with_cache (child_of children d) rest f),
     mkCacheMap leaf
       (assoc_set value_eqb children d (snd (with_cache (child_of children d) rest f)))).
Proof.
  intros E. simpl. rewrite E. simpl. fold (child_of children d).
  destruct (with_cache (child_of children d) rest f). reflexivity.
Qed.

Lemma with_cache_result caches dependants :
  fst (with_cache caches dependants f) = fst (f (current caches dependants)).
Proof.
  revert caches.
  induction dependants as [|d rest IH]; intros [leaf children].
  - rewrite with_cache_nil. reflexivity.
  - destruct (isObject d) eqn:E.
    + rewrite with_cache_obj, current_obj by exact E. simpl. apply IH.
    + rewrite with_cache_prim, current_prim by exact E. reflexivity.
Qed.

(** The cache a call leaves behind is found again by every dependants
    array with the same object-like prefix. *)
Lemma with_cache_stored_same caches d1 d2 :
  cache_path d1 = cache_path d2 ->
  cache_at (snd (with_cache caches d1 f)) d2 = Some (snd (f (current caches d1))).
Proof.
  revert caches d2.
  induction d1 as [|x rest IH]; intros [leaf children] d2 Hp.
  - rewrite with_cache_nil. simpl snd. simpl in Hp.
    destruct d2 as [|y r2]; [reflexivity|]. simpl in Hp.
    destruct (isObject y) eqn:Ey; [discriminate|].
    rewrite cache_at_prim by exact Ey. reflexivity.
  - simpl in Hp. destruct (isObject x) eqn:E.
    + rewrite with_cache_obj, current_obj by exact E. simpl snd.
      destruct d2 as [|y r2]; [discriminate|]. simpl in Hp.
      destruct (isObject y) eqn:Ey; [|discriminate].
      inversion Hp; subst y. rewrite cache_at_obj by exact Ey.
      unfold child_of at 1. rewrite (assoc_get_set_same value_eqb value_eqb_eq).
      apply IH. assumption.
    + rewrite with_cache_prim, current_prim by exact E. simpl snd.
      destruct d2 as [|y r2]; [reflexivity|]. simpl in Hp.
      destruct (isObject y) eqn:Ey; [discriminate|].
      rewrite cache_at_prim by exact Ey. reflexivity.
Qed.

(** Caches under another prefix are left alone. *)
Lemma with_cache_stored_other caches d1 d2 :
  cache_path d1 <> cache_path d2 ->
  cache_at (snd (with_cache caches d1 f)) d2 = cache_at caches d2.
Proof.
  revert caches d2.
  induction d1 as [|x rest IH]; intros [leaf children] d2 Hp.
  - rewrite with_cache_nil. simpl snd. simpl in Hp.
    destruct d2 as [|y r2]; [elim Hp; reflexivity|]. simpl in Hp.
    destruct (isObject y) eqn:Ey; [|elim Hp; reflexivity].
    rewrite !cache_at_obj by exact Ey. reflexivity.
  - simpl in Hp. destruct (isObject x) eqn:E.
    + rewrite with_cache_obj by exact E. simpl snd.
      destruct d2 as [|y r2]; [reflexivity|]. simpl in Hp.
      destruct (isObject y) eqn:Ey.
      * rewrite !cache_at_obj by exact Ey. unfold child_of at 1.
        destruct (value_eq_dec x y) as [->|Hxy].
        -- rewrite (assoc_get_set_same value_eqb value_eqb_eq).
           apply IH. congruence.
        -- rewrite (assoc_get_set_other value_eqb value_eqb_eq) by exact Hxy.
           reflexivity.
      * rewrite !cache_at_prim by exact Ey. reflexivity.
    + rewrite with_cache_prim by exact E. simpl snd.
      destruct d2 as [|y r2]; [elim Hp; reflexivity|]. simpl in Hp.
      destruct (isObject y) eqn:Ey; [|elim Hp; reflexivity].
      rewrite !cache_at_obj by exact Ey. reflexivity.
Qed.
End WithCache.

Section CreateSelector.
Variable selector : nat -> list value -> value.
Variable getDependants : list value -> list value.

Local Abbreviation use_cache := (use_cache selector).
Local Abbreviation callSelector := (callSelector selector getDependants).

Lemma callSelector_unfold guardFrom st args :
  callSelector_from selector getDependants guardFrom st args =
    let r := Selector.use_cache selector guardFrom (invocations st) args
               (getDependants args)
               (current (rootCache st) (getDependants args)) in
    (fst (fst r),
     mkState (snd (with_cache (rootCache st) (getDependants args)
                     (Selector.use_cache selector guardFrom (invocations st) args
                        (getDependants args))))
             (snd (fst r))).
Proof.
  unfold callSelector_from.
  pose proof (with_cache_result
                (Selector.use_cache selector guardFrom (invocations st) args
                   (getDependants args))
                (rootCache st) (getDependants args)) as H.
  destruct (with_cache _ _ _) as [[v n] root]. simpl in *. rewrite <- H. reflexivity.
Qed.

(** After a call the head of the cache is the entry of that call. *)
Lemma use_cache_head count s rest dependants c :
  let r := use_cache 0 count (s :: rest) dependants c in
  exists n0 l,
    head (snd r) = n0 :: l /\
    node_val n0 = fst (fst r) /\
    isShallowEqual (node_args n0) (s :: rest) 1 = true /\
    (isUniqueByDependants (snd r) = false ->
     lastDependants (snd r) = Some dependants).
Proof.
  unfold Selector.use_cache.
  set (c1 := if negb (isUniqueByDependants c) then _ else c).
  assert (Hlast : isUniqueByDependants c1 = false ->
                  lastDependants c1 = Some dependants).
  { subst c1. destruct (isUniqueByDependants c) eqn:U; simpl.
    - intros H. congruence.
    - intros _. reflexivity. }
  destruct (find_node (head c1) (s :: rest)) as [[[before node] after]|] eqn:F; simpl.
  - exists node, (before ++ after)%list. repeat split; auto.
    eapply find_node_matches, F.
  - eexists. eexists. repeat split; auto. simpl. apply isShallowEqual_1_null.
Qed.

(** A call whose trailing arguments match the head entry, made with the
    dependants of the previous call, returns that entry's value and does
    not invoke the selector. *)
Lemma use_cache_hit count s rest dependants c n0 l :
  head c = n0 :: l ->
  isShallowEqual (node_args n0) (s :: rest) 1 = true ->
  (isUniqueByDependants c = false -> lastDependants c = Some dependants) ->
  fst (use_cache 0 count (s :: rest) dependants c) = (node_val n0, count).
Proof.
  intros Hh Hm Hl. unfold Selector.use_cache.
  set (c1 := if negb (isUniqueByDependants c) then _ else c).
  assert (Hc1 : head c1 = n0 :: l).
  { subst c1. destruct (isUniqueByDependants c) eqn:U; simpl; [exact Hh|].
    rewrite (Hl eq_refl), isShallowEqual_refl. simpl. exact Hh. }
  rewrite Hc1. simpl. rewrite Hm. reflexivity.
Qed.

(** A call on an empty cache, or on one whose entries the dependants
    guard clears, invokes the selector. *)
Lemma use_cache_miss count args dependants c :
  (head c = [] \/
   (isUniqueByDependants c = false /\
    exists last, lastDependants c = Some last /\ last <> dependants)) ->
  fst (use_cache 0 count args dependants c) = (selector count args, S count).
Proof.
  intros H. unfold Selector.use_cache.
  set (c1 := if negb (isUniqueByDependants c) then _ else c).
  assert (Hc1 : head c1 = []).
  { subst c1. destruct H as [H | [U [last [Hl Hne]]]].
    - destruct (isUniqueByDependants c); simpl; [exact H|].
      destruct (lastDependants c); [|exact H].
      destruct (negb _); simpl; [reflexivity|exact H].
    - rewrite U, Hl. simpl.
      destruct (isShallowEqual dependants last 0) eqn:E; simpl; [|reflexivity].
      apply isShallowEqual_0 in E. congruence. }
  rewrite Hc1. reflexivity.
Qed.

Lemma current_empty d :
  current emptyCacheMap d = mkCache (forallb isObject d) [] None.
Proof. unfold current. rewrite cache_at_empty. reflexivity. Qed.

Lemma use_cache_fresh guardFrom count args dependants u :
  snd (Selector.use_cache selector guardFrom count args dependants (mkCache u [] None)) =
    mkCache u [mkNode (null_source args) (selector count args)]
            (if u then None else Some dependants).
Proof. unfold Selector.use_cache. destruct u; reflexivity. Qed.

Lemma current_after_call guardFrom st args d2 :
  cache_path (getDependants args) = cache_path d2 ->
  current (rootCache (snd (callSelector_from selector getDependants guardFrom st args))) d2 =
    snd (Selector.use_cache selector guardFrom (invocations st) args (getDependants args)
           (current (rootCache st) (getDependants args))).
Proof.
  intros Hp. rewrite callSelector_unfold. simpl. unfold current at 1.
  rewrite with_cache_stored_same by exact Hp. reflexivity.
Qed.


(** C5, as amended.  When some dependant is not object-like the call
    works on the cache kept under the object-like dependants that come
    before it, which every call with that prefix shares; a cache created
    by such a call is not unique by dependants.  On a cache that is not
    unique by dependants and that holds the dependants [last] of an
    earlier call, the entries are cleared before the lookup when the
    current dependants differ from [last] at any index, index 0
    included, and are kept when they are the same throughout; the
    current dependants are recorded for the next call. *)
Theorem primitive_dependants_guard (st : state) (args : list value) :
  let dependants := getDependants args in
  let c := current (rootCache st) dependants in
  let after := callSelector st args in
  let c' := current (rootCache (snd after)) dependants in
  forallb isObject dependants = false ->
  (forall d2, cache_path d2 = cache_path dependants ->
     cache_at (rootCache st) d2 = cache_at (rootCache st) dependants /\
     cache_at (rootCache (snd after)) d2 = Some c') /\
  (cache_at (rootCache st) dependants = None -> isUniqueByDependants c = false) /\
  (isUniqueByDependants c = false ->
     lastDependants c' = Some dependants /\
     forall last, lastDependants c = Some last ->
       (last <> dependants ->
          fst after = selector (invocations st) args /\
          invocations (snd after) = S (invocations st) /\
          head c' = [mkNode (null_source args) (selector (invocations st) args)]) /\
       (last = dependants ->
          fst after =
            match find_node (head c) args with
            | Some (_, node, _) => node_val node
            | None => selector (invocations st) args
            end)).
Proof.
  intros dependants c after c' Hprim.
  assert (Hc' : c' = snd (use_cache 0 (invocations st) args dependants c)).
  { subst c' after. unfold Selector.callSelector.
    rewrite current_after_call by reflexivity. reflexivity. }
  assert (Hafter : after =
            (fst (fst (use_cache 0 (invocations st) args dependants c)),
             mkState (rootCache (snd after))
                     (snd (fst (use_cache 0 (invocations st) args dependants c))))).
  { subst after. unfold Selector.callSelector. rewrite callSelector_unfold.
    reflexivity. }
  split; [|split].
  - intros d2 Hp. split.
    + rewrite <- (cache_at_path _ d2), Hp. apply cache_at_path.
    + subst after. unfold Selector.callSelector. rewrite callSelector_unfold.
      simpl rootCache. rewrite with_cache_stored_same by (symmetry; exact Hp).
      rewrite Hc'. reflexivity.
  - intros Hnone. subst c. unfold current. rewrite Hnone. exact Hprim.
  - intros U. split.
    + rewrite Hc'. unfold Selector.use_cache. rewrite U. simpl.
      destruct (find_node _ args) as [[[b n] a]|]; reflexivity.
    + intros last Hlast. split.
      * intros Hne.
        assert (Hm : fst (use_cache 0 (invocations st) args dependants c)
                     = (selector (invocations st) args, S (invocations st))).
        { apply use_cache_miss. right. split; [exact U|].
          exists last. split; [exact Hlast|exact Hne]. }
        rewrite Hafter, Hc'. simpl. rewrite Hm. simpl. repeat split.
        unfold Selector.use_cache. rewrite U, Hlast. simpl.
        destruct (isShallowEqual dependants last 0) eqn:E.
        -- apply isShallowEqual_0 in E. congruence.
        -- reflexivity.
      * intros ->. rewrite Hafter. simpl.
        unfold Selector.use_cache. rewrite U, Hlast, isShallowEqual_refl. simpl.
        destruct (find_node (head c) args) as [[[b n] a]|]; reflexivity.
Qed.
End CreateSelector.

(** Concrete selectors for the examples below. *)
Definition objA : value := VObj 1 KObject [].
Definition objB : value := VObj 2 KObject [].
Definition objC : value := VObj 3 KObject [].
Definition objD : value := VObj 4 KObject [].

(** Returns the number of the invocation. *)
Definition counting : nat -> list value -> value := fun n _ => VNum (Z.of_nat n).

(** [arrayOf]: the source is the only dependant. *)
Definition source_dependant (args : list value) : list value :=
  [nth 0 args VUndefined].

(** The second argument is the only dependant. *)
Definition second_dependant (args : list value) : list value :=
  [nth 1 args VUndefined].


(** The dependants are [[objA]] for the source [objC] and
    [[objA, 1]] for any other source. *)
Definition growing_dependants (args : list value) : list value :=
  if value_eqb (nth 0 args VUndefined) objC then [objA] else [objA; VNum 1].


Lemma primitive_dependants_guard_witness :
  let st := snd (Selector.callSelector counting source_dependant initial [VNum 1; objC]) in
  let after := Selector.callSelector counting source_dependant st [VNum 2; objC] in
  fst after = VNum 1 /\ invocations (snd after) = 2.
Proof.
  intros st after.
  destruct (primitive_dependants_guard counting source_dependant st [VNum 2; objC] eq_refl)
    as [_ [_ H]].
  destruct (H eq_refl) as [_ H'].
  destruct (H' [VNum 1] eq_refl) as [[H1 [H2 _]] _]; [discriminate|].
  split; [exact H1|exact H2].
Defined.

(** C5 as stated fails: two dependants arrays that differ at index 0
    only are different for the guard of the source, which clears the
    cache, and the same for a guard that leaves index 0 out. *)
Lemma dependants_guard_compares_index_0 :
  let st := snd (Selector.callSelector counting source_dependant initial [VNum 1; objC]) in
  Selector.callSelector counting source_dependant st [VNum 2; objC]
    <> callSelector_ignoring_source counting source_dependant st [VNum 2; objC] /\
  fst (Selector.callSelector counting source_dependant st [VNum 2; objC]) = VNum 1 /\
  fst (callSelector_ignoring_source counting source_dependant st [VNum 2; objC]) = VNum 0.
Proof. vm_compute. repeat split. discriminate. Qed.

End SelectorFacts.

(** ** EquivalentKeyMap: the map as a whole *)
Module EKMMore.
Import EKM EKMFacts.
Unset Implicit Arguments.

(** *** What an operation does to the leaves and to [_map] *)

Lemma leaf_set_map e m k : leaf (set_map e m) k = leaf e k.
Proof. reflexivity. Qed.

Lemma equivb_composite_primitive k key :
  is_primitive k = false -> is_primitive key = true -> equivb k key = false.
Proof. destruct k, key; simpl; intros; try discriminate; reflexivity. Qed.

(** [set]: the leaf of the key holds the new pair, and the key is the
    reference kept in [_map] for its leaf. *)
Lemma set_shape e key x :
  okE User e -> clean key = true -> okPayload User x ->
  exists e',
    set_stored e key x = Ok e' /\ okE User e' /\
    (forall k, clean k = true -> peek e' k = if equivb k key then x else peek e k) /\
    (forall k, clean k = true -> is_primitive k = false ->
       leaf e' k = if equivb k key then SPair key x else leaf e k) /\
    _map e' = (if is_primitive key then map_set (_map e) key x
               else registered e key x).
Proof.
  intros He Hc Hx. unfold set_stored. destruct (is_primitive key) eqn:P.
  - rewrite methods_at_set_primitive by exact P.
    destruct (set_primitive_spec key User e x P He Hx) as [He' [F _]].
    eexists. split; [reflexivity|]. split; [exact He'|]. split; [exact F|].
    split; [|reflexivity].
    intros k Hk Pk. rewrite leaf_set_map.
    rewrite (equivb_composite_primitive k key Pk P). reflexivity.
  - destruct (composite_depth key P) as [n Hn]. rewrite Hn. simpl m_set.
    destruct (spec_all n) as [Hget [Hhas Hset]].
    assert (Hd : depth key <= S n) by (rewrite Hn; apply le_n).
    unfold set_level. rewrite P.
    destruct (walk_set_spec n Hget Hhas Hset key (SPair key x) Hc P Hd
                (sort (object_keys key)) User
                (tree_of e key) (fun p => sort_in_1 _ p) (okE_tree User e key He)
                (ok_leaf User key x P Hx)) as [t [W [Ht F]]].
    rewrite W. simpl bind.
    change (peek_walk peek key (tree_of e key) (sort (object_keys key)))
      with (leaf e key).
    set (m := if stored_truthy (leaf e key)
              then map_delete (_map e) (index0 (leaf e key)) else _map e).
    set (e' := set_tree (set_map e (map_set m key (SPair key x))) key t).
    exists e'. split; [reflexivity|].
    destruct (okE_trees User e He) as [Ha Ho].
    destruct (okV_set_tree_of User (set_map e (map_set m key (SPair key x))) key t
                Ha Ho Ht) as [Ha' Ho'].
    assert (Hleaf : forall k, clean k = true -> is_primitive k = false ->
              leaf e' k = if equivb k key then SPair key x else leaf e k).
    { intros k Hk Pk.
      apply (leaf_after_walk e e' key t (fun _ => SPair key x) k Hk Pk P).
      - intros k'. unfold e'. rewrite tree_of_set_tree. reflexivity.
      - exact F. }
    assert (Hmap : _map e' = registered e key x).
    { unfold e'. rewrite map_of_set_tree. reflexivity. }
    split; [|split; [|split]].
    + apply (okE_register User e e' key x He Hc P Hx Ha' Ho' Hleaf Hmap).
    + apply (view_register User e e' key x He Hc P Hleaf Hmap).
    + exact Hleaf.
    + exact Hmap.
Qed.

(** The two ways a lookup leaves the map: as it was, or with the
    reference held for the leaf of [key] replaced by [key]. *)
Definition untouched (e e' : ekm) : Prop :=
  (forall k, clean k = true -> is_primitive k = false -> leaf e' k = leaf e k) /\
  _map e' = _map e.

Definition relinked (e e' : ekm) (key : value) (y : stored) : Prop :=
  (forall k, clean k = true -> is_primitive k = false ->
     leaf e' k = if equivb k key then SPair key y else leaf e k) /\
  _map e' = registered e key y.

Definition lookup_effect (e e' : ekm) (key : value) : Prop :=
  (untouched e e' /\
   (is_primitive key = true \/ map_has (_map e) key = true \/
    leaf e key = undefined)) \/
  (exists kr y,
     is_primitive key = false /\ map_has (_map e) key = false /\
     leaf e key = SPair kr y /\ okPayload User y /\ relinked e e' key y).

Lemma getValuePair_shape n key e :
  clean key = true -> is_primitive key = false -> depth key <= S n ->
  okE User e ->
  exists e',
    getValuePair (m_get (methods_at n)) (m_set (methods_at n)) e key
      = Ok (retag key (leaf e key), e') /\
    okE User e' /\ same_view e e' /\
    lookup_effect e e' key.
Proof.
  intros Hc P Hd He. destruct (spec_all n) as [Hget [Hhas Hset]].
  unfold getValuePair.
  destruct (map_has (_map e) key) eqn:Hh.
  - destruct (map_has_true _ _ Hh) as [x [E G]]. rewrite G.
    destruct (okE_entry User e key x He E) as [[Pk _]|[_ [_ [y [-> [Hy Hl]]]]]];
      [congruence|].
    exists e. rewrite Hl. simpl. split; [reflexivity|].
    split; [exact He|]. split; [intros k _; reflexivity|].
    left. split; [split; [intros; reflexivity|reflexivity]|].
    right. left. exact Hh.
  - destruct (walk_get_spec n Hget Hset key Hc P Hd (sort (object_keys key)) User
                (tree_of e key) (fun p => sort_in_1 _ p) (okE_tree User e key He))
      as [t [W [Ht F]]].
    rewrite W. simpl bind.
    change (peek_walk peek key (tree_of e key) (sort (object_keys key)))
      with (leaf e key).
    destruct (okV_set_tree User e key t He Ht) as [Ha Ho].
    assert (Hleaf : forall k, clean k = true -> is_primitive k = false ->
              leaf (set_tree e key t) k =
              if equivb k key then retag key (leaf e k) else leaf e k).
    { intros k Hk Pk.
      apply (leaf_after_walk e (set_tree e key t) key t (retag key) k Hk Pk P).
      - intros k'. apply tree_of_set_tree.
      - exact F. }
    pose proof (leaf_is_ok key User e Hc He) as L.
    inversion L as [U | kr y Pkr Hy U].
    + simpl. exists (set_tree e key t). split; [reflexivity|].
      assert (Hsame : forall k, clean k = true -> is_primitive k = false ->
                leaf (set_tree e key t) k = leaf e k).
      { intros k Hk Pk. rewrite Hleaf by assumption.
        destruct (equivb k key) eqn:EQ; [|reflexivity].
        destruct (peek_equiv (depth k) k key (le_n _) Hk EQ e) as [_ X].
        rewrite (X Pk), <- U. reflexivity. }
      split; [|split].
      * apply (okE_same_leaves User e _ He Ha Ho Hsame). apply map_of_set_tree.
      * apply (view_same_leaves e _ Hsame). apply map_of_set_tree.
      * left. split; [split; [exact Hsame|apply map_of_set_tree]|].
        right. right. symmetry. exact U.
    + simpl. eexists. split; [reflexivity|].
      set (e' := set_map (set_tree e key t)
                   (map_set (map_delete (_map (set_tree e key t)) kr) key (SPair key y))).
      assert (Hleaf' : forall k, clean k = true -> is_primitive k = false ->
                leaf e' k = if equivb k key then SPair key y else leaf e k).
      { intros k Hk Pk. change (leaf e' k) with (leaf (set_tree e key t) k).
        rewrite Hleaf by assumption.
        destruct (equivb k key) eqn:EQ; [|reflexivity].
        destruct (peek_equiv (depth k) k key (le_n _) Hk EQ e) as [_ X].
        rewrite (X Pk), <- U. reflexivity. }
      assert (Hmap : _map e' = registered e key y).
      { unfold e', registered. rewrite map_of_set_map, map_of_set_tree, <- U. reflexivity. }
      split; [|split].
      * apply (okE_register User e e' key y He Hc P Hy Ha Ho Hleaf' Hmap).
      * intros k Hk.
        rewrite (view_register User e e' key y He Hc P Hleaf' Hmap k Hk).
        destruct (equivb k key) eqn:EQ; [|reflexivity].
        destruct (peek_equiv (depth k) k key (le_n _) Hk EQ e) as [X _].
        rewrite X, (peek_composite e key P), <- U. reflexivity.
      * right. exists kr, y. split; [exact P|]. split; [exact Hh|].
        split; [symmetry; exact U|]. split; [exact Hy|].
        split; [exact Hleaf'|exact Hmap].
Qed.

(** [get] and [has] for one key leave the same map. *)
Lemma lookup_shape e key :
  okE User e -> clean key = true ->
  exists e',
    get e key = Ok (peek e key, e') /\
    has e key = Ok (present e key, e') /\
    okE User e' /\ same_view e e' /\
    lookup_effect e e' key.
Proof.
  intros He Hc. unfold get, has. destruct (is_primitive key) eqn:P.
  - rewrite methods_at_get_primitive, methods_at_has_primitive by exact P.
    exists e. rewrite (peek_primitive e key P). unfold present. rewrite P.
    split; [reflexivity|]. split; [reflexivity|]. split; [exact He|].
    split; [intros k _; reflexivity|].
    left. split; [split; [intros; reflexivity|reflexivity]|]. left. exact P.
  - destruct (composite_depth key P) as [n Hn]. rewrite Hn. simpl m_get. simpl m_has.
    assert (Hd : depth key <= S n) by (rewrite Hn; apply le_n).
    destruct (getValuePair_shape n key e Hc P Hd He) as [e' [G [He' [V Sh]]]].
    exists e'. unfold get_level, has_level. rewrite P, G. simpl bind.
    split; [|split; [|split; [exact He'|split; [exact V|]]]].
    3: { exact Sh. }
    + rewrite (peek_composite e key P).
      destruct (leaf e key) as [v|kr y|z m a o] eqn:L; simpl; try reflexivity.
      pose proof (leaf_is_ok key User e Hc He) as X. rewrite L in X.
      inversion X. reflexivity.
    + unfold present. rewrite P, is_undefined_retag. reflexivity.
Qed.

(** *** Every leaf is listed

    The reference a leaf holds is a key equivalent to the keys that
    lead to the leaf, and [_map] lists that reference with the value
    pair of the leaf. *)
Definition indexed (e : ekm) : Prop :=
  forall k kr y, clean k = true -> is_primitive k = false ->
    leaf e k = SPair kr y ->
    equivb k kr = true /\ assoc_get value_eqb (_map e) kr = Some (SPair kr y).

(** A map as the operations leave it. *)
Definition wf (e : ekm) : Prop := okE User e /\ indexed e.

Lemma leaf_empty k : leaf empty k = undefined.
Proof. unfold leaf, tree_of. simpl. destruct (isArray k); apply peek_walk_nil. Qed.

Lemma indexed_empty : indexed empty.
Proof. intros k kr y _ _ L. rewrite leaf_empty in L. discriminate L. Qed.

Lemma wf_empty : wf empty.
Proof. split; [apply okE_empty|apply indexed_empty]. Qed.

Lemma indexed_untouched e e' : indexed e -> untouched e e' -> indexed e'.
Proof.
  intros H [Hl Hm] k kr y Hk Pk L. rewrite Hl in L by assumption. rewrite Hm.
  apply (H k kr y Hk Pk L).
Qed.

Lemma entry_is_composite e kr y :
  okE User e -> assoc_get value_eqb (_map e) kr = Some (SPair kr y) ->
  is_primitive kr = false /\ clean kr = true /\ leaf e kr = SPair kr y.
Proof.
  intros He G.
  destruct (okE_entry User e kr _ He G) as [[_ Hx]|[Pk [Hck [y' [E [_ Hl]]]]]].
  - inversion Hx.
  - inversion E; subst y'. repeat split; assumption.
Qed.

Lemma indexed_relinked e e' key y :
  okE User e -> clean key = true -> is_primitive key = false ->
  indexed e -> relinked e e' key y -> indexed e'.
Proof.
  intros He Hc P Hidx [Hleaf Hmap] k kr0 y0 Hk Pk L.
  pose proof L as L0. rewrite Hleaf in L by assumption.
  destruct (equivb k key) eqn:EQ.
  - inversion L; subst kr0 y0. split; [exact EQ|].
    rewrite Hmap. unfold registered. rewrite assoc_get_map_set, value_eqb_refl.
    reflexivity.
  - destruct (Hidx k kr0 y0 Hk Pk L) as [E1 G]. split; [exact E1|].
    destruct (entry_is_composite e kr0 y0 He G) as [Pkr [Hckr _]].
    assert (Hne : kr0 <> key) by (intros ->; congruence).
    rewrite Hmap, (registered_get User e key y kr0 He Hc Hne).
    destruct (value_eqb (index0 (leaf e key)) kr0 && stored_truthy (leaf e key)) eqn:D;
      [|exact G].
    exfalso. apply andb_true_iff in D. destruct D as [D T].
    apply value_eqb_eq in D.
    pose proof (leaf_is_ok key User e Hc He) as X.
    inversion X as [U|kr1 y1 Pk1 Hy1 U]; [rewrite <- U in T; discriminate T|].
    rewrite <- U in D. simpl in D. subst kr1.
    destruct (Hidx key kr0 y1 Hc P (eq_sym U)) as [E2 _].
    destruct (peek_equiv (depth k) k kr0 (le_n _) Hk E1 e') as [_ X1].
    destruct (peek_equiv (depth key) key kr0 (le_n _) Hc E2 e') as [_ X2].
    specialize (X1 Pk). specialize (X2 P).
    rewrite L0 in X1. rewrite (Hleaf key Hc P), (equivb_refl key Hc) in X2.
    rewrite <- X1 in X2. inversion X2. congruence.
Qed.

Lemma indexed_set_primitive e e' key x :
  is_primitive key = true -> okE User e -> indexed e ->
  (forall k, clean k = true -> is_primitive k = false -> leaf e' k = leaf e k) ->
  _map e' = map_set (_map e) key x -> indexed e'.
Proof.
  intros P He Hidx Hl Hm k kr y Hk Pk L. rewrite Hl in L by assumption.
  destruct (Hidx k kr y Hk Pk L) as [E G]. split; [exact E|].
  destruct (entry_is_composite e kr y He G) as [Pkr _].
  rewrite Hm, assoc_get_map_set.
  rewrite (proj2 (value_eqb_neq key kr)) by (intros ->; congruence). exact G.
Qed.

(** [set] on a map as the operations leave it. *)
Lemma set_wf e key x :
  wf e -> clean key = true -> okPayload User x ->
  exists e',
    set_stored e key x = Ok e' /\ wf e' /\
    (forall k, clean k = true -> peek e' k = if equivb k key then x else peek e k) /\
    (forall k, clean k = true -> is_primitive k = false ->
       leaf e' k = if equivb k key then SPair key x else leaf e k) /\
    _map e' = (if is_primitive key then map_set (_map e) key x
               else registered e key x).
Proof.
  intros [He Hi] Hc Hx.
  destruct (set_shape e key x He Hc Hx) as [e' [S [He' [F [Hl Hm]]]]].
  exists e'. split; [exact S|]. split; [|split; [exact F|split; [exact Hl|exact Hm]]].
  split; [exact He'|]. destruct (is_primitive key) eqn:P.
  - apply (indexed_set_primitive e e' key x P He Hi); [|exact Hm].
    intros k Hk Pk. rewrite (Hl k Hk Pk), (equivb_composite_primitive k key Pk P).
    reflexivity.
  - apply (indexed_relinked e e' key x He Hc P Hi). split; assumption.
Qed.

(** [get] and [has] on a map as the operations leave it. *)
Lemma lookup_wf e key :
  wf e -> clean key = true ->
  exists e',
    get e key = Ok (peek e key, e') /\
    has e key = Ok (present e key, e') /\
    wf e' /\ same_view e e' /\
    lookup_effect e e' key.
Proof.
  intros [He Hi] Hc.
  destruct (lookup_shape e key He Hc) as [e' [G [H [He' [V Sh]]]]].
  exists e'. split; [exact G|]. split; [exact H|].
  split; [|split; [exact V|exact Sh]].
  split; [exact He'|]. destruct Sh as [[U _]|[kr [y [P [_ [L [Hy R]]]]]]].
  - apply (indexed_untouched e e' Hi U).
  - apply (indexed_relinked e e' key y He Hc P Hi R).
Qed.

(** *** Whether a key is present, before and after *)

Lemma registered_primitive e key y k :
  okE User e -> clean key = true -> is_primitive key = false ->
  is_primitive k = true ->
  assoc_get value_eqb (registered e key y) k = assoc_get value_eqb (_map e) k.
Proof.
  intros He Hc P Pk.
  assert (Hne : k <> key) by (intros ->; congruence).
  rewrite (registered_get User e key y k He Hc Hne).
  destruct (value_eqb (index0 (leaf e key)) k && stored_truthy (leaf e key)) eqn:D;
    [|reflexivity].
  exfalso. apply andb_true_iff in D. destruct D as [D T]. apply value_eqb_eq in D.
  pose proof (leaf_is_ok key User e Hc He) as X.
  inversion X as [U|kr y0 Pkr Hy0 U]; [rewrite <- U in T; discriminate T|].
  rewrite <- U in D. simpl in D. congruence.
Qed.

Lemma present_relinked e e' key y k :
  okE User e -> clean key = true -> is_primitive key = false -> clean k = true ->
  relinked e e' key y ->
  present e' k = if equivb k key then true else present e k.
Proof.
  intros He Hc P Hk [Hl Hm]. unfold present. destruct (is_primitive k) eqn:Pk.
  - rewrite (equivb_primitive_left k key Pk P).
    unfold map_has, assoc_has. rewrite Hm.
    rewrite (registered_primitive e key y k He Hc P Pk). reflexivity.
  - rewrite (Hl k Hk Pk). destruct (equivb k key); reflexivity.
Qed.

Lemma present_after_set e e' key x k :
  okE User e -> clean key = true -> clean k = true ->
  (forall k, clean k = true -> is_primitive k = false ->
     leaf e' k = if equivb k key then SPair key x else leaf e k) ->
  _map e' = (if is_primitive key then map_set (_map e) key x
             else registered e key x) ->
  present e' k = if equivb k key then true else present e k.
Proof.
  intros He Hc Hk Hl Hm. destruct (is_primitive key) eqn:P.
  - unfold present. destruct (is_primitive k) eqn:Pk.
    + rewrite (equivb_primitive k key Pk), Hm.
      destruct (value_eqb k key) eqn:EQ.
      * apply value_eqb_eq in EQ. subst k. apply map_has_set.
      * apply value_eqb_neq in EQ. apply map_has_set_other. congruence.
    + rewrite (Hl k Hk Pk), (equivb_composite_primitive k key Pk P). reflexivity.
  - apply (present_relinked e e' key x k He Hc P Hk). split; assumption.
Qed.

Lemma present_after_lookup e e' key k :
  okE User e -> clean key = true -> clean k = true ->
  lookup_effect e e' key ->
  present e' k = present e k.
Proof.
  intros He Hc Hk [[[Hl Hm] _]|[kr [y [P [_ [L [Hy R]]]]]]].
  - unfold present. rewrite Hm. destruct (is_primitive k) eqn:Pk; [reflexivity|].
    rewrite (Hl k Hk Pk). reflexivity.
  - rewrite (present_relinked e e' key y k He Hc P Hk R).
    destruct (equivb k key) eqn:EQ; [|reflexivity].
    rewrite (present_equiv k key e Hk EQ). unfold present. rewrite P, L. reflexivity.
Qed.

(** The methods of the class on a map as the operations leave it:
    what they return and what every key answers afterwards. *)
Lemma set_law e key v :
  wf e -> clean key = true ->
  exists e',
    set e key v = Ok e' /\ wf e' /\
    (forall k, clean k = true ->
       peek e' k = (if equivb k key then SVal v else peek e k) /\
       present e' k = (if equivb k key then true else present e k)).
Proof.
  intros W Hc.
  destruct (set_wf e key (SVal v) W Hc (ok_user v)) as [e' [S [W' [F [Hl Hm]]]]].
  exists e'. split; [exact S|]. split; [exact W'|].
  intros k Hk. split; [apply F; exact Hk|].
  apply (present_after_set e e' key (SVal v) k (proj1 W) Hc Hk Hl Hm).
Qed.

Lemma lookup_law e key :
  wf e -> clean key = true ->
  exists e',
    get e key = Ok (peek e key, e') /\
    has e key = Ok (present e key, e') /\ wf e' /\
    (forall k, clean k = true -> peek e' k = peek e k /\ present e' k = present e k).
Proof.
  intros W Hc.
  destruct (lookup_wf e key W Hc) as [e' [G [H [W' [V Sh]]]]].
  exists e'. split; [exact G|]. split; [exact H|]. split; [exact W'|].
  intros k Hk. split; [apply V; exact Hk|].
  apply (present_after_lookup e e' key k (proj1 W) Hc Hk Sh).
Qed.

Lemma delete_law e key :
  wf e -> clean key = true ->
  exists e',
    delete e key = Ok (present e key, e') /\ wf e' /\
    (forall k, clean k = true ->
       peek e' k = (if equivb k key && present e key then undefined else peek e k) /\
       present e' k = present e k).
Proof.
  intros W Hc. unfold delete.
  destruct (lookup_law e key W Hc) as [e1 [_ [H [W1 V1]]]]. rewrite H. simpl bind.
  destruct (present e key) eqn:Pr; simpl.
  - destruct (set_law e1 key VUndefined W1 Hc) as [e2 [S [W2 F2]]].
    rewrite S. simpl bind. exists e2. split; [reflexivity|]. split; [exact W2|].
    intros k Hk. destruct (F2 k Hk) as [A B]. destruct (V1 k Hk) as [A1 B1].
    rewrite A, B, andb_true_r. destruct (equivb k key) eqn:EQ.
    + split; [reflexivity|]. rewrite (present_equiv k key e Hk EQ), Pr. reflexivity.
    + split; congruence.
  - exists e1. split; [reflexivity|]. split; [exact W1|].
    intros k Hk. rewrite andb_false_r. apply V1. exact Hk.
Qed.

Lemma run_wf e o :
  wf e -> clean (operation_key o) = true ->
  exists e', run e o = Ok e' /\ wf e'.
Proof.
  intros W Hc. destruct o as [k v|k|k|k]; simpl in *.
  - destruct (set_law e k v W Hc) as [e' [S [W' _]]]. exists e'. split; assumption.
  - destruct (lookup_law e k W Hc) as [e' [G [_ [W' _]]]]. rewrite G.
    exists e'. split; [reflexivity|assumption].
  - destruct (lookup_law e k W Hc) as [e' [_ [G [W' _]]]]. rewrite G.
    exists e'. split; [reflexivity|assumption].
  - destruct (delete_law e k W Hc) as [e' [G [W' _]]]. rewrite G.
    exists e'. split; [reflexivity|assumption].
Qed.

Lemma run_all_wf ops : forall e,
  wf e -> clean_history ops ->
  exists e', run_all e ops = Ok e' /\ wf e'.
Proof.
  induction ops as [|o rest IH]; intros e W Hc.
  - exists e. split; [reflexivity|exact W].
  - inversion Hc as [|? ? Ho Hrest]; subst.
    destruct (run_wf e o W Ho) as [e1 [R W1]]. simpl. rewrite R. simpl.
    apply IH; assumption.
Qed.

Lemma history_wf ops :
  clean_history ops -> exists e, run_all empty ops = Ok e /\ wf e.
Proof. intros H. apply (run_all_wf ops empty wf_empty H). Qed.

(** *** Laws of the map *)

(** A new map, and any map after [clear()], answers no key: for
    every key, [get] returns [undefined], [has] and [delete] return
    [false], nothing throws and the map stays empty. *)
Theorem cleared_map_answers_no_key (e : ekm) (key : value) :
  clear empty = empty /\
  get (clear e) key = Ok (undefined, clear e) /\
  has (clear e) key = Ok (false, clear e) /\
  delete (clear e) key = Ok (false, clear e) /\
  size (clear e) = 0.
Proof.
  split; [reflexivity|].
  assert (T : tree_of (clear e) key = []).
  { unfold tree_of. destruct (isArray key); reflexivity. }
  assert (E : set_tree (clear e) key [] = clear e).
  { unfold set_tree. destruct (isArray key); reflexivity. }
  assert (G : forall ng ns, getValuePair ng ns (clear e) key = Ok (undefined, clear e)).
  { intros ng ns. unfold getValuePair. simpl map_has. cbv iota. rewrite T.
    destruct (sort (object_keys key)) as [|p rest]; simpl; rewrite E; reflexivity. }
  assert (H : has (clear e) key = Ok (false, clear e)).
  { unfold has. destruct (depth key); simpl; unfold has_level;
      destruct (is_primitive key); try reflexivity; rewrite G; reflexivity. }
  split; [|split; [exact H|split; [|reflexivity]]].
  - unfold get. destruct (depth key); simpl; unfold get_level;
      destruct (is_primitive key); try reflexivity; rewrite G; reflexivity.
  - unfold delete. rewrite H. reflexivity.
Qed.

(** With primitive keys the class is a plain [Map], on any map
    whatever its history: [set] never throws, the key then answers the
    value and is present, and every other primitive key answers as
    before. *)
Theorem primitive_keys_as_in_a_Map (e : ekm) (key : value) (v : value) :
  is_primitive key = true ->
  exists e',
    set e key v = Ok e' /\
    get e' key = Ok (SVal v, e') /\
    has e' key = Ok (true, e') /\
    forall k, is_primitive k = true -> k <> key ->
      exists x b,
        get e k = Ok (x, e) /\ get e' k = Ok (x, e') /\
        has e k = Ok (b, e) /\ has e' k = Ok (b, e').
Proof.
  intros P. unfold set, get, has.
  rewrite methods_at_set_primitive by exact P.
  eexists. split; [reflexivity|].
  rewrite methods_at_get_primitive, methods_at_has_primitive by exact P.
  simpl _map. rewrite map_get_set, map_has_set.
  split; [reflexivity|]. split; [reflexivity|].
  intros k Pk Hne.
  rewrite !methods_at_get_primitive, !methods_at_has_primitive by exact Pk.
  simpl _map. rewrite map_get_set_other, map_has_set_other by congruence.
  eexists. eexists. repeat split.
Qed.

(** [set] changes the answer of the keys equivalent to its key and of
    no other: on a map with a clean history, a key that is not
    equivalent to the key set answers [get] and [has] after the [set]
    as it did before. *)
Theorem set_leaves_other_keys (ops : list operation) (key k : value) (v : value) :
  clean_history ops -> clean key = true -> clean k = true ->
  equivb k key = false ->
  exists e x b e1 e2 e3 e4 e5,
    run_all empty ops = Ok e /\
    get e k = Ok (x, e1) /\ has e1 k = Ok (b, e2) /\
    set e2 key v = Ok e3 /\
    get e3 k = Ok (x, e4) /\ has e4 k = Ok (b, e5).
Proof.
  intros Hops Hc Hk Hne.
  destruct (history_wf ops Hops) as [e [R W]].
  destruct (lookup_law e k W Hk) as [e1 [G1 [_ [W1 V1]]]].
  destruct (lookup_law e1 k W1 Hk) as [e2 [_ [H2 [W2 V2]]]].
  destruct (set_law e2 key v W2 Hc) as [e3 [S3 [W3 F3]]].
  destruct (lookup_law e3 k W3 Hk) as [e4 [G4 [_ [W4 V4]]]].
  destruct (lookup_law e4 k W4 Hk) as [e5 [_ [H5 _]]].
  exists e, (peek e k), (present e1 k), e1, e2, e3, e4, e5.
  split; [exact R|]. split; [exact G1|]. split; [exact H2|]. split; [exact S3|].
  destruct (F3 k Hk) as [A B]. rewrite Hne in A, B.
  destruct (V1 k Hk) as [A1 B1]. destruct (V2 k Hk) as [A2 B2].
  destruct (V4 k Hk) as [A4 B4].
  split.
  - rewrite G4. congruence.
  - rewrite H5. congruence.
Qed.

(** Keys are compared in depth.  On a map with a clean history (every
    key used so far is free of the reserved property name
    [_ekm_value]) and for clean keys: a key whose property values are
    themselves objects or arrays is found by any key of the same kind
    with the same property names and equivalent values, and a later
    [set] under such a key replaces the value. *)
Theorem equivalent_keys_share_one_entry (ops : list operation) (k1 k2 : value)
    (v w : value) :
  clean_history ops -> clean k1 = true -> clean k2 = true ->
  equivb k2 k1 = true ->
  exists e e1 e2 e3 e4,
    run_all empty ops = Ok e /\
    set e k1 v = Ok e1 /\
    get e1 k2 = Ok (SVal v, e2) /\
    set e2 k2 w = Ok e3 /\
    get e3 k1 = Ok (SVal w, e4).
Proof.
  intros Hops H1 H2 EQ.
  destruct (history_wf ops Hops) as [e [R W]].
  destruct (set_law e k1 v W H1) as [e1 [S1 [W1 F1]]].
  destruct (lookup_law e1 k2 W1 H2) as [e2 [G2 [_ [W2 V2]]]].
  destruct (set_law e2 k2 w W2 H2) as [e3 [S3 [W3 F3]]].
  destruct (lookup_law e3 k1 W3 H1) as [e4 [G4 _]].
  exists e, e1, e2, e3, e4.
  split; [exact R|]. split; [exact S1|].
  split; [rewrite G2; destruct (F1 k2 H2) as [A _]; rewrite A, EQ; reflexivity|].
  split; [exact S3|].
  rewrite G4. destruct (F3 k2 H2) as [A _].
  rewrite (equivb_refl k2 H2) in A.
  destruct (peek_equiv (depth k2) k2 k1 (le_n _) H2 EQ e3) as [X _].
  rewrite <- X, A. reflexivity.
Qed.

(** On a map with a clean history and for clean keys: [delete]
    returns what [has] returns for the key, leaves [get] of the key
    [undefined], and changes the answer of no key that is not
    equivalent to it. *)
Theorem delete_clears_the_value (ops : list operation) (key k : value) :
  clean_history ops -> clean key = true -> clean k = true ->
  equivb k key = false ->
  exists e b x e1 e2 e3 e4 e5,
    run_all empty ops = Ok e /\
    get e k = Ok (x, e1) /\
    has e1 key = Ok (b, e2) /\
    delete e2 key = Ok (b, e3) /\
    get e3 key = Ok (undefined, e4) /\
    get e4 k = Ok (x, e5).
Proof.
  intros Hops Hc Hk Hne.
  destruct (history_wf ops Hops) as [e [R W]].
  destruct (lookup_law e k W Hk) as [e1 [G1 [_ [W1 V1]]]].
  destruct (lookup_law e1 key W1 Hc) as [e2 [_ [H2 [W2 V2]]]].
  destruct (delete_law e2 key W2 Hc) as [e3 [D3 [W3 F3]]].
  destruct (lookup_law e3 key W3 Hc) as [e4 [G4 [_ [W4 V4]]]].
  destruct (lookup_law e4 k W4 Hk) as [e5 [G5 _]].
  exists e, (present e1 key), (peek e k), e1, e2, e3, e4, e5.
  split; [exact R|]. split; [exact G1|]. split; [exact H2|].
  destruct (V2 key Hc) as [_ B2].
  split; [rewrite D3, B2; reflexivity|].
  split.
  - rewrite G4. destruct (F3 key Hc) as [A _]. rewrite A, (equivb_refl key Hc).
    simpl. destruct (present e2 key) eqn:Pr; [reflexivity|].
    rewrite (proj2 (present_spec key User e2 Hc (proj1 W2)) Pr). reflexivity.
  - rewrite G5. destruct (V4 k Hk) as [A4 _]. destruct (F3 k Hk) as [A3 _].
    destruct (V2 k Hk) as [A2 _]. destruct (V1 k Hk) as [A1 _].
    rewrite A4, A3, Hne. simpl. congruence.
Qed.

(** *** What [forEach] visits *)

Lemma assoc_get_in_jsmap (m : jsmap) k x :
  assoc_get value_eqb m k = Some x -> In (k, x) m.
Proof.
  induction m as [|[k0 x0] t IH]; simpl; [discriminate|].
  destruct (value_eqb k0 k) eqn:E.
  - apply value_eqb_eq in E. subst. intros H. inversion H. left. reflexivity.
  - intros H. right. apply IH, H.
Qed.

Lemma entries_keys e : map fst (entries e) = map fst (_map e).
Proof. unfold entries. rewrite map_map. reflexivity. Qed.

(** An entry is a key of the map with the value the map answers. *)
Lemma entry_answer e k0 x :
  okE User e -> In (k0, x) (entries e) ->
  clean k0 = true /\ present e k0 = true /\ x = peek e k0.
Proof.
  intros He Hin. unfold entries in Hin. apply in_map_iff in Hin.
  destruct Hin as [[k1 x1] [E Hin]]. simpl in E. inversion E; subst k1. clear E.
  apply (ResolutionFacts.in_assoc_get _ _ _ (okE_nodup User e He)) in Hin.
  destruct (okE_entry User e k0 x1 He Hin) as [[P Hx]|[P [Hc [y [-> [Hy Hl]]]]]];
    rewrite P in *.
  - split; [apply ResolutionFacts.primitive_clean; exact P|].
    unfold present. rewrite P, (peek_primitive e k0 P).
    unfold map_has, assoc_has, map_get. rewrite Hin. split; [reflexivity|congruence].
  - split; [exact Hc|]. unfold present.
    rewrite P, (peek_composite e k0 P), Hl. simpl. split; [reflexivity|congruence].
Qed.

(** A key that is present has an entry under an equivalent key. *)
Lemma present_entry e k :
  wf e -> clean k = true -> present e k = true ->
  exists k0, In (k0, peek e k) (entries e) /\ equivb k k0 = true.
Proof.
  intros [He Hi] Hk Pr. unfold present in Pr. destruct (is_primitive k) eqn:P.
  - destruct (map_has_true _ _ Pr) as [x [E G]].
    exists k. split; [|apply equivb_refl; exact Hk].
    rewrite (peek_primitive e k P), G. unfold entries.
    apply in_map_iff. exists (k, x). simpl. rewrite P.
    split; [reflexivity|apply assoc_get_in_jsmap; exact E].
  - pose proof (leaf_is_ok k User e Hk He) as L.
    inversion L as [U|kr y Pkr Hy U]; [rewrite <- U in Pr; discriminate Pr|].
    destruct (Hi k kr y Hk P (eq_sym U)) as [EQ G].
    exists kr. split; [|exact EQ].
    rewrite (peek_composite e k P), <- U. simpl. unfold entries.
    apply in_map_iff. exists (kr, SPair kr y). simpl. rewrite Pkr.
    split; [reflexivity|apply assoc_get_in_jsmap; exact G].
Qed.

(** Two entries never have equivalent keys. *)
Lemma entries_apart e k0 x0 k1 x1 :
  okE User e -> In (k0, x0) (entries e) -> In (k1, x1) (entries e) ->
  equivb k0 k1 = true -> k0 = k1.
Proof.
  intros He H0 H1 EQ.
  assert (L : forall k x, In (k, x) (entries e) -> is_primitive k = false ->
                exists y, leaf e k = SPair k y).
  { intros k x Hin P. unfold entries in Hin. apply in_map_iff in Hin.
    destruct Hin as [[k2 x2] [E Hin]]. simpl in E. inversion E; subst k2. clear E.
    apply (ResolutionFacts.in_assoc_get _ _ _ (okE_nodup User e He)) in Hin.
    destruct (okE_entry User e k x2 He Hin) as [[P' _]|[_ [_ [y [_ [_ Hl]]]]]];
      [congruence|]. exists y. exact Hl. }
  destruct (entry_answer e k0 x0 He H0) as [Hc0 _].
  destruct (is_primitive k0) eqn:P0.
  - rewrite (equivb_primitive k0 k1 P0) in EQ. apply value_eqb_eq. exact EQ.
  - assert (P1 : is_primitive k1 = false).
    { rewrite (equivb_composite k0 k1 Hc0 P0) in EQ.
      destruct (is_primitive k1); [discriminate EQ|reflexivity]. }
    destruct (L k0 x0 H0 P0) as [y0 L0]. destruct (L k1 x1 H1 P1) as [y1 L1].
    destruct (peek_equiv (depth k0) k0 k1 (le_n _) Hc0 EQ e) as [_ X].
    rewrite (X P0), L1 in L0. inversion L0. reflexivity.
Qed.

(** On a map with a clean history, [forEach] visits every key of the
    map once: the entries have distinct, pairwise inequivalent keys,
    each entry is a key that [has] reports with the value [get] returns
    for it, and every clean key that [has] reports is visited under an
    equivalent key with the value [get] returns. *)
Theorem forEach_visits_each_key_once (ops : list operation) :
  clean_history ops ->
  exists e,
    run_all empty ops = Ok e /\
    NoDup (map fst (entries e)) /\
    (forall k0 x0 k1 x1, In (k0, x0) (entries e) -> In (k1, x1) (entries e) ->
       equivb k0 k1 = true -> k0 = k1) /\
    (forall k0 x, In (k0, x) (entries e) ->
       exists e1 e2, get e k0 = Ok (x, e1) /\ has e k0 = Ok (true, e2)) /\
    (forall k e1, clean k = true -> has e k = Ok (true, e1) ->
       exists k0 x e2,
         In (k0, x) (entries e) /\ equivb k k0 = true /\ get e k = Ok (x, e2)).
Proof.
  intros Hops. destruct (history_wf ops Hops) as [e [R W]].
  exists e. split; [exact R|]. split; [|split; [|split]].
  - rewrite entries_keys. apply (okE_nodup User e (proj1 W)).
  - intros k0 x0 k1 x1. apply (entries_apart e k0 x0 k1 x1 (proj1 W)).
  - intros k0 x Hin.
    destruct (entry_answer e k0 x (proj1 W) Hin) as [Hc [Pr Hx]].
    destruct (lookup_law e k0 W Hc) as [e1 [G [H _]]].
    exists e1, e1. rewrite G, H, Pr, Hx. split; reflexivity.
  - intros k e1 Hk H.
    destruct (lookup_law e k W Hk) as [e2 [G [H' _]]].
    rewrite H' in H. injection H as Pr E.
    destruct (present_entry e k W Hk Pr) as [k0 [Hin EQ]].
    exists k0, (peek e k), e2. split; [exact Hin|]. split; [exact EQ|exact G].
Qed.

(** *** The number of elements *)

Lemma map_set_length m k x :
  List.length (map_set m k x) = if map_has m k then List.length m else S (List.length m).
Proof.
  unfold map_set, map_has, assoc_has. induction m as [|[k0 x0] t IH]; simpl.
  - reflexivity.
  - destruct (value_eqb k0 k); simpl; [reflexivity|]. rewrite IH.
    destruct (assoc_get value_eqb t k); reflexivity.
Qed.

Lemma map_delete_length m k :
  map_has m k = true -> S (List.length (map_delete m k)) = List.length m.
Proof.
  unfold map_delete, map_has, assoc_has. induction m as [|[k0 x0] t IH]; simpl.
  - discriminate.
  - destruct (value_eqb k0 k); simpl; [reflexivity|]. intros H. rewrite IH by exact H.
    reflexivity.
Qed.

Lemma registered_length e key y :
  wf e -> clean key = true -> is_primitive key = false ->
  List.length (registered e key y)
  = if present e key then List.length (_map e) else S (List.length (_map e)).
Proof.
  intros [He Hi] Hc P. unfold registered, present. rewrite P.
  assert (Hself : forall x, assoc_get value_eqb (_map e) key = Some x ->
                    exists y0, leaf e key = SPair key y0).
  { intros x G.
    destruct (okE_entry User e key x He G) as [[P' _]|[_ [_ [y0 [_ [_ Hl]]]]]];
      [congruence|]. exists y0. exact Hl. }
  pose proof (leaf_is_ok key User e Hc He) as L.
  inversion L as [U|kr y0 Pkr Hy0 U]; simpl.
  - rewrite map_set_length. unfold map_has, assoc_has.
    destruct (assoc_get value_eqb (_map e) key) as [x|] eqn:G; [|reflexivity].
    destruct (Hself x eq_refl) as [y1 Hl]. rewrite Hl in U. discriminate U.
  - destruct (Hi key kr y0 Hc P (eq_sym U)) as [_ G].
    assert (Hk : map_has (_map e) kr = true).
    { unfold map_has, assoc_has. rewrite G. reflexivity. }
    rewrite map_set_length. unfold map_has at 1. unfold assoc_has.
    rewrite (assoc_get_map_delete _ _ _ (okE_nodup User e He)).
    destruct (value_eqb kr key) eqn:E.
    + apply (map_delete_length _ _ Hk).
    + destruct (assoc_get value_eqb (_map e) key) as [x|] eqn:G';
        [|apply (map_delete_length _ _ Hk)].
      destruct (Hself x eq_refl) as [y1 Hl]. rewrite Hl in U. inversion U. subst kr.
      rewrite value_eqb_refl in E. discriminate E.
Qed.

Lemma size_after_set e key v e' :
  wf e -> clean key = true -> set e key v = Ok e' ->
  size e' = if present e key then size e else S (size e).
Proof.
  intros W Hc S.
  destruct (set_wf e key (SVal v) W Hc (ok_user v)) as [e1 [S1 [_ [_ [_ Hm]]]]].
  unfold set in S. unfold set_stored in S1. rewrite S in S1. inversion S1. subst e1.
  unfold size. rewrite Hm. destruct (is_primitive key) eqn:P.
  - rewrite map_set_length. unfold present. rewrite P. reflexivity.
  - apply (registered_length e key (SVal v) W Hc P).
Qed.

Lemma size_after_lookup e key :
  wf e -> clean key = true ->
  exists e', get e key = Ok (peek e key, e') /\
             has e key = Ok (present e key, e') /\ size e' = size e.
Proof.
  intros W Hc. destruct (lookup_wf e key W Hc) as [e' [G [H [_ [_ Sh]]]]].
  exists e'. split; [exact G|]. split; [exact H|].
  unfold size. destruct Sh as [[[_ Hm] _]|[kr [y [P [_ [L [_ [_ Hm]]]]]]]].
  - rewrite Hm. reflexivity.
  - rewrite Hm, (registered_length e key y W Hc P). unfold present.
    rewrite P, L. reflexivity.
Qed.

(** On a map with a clean history and for a clean key, [size] counts
    the keys up to equivalence: [has] leaves it as it is; [set] adds
    one element when [has] did not report the key, and none when it
    did, whatever the reference of the key; [get] and [delete] of the
    key after that leave the size as it is, so a deleted key still
    counts. *)
Theorem size_counts_keys (ops : list operation) (key : value) (v : value) :
  clean_history ops -> clean key = true ->
  exists e b e1 e2 e3 e4,
    run_all empty ops = Ok e /\
    has e key = Ok (b, e1) /\ size e1 = size e /\
    set e1 key v = Ok e2 /\ size e2 = (if b then size e else S (size e)) /\
    get e2 key = Ok (SVal v, e3) /\ size e3 = size e2 /\
    delete e3 key = Ok (true, e4) /\ size e4 = size e2.
Proof.
  intros Hops Hc. destruct (history_wf ops Hops) as [e [R W]].
  destruct (lookup_law e key W Hc) as [e1 [_ [H1 [W1 V1]]]].
  destruct (size_after_lookup e key W Hc) as [e1' [_ [H1' Z1]]].
  rewrite H1 in H1'. injection H1' as E1. subst e1'.
  destruct (set_law e1 key v W1 Hc) as [e2 [S2 [W2 F2]]].
  pose proof (size_after_set e1 key v e2 W1 Hc S2) as Z2.
  destruct (lookup_law e2 key W2 Hc) as [e3 [G3 [_ [W3 V3]]]].
  destruct (size_after_lookup e2 key W2 Hc) as [e3' [G3' [_ Z3]]].
  rewrite G3 in G3'. injection G3' as E3. subst e3'.
  destruct (delete_law e3 key W3 Hc) as [e4 [D4 [W4 _]]].
  exists e, (present e key), e1, e2, e3, e4.
  destruct (V1 key Hc) as [_ B1]. destruct (F2 key Hc) as [A2 B2].
  destruct (V3 key Hc) as [_ B3]. rewrite (equivb_refl key Hc) in A2, B2.
  split; [exact R|]. split; [exact H1|]. split; [exact Z1|]. split; [exact S2|].
  split; [rewrite Z2, B1, Z1; reflexivity|].
  split; [rewrite G3, A2; reflexivity|]. split; [exact Z3|].
  assert (Pr3 : present e3 key = true) by congruence.
  split; [rewrite D4, Pr3; reflexivity|].
  (* [delete] is [has] followed by [set] *)
  unfold delete in D4.
  destruct (size_after_lookup e3 key W3 Hc) as [e5 [_ [H5 Z5]]].
  destruct (lookup_law e3 key W3 Hc) as [e5' [_ [H5' [W5 V5]]]].
  rewrite H5 in H5'. injection H5' as E5. subst e5'.
  rewrite H5, Pr3 in D4. simpl in D4.
  destruct (set e5 key VUndefined) as [e6| |] eqn:S6; simpl in D4; try discriminate D4.
  injection D4 as E6. subst e6.
  rewrite (size_after_set e5 key VUndefined e4 W5 Hc S6).
  destruct (V5 key Hc) as [_ B5]. rewrite B5, Pr3. congruence.
Qed.

(** *** Copying a map: [new EquivalentKeyMap(map)] *)

(** No key of the list is equivalent to a key before it. *)
Fixpoint apart (l : list (value * stored)) : Prop :=
  match l with
  | [] => True
  | kx :: t => (forall kx', In kx' t -> equivb (fst kx') (fst kx) = false) /\ apart t
  end.

Lemma entries_snoc e e' k x :
  _map e' = (_map e ++ [(k, if is_primitive k then x else SPair k x)])%list ->
  entries e' = (entries e ++ [(k, x)])%list.
Proof.
  intros Hm. unfold entries. rewrite Hm, map_app. simpl.
  destruct (is_primitive k); reflexivity.
Qed.

Lemma absent_not_listed e k :
  okE User e -> present e k = false -> ~ In k (map fst (_map e)).
Proof.
  intros He Pr Hin.
  apply (proj1 (assoc_get_None_notin value_eqb value_eqb_eq (_map e) k)) in Hin;
    [exact Hin|].
  destruct (assoc_get value_eqb (_map e) k) as [x|] eqn:G; [|reflexivity].
  exfalso. unfold present in Pr.
  destruct (okE_entry User e k x He G) as [[P _]|[P [_ [y [_ [_ Hl]]]]]];
    rewrite P in Pr.
  - unfold map_has, assoc_has in Pr. rewrite G in Pr. discriminate Pr.
  - rewrite Hl in Pr. discriminate Pr.
Qed.

Lemma set_absent e key x :
  wf e -> clean key = true -> okPayload User x -> present e key = false ->
  exists e',
    set_stored e key x = Ok e' /\ wf e' /\
    entries e' = (entries e ++ [(key, x)])%list /\
    (forall k, clean k = true ->
       present e' k = if equivb k key then true else present e k).
Proof.
  intros W Hc Hx Pr.
  destruct (set_wf e key x W Hc Hx) as [e' [S [W' [_ [Hl Hm]]]]].
  exists e'. split; [exact S|]. split; [exact W'|]. split.
  - apply entries_snoc. rewrite Hm.
    pose proof (absent_not_listed e key (proj1 W) Pr) as Hnin.
    destruct (is_primitive key) eqn:P.
    + unfold map_set. apply (assoc_set_fresh value_eqb value_eqb_eq). exact Hnin.
    + unfold registered. unfold present in Pr. rewrite P in Pr.
      destruct (leaf e key) as [[]|kr y|z m a o]; simpl in Pr; try discriminate Pr.
      simpl. unfold map_set. apply (assoc_set_fresh value_eqb value_eqb_eq). exact Hnin.
  - intros k Hk. apply (present_after_set e e' key x k (proj1 W) Hc Hk Hl Hm).
Qed.

Lemma copy_fold_exact l : forall acc,
  wf acc ->
  Forall (fun kx => clean (fst kx) = true /\ okPayload User (snd kx) /\
                    present acc (fst kx) = false) l ->
  apart l ->
  exists e',
    fold_left (fun acc kx => e <- acc ;; set_stored e (fst kx) (snd kx)) l (Ok acc)
      = Ok e' /\
    wf e' /\ entries e' = (entries acc ++ l)%list.
Proof.
  induction l as [|[k x] t IH]; intros acc W Hl Ha; simpl.
  - exists acc. split; [reflexivity|]. split; [exact W|].
    rewrite app_nil_r. reflexivity.
  - inversion Hl as [|? ? [Hc [Hx Pr]] Ht]; subst. simpl in Hc, Hx, Pr.
    destruct Ha as [Hk Ha].
    destruct (set_absent acc k x W Hc Hx Pr) as [e1 [S [W1 [E1 F1]]]].
    rewrite S. destruct (IH e1 W1) as [e' [R [W' E']]].
    + apply Forall_forall. intros [k' x'] Hin.
      rewrite Forall_forall in Ht. destruct (Ht _ Hin) as [Hc' [Hx' Pr']].
      pose proof (Hk _ Hin) as Hne.
      simpl in *. split; [exact Hc'|]. split; [exact Hx'|].
      rewrite (F1 k' Hc'), Hne. exact Pr'.
    + exact Ha.
    + exists e'. split; [exact R|]. split; [exact W'|].
      rewrite E', E1, <- app_assoc. reflexivity.
Qed.

Lemma apart_among_entries e l :
  okE User e -> NoDup (map fst l) ->
  (forall kx, In kx l -> In kx (entries e)) -> apart l.
Proof.
  intros He. induction l as [|[k x] t IH]; intros Hnd Hsub; simpl; [exact I|].
  inversion Hnd as [|? ? Hn Hd]; subst. split.
  - intros [k' x'] Hin. simpl. destruct (equivb k' k) eqn:EQ; [|reflexivity].
    exfalso. apply Hn.
    rewrite <- (entries_apart e k' x' k x He (Hsub _ (or_intror Hin))
                  (Hsub _ (or_introl eq_refl)) EQ).
    apply (in_map fst) in Hin. exact Hin.
  - apply IH; [exact Hd|]. intros kx Hin. apply Hsub. right. exact Hin.
Qed.

Lemma entries_are_apart e : okE User e -> apart (entries e).
Proof.
  intros He. apply (apart_among_entries e (entries e) He); [|auto].
  rewrite entries_keys. apply (okE_nodup User e He).
Qed.

Lemma present_empty k : present empty k = false.
Proof.
  unfold present. destruct (is_primitive k); [reflexivity|].
  rewrite leaf_empty. reflexivity.
Qed.

(** The copy has the entries of the map, in the same order. *)
Lemma copy_exact e :
  wf e -> exists c, copy e = Ok c /\ wf c /\ entries c = entries e.
Proof.
  intros W. unfold copy.
  destruct (copy_fold_exact (entries e) empty wf_empty) as [c [R [Wc E]]].
  - apply Forall_forall. intros [k x] Hin.
    destruct (entry_answer e k x (proj1 W) Hin) as [Hc [_ Hx]]. simpl.
    split; [exact Hc|]. split; [|apply present_empty].
    pose proof (ResolutionFacts.entries_ok e (proj1 W)) as Ho.
    rewrite Forall_forall in Ho. apply (Ho _ Hin).
  - apply entries_are_apart, (proj1 W).
  - exists c. split; [exact R|]. split; [exact Wc|exact E].
Qed.

(** Two maps with the same entries answer every key alike. *)
Lemma same_entries_same_answers e c k :
  wf e -> wf c -> entries c = entries e -> clean k = true ->
  peek c k = peek e k /\ present c k = present e k.
Proof.
  assert (Half : forall a b, wf a -> wf b -> entries b = entries a ->
            present a k = true -> clean k = true ->
            present b k = true /\ peek b k = peek a k).
  { intros a b Wa Wb E Pr Hk.
    destruct (present_entry a k Wa Hk Pr) as [k0 [Hin EQ]].
    rewrite <- E in Hin.
    destruct (entry_answer b k0 _ (proj1 Wb) Hin) as [Hc0 [Pr0 Hx]].
    destruct (peek_equiv (depth k) k k0 (le_n _) Hk EQ b) as [X _].
    split; [rewrite (present_equiv k k0 b Hk EQ); exact Pr0|].
    rewrite X. symmetry. exact Hx. }
  intros We Wc E Hk.
  destruct (present e k) eqn:Pe.
  - destruct (Half e c We Wc E Pe Hk) as [A B]. split; [exact B|exact A].
  - destruct (present c k) eqn:Pc.
    + destruct (Half c e Wc We (eq_sym E) Pc Hk) as [A _]. congruence.
    + split; [|reflexivity].
      rewrite (proj2 (present_spec k User c Hk (proj1 Wc)) Pc).
      rewrite (proj2 (present_spec k User e Hk (proj1 We)) Pe). reflexivity.
Qed.

Lemma copy_law e :
  wf e ->
  exists c, copy e = Ok c /\ wf c /\ entries c = entries e /\
    forall k, clean k = true -> peek c k = peek e k /\ present c k = present e k.
Proof.
  intros W. destruct (copy_exact e W) as [c [R [Wc E]]].
  exists c. split; [exact R|]. split; [exact Wc|]. split; [exact E|].
  intros k Hk. apply (same_entries_same_answers e c k W Wc E Hk).
Qed.

(** A map built with [new EquivalentKeyMap(map)] from a map with a
    clean history has the entries of that map in the same order, hence
    its size, and answers [get] and [has] for every clean key as that
    map does. *)
Theorem copy_is_faithful (ops : list operation) :
  clean_history ops ->
  exists e c,
    run_all empty ops = Ok e /\ copy e = Ok c /\
    entries c = entries e /\ size c = size e /\
    forall k, clean k = true ->
      exists x b e1 c1,
        get e k = Ok (x, e1) /\ get c k = Ok (x, c1) /\
        has e k = Ok (b, e1) /\ has c k = Ok (b, c1).
Proof.
  intros Hops. destruct (history_wf ops Hops) as [e [R W]].
  destruct (copy_law e W) as [c [C [Wc [E V]]]].
  exists e, c. split; [exact R|]. split; [exact C|]. split; [exact E|].
  split.
  - unfold size. rewrite <- (length_map fst (_map c)), <- (length_map fst (_map e)).
    rewrite <- !entries_keys, E. reflexivity.
  - intros k Hk.
    destruct (lookup_law e k W Hk) as [e1 [G [H _]]].
    destruct (lookup_law c k Wc Hk) as [c1 [Gc [Hc _]]].
    destruct (V k Hk) as [A B].
    exists (peek e k), (present e k), e1, c1.
    split; [exact G|]. split; [rewrite Gc, A; reflexivity|].
    split; [exact H|]. rewrite Hc, B. reflexivity.
Qed.

(** *** Where [set] puts the entry in the iteration order *)

Lemma assoc_delete_filter (m : jsmap) k :
  NoDup (map fst m) ->
  assoc_delete value_eqb m k = filter (fun kx => negb (value_eqb (fst kx) k)) m.
Proof.
  induction m as [|[k0 x0] t IH]; simpl; intros Hnd; [reflexivity|].
  inversion Hnd as [|? ? Hn Hd]; subst.
  destruct (value_eqb k0 k) eqn:E; simpl.
  - apply value_eqb_eq in E. subst k0. symmetry.
    assert (X : forall l, ~ In k (map fst l) ->
              filter (fun kx : value * stored => negb (value_eqb (fst kx) k)) l = l).
    { induction l as [|[k1 x1] l IHl]; simpl; intros Hnin; [reflexivity|].
      rewrite (proj2 (value_eqb_neq k1 k)) by (intros ->; apply Hnin; left; reflexivity).
      simpl. f_equal. apply IHl. intros H. apply Hnin. right. exact H. }
    apply X. exact Hn.
  - f_equal. apply IH. exact Hd.
Qed.

Lemma filter_ext_in_entries (f g : value * stored -> bool) (l : list (value * stored)) :
  (forall kx, In kx l -> f kx = g kx) -> filter f l = filter g l.
Proof.
  induction l as [|a t IH]; simpl; intros H; [reflexivity|].
  rewrite (H a (or_introl eq_refl)). rewrite IH; [reflexivity|].
  intros kx Hin. apply H. right. exact Hin.
Qed.

Definition unwrap (kx : value * stored) : value * stored :=
  (fst kx, if is_primitive (fst kx) then snd kx else index1 (snd kx)).

Lemma entries_unwrap e : entries e = map unwrap (_map e).
Proof. reflexivity. Qed.

Lemma filter_unwrap (f : value -> bool) (m : jsmap) :
  filter (fun kx => f (fst kx)) (map unwrap m)
  = map unwrap (filter (fun kx => f (fst kx)) m).
Proof.
  induction m as [|[k x] t IH]; simpl; [reflexivity|].
  destruct (f k); simpl; rewrite IH; reflexivity.
Qed.

Lemma assoc_set_unwrap (m : jsmap) k x :
  is_primitive k = true ->
  map unwrap (assoc_set value_eqb m k x) = assoc_set value_eqb (map unwrap m) k x.
Proof.
  intros P. induction m as [|[k0 x0] t IH]; simpl.
  - unfold unwrap. simpl. rewrite P. reflexivity.
  - destruct (value_eqb k0 k) eqn:E; simpl.
    + apply value_eqb_eq in E. subst k0. unfold unwrap at 1. simpl. rewrite P.
      reflexivity.
    + rewrite IH. reflexivity.
Qed.

(** The reference a leaf holds is the only listed key the key of the
    leaf is equivalent to. *)
Lemma listed_equivalent e key kr y k0 x0 :
  wf e -> clean key = true -> is_primitive key = false ->
  leaf e key = SPair kr y -> In (k0, x0) (_map e) ->
  equivb key k0 = value_eqb k0 kr.
Proof.
  intros [He Hi] Hc P L Hin.
  destruct (Hi key kr y Hc P L) as [EQ G].
  destruct (value_eqb k0 kr) eqn:E.
  - apply value_eqb_eq in E. subst k0. exact EQ.
  - destruct (equivb key k0) eqn:EQ0; [|reflexivity]. exfalso.
    apply value_eqb_neq in E. apply E.
    apply (ResolutionFacts.in_assoc_get _ _ _ (okE_nodup User e He)) in Hin.
    assert (P0 : is_primitive k0 = false).
    { rewrite (equivb_composite key k0 Hc P) in EQ0.
      destruct (is_primitive k0); [discriminate EQ0|reflexivity]. }
    destruct (okE_entry User e k0 x0 He Hin) as [[P' _]|[_ [_ [y0 [_ [_ Hl]]]]]];
      [congruence|].
    destruct (peek_equiv (depth key) key k0 (le_n _) Hc EQ0 e) as [_ X].
    rewrite (X P), Hl in L. inversion L. reflexivity.
Qed.

Lemma unlisted_equivalent e key k0 x0 :
  okE User e -> clean key = true -> is_primitive key = false ->
  leaf e key = undefined -> In (k0, x0) (_map e) -> equivb key k0 = false.
Proof.
  intros He Hc P L Hin. destruct (equivb key k0) eqn:EQ0; [|reflexivity]. exfalso.
  apply (ResolutionFacts.in_assoc_get _ _ _ (okE_nodup User e He)) in Hin.
  assert (P0 : is_primitive k0 = false).
  { rewrite (equivb_composite key k0 Hc P) in EQ0.
    destruct (is_primitive k0); [discriminate EQ0|reflexivity]. }
  destruct (okE_entry User e k0 x0 He Hin) as [[P' _]|[_ [_ [y0 [_ [_ Hl]]]]]];
    [congruence|].
  destruct (peek_equiv (depth key) key k0 (le_n _) Hc EQ0 e) as [_ X].
  rewrite (X P), Hl in L. discriminate L.
Qed.

Lemma registered_entries e key x :
  wf e -> clean key = true -> is_primitive key = false ->
  map unwrap (registered e key x)
  = (filter (fun kx => negb (equivb key (fst kx))) (entries e) ++ [(key, x)])%list.
Proof.
  intros W Hc P. pose proof (proj1 W) as He. unfold registered.
  rewrite entries_unwrap, (filter_unwrap (fun k => negb (equivb key k))).
  pose proof (leaf_is_ok key User e Hc He) as L.
  inversion L as [U|kr y Pkr Hy U]; simpl.
  - assert (F : filter (fun kx => negb (equivb key (fst kx))) (_map e) = _map e).
    { rewrite (filter_ext_in_entries _ (fun _ => true)).
      - induction (_map e) as [|a t IH]; simpl; [reflexivity|]. rewrite IH. reflexivity.
      - intros [k0 x0] Hin. simpl.
        rewrite (unlisted_equivalent e key k0 x0 He Hc P (eq_sym U) Hin). reflexivity. }
    rewrite F. unfold map_set.
    rewrite (assoc_set_fresh value_eqb value_eqb_eq).
    + rewrite map_app. simpl. unfold unwrap at 2. simpl. rewrite P. reflexivity.
    + apply absent_not_listed; [exact He|]. unfold present. rewrite P, <- U. reflexivity.
  - unfold map_set, map_delete.
    rewrite (assoc_delete_filter _ _ (okE_nodup User e He)).
    rewrite (filter_ext_in_entries _ (fun kx => negb (equivb key (fst kx)))).
    + rewrite (assoc_set_fresh value_eqb value_eqb_eq).
      * rewrite map_app. simpl. unfold unwrap at 2. simpl. rewrite P. reflexivity.
      * intros Hin. apply in_map_iff in Hin. destruct Hin as [[k0 x0] [E Hin]].
        simpl in E. subst k0. apply filter_In in Hin. destruct Hin as [Hin F].
        simpl in F.
        rewrite (equivb_refl key Hc) in F. discriminate F.
    + intros [k0 x0] Hin. simpl.
      rewrite (listed_equivalent e key kr y k0 x0 W Hc P (eq_sym U) Hin). reflexivity.
Qed.

(** [forEach] goes through the entries in the order of [_map].  On a
    map with a clean history and for a clean key: a primitive key set
    again keeps its place, as in a [Map]; an object or array key set
    again goes to the end, whether or not an equivalent key was there:
    the entry of the equivalent key is dropped and a new one is added
    last. *)
Theorem set_entry_position (ops : list operation) (key : value) (v : value) :
  clean_history ops -> clean key = true ->
  exists e e',
    run_all empty ops = Ok e /\ set e key v = Ok e' /\
    entries e' =
      if is_primitive key
      then assoc_set value_eqb (entries e) key (SVal v)
      else (filter (fun kx => negb (equivb key (fst kx))) (entries e)
              ++ [(key, SVal v)])%list.
Proof.
  intros Hops Hc. destruct (history_wf ops Hops) as [e [R W]].
  destruct (set_wf e key (SVal v) W Hc (ok_user v)) as [e' [S [_ [_ [_ Hm]]]]].
  exists e, e'. split; [exact R|]. split; [exact S|].
  rewrite (entries_unwrap e'), Hm. destruct (is_primitive key) eqn:P.
  - unfold map_set. rewrite (assoc_set_unwrap _ _ _ P). reflexivity.
  - apply (registered_entries e key (SVal v) W Hc P).
Qed.

Lemma listed_map_has e key :
  existsb (fun kx => value_eqb (fst kx) key) (entries e) = map_has (_map e) key.
Proof.
  unfold entries, map_has, assoc_has. induction (_map e) as [|[k0 x0] t IH]; simpl.
  - reflexivity.
  - destruct (value_eqb k0 key); simpl; [reflexivity|exact IH].
Qed.

(** A lookup can change the iteration order.  On a map with a clean
    history, [get] or [has] with a clean object or array key that is
    present, but whose reference is not the one listed, drops the
    listed entry and adds the entry last under the new reference; any
    other lookup with a clean object or array key leaves the entries as
    they are. *)
Theorem lookup_moves_entry (ops : list operation) (key : value) :
  clean_history ops -> clean key = true -> is_primitive key = false ->
  exists e x b e',
    run_all empty ops = Ok e /\
    get e key = Ok (x, e') /\ has e key = Ok (b, e') /\
    entries e' =
      if b && negb (existsb (fun kx => value_eqb (fst kx) key) (entries e))
      then (filter (fun kx => negb (equivb key (fst kx))) (entries e)
              ++ [(key, x)])%list
      else entries e.
Proof.
  intros Hops Hc P. destruct (history_wf ops Hops) as [e [R W]].
  destruct (lookup_wf e key W Hc) as [e' [G [H [_ [_ Sh]]]]].
  exists e, (peek e key), (present e key), e'.
  split; [exact R|]. split; [exact G|]. split; [exact H|].
  rewrite listed_map_has.
  destruct Sh as [[[_ Hm] [C|[C|C]]]|[kr [y [_ [Hh [L [_ [_ Hm]]]]]]]].
  - congruence.
  - rewrite C, andb_false_r. rewrite !entries_unwrap, Hm. reflexivity.
  - unfold present. rewrite P, C. simpl. rewrite !entries_unwrap, Hm. reflexivity.
  - unfold present. rewrite P, L, Hh. simpl.
    rewrite (entries_unwrap e'), Hm, (registered_entries e key y W Hc P).
    rewrite (peek_composite e key P), L. reflexivity.
Qed.

(** *** [some] and [values] on maps keyed by objects and arrays *)

Definition composite_keys (e : ekm) : Prop :=
  forall k x, In (k, x) (entries e) -> is_primitive k = false.

Lemma composite_keys_empty : composite_keys empty.
Proof. intros k x []. Qed.

Lemma composite_keys_relinked e e' key y :
  wf e -> clean key = true -> is_primitive key = false ->
  composite_keys e -> _map e' = registered e key y -> composite_keys e'.
Proof.
  intros W Hc P H Hm k x Hin.
  rewrite (entries_unwrap e'), Hm, (registered_entries e key y W Hc P) in Hin.
  apply in_app_iff in Hin. destruct Hin as [Hin|[E|[]]].
  - apply filter_In in Hin. apply (H k x (proj1 Hin)).
  - inversion E; subst. exact P.
Qed.

Lemma composite_keys_run e o :
  wf e -> clean (operation_key o) = true -> is_primitive (operation_key o) = false ->
  composite_keys e ->
  exists e', run e o = Ok e' /\ wf e' /\ composite_keys e'.
Proof.
  intros W Hc P H.
  assert (HL : forall e0, wf e0 -> composite_keys e0 ->
            exists e1, get e0 (operation_key o) = Ok (peek e0 (operation_key o), e1) /\
                       has e0 (operation_key o) = Ok (present e0 (operation_key o), e1) /\
                       wf e1 /\ composite_keys e1).
  { intros e0 W0 H0.
    destruct (lookup_wf e0 _ W0 Hc) as [e1 [G [Hh [W1 [_ Sh]]]]].
    exists e1. split; [exact G|]. split; [exact Hh|]. split; [exact W1|].
    destruct Sh as [[[_ Hm] _]|[kr [y [_ [_ [_ [_ [_ Hm]]]]]]]].
    - intros k x Hin. rewrite entries_unwrap, Hm in Hin. apply (H0 k x Hin).
    - apply (composite_keys_relinked e0 e1 _ y W0 Hc P H0 Hm). }
  assert (HS : forall e0 v, wf e0 -> composite_keys e0 ->
            exists e1, set e0 (operation_key o) v = Ok e1 /\ wf e1 /\ composite_keys e1).
  { intros e0 v W0 H0.
    destruct (set_wf e0 _ (SVal v) W0 Hc (ok_user v)) as [e1 [S [W1 [_ [_ Hm]]]]].
    exists e1. split; [exact S|]. split; [exact W1|]. rewrite P in Hm.
    apply (composite_keys_relinked e0 e1 _ (SVal v) W0 Hc P H0 Hm). }
  destruct o as [k v|k|k|k]; simpl in *.
  - apply HS; assumption.
  - destruct (HL e W H) as [e1 [G [_ [W1 H1]]]]. rewrite G.
    exists e1. split; [reflexivity|]. split; assumption.
  - destruct (HL e W H) as [e1 [_ [G [W1 H1]]]]. rewrite G.
    exists e1. split; [reflexivity|]. split; assumption.
  - unfold delete. destruct (HL e W H) as [e1 [_ [G [W1 H1]]]]. rewrite G. simpl bind.
    destruct (present e k); simpl.
    + destruct (HS e1 VUndefined W1 H1) as [e2 [S [W2 H2]]]. rewrite S.
      exists e2. split; [reflexivity|]. split; assumption.
    + exists e1. split; [reflexivity|]. split; assumption.
Qed.

Lemma composite_keys_run_all ops : forall e,
  wf e -> clean_history ops ->
  Forall (fun o => is_primitive (operation_key o) = false) ops ->
  composite_keys e ->
  exists e', run_all e ops = Ok e' /\ wf e' /\ composite_keys e'.
Proof.
  induction ops as [|o rest IH]; intros e W Hc Hp H.
  - exists e. split; [reflexivity|]. split; assumption.
  - inversion Hc as [|? ? Ho Hrest]; subst. inversion Hp as [|? ? Po Prest]; subst.
    destruct (composite_keys_run e o W Ho Po H) as [e1 [R [W1 H1]]].
    simpl. rewrite R. simpl. apply IH; assumption.
Qed.

(** With object and array keys every listed value is a pair. *)
Lemma listed_pairs e :
  okE User e -> composite_keys e ->
  forall k s, In (k, s) (_map e) -> s = SPair k (index1 s) /\ In (k, index1 s) (entries e).
Proof.
  intros He H k s Hin.
  assert (Hin' : In (k, if is_primitive k then s else index1 s) (entries e)).
  { unfold entries. apply in_map_iff. exists (k, s). split; [reflexivity|exact Hin]. }
  pose proof (H _ _ Hin') as P. rewrite P in Hin'. split; [|exact Hin'].
  apply (ResolutionFacts.in_assoc_get _ _ _ (okE_nodup User e He)) in Hin.
  destruct (okE_entry User e k s He Hin) as [[P' _]|[_ [_ [y [-> _]]]]];
    [congruence|reflexivity].
Qed.

Lemma some_loop_pairs (f : value -> stored -> bool) (m : jsmap) :
  (forall k s, In (k, s) m -> s = SPair k (index1 s)) ->
  some_loop (fun k x => Ok (f k x)) m
  = Ok (existsb (fun kx => f (fst kx) (index1 (snd kx))) m).
Proof.
  induction m as [|[k s] t IH]; intros H; simpl; [reflexivity|].
  rewrite (H k s (or_introl eq_refl)). simpl.
  destruct (f k _); [reflexivity|]. apply IH.
  intros k' s' Hin. apply H. right. exact Hin.
Qed.

Lemma existsb_unwrap (f : value -> stored -> bool) (m : jsmap) :
  (forall k s, In (k, s) m -> is_primitive k = false) ->
  existsb (fun kx => f (fst kx) (index1 (snd kx))) m
  = existsb (fun kx => f (fst kx) (snd kx)) (map unwrap m).
Proof.
  induction m as [|[k s] t IH]; intros H; simpl; [reflexivity|].
  rewrite (H k s (or_introl eq_refl)). f_equal. apply IH.
  intros k' s' Hin. apply (H k' s'). right. exact Hin.
Qed.

(** On a map with a clean history whose keys are objects and arrays
    only, [some] with a callback that does not throw is true exactly
    when the callback is true of an entry that [forEach] visits, with
    the key and the value of the entry; deleted keys are among them,
    with the value [undefined]. *)
Theorem some_agrees_with_forEach (ops : list operation) (f : value -> stored -> bool) :
  clean_history ops ->
  Forall (fun o => is_primitive (operation_key o) = false) ops ->
  exists e,
    run_all empty ops = Ok e /\
    some e (fun k x => Ok (f k x))
    = Ok (existsb (fun kx => f (fst kx) (snd kx)) (entries e)).
Proof.
  intros Hops Hp.
  destruct (composite_keys_run_all ops empty wf_empty Hops Hp composite_keys_empty)
    as [e [R [W H]]].
  exists e. split; [exact R|]. unfold some.
  rewrite some_loop_pairs.
  - f_equal. rewrite entries_unwrap. apply existsb_unwrap.
    intros k s Hin. destruct (listed_pairs e (proj1 W) H k s Hin) as [_ Hin'].
    apply (H _ _ Hin').
  - intros k s Hin. apply (listed_pairs e (proj1 W) H k s Hin).
Qed.

(** On a map with a clean history whose keys are objects and arrays
    only, [values()] does not yield the values: it yields, for each
    entry that [forEach] visits, the pair of the listed key and the
    value. *)
Theorem values_are_pairs (ops : list operation) :
  clean_history ops ->
  Forall (fun o => is_primitive (operation_key o) = false) ops ->
  exists e,
    run_all empty ops = Ok e /\
    values e = map (fun kx => SPair (fst kx) (snd kx)) (entries e).
Proof.
  intros Hops Hp.
  destruct (composite_keys_run_all ops empty wf_empty Hops Hp composite_keys_empty)
    as [e [R [W H]]].
  exists e. split; [exact R|]. unfold values, entries. rewrite map_map.
  apply map_ext_in. intros [k s] Hin. simpl.
  destruct (listed_pairs e (proj1 W) H k s Hin) as [E Hin'].
  rewrite (H _ _ Hin'). exact E.
Qed.

(** *** [new EquivalentKeyMap(pairs)] *)

(** The value of the last pair whose key is equivalent to [k]. *)
Definition last_value (k : value) (pairs : list (value * value)) : option value :=
  fold_left (fun acc kv => if equivb k (fst kv) then Some (snd kv) else acc) pairs None.

Definition answer (o : option value) : stored :=
  match o with
  | Some v => SVal v
  | None => undefined
  end.

Lemma from_pairs_fold k pairs : forall acc cur,
  wf acc -> clean k = true ->
  Forall (fun kv => clean (fst kv) = true) pairs ->
  peek acc k = answer cur ->
  exists e,
    fold_left (fun acc kv => e <- acc ;; set e (fst kv) (snd kv)) pairs (Ok acc) = Ok e /\
    wf e /\
    peek e k = answer (fold_left (fun acc kv => if equivb k (fst kv) then Some (snd kv)
                                                else acc) pairs cur).
Proof.
  induction pairs as [|[k0 v0] t IH]; intros acc cur W Hk Hl Hp; simpl.
  - exists acc. split; [reflexivity|]. split; assumption.
  - inversion Hl as [|? ? Hc Ht]; subst. simpl in Hc.
    destruct (set_law acc k0 v0 W Hc) as [e1 [S [W1 F1]]]. rewrite S.
    apply (IH e1 _ W1 Hk Ht). destruct (F1 k Hk) as [A _]. rewrite A.
    destruct (equivb k k0); [reflexivity|exact Hp].
Qed.

(** A map built from an array of pairs with clean keys answers, for
    every clean key, the value of the last pair whose key is equivalent
    to it, and [undefined] when there is none. *)
Theorem constructor_last_pair_wins (pairs : list (value * value)) (k : value) :
  Forall (fun kv => clean (fst kv) = true) pairs -> clean k = true ->
  exists e e',
    from_pairs pairs = Ok e /\
    get e k = Ok (answer (last_value k pairs), e').
Proof.
  intros Hl Hk. unfold from_pairs, last_value.
  destruct (from_pairs_fold k pairs empty None wf_empty Hk Hl (peek_empty k))
    as [e [R [W P]]].
  destruct (lookup_law e k W Hk) as [e' [G _]].
  exists e, e'. split; [exact R|]. rewrite G, P. reflexivity.
Qed.

(** *** The laws on concrete keys *)

(** Two keys equal in depth, with different references throughout. *)
Definition key_deep : value :=
  VObj 21 KObject [("a", VObj 22 KArray [("0", VNum 1)]); ("b", VStr "x")].
Definition key_deep' : value :=
  VObj 23 KObject [("b", VStr "x"); ("a", VObj 24 KArray [("0", VNum 1)])].

Definition history_1 : list operation :=
  [DoSet key_ab (VNum 1); DoSet (VStr "id") (VNum 2); DoGet key_ba].

Lemma history_1_clean : clean_history history_1.
Proof. repeat constructor. Qed.

Lemma history_1_composite :
  Forall (fun o => is_primitive (operation_key o) = false)
         [DoSet key_ab (VNum 1); DoDelete key_ba].
Proof. repeat constructor. Qed.

Lemma primitive_keys_as_in_a_Map_witness :
  exists e',
    set empty (VStr "id") (VNum 1) = Ok e' /\
    get e' (VStr "id") = Ok (SVal (VNum 1), e') /\
    has e' (VStr "id") = Ok (true, e') /\
    forall k, is_primitive k = true -> k <> VStr "id" ->
      exists x b,
        get empty k = Ok (x, empty) /\ get e' k = Ok (x, e') /\
        has empty k = Ok (b, empty) /\ has e' k = Ok (b, e').
Proof. apply (primitive_keys_as_in_a_Map empty (VStr "id") (VNum 1)). reflexivity. Defined.

Lemma set_leaves_other_keys_witness :
  exists e x b e1 e2 e3 e4 e5,
    run_all empty history_1 = Ok e /\
    get e key_ab = Ok (x, e1) /\ has e1 key_ab = Ok (b, e2) /\
    set e2 key_empty (VNum 3) = Ok e3 /\
    get e3 key_ab = Ok (x, e4) /\ has e4 key_ab = Ok (b, e5).
Proof.
  apply (set_leaves_other_keys history_1 key_empty key_ab (VNum 3)).
  - exact history_1_clean.
  - reflexivity.
  - reflexivity.
  - reflexivity.
Defined.

Lemma equivalent_keys_share_one_entry_witness :
  exists e e1 e2 e3 e4,
    run_all empty history_1 = Ok e /\
    set e key_deep (VNum 5) = Ok e1 /\
    get e1 key_deep' = Ok (SVal (VNum 5), e2) /\
    set e2 key_deep' (VNum 6) = Ok e3 /\
    get e3 key_deep = Ok (SVal (VNum 6), e4).
Proof.
  apply (equivalent_keys_share_one_entry history_1 key_deep key_deep' (VNum 5) (VNum 6)).
  - exact history_1_clean.
  - reflexivity.
  - reflexivity.
  - reflexivity.
Defined.

Lemma delete_clears_the_value_witness :
  exists e b x e1 e2 e3 e4 e5,
    run_all empty history_1 = Ok e /\
    get e (VStr "id") = Ok (x, e1) /\
    has e1 key_ba = Ok (b, e2) /\
    delete e2 key_ba = Ok (b, e3) /\
    get e3 key_ba = Ok (undefined, e4) /\
    get e4 (VStr "id") = Ok (x, e5).
Proof.
  apply (delete_clears_the_value history_1 key_ba (VStr "id")).
  - exact history_1_clean.
  - reflexivity.
  - reflexivity.
  - reflexivity.
Defined.

Lemma forEach_visits_each_key_once_witness :
  exists e,
    run_all empty history_1 = Ok e /\
    NoDup (map fst (entries e)) /\
    (forall k0 x0 k1 x1, In (k0, x0) (entries e) -> In (k1, x1) (entries e) ->
       equivb k0 k1 = true -> k0 = k1) /\
    (forall k0 x, In (k0, x) (entries e) ->
       exists e1 e2, get e k0 = Ok (x, e1) /\ has e k0 = Ok (true, e2)) /\
    (forall k e1, clean k = true -> has e k = Ok (true, e1) ->
       exists k0 x e2,
         In (k0, x) (entries e) /\ equivb k k0 = true /\ get e k = Ok (x, e2)).
Proof. apply (forEach_visits_each_key_once history_1). exact history_1_clean. Defined.

Lemma size_counts_keys_witness :
  exists e b e1 e2 e3 e4,
    run_all empty history_1 = Ok e /\
    has e key_ba = Ok (b, e1) /\ size e1 = size e /\
    set e1 key_ba (VNum 7) = Ok e2 /\ size e2 = (if b then size e else S (size e)) /\
    get e2 key_ba = Ok (SVal (VNum 7), e3) /\ size e3 = size e2 /\
    delete e3 key_ba = Ok (true, e4) /\ size e4 = size e2.
Proof.
  apply (size_counts_keys history_1 key_ba (VNum 7)).
  - exact history_1_clean.
  - reflexivity.
Defined.

Lemma copy_is_faithful_witness :
  exists e c,
    run_all empty history_1 = Ok e /\ copy e = Ok c /\
    entries c = entries e /\ size c = size e /\
    forall k, clean k = true ->
      exists x b e1 c1,
        get e k = Ok (x, e1) /\ get c k = Ok (x, c1) /\
        has e k = Ok (b, e1) /\ has c k = Ok (b, c1).
Proof. apply (copy_is_faithful history_1). exact history_1_clean. Defined.

Lemma set_entry_position_witness :
  exists e e',
    run_all empty history_1 = Ok e /\ set e key_ab (VNum 8) = Ok e' /\
    entries e' =
      (filter (fun kx => negb (equivb key_ab (fst kx))) (entries e)
         ++ [(key_ab, SVal (VNum 8))])%list.
Proof.
  apply (set_entry_position history_1 key_ab (VNum 8)).
  - exact history_1_clean.
  - reflexivity.
Defined.

Lemma lookup_moves_entry_witness :
  exists e x b e',
    run_all empty [DoSet key_ab (VNum 1); DoSet key_empty (VNum 2)] = Ok e /\
    get e key_ba = Ok (x, e') /\ has e key_ba = Ok (b, e') /\
    entries e' =
      if b && negb (existsb (fun kx => value_eqb (fst kx) key_ba) (entries e))
      then (filter (fun kx => negb (equivb key_ba (fst kx))) (entries e)
              ++ [(key_ba, x)])%list
      else entries e.
Proof.
  apply (lookup_moves_entry [DoSet key_ab (VNum 1); DoSet key_empty (VNum 2)] key_ba).
  - repeat constructor.
  - reflexivity.
  - reflexivity.
Defined.

Lemma some_agrees_with_forEach_witness :
  exists e,
    run_all empty [DoSet key_ab (VNum 1); DoDelete key_ba] = Ok e /\
    some e (fun k x => Ok (is_undefined x))
    = Ok (existsb (fun kx => is_undefined (snd kx)) (entries e)).
Proof.
  apply (some_agrees_with_forEach [DoSet key_ab (VNum 1); DoDelete key_ba]
           (fun _ x => is_undefined x)).
  - repeat constructor.
  - exact history_1_composite.
Defined.

Lemma values_are_pairs_witness :
  exists e,
    run_all empty [DoSet key_ab (VNum 1); DoDelete key_ba] = Ok e /\
    values e = map (fun kx => SPair (fst kx) (snd kx)) (entries e).
Proof.
  apply (values_are_pairs [DoSet key_ab (VNum 1); DoDelete key_ba]).
  - repeat constructor.
  - exact history_1_composite.
Defined.

Lemma constructor_last_pair_wins_witness :
  exists e e',
    from_pairs [(key_ab, VNum 1); (VStr "id", VNum 2); (key_ba, VNum 3)] = Ok e /\
    get e key_ab = Ok (SVal (VNum 3), e').
Proof.
  apply (constructor_last_pair_wins
           [(key_ab, VNum 1); (VStr "id", VNum 2); (key_ba, VNum 3)] key_ab).
  - repeat constructor.
  - reflexivity.
Defined.
End EKMMore.

(** ** Resolution metadata: what every action does to every entry *)
Module ResolutionMore.
Import EKM EKMFacts EKMMore Resolution ResolutionFacts.
Unset Implicit Arguments.

Section Utils.
Variable selectorArgsToStateKey : value -> value.
Local Abbreviation key_of := selectorArgsToStateKey.
Local Abbreviation clean_action := (clean_action key_of).

(** A state whose maps are as the operations of the class leave them. *)
Definition wfState (s : State) : Prop :=
  NoDup (map fst s) /\ forall n e, In (n, e) s -> wf e.

(** What the map of selector [n] answers for the key [k]: the result of
    [getResolutionState] without the side effects. *)
Definition view (s : State) (n : string) (k : value) : stored :=
  match assoc_get String.eqb s n with
  | Some e => peek e k
  | None => undefined
  end.

Lemma wfState_nil : wfState [].
Proof. split; [constructor|intros n e []]. Qed.

Lemma wfState_get s n e : wfState s -> assoc_get String.eqb s n = Some e -> wf e.
Proof. intros [_ Hs] H. apply (Hs n e). apply assoc_get_some_in, H. Qed.

Lemma wfState_set s n e : wfState s -> wf e -> wfState (assoc_set String.eqb s n e).
Proof.
  intros [Hnd Hs] He. split.
  - apply (assoc_set_NoDup String.eqb String.eqb_eq). exact Hnd.
  - intros n' e' H. destruct (in_assoc_set _ _ _ _ _ _ H) as [X|X].
    + inversion X; subst. exact He.
    + apply (Hs n' e' X).
Qed.

Lemma wfState_delete s n : wfState s -> wfState (assoc_delete String.eqb s n).
Proof.
  intros [Hnd Hs]. split.
  - apply (assoc_delete_NoDup String.eqb). exact Hnd.
  - intros n' e' H. apply (Hs n' e'). apply (in_assoc_delete _ _ _ _ _ H).
Qed.

Lemma wf_slice s n : wfState s -> wf (slice s n).
Proof.
  intros Hs. unfold slice. destruct (assoc_get String.eqb s n) as [e|] eqn:E.
  - apply (wfState_get s n e Hs E).
  - apply wf_empty.
Qed.

Lemma view_slice s n k : view s n k = peek (slice s n) k.
Proof.
  unfold view, slice. destruct (assoc_get String.eqb s n); [reflexivity|].
  symmetry. apply peek_empty.
Qed.

Lemma view_set s n e m k :
  view (assoc_set String.eqb s n e) m k = if String.eqb m n then peek e k else view s m k.
Proof.
  unfold view. destruct (String.eqb m n) eqn:E.
  - apply String.eqb_eq in E. subst m.
    rewrite (assoc_get_set_same String.eqb String.eqb_eq). reflexivity.
  - apply String.eqb_neq in E.
    rewrite (assoc_get_set_other String.eqb String.eqb_eq) by congruence. reflexivity.
Qed.

(** *** The entries an action writes *)

(** The entries of [START_RESOLUTIONS] and [FINISH_RESOLUTIONS]. *)
Fixpoint numbered (ref : nat) (status : string) (args : list value)
  : list (value * stored) :=
  match args with
  | [] => []
  | a :: rest =>
      (key_of a, SVal (status_object ref status)) :: numbered (S ref) status rest
  end.

(** The entries of [FAIL_RESOLUTIONS]. *)
Fixpoint failed (ref : nat) (args errors : list value) : list (value * stored) :=
  match args with
  | [] => []
  | a :: rest =>
      (key_of a,
       SVal (error_object ref (if truthy (hd VUndefined errors)
                               then hd VUndefined errors else VUndefined)))
        :: failed (S ref) rest (tl errors)
  end.

(** The keys an action writes in the map of its selector, with the
    values, in order; [INVALIDATE_RESOLUTION] leaves [undefined]. *)
Definition writes (ref : nat) (action : Action) : list (value * stored) :=
  match action with
  | START_RESOLUTION _ a => [(key_of a, SVal (status_object ref "resolving"))]
  | FINISH_RESOLUTION _ a => [(key_of a, SVal (status_object ref "finished"))]
  | FAIL_RESOLUTION _ a error => [(key_of a, SVal (error_object ref error))]
  | START_RESOLUTIONS _ args => numbered ref "resolving" args
  | FINISH_RESOLUTIONS _ args => numbered ref "finished" args
  | FAIL_RESOLUTIONS _ args errors => failed ref args errors
  | INVALIDATE_RESOLUTION _ a => [(key_of a, undefined)]
  | _ => []
  end.

(** What [k] answers after the writes [ws], when it answered [cur]. *)
Definition overwrite (k : value) (ws : list (value * stored)) (cur : stored) : stored :=
  fold_left (fun acc kx => if equivb k (fst kx) then snd kx else acc) ws cur.

(** What selector [m] answers for [k] after an action, when it
    answered [cur] before. *)
Definition view_after (ref : nat) (action : Action) (m : string) (k : value)
    (cur : stored) : stored :=
  match action with
  | INVALIDATE_RESOLUTION_FOR_STORE => undefined
  | INVALIDATE_RESOLUTION_FOR_STORE_SELECTOR n =>
      if String.eqb m n then undefined else cur
  | OTHER_ACTION _ => cur
  | _ =>
      match action_selectorName action with
      | Some n => if String.eqb m n then overwrite k (writes ref action) cur else cur
      | None => cur
      end
  end.

Lemma set_each_law status args : forall e ref,
  wf e -> Forall (fun a => clean (key_of a) = true) args ->
  exists e',
    set_each key_of e ref status args = Ok e' /\ wf e' /\
    forall k, clean k = true ->
      peek e' k = overwrite k (numbered ref status args) (peek e k).
Proof.
  induction args as [|a rest IH]; intros e ref W Hc; simpl.
  - exists e. split; [reflexivity|]. split; [exact W|]. intros; reflexivity.
  - inversion Hc as [|? ? Ha Hrest]; subst.
    destruct (set_law e (key_of a) (status_object ref status) W Ha) as [e1 [S [W1 F1]]].
    rewrite S. simpl bind.
    destruct (IH e1 (Datatypes.S ref) W1 Hrest) as [e' [R [W' F']]].
    exists e'. split; [exact R|]. split; [exact W'|].
    intros k Hk. rewrite (F' k Hk). unfold overwrite. simpl.
    destruct (F1 k Hk) as [A _]. rewrite A. reflexivity.
Qed.

Lemma fail_each_law args : forall e ref errors,
  wf e -> Forall (fun a => clean (key_of a) = true) args ->
  exists e',
    fail_each key_of e ref args errors = Ok e' /\ wf e' /\
    forall k, clean k = true ->
      peek e' k = overwrite k (failed ref args errors) (peek e k).
Proof.
  induction args as [|a rest IH]; intros e ref errors W Hc; simpl.
  - exists e. split; [reflexivity|]. split; [exact W|]. intros; reflexivity.
  - inversion Hc as [|? ? Ha Hrest]; subst.
    destruct (set_law e (key_of a)
                (error_object ref (if truthy (hd VUndefined errors)
                                   then hd VUndefined errors else VUndefined)) W Ha)
      as [e1 [S [W1 F1]]].
    rewrite S. simpl bind.
    destruct (IH e1 (Datatypes.S ref) (tl errors) W1 Hrest) as [e' [R [W' F']]].
    exists e'. split; [exact R|]. split; [exact W'|].
    intros k Hk. rewrite (F' k Hk). unfold overwrite. simpl.
    destruct (F1 k Hk) as [A _]. rewrite A. reflexivity.
Qed.

(** [delete] leaves [undefined] for the keys equivalent to its key. *)
Lemma delete_view e key :
  wf e -> clean key = true ->
  exists b e',
    delete e key = Ok (b, e') /\ wf e' /\
    forall k, clean k = true ->
      peek e' k = if equivb k key then undefined else peek e k.
Proof.
  intros W Hc. destruct (delete_law e key W Hc) as [e' [D [W' F]]].
  exists (present e key), e'. split; [exact D|]. split; [exact W'|].
  intros k Hk. destruct (F k Hk) as [A _]. rewrite A.
  destruct (equivb k key) eqn:EQ; [|reflexivity]. simpl.
  destruct (present e key) eqn:Pr; [reflexivity|].
  destruct (peek_equiv (depth k) k key (le_n _) Hk EQ e) as [X _]. rewrite X.
  apply (proj2 (present_spec key User e Hc (proj1 W)) Pr).
Qed.

Lemma slice_of_option s n :
  match assoc_get String.eqb s n with Some e => e | None => empty end = slice s n.
Proof. reflexivity. Qed.

(** The reducer of one selector: the new map answers every key as the
    old one did, but for the keys written. *)
Lemma reducer_law ref s action n :
  clean_action action -> wfState s ->
  exists e1,
    subKeys_reducer key_of ref (assoc_get String.eqb s n) action = Ok e1 /\ wf e1 /\
    forall k, clean k = true ->
      peek e1 k = overwrite k (writes ref action) (view s n k).
Proof.
  intros Hc Hs. unfold subKeys_reducer. rewrite slice_of_option.
  destruct (copy_law (slice s n) (wf_slice s n Hs)) as [c [C [Wc [_ V]]]].
  assert (Hv : forall k, clean k = true -> peek c k = view s n k).
  { intros k Hk. rewrite view_slice. apply (V k Hk). }
  assert (One : forall key v, clean key = true ->
            exists e1, (nextState <- copy (slice s n) ;; set nextState key v) = Ok e1 /\
                       wf e1 /\
                       forall k, clean k = true ->
                         peek e1 k = overwrite k [(key, SVal v)] (view s n k)).
  { intros key v Hkey. rewrite C. simpl bind.
    destruct (set_law c key v Wc Hkey) as [e1 [S1 [W1 F1]]].
    exists e1. split; [exact S1|]. split; [exact W1|].
    intros k Hk. destruct (F1 k Hk) as [A _]. rewrite A, (Hv k Hk). reflexivity. }
  destruct action as [n0 a|n0 a|n0 a err|n0 l|n0 l|n0 l errs|n0 a| |n0|t];
    simpl in Hc; simpl writes.
  - apply One. exact Hc.
  - apply One. exact Hc.
  - apply One. exact Hc.
  - rewrite C. simpl bind.
    destruct (set_each_law "resolving" l c ref Wc Hc) as [e1 [R [W1 F1]]].
    exists e1. split; [exact R|]. split; [exact W1|].
    intros k Hk. rewrite (F1 k Hk), (Hv k Hk). reflexivity.
  - rewrite C. simpl bind.
    destruct (set_each_law "finished" l c ref Wc Hc) as [e1 [R [W1 F1]]].
    exists e1. split; [exact R|]. split; [exact W1|].
    intros k Hk. rewrite (F1 k Hk), (Hv k Hk). reflexivity.
  - rewrite C. simpl bind.
    destruct (fail_each_law l c ref errs Wc Hc) as [e1 [R [W1 F1]]].
    exists e1. split; [exact R|]. split; [exact W1|].
    intros k Hk. rewrite (F1 k Hk), (Hv k Hk). reflexivity.
  - rewrite C. simpl bind.
    destruct (delete_view c (key_of a) Wc Hc) as [b [e1 [D [W1 F1]]]].
    rewrite D. simpl bind. exists e1. split; [reflexivity|]. split; [exact W1|].
    intros k Hk. rewrite (F1 k Hk), (Hv k Hk). reflexivity.
  - exists (slice s n). split; [reflexivity|]. split; [apply wf_slice; exact Hs|].
    intros k Hk. rewrite view_slice. reflexivity.
  - exists (slice s n). split; [reflexivity|]. split; [apply wf_slice; exact Hs|].
    intros k Hk. rewrite view_slice. reflexivity.
  - exists (slice s n). split; [reflexivity|]. split; [apply wf_slice; exact Hs|].
    intros k Hk. rewrite view_slice. reflexivity.
Qed.

Lemma view_delete s n m k :
  NoDup (map fst s) ->
  view (assoc_delete String.eqb s n) m k = if String.eqb m n then undefined else view s m k.
Proof.
  intros Hnd. unfold view. destruct (String.eqb m n) eqn:E.
  - apply String.eqb_eq in E. subst m.
    rewrite (assoc_get_delete_same String.eqb String.eqb_eq) by exact Hnd. reflexivity.
  - apply String.eqb_neq in E.
    rewrite (assoc_get_delete_other String.eqb String.eqb_eq) by congruence. reflexivity.
Qed.

(** The reducer [isResolved]: it does not throw on a clean action, and
    every selector answers every key afterwards as [view_after] says. *)
Lemma isResolved_law ref s action :
  clean_action action -> wfState s ->
  exists s',
    isResolved key_of ref s action = Ok s' /\ wfState s' /\
    forall m k, clean k = true ->
      view s' m k = view_after ref action m k (view s m k).
Proof.
  intros Hc Hs.
  assert (Sub : forall n, action_selectorName action = Some n ->
            exists s', subKeysIsResolved key_of ref s action = Ok s' /\ wfState s' /\
              forall m k, clean k = true ->
                view s' m k = if String.eqb m n
                              then overwrite k (writes ref action) (view s m k)
                              else view s m k).
  { intros n Hn. unfold subKeysIsResolved, onSubKey. rewrite Hn.
    destruct (reducer_law ref s action n Hc Hs) as [e1 [R [W1 F1]]].
    rewrite R. simpl bind. eexists. split; [reflexivity|].
    split; [apply wfState_set; assumption|].
    intros m k Hk. rewrite view_set. destruct (String.eqb m n) eqn:E; [|reflexivity].
    apply String.eqb_eq in E. subst m. apply F1. exact Hk. }
  destruct action as [n0 a|n0 a|n0 a err|n0 l|n0 l|n0 l errs|n0 a| |n0|t];
    try (apply (Sub n0 eq_refl)).
  - exists []. split; [reflexivity|]. split; [apply wfState_nil|]. intros; reflexivity.
  - unfold isResolved. destruct (assoc_has String.eqb s n0 || inherited n0) eqn:H.
    + eexists. split; [reflexivity|]. split; [apply wfState_delete; exact Hs|].
      intros m k Hk. simpl. apply view_delete. exact (proj1 Hs).
    + exists s. split; [reflexivity|]. split; [exact Hs|].
      intros m k Hk. simpl. destruct (String.eqb m n0) eqn:E; [|reflexivity].
      apply String.eqb_eq in E. subst m. unfold view.
      apply orb_false_iff in H. destruct H as [H _].
      unfold assoc_has in H. destruct (assoc_get String.eqb s n0); [discriminate H|].
      reflexivity.
  - exists s. split; [reflexivity|]. split; [exact Hs|]. intros; reflexivity.
Qed.

(** The actions after which the state has a map of its own for the
    selector of the action. *)
Definition files (action : Action) : bool :=
  match action with
  | START_RESOLUTION _ _ | FINISH_RESOLUTION _ _ | FAIL_RESOLUTION _ _ _
  | START_RESOLUTIONS _ _ | FINISH_RESOLUTIONS _ _ | FAIL_RESOLUTIONS _ _ _
  | INVALIDATE_RESOLUTION _ _ => true
  | _ => false
  end.

Lemma isResolved_files ref s action n s' :
  files action = true -> action_selectorName action = Some n ->
  isResolved key_of ref s action = Ok s' ->
  assoc_get String.eqb s' n <> None.
Proof.
  intros Hf Hn R.
  assert (X : subKeysIsResolved key_of ref s action = Ok s').
  { destruct action; try discriminate Hf; exact R. }
  unfold subKeysIsResolved, onSubKey in X. rewrite Hn in X.
  destruct (subKeys_reducer key_of ref (assoc_get String.eqb s n) action)
    as [next| |]; simpl in X; try discriminate X.
  inversion X; subst s'.
  rewrite (assoc_get_set_same String.eqb String.eqb_eq). discriminate.
Qed.

(** The selector names for which [getResolutionState] reads a map or
    finds nothing: the names with a map of their own in the state, and
    the names that are not inherited from [Object.prototype]. *)
Definition answers (s : State) (n : string) : Prop :=
  assoc_get String.eqb s n <> None \/ inherited n = false.

(** [getResolutionState]: the value is the view, and no view changes. *)
Lemma getResolutionState_law s n args :
  wfState s -> clean (key_of args) = true -> answers s n ->
  exists s',
    getResolutionState key_of s n args = Ok (view s n (key_of args), s') /\
    wfState s' /\
    forall m k, clean k = true -> view s' m k = view s m k.
Proof.
  intros Hs Hc Hn. unfold getResolutionState, view at 1.
  destruct (assoc_get String.eqb s n) as [e|] eqn:E;
    [|destruct Hn as [Hn|Hn]; [elim Hn; exact E|rewrite Hn]].
  - destruct (lookup_law e (key_of args) (wfState_get s n e Hs E) Hc)
      as [e' [G [_ [W' V]]]].
    rewrite G. simpl bind. eexists. split; [reflexivity|].
    split; [apply wfState_set; assumption|].
    intros m k Hk. rewrite view_set. destruct (String.eqb m n) eqn:En; [|reflexivity].
    apply String.eqb_eq in En. subst m. unfold view. rewrite E. apply (V k Hk).
  - exists s. split; [reflexivity|]. split; [exact Hs|]. intros; reflexivity.
Qed.

Lemma dispatch_all_wf actions : forall ref s,
  wfState s -> Forall clean_action actions ->
  exists s', dispatch_all key_of ref s actions = Ok s' /\ wfState s'.
Proof.
  induction actions as [|a rest IH]; intros ref s Hs Hc; simpl.
  - exists s. split; [reflexivity|exact Hs].
  - inversion Hc as [|? ? Ha Hrest]; subst.
    destruct (isResolved_law ref s a Ha Hs) as [s1 [R [Hs1 _]]].
    rewrite R. simpl bind. apply IH; assumption.
Qed.

Lemma history_state history :
  Forall clean_action history ->
  exists s, dispatch_all key_of 0 [] history = Ok s /\ wfState s.
Proof. intros H. apply (dispatch_all_wf history 0 [] wfState_nil H). Qed.

(** *** Actions are local *)

(** Whether an action can change what selector [n] answers for the
    key [k]: an action for [n] and an equivalent key, or one of the two
    that drop whole maps. *)
Definition concerns (n : string) (k : value) (action : Action) : bool :=
  match action with
  | INVALIDATE_RESOLUTION_FOR_STORE => true
  | INVALIDATE_RESOLUTION_FOR_STORE_SELECTOR n0 => String.eqb n0 n
  | _ => touches key_of n k action
  end.

Lemma overwrite_untouched k ws cur :
  existsb (fun kx => equivb k (fst kx)) ws = false -> overwrite k ws cur = cur.
Proof.
  unfold overwrite. revert cur. induction ws as [|[k0 x0] t IH]; intros cur H; simpl in *.
  - reflexivity.
  - apply orb_false_iff in H. destruct H as [H1 H2]. rewrite H1. apply IH. exact H2.
Qed.

Lemma numbered_keys k ref status args :
  existsb (fun kx => equivb k (fst kx)) (numbered ref status args)
  = existsb (fun a => equivb k (key_of a)) args.
Proof.
  revert ref. induction args as [|a rest IH]; intros ref; simpl; [reflexivity|].
  rewrite IH. reflexivity.
Qed.

Lemma failed_keys k ref args errors :
  existsb (fun kx => equivb k (fst kx)) (failed ref args errors)
  = existsb (fun a => equivb k (key_of a)) args.
Proof.
  revert ref errors. induction args as [|a rest IH]; intros ref errors; simpl;
    [reflexivity|].
  rewrite IH. reflexivity.
Qed.

Lemma view_after_unconcerned ref action n k cur :
  concerns n k action = false -> view_after ref action n k cur = cur.
Proof.
  assert (One : forall n0 ws,
            String.eqb n0 n && existsb (fun kx => equivb k (fst kx)) ws = false ->
            (if String.eqb n n0 then overwrite k ws cur else cur) = cur).
  { intros n0 ws H. rewrite String.eqb_sym.
    destruct (String.eqb n0 n); [|reflexivity].
    apply overwrite_untouched. exact H. }
  destruct action as [n0 a|n0 a|n0 a err|n0 l|n0 l|n0 l errs|n0 a| |n0|t];
    intros H; unfold view_after, writes; simpl action_selectorName;
    unfold concerns, touches in H.
  - apply One. simpl. rewrite orb_false_r. exact H.
  - apply One. simpl. rewrite orb_false_r. exact H.
  - apply One. simpl. rewrite orb_false_r. exact H.
  - apply One. rewrite numbered_keys. exact H.
  - apply One. rewrite numbered_keys. exact H.
  - apply One. rewrite failed_keys. exact H.
  - apply One. simpl. rewrite orb_false_r. exact H.
  - discriminate H.
  - rewrite String.eqb_sym, H. reflexivity.
  - reflexivity.
Qed.

(** An action changes what the selectors answer only for the selector
    and the argument lists it is for.  After any history of clean
    actions (state keys free of the reserved property name
    [_ekm_value]), for a selector name [n] that is not inherited from
    [Object.prototype] and a clean state key: a clean action leaves the
    resolution state of [(n, args)] as it was, and with it what
    [isResolving], [hasStartedResolution], [hasFinishedResolution],
    [hasResolutionFailed] and [getResolutionError] return, unless it is
    [invalidateResolutionForStore], [invalidateResolutionForStoreSelector]
    for [n], or a resolution action for [n] and an argument list whose
    key is equivalent to the key asked for. *)
Theorem actions_are_local (history : list Action) (action : Action) (n : string)
    (args : value) (ref : nat) :
  Forall clean_action history -> clean_action action ->
  clean (key_of args) = true -> inherited n = false ->
  concerns n (key_of args) action = false ->
  exists s x s1 s2 s3,
    dispatch_all key_of 0 [] history = Ok s /\
    getResolutionState key_of s n args = Ok (x, s1) /\
    isResolved key_of ref s1 action = Ok s2 /\
    getResolutionState key_of s2 n args = Ok (x, s3).
Proof.
  intros Hh Ha Hc Hi Hn.
  destruct (history_state history Hh) as [s [D Hs]].
  destruct (getResolutionState_law s n args Hs Hc (or_intror Hi)) as [s1 [G1 [Hs1 V1]]].
  destruct (isResolved_law ref s1 action Ha Hs1) as [s2 [R2 [Hs2 V2]]].
  destruct (getResolutionState_law s2 n args Hs2 Hc (or_intror Hi)) as [s3 [G3 _]].
  exists s, (view s n (key_of args)), s1, s2, s3.
  split; [exact D|]. split; [exact G1|]. split; [exact R2|].
  rewrite G3, (V2 n _ Hc), (view_after_unconcerned ref action n _ _ Hn), (V1 n _ Hc).
  reflexivity.
Qed.

(** *** The selectors after each action *)

Lemma overwrite_single k key x cur :
  equivb k key = true -> overwrite k [(key, x)] cur = x.
Proof. intros H. unfold overwrite. simpl. rewrite H. reflexivity. Qed.

(** After an action that writes one entry for [(n, args)], the
    resolution state of every equivalent argument list is that entry. *)
Lemma single_then_read ref s action n args x args' :
  files action = true ->
  action_selectorName action = Some n -> writes ref action = [(key_of args, x)] ->
  (forall m k cur, view_after ref action m k cur =
     if String.eqb m n then overwrite k (writes ref action) cur else cur) ->
  clean_action action -> wfState s ->
  clean (key_of args') = true -> equivb (key_of args') (key_of args) = true ->
  exists s1 s2,
    isResolved key_of ref s action = Ok s1 /\ wfState s1 /\
    getResolutionState key_of s1 n args' = Ok (x, s2).
Proof.
  intros Hf Hn Hw Hv Ha Hs Hc EQ.
  destruct (isResolved_law ref s action Ha Hs) as [s1 [R [Hs1 V1]]].
  destruct (getResolutionState_law s1 n args' Hs1 Hc
              (or_introl (isResolved_files ref s action n s1 Hf Hn R))) as [s2 [G _]].
  exists s1, s2. split; [exact R|]. split; [exact Hs1|].
  rewrite G, (V1 n _ Hc), Hv, String.eqb_refl, Hw, (overwrite_single _ _ _ _ EQ).
  reflexivity.
Qed.

(** [hasStartedResolution], [hasFinishedResolution],
    [hasResolutionFailed] and [getResolutionError] through the life of
    a resolution, for clean state keys and every argument list
    equivalent to the one of the action, after any history of clean
    actions: started and not finished after [startResolution]; started
    and finished after [finishResolution] and after [failResolution];
    no error and not failed after the first two. *)
Theorem started_and_finished (history : list Action) (n : string)
    (args args' error : value) (ref : nat) :
  Forall clean_action history ->
  clean (key_of args) = true -> clean (key_of args') = true ->
  equivb (key_of args') (key_of args) = true ->
  exists s,
    dispatch_all key_of 0 [] history = Ok s /\
    (exists s1 s2,
       isResolved key_of ref s (startResolution n args) = Ok s1 /\
       hasStartedResolution key_of s1 n args' = Ok (true, s2) /\
       hasFinishedResolution key_of s1 n args' = Ok (false, s2) /\
       hasResolutionFailed key_of s1 n args' = Ok (false, s2) /\
       getResolutionError key_of s1 n args' = Ok (VNull, s2)) /\
    (exists s1 s2,
       isResolved key_of ref s (finishResolution n args) = Ok s1 /\
       hasStartedResolution key_of s1 n args' = Ok (true, s2) /\
       hasFinishedResolution key_of s1 n args' = Ok (true, s2) /\
       hasResolutionFailed key_of s1 n args' = Ok (false, s2) /\
       getResolutionError key_of s1 n args' = Ok (VNull, s2)) /\
    (exists s1 s2,
       isResolved key_of ref s (failResolution n args error) = Ok s1 /\
       hasStartedResolution key_of s1 n args' = Ok (true, s2) /\
       hasFinishedResolution key_of s1 n args' = Ok (true, s2)).
Proof.
  intros Hh Hc Hc' EQ.
  destruct (history_state history Hh) as [s [D Hs]].
  exists s. split; [exact D|]. split; [|split].
  - destruct (single_then_read ref s (startResolution n args) n args _ args'
                eq_refl eq_refl eq_refl (fun _ _ _ => eq_refl) Hc Hs Hc' EQ)
      as [s1 [s2 [R [_ G]]]].
    exists s1, s2. split; [exact R|].
    unfold hasStartedResolution, hasFinishedResolution, hasResolutionFailed,
      getResolutionError.
    rewrite G. repeat split.
  - destruct (single_then_read ref s (finishResolution n args) n args _ args'
                eq_refl eq_refl eq_refl (fun _ _ _ => eq_refl) Hc Hs Hc' EQ)
      as [s1 [s2 [R [_ G]]]].
    exists s1, s2. split; [exact R|].
    unfold hasStartedResolution, hasFinishedResolution, hasResolutionFailed,
      getResolutionError.
    rewrite G. repeat split.
  - destruct (single_then_read ref s (failResolution n args error) n args _ args'
                eq_refl eq_refl eq_refl (fun _ _ _ => eq_refl) Hc Hs Hc' EQ)
      as [s1 [s2 [R [_ G]]]].
    exists s1, s2. split; [exact R|].
    unfold hasStartedResolution, hasFinishedResolution.
    rewrite G. repeat split.
Qed.

(** After any history of clean actions and for clean state keys:
    after [invalidateResolution(n, args)] the selectors answer for
    every equivalent argument list as if no resolution had ever
    started. *)
Theorem invalidateResolution_forgets (history : list Action) (n : string)
    (args args' : value) (ref : nat) :
  Forall clean_action history ->
  clean (key_of args) = true -> clean (key_of args') = true ->
  equivb (key_of args') (key_of args) = true ->
  exists s s1 s2,
    dispatch_all key_of 0 [] history = Ok s /\
    isResolved key_of ref s (invalidateResolution n args) = Ok s1 /\
    getResolutionState key_of s1 n args' = Ok (undefined, s2) /\
    hasStartedResolution key_of s1 n args' = Ok (false, s2) /\
    hasFinishedResolution key_of s1 n args' = Ok (false, s2) /\
    isResolving key_of s1 n args' = Ok (false, s2) /\
    hasResolutionFailed key_of s1 n args' = Ok (false, s2) /\
    getResolutionError key_of s1 n args' = Ok (VNull, s2).
Proof.
  intros Hh Hc Hc' EQ.
  destruct (history_state history Hh) as [s [D Hs]].
  destruct (single_then_read ref s (invalidateResolution n args) n args _ args'
              eq_refl eq_refl eq_refl (fun _ _ _ => eq_refl) Hc Hs Hc' EQ)
    as [s1 [s2 [R [_ G]]]].
  exists s, s1, s2. split; [exact D|]. split; [exact R|]. split; [exact G|].
  unfold hasStartedResolution, hasFinishedResolution, isResolving,
    hasResolutionFailed, getResolutionError.
  rewrite G. repeat split.
Qed.

(** After any history of clean actions, for selector names that are
    not inherited from [Object.prototype] and a clean state key:
    [invalidateResolutionForStore] leaves a state in which no such
    selector has anything; [invalidateResolutionForStoreSelector(n)]
    leaves nothing for [n] and, for another selector, the resolution
    state the argument list had. *)
Theorem store_invalidation_forgets (history : list Action) (n m : string)
    (args : value) (ref : nat) :
  Forall clean_action history -> clean (key_of args) = true -> m <> n ->
  inherited n = false -> inherited m = false ->
  exists s x s0,
    dispatch_all key_of 0 [] history = Ok s /\
    getResolutionState key_of s m args = Ok (x, s0) /\
    (exists s1,
       isResolved key_of ref s0 invalidateResolutionForStore = Ok s1 /\
       hasResolvingSelectors s1 = Ok false /\
       forall n' args', inherited n' = false ->
         getResolutionState key_of s1 n' args' = Ok (undefined, s1)) /\
    (exists s1 s2,
       isResolved key_of ref s0 (invalidateResolutionForStoreSelector n) = Ok s1 /\
       (forall args', getResolutionState key_of s1 n args' = Ok (undefined, s1)) /\
       getResolutionState key_of s1 m args = Ok (x, s2)).
Proof.
  intros Hh Hc Hne Hin Him.
  destruct (history_state history Hh) as [s [D Hs]].
  destruct (getResolutionState_law s m args Hs Hc (or_intror Him)) as [s0 [G0 [Hs0 V0]]].
  exists s, (view s m (key_of args)), s0.
  split; [exact D|]. split; [exact G0|]. split.
  - exists []. split; [reflexivity|]. split; [reflexivity|].
    intros n' args' Hn'. unfold getResolutionState. simpl. rewrite Hn'. reflexivity.
  - destruct (isResolved_law ref s0 (invalidateResolutionForStoreSelector n) I Hs0)
      as [s1 [R [Hs1 V1]]].
    destruct (getResolutionState_law s1 m args Hs1 Hc (or_intror Him)) as [s2 [G2 _]].
    exists s1, s2. split; [exact R|]. split.
    + intros args'. unfold getResolutionState.
      assert (E : assoc_get String.eqb s1 n = None).
      { unfold isResolved in R. simpl in R. rewrite Hin, orb_false_r in R.
        destruct (assoc_has String.eqb s0 n) eqn:H; inversion R; subst s1.
        - apply (assoc_get_delete_same String.eqb String.eqb_eq). exact (proj1 Hs0).
        - unfold assoc_has in H. destruct (assoc_get String.eqb s0 n);
            [discriminate H|reflexivity]. }
      rewrite E, Hin. reflexivity.
    + rewrite G2, (V1 m _ Hc). simpl.
      rewrite (proj2 (String.eqb_neq m n) Hne), (V0 m _ Hc). reflexivity.
Qed.

(** *** Batch actions *)

(** What selector [m] answers for [k] after a list of actions. *)
Fixpoint views_after (ref : nat) (actions : list Action) (m : string) (k : value)
    (cur : stored) : stored :=
  match actions with
  | [] => cur
  | a :: rest =>
      views_after (ref + literal_count a) rest m k (view_after ref a m k cur)
  end.

Lemma dispatch_all_law actions : forall ref s,
  wfState s -> Forall clean_action actions ->
  exists s',
    dispatch_all key_of ref s actions = Ok s' /\ wfState s' /\
    forall m k, clean k = true ->
      view s' m k = views_after ref actions m k (view s m k).
Proof.
  induction actions as [|a rest IH]; intros ref s Hs Hc; simpl.
  - exists s. split; [reflexivity|]. split; [exact Hs|]. intros; reflexivity.
  - inversion Hc as [|? ? Ha Hrest]; subst.
    destruct (isResolved_law ref s a Ha Hs) as [s1 [R [Hs1 V1]]].
    rewrite R. simpl bind.
    destruct (IH (ref + literal_count a) s1 Hs1 Hrest) as [s' [D [Hs' V']]].
    exists s'. split; [exact D|]. split; [exact Hs'|].
    intros m k Hk. rewrite (V' m k Hk), (V1 m k Hk). reflexivity.
Qed.

(** The error [FAIL_RESOLUTIONS] files for each argument list: the
    error at the same index when it is truthy, [undefined] otherwise. *)
Fixpoint with_errors (args errors : list value) : list (value * value) :=
  match args with
  | [] => []
  | a :: rest =>
      (a, if truthy (hd VUndefined errors) then hd VUndefined errors else VUndefined)
        :: with_errors rest (tl errors)
  end.

Lemma singles_numbered (make : string -> value -> Action) status n m k :
  (forall a, action_selectorName (make n a) = Some n) ->
  (forall ref a, view_after ref (make n a) m k =
     fun cur => if String.eqb m n
                then overwrite k [(key_of a, SVal (status_object ref status))] cur
                else cur) ->
  (forall a, literal_count (make n a) = 1) ->
  forall args ref cur,
    views_after ref (map (make n) args) m k cur
    = if String.eqb m n then overwrite k (numbered ref status args) cur else cur.
Proof.
  intros Hn Hv Hl. induction args as [|a rest IH]; intros ref cur; simpl.
  - destruct (String.eqb m n); reflexivity.
  - rewrite Hl, Nat.add_1_r, IH, Hv.
    destruct (String.eqb m n); reflexivity.
Qed.

Lemma singles_failed n m k : forall args errors ref cur,
  views_after ref (map (fun ae => failResolution n (fst ae) (snd ae))
                       (with_errors args errors)) m k cur
  = if String.eqb m n then overwrite k (failed ref args errors) cur else cur.
Proof.
  induction args as [|a rest IH]; intros errors ref cur; simpl.
  - destruct (String.eqb m n); reflexivity.
  - rewrite Nat.add_1_r, IH. unfold view_after. simpl.
    destruct (String.eqb m n); reflexivity.
Qed.

Lemma clean_singles (make : string -> value -> Action) n args :
  (forall a, clean (key_of a) = true -> clean_action (make n a)) ->
  Forall (fun a => clean (key_of a) = true) args ->
  Forall clean_action (map (make n) args).
Proof.
  intros H Hc. apply Forall_forall. intros x Hin. apply in_map_iff in Hin.
  destruct Hin as [a [<- Hin]]. apply H. rewrite Forall_forall in Hc. apply Hc, Hin.
Qed.

Lemma clean_with_errors n : forall args errors,
  Forall (fun a => clean (key_of a) = true) args ->
  Forall clean_action (map (fun ae => failResolution n (fst ae) (snd ae))
                           (with_errors args errors)).
Proof.
  induction args as [|a rest IH]; intros errors Hc; simpl; [constructor|].
  inversion Hc as [|? ? Ha Hrest]; subst. constructor; [exact Ha|].
  apply IH. exact Hrest.
Qed.

(** Two states in which every selector whose name is not inherited
    from [Object.prototype] answers every argument list alike. *)
Definition same_answers (s1 s2 : State) : Prop :=
  forall m a, inherited m = false -> clean (key_of a) = true ->
    exists x s1' s2',
      getResolutionState key_of s1 m a = Ok (x, s1') /\
      getResolutionState key_of s2 m a = Ok (x, s2').

Lemma same_views_same_answers s1 s2 :
  wfState s1 -> wfState s2 ->
  (forall m k, clean k = true -> view s1 m k = view s2 m k) -> same_answers s1 s2.
Proof.
  intros H1 H2 V m a Hm Ha.
  destruct (getResolutionState_law s1 m a H1 Ha (or_intror Hm)) as [s1' [G1 _]].
  destruct (getResolutionState_law s2 m a H2 Ha (or_intror Hm)) as [s2' [G2 _]].
  exists (view s1 m (key_of a)), s1', s2'. split; [exact G1|].
  rewrite G2, (V m _ Ha). reflexivity.
Qed.

(** After any history of clean actions and for argument lists with
    clean state keys: a batch action leaves the state the single
    actions leave when dispatched one after the other, for every
    selector whose name is not inherited from [Object.prototype] and
    every argument list with a clean key, the same status objects
    included: [startResolutions] is [startResolution] for each argument
    list in order, [finishResolutions] is [finishResolution] for each,
    and [failResolutions] is [failResolution] for each with the error
    at the same index, where a falsy or missing error is filed as
    [undefined]. *)
Theorem batch_actions_are_sequences (history : list Action) (n : string)
    (args errors : list value) (ref : nat) :
  Forall clean_action history ->
  Forall (fun a => clean (key_of a) = true) args ->
  exists s,
    dispatch_all key_of 0 [] history = Ok s /\
    (exists s1 s2,
       isResolved key_of ref s (startResolutions n args) = Ok s1 /\
       dispatch_all key_of ref s (map (startResolution n) args) = Ok s2 /\
       same_answers s1 s2) /\
    (exists s1 s2,
       isResolved key_of ref s (finishResolutions n args) = Ok s1 /\
       dispatch_all key_of ref s (map (finishResolution n) args) = Ok s2 /\
       same_answers s1 s2) /\
    (exists s1 s2,
       isResolved key_of ref s (failResolutions n args errors) = Ok s1 /\
       dispatch_all key_of ref s
         (map (fun ae => failResolution n (fst ae) (snd ae)) (with_errors args errors))
         = Ok s2 /\
       same_answers s1 s2).
Proof.
  intros Hh Hc.
  destruct (history_state history Hh) as [s [D Hs]].
  exists s. split; [exact D|]. split; [|split].
  - destruct (isResolved_law ref s (startResolutions n args) Hc Hs) as [s1 [R [Hs1 V1]]].
    destruct (dispatch_all_law (map (startResolution n) args) ref s Hs
                (clean_singles startResolution n args (fun a H => H) Hc))
      as [s2 [D2 [Hs2 V2]]].
    exists s1, s2. split; [exact R|]. split; [exact D2|].
    apply (same_views_same_answers s1 s2 Hs1 Hs2). intros m k Hk.
    rewrite (V1 m k Hk), (V2 m k Hk).
    rewrite (singles_numbered startResolution "resolving" n m k
               (fun _ => eq_refl) (fun _ _ => eq_refl) (fun _ => eq_refl)).
    reflexivity.
  - destruct (isResolved_law ref s (finishResolutions n args) Hc Hs) as [s1 [R [Hs1 V1]]].
    destruct (dispatch_all_law (map (finishResolution n) args) ref s Hs
                (clean_singles finishResolution n args (fun a H => H) Hc))
      as [s2 [D2 [Hs2 V2]]].
    exists s1, s2. split; [exact R|]. split; [exact D2|].
    apply (same_views_same_answers s1 s2 Hs1 Hs2). intros m k Hk.
    rewrite (V1 m k Hk), (V2 m k Hk).
    rewrite (singles_numbered finishResolution "finished" n m k
               (fun _ => eq_refl) (fun _ _ => eq_refl) (fun _ => eq_refl)).
    reflexivity.
  - destruct (isResolved_law ref s (failResolutions n args errors) Hc Hs)
      as [s1 [R [Hs1 V1]]].
    destruct (dispatch_all_law _ ref s Hs (clean_with_errors n args errors Hc))
      as [s2 [D2 [Hs2 V2]]].
    exists s1, s2. split; [exact R|]. split; [exact D2|].
    apply (same_views_same_answers s1 s2 Hs1 Hs2). intros m k Hk.
    rewrite (V1 m k Hk), (V2 m k Hk), singles_failed. reflexivity.
Qed.

(** *** [hasResolvingSelectors] *)

(** A value whose properties can be read. *)
Definition readable (x : stored) : bool :=
  match x with
  | SVal VUndefined | SVal VNull => false
  | _ => true
  end.

(** A map keyed by objects and arrays whose values can all be read. *)
Definition live (e : ekm) : Prop :=
  forall k x, In (k, x) (entries e) -> is_primitive k = false /\ readable x = true.

Definition never_deletes (action : Action) : Prop :=
  match action with
  | INVALIDATE_RESOLUTION _ _ => False
  | _ => True
  end.

Hypothesis key_is_composite : forall a, is_primitive (key_of a) = false.

Lemma live_empty : live empty.
Proof. intros k x []. Qed.

Lemma live_composite e : live e -> composite_keys e.
Proof. intros H k x Hin. apply (H k x Hin). Qed.

Lemma set_live e key v :
  wf e -> live e -> clean key = true -> is_primitive key = false ->
  readable (SVal v) = true ->
  exists e', set e key v = Ok e' /\ wf e' /\ live e' /\
    forall k, clean k = true ->
      peek e' k = if equivb k key then SVal v else peek e k.
Proof.
  intros W L Hc P Hr.
  destruct (set_wf e key (SVal v) W Hc (ok_user v)) as [e' [S [W' [F [_ Hm]]]]].
  exists e'. split; [exact S|]. split; [exact W'|]. split; [|exact F].
  rewrite P in Hm. intros k x Hin.
  rewrite (entries_unwrap e'), Hm, (registered_entries e key (SVal v) W Hc P) in Hin.
  apply in_app_iff in Hin. destruct Hin as [Hin|[E|[]]].
  - apply filter_In in Hin. apply (L k x (proj1 Hin)).
  - inversion E; subst. split; [exact P|exact Hr].
Qed.

Lemma set_each_live status args : forall e ref,
  wf e -> live e -> Forall (fun a => clean (key_of a) = true) args ->
  exists e', set_each key_of e ref status args = Ok e' /\ wf e' /\ live e'.
Proof.
  induction args as [|a rest IH]; intros e ref W L Hc; simpl.
  - exists e. split; [reflexivity|]. split; assumption.
  - inversion Hc as [|? ? Ha Hrest]; subst.
    destruct (set_live e (key_of a) (status_object ref status) W L Ha
                (key_is_composite a) eq_refl) as [e1 [S [W1 [L1 _]]]].
    rewrite S. simpl bind. apply IH; assumption.
Qed.

Lemma fail_each_live args : forall e ref errors,
  wf e -> live e -> Forall (fun a => clean (key_of a) = true) args ->
  exists e', fail_each key_of e ref args errors = Ok e' /\ wf e' /\ live e'.
Proof.
  induction args as [|a rest IH]; intros e ref errors W L Hc; simpl.
  - exists e. split; [reflexivity|]. split; assumption.
  - inversion Hc as [|? ? Ha Hrest]; subst.
    destruct (set_live e (key_of a)
                (error_object ref (if truthy (hd VUndefined errors)
                                   then hd VUndefined errors else VUndefined))
                W L Ha (key_is_composite a) eq_refl) as [e1 [S [W1 [L1 _]]]].
    rewrite S. simpl bind. apply IH; assumption.
Qed.

Definition liveState (s : State) : Prop :=
  wfState s /\ forall n e, In (n, e) s -> live e.

Lemma live_slice s n : liveState s -> live (slice s n).
Proof.
  intros [_ H]. unfold slice. destruct (assoc_get String.eqb s n) as [e|] eqn:E.
  - apply (H n e). apply assoc_get_some_in, E.
  - apply live_empty.
Qed.

Lemma liveState_set s n e : liveState s -> wf e -> live e ->
  liveState (assoc_set String.eqb s n e).
Proof.
  intros [Hs H] W L. split; [apply wfState_set; assumption|].
  intros n' e' Hin. destruct (in_assoc_set _ _ _ _ _ _ Hin) as [X|X].
  - inversion X; subst. exact L.
  - apply (H n' e' X).
Qed.

Lemma isResolved_live ref s action :
  clean_action action -> never_deletes action -> liveState s ->
  exists s', isResolved key_of ref s action = Ok s' /\ liveState s'.
Proof.
  intros Hc Hn Hl. pose proof (proj1 Hl) as Hs.
  assert (Sub : forall n (op : ekm -> res ekm),
            (forall c, wf c -> live c -> exists e1, op c = Ok e1 /\ wf e1 /\ live e1) ->
            exists s', (next <- (c <- copy (slice s n) ;; op c) ;;
                        Ok (assoc_set String.eqb s n next)) = Ok s' /\ liveState s').
  { intros n op Hop.
    destruct (copy_law (slice s n) (wf_slice s n Hs)) as [c [C [Wc [E _]]]].
    assert (Lc : live c).
    { intros k x Hin. rewrite E in Hin. apply (live_slice s n Hl k x Hin). }
    destruct (Hop c Wc Lc) as [e1 [R [W1 L1]]].
    rewrite C. simpl bind. rewrite R. simpl bind.
    eexists. split; [reflexivity|]. apply liveState_set; assumption. }
  destruct action as [n0 a|n0 a|n0 a err|n0 l|n0 l|n0 l errs|n0 a| |n0|t];
    simpl in Hc, Hn.
  - apply (Sub n0 (fun c => set c (key_of a) (status_object ref "resolving"))).
    intros c Wc Lc.
    destruct (set_live c (key_of a) (status_object ref "resolving") Wc Lc Hc
                (key_is_composite a) eq_refl) as [e1 [S [W1 [L1 _]]]].
    exists e1. split; [exact S|]. split; assumption.
  - apply (Sub n0 (fun c => set c (key_of a) (status_object ref "finished"))).
    intros c Wc Lc.
    destruct (set_live c (key_of a) (status_object ref "finished") Wc Lc Hc
                (key_is_composite a) eq_refl) as [e1 [S [W1 [L1 _]]]].
    exists e1. split; [exact S|]. split; assumption.
  - apply (Sub n0 (fun c => set c (key_of a) (error_object ref err))).
    intros c Wc Lc.
    destruct (set_live c (key_of a) (error_object ref err) Wc Lc Hc
                (key_is_composite a) eq_refl) as [e1 [S [W1 [L1 _]]]].
    exists e1. split; [exact S|]. split; assumption.
  - apply (Sub n0 (fun c => set_each key_of c ref "resolving" l)).
    intros c Wc Lc. apply set_each_live; assumption.
  - apply (Sub n0 (fun c => set_each key_of c ref "finished" l)).
    intros c Wc Lc. apply set_each_live; assumption.
  - apply (Sub n0 (fun c => fail_each key_of c ref l errs)).
    intros c Wc Lc. apply fail_each_live; assumption.
  - destruct Hn.
  - exists []. split; [reflexivity|]. split; [apply wfState_nil|intros n e []].
  - unfold isResolved. destruct (assoc_has String.eqb s n0 || inherited n0).
    + eexists. split; [reflexivity|]. split; [apply wfState_delete; exact Hs|].
      intros n e Hin. apply (proj2 Hl n e). apply (in_assoc_delete _ _ _ _ _ Hin).
    + exists s. split; [reflexivity|exact Hl].
  - exists s. split; [reflexivity|exact Hl].
Qed.

Lemma dispatch_all_live actions : forall ref s,
  liveState s -> Forall clean_action actions -> Forall never_deletes actions ->
  exists s', dispatch_all key_of ref s actions = Ok s' /\ liveState s'.
Proof.
  induction actions as [|a rest IH]; intros ref s Hl Hc Hn; simpl.
  - exists s. split; [reflexivity|exact Hl].
  - inversion Hc as [|? ? Ha Hrest]; subst. inversion Hn as [|? ? Na Nrest]; subst.
    destruct (isResolved_live ref s a Ha Na Hl) as [s1 [R Hl1]].
    rewrite R. simpl bind. apply IH; assumption.
Qed.

(** Whether an entry is a resolution in progress. *)
Definition resolving_entry (kx : value * stored) : bool :=
  value_eqb (status_property (snd kx)) (VStr "resolving").

Lemma some_loop_live (m : jsmap) :
  (forall k s, In (k, s) m ->
     is_primitive k = false /\ s = SPair k (index1 s) /\ readable (index1 s) = true) ->
  some_loop is_resolving_entry m = Ok (existsb resolving_entry (map unwrap m)).
Proof.
  induction m as [|[k s] t IH]; intros H; simpl; [reflexivity|].
  destruct (H k s (or_introl eq_refl)) as [P [E R]].
  unfold unwrap at 1. simpl fst. simpl snd. rewrite P.
  unfold resolving_entry at 1. simpl snd.
  assert (R1 : read1 s = Ok (index1 s)) by (rewrite E; reflexivity).
  assert (RS : read_status (index1 s) = Ok (status_property (index1 s))).
  { destruct (index1 s) as [[]| |]; try reflexivity; discriminate R. }
  rewrite R1. simpl bind. unfold is_resolving_entry at 1. rewrite RS. simpl bind.
  destruct (value_eqb (status_property (index1 s)) (VStr "resolving"));
    [reflexivity|].
  apply IH. intros k' s' Hin. apply H. right. exact Hin.
Qed.

Lemma some_live e :
  wf e -> live e ->
  some e is_resolving_entry = Ok (existsb resolving_entry (entries e)).
Proof.
  intros W L. unfold some. rewrite entries_unwrap. apply some_loop_live.
  intros k s Hin.
  destruct (listed_pairs e (proj1 W) (live_composite e L) k s Hin) as [E Hin'].
  destruct (L _ _ Hin') as [P R]. repeat split; assumption.
Qed.

Lemma some_selectorState_live (s : list (string * ekm)) :
  (forall n e, In (n, e) s -> wf e /\ live e) ->
  some_selectorState s
  = Ok (existsb (fun ne => existsb resolving_entry (entries (snd ne))) s).
Proof.
  induction s as [|[n e] t IH]; intros H; simpl; [reflexivity|].
  destruct (H n e (or_introl eq_refl)) as [W L].
  rewrite (some_live e W L). simpl bind.
  destruct (existsb resolving_entry (entries e)); [reflexivity|].
  apply IH. intros n' e' Hin. apply (H n' e'). right. exact Hin.
Qed.

Lemma hasResolvingSelectors_live (s : State) :
  (forall n e, In (n, e) s -> wf e /\ live e) ->
  hasResolvingSelectors s
  = Ok (existsb (fun ne => existsb resolving_entry (entries (snd ne))) (enumerate s)).
Proof.
  intros H. apply some_selectorState_live.
  intros n e Hin. apply (H n e). apply enumerate_in. exact Hin.
Qed.

Lemma in_state_get (s : State) n e :
  NoDup (map fst s) -> In (n, e) s -> assoc_get String.eqb s n = Some e.
Proof.
  induction s as [|[n0 e0] t IH]; simpl; intros Hnd Hin; [contradiction|].
  inversion Hnd as [|? ? Hn Hd]; subst. destruct Hin as [H|H].
  - inversion H; subst. rewrite String.eqb_refl. reflexivity.
  - destruct (String.eqb n0 n) eqn:E.
    + apply String.eqb_eq in E. subst n0. exfalso. apply Hn.
      apply (in_map fst) in H. exact H.
    + apply IH; assumption.
Qed.

(** When the state keys are objects or arrays: on the state left by
    a history of clean actions none of which is an
    [invalidateResolution], [hasResolvingSelectors] does not throw and
    agrees with [isResolving]: it is [true] whenever [isResolving] is
    [true] for some selector and an argument list with a clean key, and
    when it is [true] the map of some selector holds, for some key, a
    value whose status is ['resolving']. *)
Theorem hasResolvingSelectors_agrees (history : list Action) :
  Forall clean_action history -> Forall never_deletes history ->
  exists s b,
    dispatch_all key_of 0 [] history = Ok s /\
    hasResolvingSelectors s = Ok b /\
    (forall n args s', clean (key_of args) = true ->
       isResolving key_of s n args = Ok (true, s') -> b = true) /\
    (b = true ->
     exists n e k x e',
       assoc_get String.eqb s n = Some e /\ get e k = Ok (x, e') /\
       status_property x = VStr "resolving").
Proof.
  intros Hh Hn.
  assert (L0 : liveState []) by (split; [apply wfState_nil|intros n e []]).
  destruct (dispatch_all_live history 0 [] L0 Hh Hn) as [s [D [Hs Hl]]].
  assert (Hall : forall n e, In (n, e) s -> wf e /\ live e).
  { intros n e Hin. split; [apply (proj2 Hs n e Hin)|apply (Hl n e Hin)]. }
  exists s, (existsb (fun ne => existsb resolving_entry (entries (snd ne)))
                     (enumerate s)).
  split; [exact D|]. split; [apply hasResolvingSelectors_live; exact Hall|]. split.
  - intros n args s' Hc R. unfold isResolving in R.
    assert (An : answers s n).
    { destruct (inherited n) eqn:I; [|right; exact I]. left. intros E.
      unfold getResolutionState in R. rewrite E, I in R. discriminate R. }
    destruct (getResolutionState_law s n args Hs Hc An) as [s1 [G _]].
    rewrite G in R. simpl in R. injection R as R.
    unfold view in R. destruct (assoc_get String.eqb s n) as [e|] eqn:E;
      [|discriminate R].
    pose proof (assoc_get_some_in _ _ _ _ E) as Hin.
    destruct (Hall n e Hin) as [W L].
    assert (Pr : present e (key_of args) = true).
    { destruct (present e (key_of args)) eqn:Pr; [reflexivity|].
      rewrite (proj2 (present_spec _ User e Hc (proj1 W)) Pr) in R. discriminate R. }
    destruct (present_entry e (key_of args) W Hc Pr) as [k0 [Hin0 _]].
    apply existsb_exists. exists (n, e). split; [apply enumerate_in; exact Hin|].
    apply existsb_exists. exists (k0, peek e (key_of args)). split; [exact Hin0|].
    unfold resolving_entry. simpl snd.
    destruct (peek e (key_of args)) as [[]| |]; try exact R; discriminate R.
  - intros B. apply existsb_exists in B. destruct B as [[n e] [Hin B]].
    apply (proj1 (enumerate_in s (n, e))) in Hin.
    apply existsb_exists in B. destruct B as [[k x] [Hin0 B]]. simpl in Hin0, B.
    destruct (Hall n e Hin) as [W L].
    destruct (entry_answer e k x (proj1 W) Hin0) as [Hc [_ Hx]].
    destruct (lookup_law e k W Hc) as [e' [G _]].
    exists n, e, k, x, e'.
    split; [apply (in_state_get s n e (proj1 Hs) Hin)|].
    split; [rewrite G, Hx; reflexivity|].
    apply value_eqb_eq. exact B.
Qed.

(** *** The resolvers cache middleware *)

(** The values of a map are status objects or the [undefined] that
    [delete] leaves: never [null]. *)
Definition sound_values (e : ekm) : Prop :=
  forall k, clean k = true -> present e k = true ->
    peek e k = undefined \/ readable (peek e k) = true.

Lemma sound_values_empty : sound_values empty.
Proof. intros k _ Pr. rewrite present_empty in Pr. discriminate Pr. Qed.

Lemma sound_values_same e e' :
  (forall k, clean k = true -> peek e' k = peek e k /\ present e' k = present e k) ->
  sound_values e -> sound_values e'.
Proof.
  intros V H k Hk Pr. destruct (V k Hk) as [A B]. rewrite A. apply (H k Hk).
  rewrite <- B. exact Pr.
Qed.

Lemma sound_values_set e key v :
  wf e -> sound_values e -> clean key = true -> readable (SVal v) = true ->
  exists e', set e key v = Ok e' /\ wf e' /\ sound_values e'.
Proof.
  intros W H Hc Hr. destruct (set_law e key v W Hc) as [e' [S [W' F]]].
  exists e'. split; [exact S|]. split; [exact W'|].
  intros k Hk Pr. destruct (F k Hk) as [A B]. rewrite A.
  destruct (equivb k key); [right; exact Hr|].
  apply (H k Hk). rewrite <- B. exact Pr.
Qed.

Lemma sound_values_set_each status args : forall e ref,
  wf e -> sound_values e -> Forall (fun a => clean (key_of a) = true) args ->
  exists e', set_each key_of e ref status args = Ok e' /\ wf e' /\ sound_values e'.
Proof.
  induction args as [|a rest IH]; intros e ref W H Hc; simpl.
  - exists e. split; [reflexivity|]. split; assumption.
  - inversion Hc as [|? ? Ha Hrest]; subst.
    destruct (sound_values_set e (key_of a) (status_object ref status) W H Ha eq_refl)
      as [e1 [S [W1 H1]]].
    rewrite S. simpl bind. apply IH; assumption.
Qed.

Lemma sound_values_fail_each args : forall e ref errors,
  wf e -> sound_values e -> Forall (fun a => clean (key_of a) = true) args ->
  exists e', fail_each key_of e ref args errors = Ok e' /\ wf e' /\ sound_values e'.
Proof.
  induction args as [|a rest IH]; intros e ref errors W H Hc; simpl.
  - exists e. split; [reflexivity|]. split; assumption.
  - inversion Hc as [|? ? Ha Hrest]; subst.
    destruct (sound_values_set e (key_of a)
                (error_object ref (if truthy (hd VUndefined errors)
                                   then hd VUndefined errors else VUndefined))
                W H Ha eq_refl) as [e1 [S [W1 H1]]].
    rewrite S. simpl bind. apply IH; assumption.
Qed.

Lemma sound_values_delete e key :
  wf e -> sound_values e -> clean key = true ->
  exists b e', delete e key = Ok (b, e') /\ wf e' /\ sound_values e'.
Proof.
  intros W H Hc. destruct (delete_law e key W Hc) as [e' [D [W' F]]].
  exists (present e key), e'. split; [exact D|]. split; [exact W'|].
  intros k Hk Pr. destruct (F k Hk) as [A B]. rewrite A.
  destruct (equivb k key && present e key); [left; reflexivity|].
  apply (H k Hk). rewrite <- B. exact Pr.
Qed.

Definition soundState (s : State) : Prop :=
  wfState s /\ forall n e, In (n, e) s -> sound_values e.

Lemma isResolved_sound ref s action :
  clean_action action -> soundState s ->
  exists s', isResolved key_of ref s action = Ok s' /\ soundState s'.
Proof.
  intros Hc Hl. pose proof (proj1 Hl) as Hs.
  assert (Hsl : forall n, sound_values (slice s n)).
  { intros n. unfold slice. destruct (assoc_get String.eqb s n) as [e|] eqn:E.
    - apply (proj2 Hl n e). apply assoc_get_some_in, E.
    - apply sound_values_empty. }
  assert (Sub : forall n (op : ekm -> res ekm),
            (forall c, wf c -> sound_values c ->
               exists e1, op c = Ok e1 /\ wf e1 /\ sound_values e1) ->
            exists s', (next <- (c <- copy (slice s n) ;; op c) ;;
                        Ok (assoc_set String.eqb s n next)) = Ok s' /\ soundState s').
  { intros n op Hop.
    destruct (copy_law (slice s n) (wf_slice s n Hs)) as [c [C [Wc [_ V]]]].
    destruct (Hop c Wc (sound_values_same (slice s n) c V (Hsl n))) as [e1 [R [W1 L1]]].
    rewrite C. simpl bind. rewrite R. simpl bind.
    eexists. split; [reflexivity|]. split; [apply wfState_set; assumption|].
    intros n' e' Hin. destruct (in_assoc_set _ _ _ _ _ _ Hin) as [X|X].
    - inversion X; subst. exact L1.
    - apply (proj2 Hl n' e' X). }
  destruct action as [n0 a|n0 a|n0 a err|n0 l|n0 l|n0 l errs|n0 a| |n0|t];
    simpl in Hc.
  - apply (Sub n0 (fun c => set c (key_of a) (status_object ref "resolving"))).
    intros c Wc Lc. apply sound_values_set; try assumption. reflexivity.
  - apply (Sub n0 (fun c => set c (key_of a) (status_object ref "finished"))).
    intros c Wc Lc. apply sound_values_set; try assumption. reflexivity.
  - apply (Sub n0 (fun c => set c (key_of a) (error_object ref err))).
    intros c Wc Lc. apply sound_values_set; try assumption. reflexivity.
  - apply (Sub n0 (fun c => set_each key_of c ref "resolving" l)).
    intros c Wc Lc. apply sound_values_set_each; assumption.
  - apply (Sub n0 (fun c => set_each key_of c ref "finished" l)).
    intros c Wc Lc. apply sound_values_set_each; assumption.
  - apply (Sub n0 (fun c => fail_each key_of c ref l errs)).
    intros c Wc Lc. apply sound_values_fail_each; assumption.
  - apply (Sub n0 (fun c => ' (_, nextState) <- delete c (key_of a) ;; Ok nextState)).
    intros c Wc Lc. destruct (sound_values_delete c (key_of a) Wc Lc Hc)
      as [b [e1 [D [W1 L1]]]].
    rewrite D. simpl bind. exists e1. split; [reflexivity|]. split; assumption.
  - exists []. split; [reflexivity|]. split; [apply wfState_nil|intros n e []].
  - unfold isResolved. destruct (assoc_has String.eqb s n0 || inherited n0).
    + eexists. split; [reflexivity|]. split; [apply wfState_delete; exact Hs|].
      intros n e Hin. apply (proj2 Hl n e). apply (in_assoc_delete _ _ _ _ _ Hin).
    + exists s. split; [reflexivity|exact Hl].
  - exists s. split; [reflexivity|exact Hl].
Qed.

Lemma dispatch_all_sound actions : forall ref s,
  soundState s -> Forall clean_action actions ->
  exists s', dispatch_all key_of ref s actions = Ok s' /\ soundState s'.
Proof.
  induction actions as [|a rest IH]; intros ref s Hl Hc; simpl.
  - exists s. split; [reflexivity|exact Hl].
  - inversion Hc as [|? ? Ha Hrest]; subst.
    destruct (isResolved_sound ref s a Ha Hl) as [s1 [R Hl1]].
    rewrite R. simpl bind. apply IH; assumption.
Qed.

(** *** The keys that are present *)
Section KeysOnly.
Variable P : value -> bool.
Hypothesis P_equiv : forall k key, equivb k key = true -> P key = true -> P k = true.

(** Every key for which [has] is true satisfies [P]. *)
Definition keys_only (e : ekm) : Prop :=
  forall k, clean k = true -> present e k = true -> P k = true.

(** An action all of whose state keys satisfy [P]. *)
Definition keyed (action : Action) : Prop :=
  match action with
  | START_RESOLUTION _ args | FINISH_RESOLUTION _ args | FAIL_RESOLUTION _ args _
  | INVALIDATE_RESOLUTION _ args => P (key_of args) = true
  | START_RESOLUTIONS _ args | FINISH_RESOLUTIONS _ args | FAIL_RESOLUTIONS _ args _ =>
      Forall (fun a => P (key_of a) = true) args
  | _ => True
  end.

Lemma keys_only_empty : keys_only empty.
Proof. intros k _ Pr. rewrite present_empty in Pr. discriminate Pr. Qed.

Lemma keys_only_same e e' :
  (forall k, clean k = true -> peek e' k = peek e k /\ present e' k = present e k) ->
  keys_only e -> keys_only e'.
Proof.
  intros V H k Hk Pr. destruct (V k Hk) as [_ B]. apply (H k Hk).
  rewrite <- B. exact Pr.
Qed.

Lemma keys_only_set e key v :
  wf e -> keys_only e -> clean key = true -> P key = true ->
  exists e', set e key v = Ok e' /\ wf e' /\ keys_only e'.
Proof.
  intros W H Hc Hp. destruct (set_law e key v W Hc) as [e' [S [W' F]]].
  exists e'. split; [exact S|]. split; [exact W'|].
  intros k Hk Pr. destruct (F k Hk) as [_ B]. rewrite B in Pr.
  destruct (equivb k key) eqn:EQ; [apply (P_equiv k key EQ Hp)|apply (H k Hk Pr)].
Qed.

Lemma keys_only_set_each status args : forall e ref,
  wf e -> keys_only e -> Forall (fun a => clean (key_of a) = true) args ->
  Forall (fun a => P (key_of a) = true) args ->
  exists e', set_each key_of e ref status args = Ok e' /\ wf e' /\ keys_only e'.
Proof.
  induction args as [|a rest IH]; intros e ref W H Hc Hp; simpl.
  - exists e. split; [reflexivity|]. split; assumption.
  - inversion Hc as [|? ? Ha Hrest]; subst. inversion Hp as [|? ? Hpa Hprest]; subst.
    destruct (keys_only_set e (key_of a) (status_object ref status) W H Ha Hpa)
      as [e1 [S [W1 H1]]].
    rewrite S. simpl bind. apply IH; assumption.
Qed.

Lemma keys_only_fail_each args : forall e ref errors,
  wf e -> keys_only e -> Forall (fun a => clean (key_of a) = true) args ->
  Forall (fun a => P (key_of a) = true) args ->
  exists e', fail_each key_of e ref args errors = Ok e' /\ wf e' /\ keys_only e'.
Proof.
  induction args as [|a rest IH]; intros e ref errors W H Hc Hp; simpl.
  - exists e. split; [reflexivity|]. split; assumption.
  - inversion Hc as [|? ? Ha Hrest]; subst. inversion Hp as [|? ? Hpa Hprest]; subst.
    destruct (keys_only_set e (key_of a)
                (error_object ref (if truthy (hd VUndefined errors)
                                   then hd VUndefined errors else VUndefined))
                W H Ha Hpa) as [e1 [S [W1 H1]]].
    rewrite S. simpl bind. apply IH; assumption.
Qed.

Lemma keys_only_delete e key :
  wf e -> keys_only e -> clean key = true ->
  exists b e', delete e key = Ok (b, e') /\ wf e' /\ keys_only e'.
Proof.
  intros W H Hc. destruct (delete_law e key W Hc) as [e' [D [W' F]]].
  exists (present e key), e'. split; [exact D|]. split; [exact W'|].
  intros k Hk Pr. destruct (F k Hk) as [_ B]. apply (H k Hk). rewrite <- B. exact Pr.
Qed.

Definition keyedState (s : State) : Prop :=
  wfState s /\ forall n e, In (n, e) s -> keys_only e.

Lemma isResolved_keyed ref s action :
  clean_action action -> keyed action -> keyedState s ->
  exists s', isResolved key_of ref s action = Ok s' /\ keyedState s'.
Proof.
  intros Hc Hp Hl. pose proof (proj1 Hl) as Hs.
  assert (Hsl : forall n, keys_only (slice s n)).
  { intros n. unfold slice. destruct (assoc_get String.eqb s n) as [e|] eqn:E.
    - apply (proj2 Hl n e). apply assoc_get_some_in, E.
    - apply keys_only_empty. }
  assert (Sub : forall n (op : ekm -> res ekm),
            (forall c, wf c -> keys_only c ->
               exists e1, op c = Ok e1 /\ wf e1 /\ keys_only e1) ->
            exists s', (next <- (c <- copy (slice s n) ;; op c) ;;
                        Ok (assoc_set String.eqb s n next)) = Ok s' /\ keyedState s').
  { intros n op Hop.
    destruct (copy_law (slice s n) (wf_slice s n Hs)) as [c [C [Wc [_ V]]]].
    destruct (Hop c Wc (keys_only_same (slice s n) c V (Hsl n))) as [e1 [R [W1 L1]]].
    rewrite C. simpl bind. rewrite R. simpl bind.
    eexists. split; [reflexivity|]. split; [apply wfState_set; assumption|].
    intros n' e' Hin. destruct (in_assoc_set _ _ _ _ _ _ Hin) as [X|X].
    - inversion X; subst. exact L1.
    - apply (proj2 Hl n' e' X). }
  destruct action as [n0 a|n0 a|n0 a err|n0 l|n0 l|n0 l errs|n0 a| |n0|t];
    simpl in Hc, Hp.
  - apply (Sub n0 (fun c => set c (key_of a) (status_object ref "resolving"))).
    intros c Wc Lc. apply keys_only_set; assumption.
  - apply (Sub n0 (fun c => set c (key_of a) (status_object ref "finished"))).
    intros c Wc Lc. apply keys_only_set; assumption.
  - apply (Sub n0 (fun c => set c (key_of a) (error_object ref err))).
    intros c Wc Lc. apply keys_only_set; assumption.
  - apply (Sub n0 (fun c => set_each key_of c ref "resolving" l)).
    intros c Wc Lc. apply keys_only_set_each; assumption.
  - apply (Sub n0 (fun c => set_each key_of c ref "finished" l)).
    intros c Wc Lc. apply keys_only_set_each; assumption.
  - apply (Sub n0 (fun c => fail_each key_of c ref l errs)).
    intros c Wc Lc. apply keys_only_fail_each; assumption.
  - apply (Sub n0 (fun c => ' (_, nextState) <- delete c (key_of a) ;; Ok nextState)).
    intros c Wc Lc. destruct (keys_only_delete c (key_of a) Wc Lc Hc)
      as [b [e1 [D [W1 L1]]]].
    rewrite D. simpl bind. exists e1. split; [reflexivity|]. split; assumption.
  - exists []. split; [reflexivity|]. split; [apply wfState_nil|intros n e []].
  - unfold isResolved. destruct (assoc_has String.eqb s n0 || inherited n0).
    + eexists. split; [reflexivity|]. split; [apply wfState_delete; exact Hs|].
      intros n e Hin. apply (proj2 Hl n e). apply (in_assoc_delete _ _ _ _ _ Hin).
    + exists s. split; [reflexivity|exact Hl].
  - exists s. split; [reflexivity|exact Hl].
Qed.

Lemma dispatch_all_keyed actions : forall ref s,
  keyedState s -> Forall clean_action actions -> Forall keyed actions ->
  exists s', dispatch_all key_of ref s actions = Ok s' /\ keyedState s'.
Proof.
  induction actions as [|a rest IH]; intros ref s Hl Hc Hp; simpl.
  - exists s. split; [reflexivity|exact Hl].
  - inversion Hc as [|? ? Ha Hrest]; subst. inversion Hp as [|? ? Hpa Hprest]; subst.
    destruct (isResolved_keyed ref s a Ha Hpa Hl) as [s1 [R Hl1]].
    rewrite R. simpl bind. apply IH; assumption.
Qed.

Lemma keys_only_entries e :
  wf e -> keys_only e -> forall k x, In (k, x) (entries e) -> P k = true.
Proof.
  intros W H k x Hin. destruct (entry_answer e k x (proj1 W) Hin) as [Hc [Pr _]].
  apply (H k Hc Pr).
Qed.
End KeysOnly.

Lemma isArray_equiv k key : equivb k key = true -> isArray key = true -> isArray k = true.
Proof.
  destruct key as [| | | | |r' [|] ps']; try discriminate. intros E _.
  destruct k as [| | | | |r [|] ps]; try discriminate E; reflexivity.
Qed.

Section Middleware.
Variable A : Type.
Variable resolvers : string -> option (A -> value -> bool).

(** Whether a resolution has come to an end. *)
Definition ended (x : stored) : bool :=
  value_eqb (status_property x) (VStr "finished") ||
  value_eqb (status_property x) (VStr "error").

Definition accepted (shouldInvalidate : A -> value -> bool) (action : A)
    (kx : value * stored) : bool :=
  negb (is_undefined (snd kx)) && ended (snd kx) && shouldInvalidate action (fst kx).

Lemma invalidate_entries_spec shouldInvalidate action n l :
  (forall k x, In (k, x) l -> isArray k = true) ->
  (forall k x, In (k, x) l -> x = undefined \/ readable x = true) ->
  invalidate_entries shouldInvalidate action n l
  = Ok (map (fun kx => invalidateResolution n (fst kx))
            (filter (accepted shouldInvalidate action) l)).
Proof.
  induction l as [|[k x] t IH]; intros Hk H; simpl; [reflexivity|].
  rewrite IH
    by (intros k' x' Hin; first [apply (Hk k' x')|apply (H k' x')]; right; exact Hin).
  unfold invalidates, accepted, ended. simpl fst. simpl snd.
  assert (I : iterable k = true).
  { pose proof (Hk k x (or_introl eq_refl)) as X.
    destruct k as [| | | | |r [|] ps]; try discriminate X. reflexivity. }
  rewrite I.
  destruct (H k x (or_introl eq_refl)) as [U|R].
  - subst x. reflexivity.
  - assert (RS : read_status x = Ok (status_property x)).
    { destruct x as [[]| |]; try reflexivity; discriminate R. }
    destruct (is_undefined x); [reflexivity|]. rewrite RS. simpl bind.
    destruct (value_eqb (status_property x) (VStr "finished"));
      destruct (value_eqb (status_property x) (VStr "error")); simpl;
      try reflexivity; destruct (shouldInvalidate action k); reflexivity.
Qed.

Lemma entries_sound e :
  wf e -> sound_values e ->
  forall k x, In (k, x) (entries e) -> x = undefined \/ readable x = true.
Proof.
  intros W H k x Hin.
  destruct (entry_answer e k x (proj1 W) Hin) as [Hc [Pr Hx]].
  rewrite Hx. apply (H k Hc Pr).
Qed.

(** What the loops dispatch for a selector and its map. *)
Definition dispatched_for (action : A) (ne : string * ekm) : list Action :=
  match resolvers (fst ne) with
  | None => []
  | Some shouldInvalidate =>
      map (fun kx => invalidateResolution (fst ne) (fst kx))
          (filter (accepted shouldInvalidate action) (entries (snd ne)))
  end.

Lemma invalidate_selectors_spec action (s : list (string * ekm)) :
  (forall n e, In (n, e) s -> wf e /\ sound_values e /\ keys_only isArray e) ->
  invalidate_selectors resolvers action s = Ok (flat_map (dispatched_for action) s).
Proof.
  induction s as [|[n e] t IH]; intros H; simpl; [reflexivity|].
  rewrite IH by (intros n' e' Hin; apply (H n' e'); right; exact Hin).
  destruct (H n e (or_introl eq_refl)) as [W [L K]].
  assert (E1 : match resolvers n with
               | None => Ok []
               | Some shouldInvalidate =>
                   invalidate_entries shouldInvalidate action n (entries e)
               end = Ok (dispatched_for action (n, e))).
  { unfold dispatched_for. simpl fst. simpl snd.
    destruct (resolvers n) as [sI|]; [|reflexivity].
    apply (invalidate_entries_spec sI action n (entries e)
             (keys_only_entries isArray e W K) (entries_sound e W L)). }
  rewrite E1. reflexivity.
Qed.

(** On the resolution state any history of clean actions with arrays
    as state keys leaves, deleted entries included, the middleware does
    not throw, and it
    dispatches [invalidateResolution(n, args)] exactly for the entries
    [forEach] visits in the map of a selector [n] whose resolver has a
    [shouldInvalidate], where the resolution has ended (status
    ['finished'] or ['error']) and [shouldInvalidate(action, ...args)]
    is true: each action dispatched is for a key for which [get] returns
    such a status, and each such entry is dispatched. *)
Theorem middleware_invalidates_ended (history : list Action) (action : A) :
  Forall clean_action history -> Forall (keyed isArray) history ->
  exists s dispatched,
    dispatch_all key_of 0 [] history = Ok s /\
    resolversCacheMiddleware resolvers action s = Ok dispatched /\
    (forall a, In a dispatched ->
       exists n k shouldInvalidate e x e',
         a = invalidateResolution n k /\
         resolvers n = Some shouldInvalidate /\ shouldInvalidate action k = true /\
         assoc_get String.eqb s n = Some e /\ get e k = Ok (x, e') /\
         ended x = true) /\
    (forall n shouldInvalidate e k x,
       resolvers n = Some shouldInvalidate -> assoc_get String.eqb s n = Some e ->
       In (k, x) (entries e) -> ended x = true -> shouldInvalidate action k = true ->
       In (invalidateResolution n k) dispatched).
Proof.
  intros Hh Ha.
  assert (L0 : soundState []) by (split; [apply wfState_nil|intros n e []]).
  destruct (dispatch_all_sound history 0 [] L0 Hh) as [s [D [Hs Hl]]].
  assert (K0 : keyedState isArray []) by (split; [apply wfState_nil|intros n e []]).
  destruct (dispatch_all_keyed isArray isArray_equiv history 0 [] K0 Hh Ha)
    as [s' [D' [_ Hk]]].
  rewrite D in D'. inversion D'; subst s'. clear D'.
  assert (Hall : forall n e, In (n, e) s -> wf e /\ sound_values e /\ keys_only isArray e).
  { intros n e Hin. split; [apply (proj2 Hs n e Hin)|].
    split; [apply (Hl n e Hin)|apply (Hk n e Hin)]. }
  exists s, (flat_map (dispatched_for action) (enumerate s)).
  split; [exact D|]. split.
  { apply invalidate_selectors_spec. intros n e Hin. apply (Hall n e).
    apply (proj1 (enumerate_in s (n, e))). exact Hin. }
  split.
  - intros a Hin. apply in_flat_map in Hin. destruct Hin as [[n e] [Hne Hin]].
    apply (proj1 (enumerate_in s (n, e))) in Hne.
    unfold dispatched_for in Hin. simpl in Hin.
    destruct (resolvers n) as [sI|] eqn:R; [|destruct Hin].
    apply in_map_iff in Hin. destruct Hin as [[k x] [Ea Hin]].
    apply filter_In in Hin. destruct Hin as [Hin Acc].
    unfold accepted in Acc. simpl in Acc, Ea.
    apply andb_true_iff in Acc. destruct Acc as [Acc SI].
    apply andb_true_iff in Acc. destruct Acc as [_ En].
    destruct (Hall n e Hne) as [W _].
    destruct (entry_answer e k x (proj1 W) Hin) as [Hc [_ Hx]].
    destruct (lookup_law e k W Hc) as [e' [G _]].
    exists n, k, sI, e, x, e'.
    split; [symmetry; exact Ea|]. split; [exact R|]. split; [exact SI|].
    split; [apply (in_state_get s n e (proj1 Hs) Hne)|].
    split; [rewrite G, Hx; reflexivity|exact En].
  - intros n sI e k x R E Hin En SI.
    apply in_flat_map. exists (n, e).
    split; [apply enumerate_in; apply assoc_get_some_in; exact E|].
    unfold dispatched_for. simpl. rewrite R.
    apply in_map_iff. exists (k, x). split; [reflexivity|].
    apply filter_In. split; [exact Hin|].
    unfold accepted. simpl. rewrite En, SI.
    destruct x as [[]| |]; try reflexivity; discriminate En.
Qed.
End Middleware.


(** *** [countSelectorsByStatus] *)

(** No primitive key is present. *)
Definition no_primitive (e : ekm) : Prop :=
  forall k, is_primitive k = true -> present e k = false.

Lemma no_primitive_empty : no_primitive empty.
Proof. intros k _. apply present_empty. Qed.

Lemma no_primitive_same e e' :
  (forall k, clean k = true -> peek e' k = peek e k /\ present e' k = present e k) ->
  no_primitive e -> no_primitive e'.
Proof.
  intros V H k P. destruct (V k (primitive_clean k P)) as [_ B]. rewrite B.
  apply (H k P).
Qed.

Lemma no_primitive_set e key v :
  wf e -> no_primitive e -> clean key = true -> is_primitive key = false ->
  exists e', set e key v = Ok e' /\ wf e' /\ no_primitive e'.
Proof.
  intros W H Hc P. destruct (set_law e key v W Hc) as [e' [S [W' F]]].
  exists e'. split; [exact S|]. split; [exact W'|].
  intros k Pk. destruct (F k (primitive_clean k Pk)) as [_ B]. rewrite B.
  rewrite (equivb_primitive_left k key Pk P). apply (H k Pk).
Qed.

Lemma no_primitive_set_each status args : forall e ref,
  wf e -> no_primitive e -> Forall (fun a => clean (key_of a) = true) args ->
  exists e', set_each key_of e ref status args = Ok e' /\ wf e' /\ no_primitive e'.
Proof.
  induction args as [|a rest IH]; intros e ref W H Hc; simpl.
  - exists e. split; [reflexivity|]. split; assumption.
  - inversion Hc as [|? ? Ha Hrest]; subst.
    destruct (no_primitive_set e (key_of a) (status_object ref status) W H Ha
                (key_is_composite a)) as [e1 [S [W1 H1]]].
    rewrite S. simpl bind. apply IH; assumption.
Qed.

Lemma no_primitive_fail_each args : forall e ref errors,
  wf e -> no_primitive e -> Forall (fun a => clean (key_of a) = true) args ->
  exists e', fail_each key_of e ref args errors = Ok e' /\ wf e' /\ no_primitive e'.
Proof.
  induction args as [|a rest IH]; intros e ref errors W H Hc; simpl.
  - exists e. split; [reflexivity|]. split; assumption.
  - inversion Hc as [|? ? Ha Hrest]; subst.
    destruct (no_primitive_set e (key_of a)
                (error_object ref (if truthy (hd VUndefined errors)
                                   then hd VUndefined errors else VUndefined))
                W H Ha (key_is_composite a)) as [e1 [S [W1 H1]]].
    rewrite S. simpl bind. apply IH; assumption.
Qed.

Lemma no_primitive_delete e key :
  wf e -> no_primitive e -> clean key = true ->
  exists b e', delete e key = Ok (b, e') /\ wf e' /\ no_primitive e'.
Proof.
  intros W H Hc. destruct (delete_law e key W Hc) as [e' [D [W' F]]].
  exists (present e key), e'. split; [exact D|]. split; [exact W'|].
  intros k Pk. destruct (F k (primitive_clean k Pk)) as [_ B]. rewrite B.
  apply (H k Pk).
Qed.

Definition compositeState (s : State) : Prop :=
  wfState s /\ forall n e, In (n, e) s -> no_primitive e.

Lemma isResolved_composite ref s action :
  clean_action action -> compositeState s ->
  exists s', isResolved key_of ref s action = Ok s' /\ compositeState s'.
Proof.
  intros Hc Hl. pose proof (proj1 Hl) as Hs.
  assert (Hsl : forall n, no_primitive (slice s n)).
  { intros n. unfold slice. destruct (assoc_get String.eqb s n) as [e|] eqn:E.
    - apply (proj2 Hl n e). apply assoc_get_some_in, E.
    - apply no_primitive_empty. }
  assert (Sub : forall n (op : ekm -> res ekm),
            (forall c, wf c -> no_primitive c ->
               exists e1, op c = Ok e1 /\ wf e1 /\ no_primitive e1) ->
            exists s', (next <- (c <- copy (slice s n) ;; op c) ;;
                        Ok (assoc_set String.eqb s n next)) = Ok s' /\
                       compositeState s').
  { intros n op Hop.
    destruct (copy_law (slice s n) (wf_slice s n Hs)) as [c [C [Wc [_ V]]]].
    destruct (Hop c Wc (no_primitive_same (slice s n) c V (Hsl n))) as [e1 [R [W1 L1]]].
    rewrite C. simpl bind. rewrite R. simpl bind.
    eexists. split; [reflexivity|]. split; [apply wfState_set; assumption|].
    intros n' e' Hin. destruct (in_assoc_set _ _ _ _ _ _ Hin) as [X|X].
    - inversion X; subst. exact L1.
    - apply (proj2 Hl n' e' X). }
  destruct action as [n0 a|n0 a|n0 a err|n0 l|n0 l|n0 l errs|n0 a| |n0|t];
    simpl in Hc.
  - apply (Sub n0 (fun c => set c (key_of a) (status_object ref "resolving"))).
    intros c Wc Lc. apply no_primitive_set; try assumption. apply key_is_composite.
  - apply (Sub n0 (fun c => set c (key_of a) (status_object ref "finished"))).
    intros c Wc Lc. apply no_primitive_set; try assumption. apply key_is_composite.
  - apply (Sub n0 (fun c => set c (key_of a) (error_object ref err))).
    intros c Wc Lc. apply no_primitive_set; try assumption. apply key_is_composite.
  - apply (Sub n0 (fun c => set_each key_of c ref "resolving" l)).
    intros c Wc Lc. apply no_primitive_set_each; assumption.
  - apply (Sub n0 (fun c => set_each key_of c ref "finished" l)).
    intros c Wc Lc. apply no_primitive_set_each; assumption.
  - apply (Sub n0 (fun c => fail_each key_of c ref l errs)).
    intros c Wc Lc. apply no_primitive_fail_each; assumption.
  - apply (Sub n0 (fun c => ' (_, nextState) <- delete c (key_of a) ;; Ok nextState)).
    intros c Wc Lc. destruct (no_primitive_delete c (key_of a) Wc Lc Hc)
      as [b [e1 [D [W1 L1]]]].
    rewrite D. simpl bind. exists e1. split; [reflexivity|]. split; assumption.
  - exists []. split; [reflexivity|]. split; [apply wfState_nil|intros n e []].
  - unfold isResolved. destruct (assoc_has String.eqb s n0 || inherited n0).
    + eexists. split; [reflexivity|]. split; [apply wfState_delete; exact Hs|].
      intros n e Hin. apply (proj2 Hl n e). apply (in_assoc_delete _ _ _ _ _ Hin).
    + exists s. split; [reflexivity|exact Hl].
  - exists s. split; [reflexivity|exact Hl].
Qed.

Lemma dispatch_all_composite actions : forall ref s,
  compositeState s -> Forall clean_action actions ->
  exists s', dispatch_all key_of ref s actions = Ok s' /\ compositeState s'.
Proof.
  induction actions as [|a rest IH]; intros ref s Hl Hc; simpl.
  - exists s. split; [reflexivity|exact Hl].
  - inversion Hc as [|? ? Ha Hrest]; subst.
    destruct (isResolved_composite ref s a Ha Hl) as [s1 [R Hl1]].
    rewrite R. simpl bind. apply IH; assumption.
Qed.

Lemma no_primitive_composite e : okE User e -> no_primitive e -> composite_keys e.
Proof.
  intros He H k x Hin. destruct (entry_answer e k x He Hin) as [_ [Pr _]].
  destruct (is_primitive k) eqn:P; [|reflexivity].
  rewrite (H k P) in Pr. discriminate Pr.
Qed.

Lemma values_composite e :
  wf e -> no_primitive e ->
  values e = map (fun kx => SPair (fst kx) (snd kx)) (entries e).
Proof.
  intros W H. pose proof (no_primitive_composite e (proj1 W) H) as C.
  unfold values, entries. rewrite map_map.
  apply map_ext_in. intros [k s0] Hin. simpl.
  destruct (listed_pairs e (proj1 W) C k s0 Hin) as [E Hin'].
  rewrite (C _ _ Hin'). exact E.
Qed.

(** The values the reducer files: [undefined], or an object whose
    status is one of the three. *)
Definition known (x : stored) : bool :=
  match optional_status x with
  | VUndefined | VNull => true
  | VStr st =>
      String.eqb st "resolving" || String.eqb st "finished" || String.eqb st "error"
  | _ => false
  end.

Lemma known_overwrite k ws : forall cur,
  Forall (fun kx => known (snd kx) = true) ws -> known cur = true ->
  known (overwrite k ws cur) = true.
Proof.
  unfold overwrite. induction ws as [|kx t IH]; intros cur Hw Hc; simpl; [exact Hc|].
  inversion Hw as [|? ? Hx Ht]; subst. apply IH; [exact Ht|].
  destruct (equivb k (fst kx)); assumption.
Qed.

Lemma known_numbered status args : forall ref,
  known (SVal (status_object ref status)) = true ->
  Forall (fun kx => known (snd kx) = true) (numbered ref status args).
Proof.
  induction args as [|a t IH]; intros ref H; simpl; constructor.
  - exact H.
  - apply IH. exact H.
Qed.

Lemma known_failed args : forall ref errors,
  Forall (fun kx => known (snd kx) = true) (failed ref args errors).
Proof.
  induction args as [|a t IH]; intros ref errors; simpl; constructor.
  - reflexivity.
  - apply IH.
Qed.

Lemma known_writes ref action :
  Forall (fun kx => known (snd kx) = true) (writes ref action).
Proof.
  destruct action; simpl; try (repeat constructor; fail).
  - apply known_numbered. reflexivity.
  - apply known_numbered. reflexivity.
  - apply known_failed.
Qed.

Lemma known_view_after ref action m k cur :
  known cur = true -> known (view_after ref action m k cur) = true.
Proof.
  intros H. unfold view_after.
  assert (O : forall n,
            known (if String.eqb m n then overwrite k (writes ref action) cur else cur)
            = true).
  { intros n. destruct (String.eqb m n); [|exact H].
    apply known_overwrite; [apply known_writes|exact H]. }
  destruct action; simpl action_selectorName; try apply O; try exact H.
  - reflexivity.
  - destruct (String.eqb m selectorName); [reflexivity|exact H].
Qed.

Lemma known_views_after actions : forall ref m k cur,
  known cur = true -> known (views_after ref actions m k cur) = true.
Proof.
  induction actions as [|a t IH]; intros ref m k cur H; simpl; [exact H|].
  apply IH. apply known_view_after. exact H.
Qed.

Section Count.
Variable other_key : value -> string.
Local Abbreviation property_key := (property_key other_key).
Local Abbreviation count_one := (count_one other_key).

(** The name under which a value is counted: its status, and
    ['error'] when it has none. *)
Definition counted_as (x : stored) : string :=
  property_key (match optional_status x with
                | VUndefined | VNull => VStr "error"
                | status => status
                end).

Lemma known_counted_as x :
  known x = true -> inherited (counted_as x) = false.
Proof.
  unfold known, counted_as. destruct (optional_status x) as [| | | |st|];
    try discriminate; try reflexivity.
  intros H. simpl. apply orb_true_iff in H. destruct H as [H|H];
    [apply orb_true_iff in H; destruct H as [H|H]|];
    apply String.eqb_eq in H; subst st; reflexivity.
Qed.

(** How often a status occurs among values. *)
Definition occurrences (status : string) (l : list stored) : nat :=
  List.length (filter (fun x => String.eqb (counted_as x) status) l).

(** The property [selectorsByStatus] has for a status that occurs [n]
    times: none when it does not occur. *)
Definition tally (n : nat) : option total :=
  match n with
  | 0 => None
  | S _ => Some (Total n)
  end.

Lemma count_one_pair counts k x seen :
  known x = true ->
  (forall status, assoc_get String.eqb counts status = tally (occurrences status seen)) ->
  exists counts',
    count_one counts (SPair k x) = Ok counts' /\
    forall status,
      assoc_get String.eqb counts' status
      = tally (occurrences status (seen ++ [x])).
Proof.
  intros Hk H. unfold Resolution.count_one, current_status. simpl read1. simpl bind.
  fold (counted_as x).
  rewrite (H (counted_as x)), (known_counted_as x Hk).
  set (key := counted_as x).
  assert (Hocc : forall status, occurrences status (seen ++ [x])
                 = if String.eqb key status then S (occurrences status seen)
                   else occurrences status seen).
  { intros status. unfold occurrences. rewrite filter_app, length_app. simpl.
    fold key. destruct (String.eqb key status); simpl; lia. }
  eexists. split; [reflexivity|]. intros status. rewrite Hocc.
  destruct (occurrences key seen) as [|c] eqn:E; cbv beta iota delta [tally].
  - rewrite (assoc_get_set_same String.eqb String.eqb_eq).
    destruct (String.eqb key status) eqn:Es.
    + apply String.eqb_eq in Es. subst status.
      rewrite (assoc_get_set_same String.eqb String.eqb_eq), E. reflexivity.
    + apply String.eqb_neq in Es.
      rewrite !(assoc_get_set_other String.eqb String.eqb_eq) by exact Es.
      apply H.
  - rewrite (H key), E. cbv beta iota delta [tally].
    destruct (String.eqb key status) eqn:Es.
    + apply String.eqb_eq in Es. subst status.
      rewrite (assoc_get_set_same String.eqb String.eqb_eq), E. reflexivity.
    + apply String.eqb_neq in Es.
      rewrite (assoc_get_set_other String.eqb String.eqb_eq) by exact Es.
      apply H.
Qed.

Lemma count_pairs (l : list (value * stored)) : forall counts seen,
  Forall (fun kx => known (snd kx) = true) l ->
  (forall status, assoc_get String.eqb counts status = tally (occurrences status seen)) ->
  exists counts',
    fold_left (fun acc resolution => c <- acc ;; count_one c resolution)
              (map (fun kx => SPair (fst kx) (snd kx)) l) (Ok counts) = Ok counts' /\
    forall status,
      assoc_get String.eqb counts' status
      = tally (occurrences status (seen ++ map snd l)).
Proof.
  induction l as [|[k x] t IH]; intros counts seen Hl H; simpl.
  - exists counts. split; [reflexivity|]. rewrite app_nil_r. exact H.
  - inversion Hl as [|? ? Hx Ht]; subst. simpl in Hx.
    destruct (count_one_pair counts k x seen Hx H) as [c1 [E1 H1]]. rewrite E1.
    destruct (IH c1 (seen ++ [x]) Ht H1) as [c2 [E2 H2]]. exists c2.
    split; [exact E2|]. intros status. rewrite (H2 status), <- app_assoc. reflexivity.
Qed.

(** The values [forEach] visits in all the maps of the state. *)
Definition all_values (s : State) : list stored :=
  flat_map (fun ne => map snd (entries (snd ne))) s.

Lemma occurrences_perm status (l l' : list stored) :
  Permutation l l' -> occurrences status l = occurrences status l'.
Proof.
  unfold occurrences. induction 1 as [|x l l' _ IH|x y l|l l' l'' _ IH1 _ IH2]; simpl.
  - reflexivity.
  - destruct (String.eqb (counted_as x) status); simpl; congruence.
  - destruct (String.eqb (counted_as x) status), (String.eqb (counted_as y) status);
      reflexivity.
  - congruence.
Qed.

Lemma count_state (s : list (string * ekm)) : forall counts seen,
  (forall n e, In (n, e) s ->
     wf e /\ no_primitive e /\ Forall (fun kx => known (snd kx) = true) (entries e)) ->
  (forall status, assoc_get String.eqb counts status = tally (occurrences status seen)) ->
  exists counts',
    fold_left
      (fun acc selectorState =>
         fold_left (fun acc resolution => c <- acc ;; count_one c resolution)
                   (values (snd selectorState)) acc)
      s (Ok counts) = Ok counts' /\
    forall status,
      assoc_get String.eqb counts' status
      = tally (occurrences status (seen ++ all_values s)).
Proof.
  induction s as [|[n e] t IH]; intros counts seen Hs H; simpl.
  - exists counts. split; [reflexivity|]. rewrite app_nil_r. exact H.
  - destruct (Hs n e (or_introl eq_refl)) as [W [Hp Hk]].
    rewrite (values_composite e W Hp).
    destruct (count_pairs (entries e) counts seen Hk H) as [c1 [E1 H1]]. rewrite E1.
    destruct (IH c1 (seen ++ map snd (entries e))) as [c2 [E2 H2]].
    { intros n' e' Hin. apply (Hs n' e'). right. exact Hin. }
    { exact H1. }
    exists c2. split; [exact E2|].
    intros status. rewrite (H2 status). unfold all_values. simpl.
    rewrite <- app_assoc. reflexivity.
Qed.

(** [countSelectorsByStatus] on the state any history of clean actions
    leaves, when the state keys are objects or arrays: it does not
    throw, and the result has a property for each status that some
    entry has, holding the number of the entries [forEach] visits, in
    the maps of all selectors, with that status, and no other property;
    an entry left by [invalidateResolution], whose value is
    [undefined], counts under ['error']. *)
Theorem countSelectorsByStatus_counts_entries (history : list Action) :
  Forall clean_action history ->
  exists s counts,
    dispatch_all key_of 0 [] history = Ok s /\
    countSelectorsByStatus other_key s = Ok counts /\
    counted_as undefined = "error" /\
    forall status,
      assoc_get String.eqb counts status = tally (occurrences status (all_values s)).
Proof.
  intros Hh.
  assert (L0 : compositeState []) by (split; [apply wfState_nil|intros n e []]).
  destruct (dispatch_all_composite history 0 [] L0 Hh) as [s [D [Hs Hl]]].
  destruct (dispatch_all_law history 0 [] wfState_nil Hh) as [s' [D' [_ V]]].
  rewrite D in D'. inversion D'; subst s'. clear D'.
  destruct (count_state (enumerate s) [] []) as [counts [E H]].
  { intros n e Hin. apply (proj1 (enumerate_in s (n, e))) in Hin.
    split; [apply (proj2 Hs n e Hin)|]. split; [apply (Hl n e Hin)|].
    apply Forall_forall. intros [k x] Hkx. simpl.
    destruct (entry_answer e k x (proj1 (proj2 Hs n e Hin)) Hkx) as [Hc [_ Hx]].
    assert (Ev : view s n k = peek e k).
    { unfold view. rewrite (in_state_get s n e (proj1 Hs) Hin). reflexivity. }
    rewrite Hx, <- Ev, (V n k Hc). apply known_views_after. reflexivity. }
  { intros status. reflexivity. }
  exists s, counts. split; [exact D|]. split; [exact E|]. split; [reflexivity|].
  intros status. rewrite (H status). simpl app. f_equal.
  apply occurrences_perm. unfold all_values.
  apply Permutation_flat_map. apply enumerate_perm.
Qed.
End Count.

End Utils.

(** *** The laws on concrete actions *)

(** A key that is never a primitive: the argument list itself when it
    is an array or an object, and the empty array otherwise. *)
Definition array_key (args : value) : value :=
  match args with
  | VObj _ _ _ => args
  | _ => VObj 0 KArray []
  end.

Definition actions_1 : list Action :=
  [startResolution "g" args_1; startResolution "f" args_2;
   finishResolution "f" args_2].

Lemma actions_1_clean : Forall (clean_action own_key) actions_1.
Proof. repeat constructor. Qed.

Lemma actions_are_local_witness :
  exists s x s1 s2 s3,
    dispatch_all own_key 0 [] actions_1 = Ok s /\
    getResolutionState own_key s "f" args_2 = Ok (x, s1) /\
    isResolved own_key 7 s1 (failResolution "f" args_1 VNull) = Ok s2 /\
    getResolutionState own_key s2 "f" args_2 = Ok (x, s3).
Proof.
  apply (actions_are_local own_key actions_1 (failResolution "f" args_1 VNull)
           "f" args_2 7).
  - exact actions_1_clean.
  - reflexivity.
  - reflexivity.
  - reflexivity.
  - reflexivity.
Defined.

Lemma started_and_finished_witness :
  exists s,
    dispatch_all own_key 0 [] actions_1 = Ok s /\
    (exists s1 s2,
       isResolved own_key 7 s (startResolution "f" args_1) = Ok s1 /\
       hasStartedResolution own_key s1 "f" args_1' = Ok (true, s2) /\
       hasFinishedResolution own_key s1 "f" args_1' = Ok (false, s2) /\
       hasResolutionFailed own_key s1 "f" args_1' = Ok (false, s2) /\
       getResolutionError own_key s1 "f" args_1' = Ok (VNull, s2)) /\
    (exists s1 s2,
       isResolved own_key 7 s (finishResolution "f" args_1) = Ok s1 /\
       hasStartedResolution own_key s1 "f" args_1' = Ok (true, s2) /\
       hasFinishedResolution own_key s1 "f" args_1' = Ok (true, s2) /\
       hasResolutionFailed own_key s1 "f" args_1' = Ok (false, s2) /\
       getResolutionError own_key s1 "f" args_1' = Ok (VNull, s2)) /\
    (exists s1 s2,
       isResolved own_key 7 s (failResolution "f" args_1 VNull) = Ok s1 /\
       hasStartedResolution own_key s1 "f" args_1' = Ok (true, s2) /\
       hasFinishedResolution own_key s1 "f" args_1' = Ok (true, s2)).
Proof.
  apply (started_and_finished own_key actions_1 "f" args_1 args_1' VNull 7).
  - exact actions_1_clean.
  - reflexivity.
  - reflexivity.
  - reflexivity.
Defined.

Lemma invalidateResolution_forgets_witness :
  exists s s1 s2,
    dispatch_all own_key 0 [] actions_1 = Ok s /\
    isResolved own_key 7 s (invalidateResolution "f" args_2) = Ok s1 /\
    getResolutionState own_key s1 "f" args_2 = Ok (undefined, s2) /\
    hasStartedResolution own_key s1 "f" args_2 = Ok (false, s2) /\
    hasFinishedResolution own_key s1 "f" args_2 = Ok (false, s2) /\
    isResolving own_key s1 "f" args_2 = Ok (false, s2) /\
    hasResolutionFailed own_key s1 "f" args_2 = Ok (false, s2) /\
    getResolutionError own_key s1 "f" args_2 = Ok (VNull, s2).
Proof.
  apply (invalidateResolution_forgets own_key actions_1 "f" args_2 args_2 7).
  - exact actions_1_clean.
  - reflexivity.
  - reflexivity.
  - reflexivity.
Defined.

Lemma store_invalidation_forgets_witness :
  exists s x s0,
    dispatch_all own_key 0 [] actions_1 = Ok s /\
    getResolutionState own_key s "g" args_1 = Ok (x, s0) /\
    (exists s1,
       isResolved own_key 7 s0 invalidateResolutionForStore = Ok s1 /\
       hasResolvingSelectors s1 = Ok false /\
       forall n' args', inherited n' = false ->
         getResolutionState own_key s1 n' args' = Ok (undefined, s1)) /\
    (exists s1 s2,
       isResolved own_key 7 s0 (invalidateResolutionForStoreSelector "f") = Ok s1 /\
       (forall args', getResolutionState own_key s1 "f" args' = Ok (undefined, s1)) /\
       getResolutionState own_key s1 "g" args_1 = Ok (x, s2)).
Proof.
  apply (store_invalidation_forgets own_key actions_1 "f" "g" args_1 7).
  - exact actions_1_clean.
  - reflexivity.
  - discriminate.
  - reflexivity.
  - reflexivity.
Defined.

Lemma batch_actions_are_sequences_witness :
  exists s,
    dispatch_all own_key 0 [] actions_1 = Ok s /\
    (exists s1 s2,
       isResolved own_key 7 s (startResolutions "f" [args_1; args_2]) = Ok s1 /\
       dispatch_all own_key 7 s (map (startResolution "f") [args_1; args_2]) = Ok s2 /\
       same_answers own_key s1 s2) /\
    (exists s1 s2,
       isResolved own_key 7 s (finishResolutions "f" [args_1; args_2]) = Ok s1 /\
       dispatch_all own_key 7 s (map (finishResolution "f") [args_1; args_2]) = Ok s2 /\
       same_answers own_key s1 s2) /\
    (exists s1 s2,
       isResolved own_key 7 s (failResolutions "f" [args_1; args_2] [VNull]) = Ok s1 /\
       dispatch_all own_key 7 s
         (map (fun ae => failResolution "f" (fst ae) (snd ae))
              (with_errors [args_1; args_2] [VNull]))
         = Ok s2 /\
       same_answers own_key s1 s2).
Proof.
  apply (batch_actions_are_sequences own_key actions_1 "f" [args_1; args_2] [VNull] 7).
  - exact actions_1_clean.
  - repeat constructor.
Defined.

Lemma hasResolvingSelectors_agrees_witness :
  exists s b,
    dispatch_all array_key 0 [] actions_1 = Ok s /\
    hasResolvingSelectors s = Ok b /\
    (forall n args s', clean (array_key args) = true ->
       isResolving array_key s n args = Ok (true, s') -> b = true) /\
    (b = true ->
     exists n e k x e',
       assoc_get String.eqb s n = Some e /\ get e k = Ok (x, e') /\
       status_property x = VStr "resolving").
Proof.
  apply (hasResolvingSelectors_agrees array_key).
  - intros [ | | | | | ]; reflexivity.
  - repeat constructor.
  - repeat constructor.
Defined.

(** A resolver table in which every selector has a [shouldInvalidate]
    that accepts every action. *)
Definition always_invalidate (_ : string) : option (unit -> value -> bool) :=
  Some (fun _ _ => true).

Lemma middleware_invalidates_ended_witness :
  exists s dispatched,
    dispatch_all own_key 0 [] actions_1 = Ok s /\
    resolversCacheMiddleware always_invalidate tt s = Ok dispatched /\
    (forall a, In a dispatched ->
       exists n k shouldInvalidate e x e',
         a = invalidateResolution n k /\
         always_invalidate n = Some shouldInvalidate /\ shouldInvalidate tt k = true /\
         assoc_get String.eqb s n = Some e /\ get e k = Ok (x, e') /\
         ended x = true) /\
    (forall n shouldInvalidate e k x,
       always_invalidate n = Some shouldInvalidate -> assoc_get String.eqb s n = Some e ->
       In (k, x) (entries e) -> ended x = true -> shouldInvalidate tt k = true ->
       In (invalidateResolution n k) dispatched).
Proof.
  apply (middleware_invalidates_ended own_key unit always_invalidate actions_1 tt).
  - exact actions_1_clean.
  - repeat constructor.
Defined.

Definition actions_2 : list Action :=
  actions_1 ++ [invalidateResolution "g" args_1; startResolution "f" args_1].

Lemma countSelectorsByStatus_counts_entries_witness :
  exists s counts,
    dispatch_all array_key 0 [] actions_2 = Ok s /\
    countSelectorsByStatus (fun _ => "undefined") s = Ok counts /\
    counted_as (fun _ => "undefined") undefined = "error" /\
    forall status,
      assoc_get String.eqb counts status
      = tally (occurrences (fun _ => "undefined") status (all_values s)).
Proof.
  apply (countSelectorsByStatus_counts_entries array_key).
  - intros [ | | | | | ]; reflexivity.
  - repeat constructor.
Defined.
End ResolutionMore.

(** ** The memoizing selector: what the cache may answer *)
Module SelectorMore.
Import Selector SelectorFacts.

Lemma isShallowEqual_skipn (a b : list value) (fromIndex : nat) :
  isShallowEqual a b fromIndex = true <->
  List.length a = List.length b /\ skipn fromIndex a = skipn fromIndex b.
Proof.
  unfold isShallowEqual.
  destruct (Nat.eqb (List.length a) (List.length b)) eqn:E; simpl.
  - apply Nat.eqb_eq in E. rewrite forallb_seq_true. split.
    + intros H. split; [exact E|].
      apply (nth_ext _ _ VUndefined VUndefined).
      * rewrite !length_skipn. lia.
      * intros i Hi. rewrite length_skipn in Hi. rewrite !nth_skipn.
        apply value_eqb_eq. apply H. lia.
    + intros [_ H] i Hi.
      replace i with (fromIndex + (i - fromIndex)) by lia.
      rewrite <- !nth_skipn, H. apply value_eqb_refl.
  - apply Nat.eqb_neq in E. split; [discriminate|]. intros [H _]. contradiction.
Qed.

(** [isShallowEqual] from any index: the two arrays have the same
    length and the same elements from that index on.  An index at or
    past the end compares the lengths only. *)
Theorem isShallowEqual_from (a b : list value) (fromIndex : nat) :
  isShallowEqual a b fromIndex = true <->
  List.length a = List.length b /\ skipn fromIndex a = skipn fromIndex b.
Proof. apply isShallowEqual_skipn. Qed.

Lemma isShallowEqual_tl (a b : list value) :
  isShallowEqual a b 1 = true -> tl a = tl b.
Proof.
  intros H. apply isShallowEqual_skipn in H. destruct H as [_ H].
  destruct a, b; simpl in *; congruence.
Qed.

Lemma tl_null_source (args : list value) : tl (null_source args) = tl args.
Proof. destruct args; reflexivity. Qed.

Lemma find_node_in nodes args before node after :
  find_node nodes args = Some (before, node, after) ->
  In node nodes /\
  (forall x, In x (node :: (before ++ after)%list) -> In x nodes).
Proof.
  revert before. induction nodes as [|n t IH]; simpl; intros before; [discriminate|].
  destruct (isShallowEqual (node_args n) args 1) eqn:E.
  - intros H. inversion H; subst. split; [left; reflexivity|].
    intros x Hx. exact Hx.
  - destruct (find_node t args) as [[[b f] a]|] eqn:F; [|discriminate].
    intros H. inversion H; subst. destruct (IH b eq_refl) as [H1 H2].
    split; [right; exact H1|].
    intros x [Hx|Hx]; [right; apply H2; left; exact Hx|].
    simpl in Hx. destruct Hx as [Hx|Hx]; [left; exact Hx|].
    right. apply H2. right. exact Hx.
Qed.

Section Sound.
Variable selector : nat -> list value -> value.
Variable getDependants : list value -> list value.

(** The states the memoized selector goes through: calls and
    [clear()], from the state [createSelector] leaves. *)
Inductive reachable : state -> Prop :=
| reach_initial : reachable initial
| reach_call st args :
    reachable st -> reachable (snd (callSelector selector getDependants st args))
| reach_clear st : reachable st -> reachable (clear st).

(** [clear()] empties every cache: the next call invokes the wrapped
    selector, whatever was cached before. *)
Theorem clear_forces_recomputation (st : state) (args : list value) :
  fst (callSelector selector getDependants (clear st) args)
  = selector (invocations st) args /\
  invocations (snd (callSelector selector getDependants (clear st) args))
  = S (invocations st).
Proof.
  unfold callSelector. rewrite callSelector_unfold. cbv zeta. simpl fst. simpl snd.
  simpl rootCache. simpl invocations. rewrite current_empty.
  rewrite use_cache_miss by (left; reflexivity). split; reflexivity.
Qed.

(** The result of the wrapped selector is a function [g] of the
    dependants and of the arguments after the source, and the
    dependants arrays all have the length [n]. *)
Variable g : list value -> list value -> value.
Variable n : nat.
Hypothesis Hpure : forall count args,
  selector count args = g (getDependants args) (tl args).
Hypothesis Hlen : forall args, List.length (getDependants args) = n.

Definition sound_nodes (d : list value) (nodes : list CacheNode) : Prop :=
  forall node, In node nodes -> node_val node = g d (tl (node_args node)).

(** A cache found under the object-like dependants [p] holds results
    for the dependants it is used with. *)
Definition sound (p : list value) (c : Cache) : Prop :=
  if isUniqueByDependants c
  then List.length p = n /\ sound_nodes p (head c)
  else match lastDependants c with
       | Some last => sound_nodes last (head c)
       | None => head c = []
       end.

Definition sound_root (root : CacheMap) : Prop :=
  forall d c, cache_at root d = Some c -> sound (cache_path d) c.

Lemma sound_current root d :
  sound_root root -> List.length d = n -> sound (cache_path d) (current root d).
Proof.
  intros H Hd. unfold current. destruct (cache_at root d) as [c|] eqn:E.
  - apply H. exact E.
  - unfold sound. simpl. destruct (forallb isObject d) eqn:U; [|reflexivity].
    rewrite cache_path_all by exact U. split; [exact Hd|]. intros node [].
Qed.

Lemma use_cache_sound count args c :
  sound (cache_path (getDependants args)) c ->
  sound (cache_path (getDependants args))
        (snd (use_cache selector 0 count args (getDependants args) c)) /\
  fst (fst (use_cache selector 0 count args (getDependants args) c))
  = g (getDependants args) (tl args).
Proof.
  intros Hs. unfold use_cache.
  set (d := getDependants args) in *.
  set (c1 := if negb (isUniqueByDependants c) then _ else c).
  assert (H1 : sound (cache_path d) c1 /\ sound_nodes d (head c1)).
  { subst c1. unfold sound in *. destruct (isUniqueByDependants c) eqn:U; simpl.
    - rewrite U. destruct Hs as [Hl Hn]. split; [split; assumption|].
      assert (E : cache_path d = d).
      { apply cache_path_all, cache_path_length. rewrite Hl. symmetry. apply Hlen. }
      rewrite <- E. exact Hn.
    - destruct (lastDependants c) as [last|] eqn:L.
      + destruct (isShallowEqual d last 0) eqn:E; simpl; rewrite U.
        * apply isShallowEqual_0 in E. subst last. split; exact Hs.
        * split; intros node [].
      + rewrite U, Hs. split; intros node []. }
  destruct H1 as [Hc1 Hn1].
  destruct (find_node (head c1) args) as [[[before node] after]|] eqn:F; simpl.
  - destruct (find_node_in _ _ F) as [Hin Hsub]. split.
    + unfold sound in *. simpl.
      destruct (isUniqueByDependants c1).
      * destruct Hc1 as [Hl Hn]. split; [exact Hl|].
        intros x Hx. apply Hn, Hsub, Hx.
      * destruct (lastDependants c1); [|rewrite Hc1 in Hin; destruct Hin].
        intros x Hx. apply Hc1, Hsub, Hx.
    + rewrite (Hn1 node Hin). f_equal. apply isShallowEqual_tl.
      eapply find_node_matches, F.
  - split; [|apply Hpure].
    assert (Hnew : node_val (mkNode (null_source args) (selector count args))
                   = g d (tl (node_args (mkNode (null_source args) (selector count args))))).
    { simpl. rewrite tl_null_source. apply Hpure. }
    unfold sound in *. simpl.
    destruct (isUniqueByDependants c1) eqn:U1.
    + destruct Hc1 as [Hl Hn]. split; [exact Hl|].
      intros x [<-|Hx]; [|apply Hn, Hx].
      assert (E : cache_path d = d).
      { apply cache_path_all, cache_path_length. rewrite Hl. symmetry. apply Hlen. }
      rewrite E. exact Hnew.
    + assert (L : lastDependants c1 = Some d).
      { subst c1. destruct (isUniqueByDependants c) eqn:U; simpl in *; [congruence|].
        reflexivity. }
      rewrite L. intros x [<-|Hx]; [exact Hnew|apply Hn1, Hx].
Qed.

Lemma callSelector_sound st args :
  sound_root (rootCache st) ->
  sound_root (rootCache (snd (callSelector selector getDependants st args))) /\
  fst (callSelector selector getDependants st args) = g (getDependants args) (tl args).
Proof.
  intros H. unfold callSelector. rewrite callSelector_unfold. cbv zeta.
  simpl fst. simpl snd. simpl rootCache.
  pose proof (@sound_current (rootCache st) (getDependants args) H (Hlen args)) as Hcur.
  destruct (@use_cache_sound (invocations st) args _ Hcur) as [Hs Hv].
  split; [|exact Hv].
  intros d2 c E.
  destruct (list_eq_dec value_eq_dec (cache_path (getDependants args)) (cache_path d2))
    as [Hp|Hp].
  - rewrite with_cache_stored_same in E by exact Hp. inversion E; subst c.
    rewrite <- Hp. exact Hs.
  - rewrite with_cache_stored_other in E by exact Hp. apply H, E.
Qed.

Lemma reachable_sound st : reachable st -> sound_root (rootCache st).
Proof.
  induction 1 as [|st args _ IH|st _ _].
  - intros d c E. simpl in E. rewrite cache_at_empty in E. discriminate.
  - apply callSelector_sound, IH.
  - intros d c E. simpl in E. rewrite cache_at_empty in E. discriminate.
Qed.

Lemma callSelector_answers st args :
  reachable st ->
  fst (callSelector selector getDependants st args) = selector (invocations st) args.
Proof.
  intros R. rewrite Hpure. apply callSelector_sound, reachable_sound, R.
Qed.
End Sound.

(** Memoization is transparent for a selector that keeps the contract
    of [createSelector]: when the result of the wrapped selector depends
    on its arguments only through the dependants and the arguments after
    the source, and [getDependants] returns arrays of one length, every
    call of the memoized selector, after any calls and [clear()]s,
    returns what the wrapped selector returns for the arguments of that
    call. *)
Theorem memoized_selector_is_transparent
    (selector : nat -> list value -> value)
    (getDependants : list value -> list value)
    (g : list value -> list value -> value) (n : nat)
    (st : state) (args : list value) :
  (forall count args, selector count args = g (getDependants args) (tl args)) ->
  (forall args, List.length (getDependants args) = n) ->
  reachable selector getDependants st ->
  fst (callSelector selector getDependants st args) = selector (invocations st) args.
Proof.
  intros Hpure Hlen R.
  apply (@callSelector_answers selector getDependants g n Hpure Hlen st args R).
Qed.

(** Without a [getDependants] the source argument is the one
    dependant: for a wrapped selector whose result depends on nothing
    but its arguments, with a missing source read as [undefined], the
    memoized selector returns at every call what the wrapped selector
    returns. *)
Theorem default_dependants_are_transparent
    (selector : nat -> list value -> value)
    (f : value -> list value -> value)
    (st : state) (args : list value) :
  (forall count args, selector count args = f (hd VUndefined args) (tl args)) ->
  reachable selector (normalizedGetDependants None) st ->
  fst (createSelector selector None st args) = selector (invocations st) args.
Proof.
  intros Hpure R. unfold createSelector.
  apply (@callSelector_answers selector (normalizedGetDependants None)
           (fun d rest => f (hd VUndefined d) rest) 1 ); [| |exact R].
  - intros count a. rewrite Hpure. reflexivity.
  - intros a. reflexivity.
Qed.

(** A selector returning its second argument, and one returning its
    source. *)
Definition second_argument : nat -> list value -> value :=
  fun _ args => nth 1 args VUndefined.
Definition source_itself : nat -> list value -> value :=
  fun _ args => hd VUndefined args.

Lemma memoized_selector_is_transparent_witness :
  fst (callSelector second_argument source_dependant
         (snd (callSelector second_argument source_dependant initial [objA; VNum 1]))
         [objB; VNum 2])
  = VNum 2.
Proof.
  apply (@memoized_selector_is_transparent second_argument source_dependant
           (fun _ rest => hd VUndefined rest) 1
           (snd (callSelector second_argument source_dependant initial [objA; VNum 1]))
           [objB; VNum 2]).
  - intros count [|a [|b r]]; reflexivity.
  - intros [|a r]; reflexivity.
  - apply reach_call, reach_initial.
Defined.

Lemma default_dependants_are_transparent_witness :
  fst (createSelector source_itself None
         (snd (createSelector source_itself None initial [VNum 1]))
         [VNum 2])
  = VNum 2.
Proof.
  apply (@default_dependants_are_transparent source_itself (fun s _ => s)
           (snd (createSelector source_itself None initial [VNum 1])) [VNum 2]).
  - intros count a. reflexivity.
  - apply reach_call, reach_initial.
Defined.
End SelectorMore.

(** ** The registry: registration, lookup and tracking together *)
Module RegistryMore.
Import Registry.
Unset Implicit Arguments.
Section Stores.
Variables (Selectors Actions : Type).
Local Abbreviation StoreInstance := (StoreInstance Selectors Actions).
Local Abbreviation registry := (registry Selectors Actions).

Lemma select_name_local (r : registry) name (s : StoreInstance) :
  assoc_get String.eqb (stores r) name = Some s ->
  fst (select_name r name) = call_getSelectors s.
Proof. destruct r as [st p l]. simpl. intros ->. reflexivity. Qed.

Lemma dispatch_name_local (r : registry) name (s : StoreInstance) :
  assoc_get String.eqb (stores r) name = Some s ->
  dispatch_name r name = call_getActions s.
Proof. destruct r as [st p l]. simpl. intros ->. reflexivity. Qed.

(** A store registered under a name for which [stores[name]] finds
    nothing (no store of this registry, and not a name inherited from
    [Object.prototype]), with the three methods a store must have, is
    the one [select] and [dispatch] serve under that name afterwards,
    whatever the parent registry holds under it; the registration
    writes no error line and installs the store emitter. *)
Theorem registered_store_is_served (r : registry) (name : string)
    (create : unit -> StoreInstance) (sel : Selectors) (act : Actions) :
  assoc_get String.eqb (stores r) name = None ->
  getSelectors (create tt) = Some sel ->
  getActions (create tt) = Some act ->
  subscribe (create tt) = true ->
  exists store r1,
    registerStoreInstance r name create = Ok (store, r1, []) /\
    emitter store = true /\
    fst (select r1 (StoreName name)) = Ok (Some sel) /\
    dispatch r1 (StoreDescriptor name) = Ok (Some act).
Proof.
  intros Hfree Hs Ha Hsub. unfold registerStoreInstance.
  rewrite Hfree, Hs, Ha, Hsub.
  eexists. eexists. split; [reflexivity|]. split; [reflexivity|].
  split.
  - unfold select. simpl getStoreName.
    erewrite select_name_local;
      [|simpl; apply (assoc_get_set_same String.eqb String.eqb_eq)].
    reflexivity.
  - unfold dispatch. simpl getStoreName.
    erewrite dispatch_name_local;
      [|simpl; apply (assoc_get_set_same String.eqb String.eqb_eq)].
    reflexivity.
Qed.

(** A registration that returns, new or refused, changes nothing for
    the other names: [select] and [dispatch] answer for them as before,
    and the parent registry is the same. *)
Theorem registration_keeps_other_stores (r r1 : registry) (name name' : string)
    (create : unit -> StoreInstance) (store : StoreInstance) (log : list string) :
  registerStoreInstance r name create = Ok (store, r1, log) ->
  name' <> name ->
  fst (select r1 (StoreName name')) = fst (select r (StoreName name')) /\
  dispatch r1 (StoreName name') = dispatch r (StoreName name') /\
  parent r1 = parent r.
Proof.
  unfold registerStoreInstance. intros H Hne.
  destruct (assoc_get String.eqb (stores r) name) as [existing|] eqn:E.
  - inversion H; subst. repeat split.
  - destruct (getSelectors (create tt)) as [sel|]; [|discriminate].
    destruct (getActions (create tt)) as [act|]; [|discriminate].
    destruct (subscribe (create tt)); [|discriminate].
    inversion H; subst. clear H.
    destruct r as [st p l]. unfold select, dispatch. simpl.
    rewrite (assoc_get_set_other String.eqb String.eqb_eq) by congruence.
    repeat split.
    destruct (assoc_get String.eqb st name'); [reflexivity|].
    destruct p as [p|]; [|reflexivity].
    destruct (select_name p name'). reflexivity.
Qed.

(** A callback that calls [select] for each of [names] in turn; a
    call that throws ends it. *)
Fixpoint select_each (names : list nameOrDescriptor) (r : registry)
  : res (unit * registry) :=
  match names with
  | [] => Ok (tt, r)
  | n :: rest =>
      _ <- fst (select r n) ;;
      select_each rest (snd (select r n))
  end.

(** Induction along the chain of parents. *)
Fixpoint registry_chain_ind (P : registry -> Prop)
    (Hroot : forall st l, P (mkRegistry st None l))
    (Hchild : forall st p l, P p -> P (mkRegistry st (Some p) l))
    (r : registry) : P r :=
  match r with
  | mkRegistry st None l => Hroot st l
  | mkRegistry st (Some p) l => Hchild st p l (registry_chain_ind P Hroot Hchild p)
  end.

(** What [select] returns, without the tracking. *)
Fixpoint served (r : registry) (storeName : string) : res (option Selectors) :=
  match r with
  | mkRegistry st p _ =>
      match assoc_get String.eqb st storeName with
      | Some store => call_getSelectors store
      | None =>
          match p with
          | Some p => served p storeName
          | None => Ok None
          end
      end
  end.

Lemma select_name_served (r : registry) : forall name,
  fst (select_name r name) = served r name.
Proof.
  induction r as [st l|st p l IH] using registry_chain_ind; intros name; simpl.
  - destruct (assoc_get String.eqb st name); reflexivity.
  - destruct (assoc_get String.eqb st name); [reflexivity|].
    rewrite <- IH. destruct (select_name p name). reflexivity.
Qed.

(** Tracking changes nothing that [select] returns. *)
Lemma served_after_select (r : registry) : forall name name',
  served (snd (select_name r name)) name' = served r name'.
Proof.
  induction r as [st l|st p l IH] using registry_chain_ind; intros name name'; simpl.
  - destruct (assoc_get String.eqb st name); reflexivity.
  - destruct (assoc_get String.eqb st name); [reflexivity|].
    specialize (IH name name'). destruct (select_name p name) as [x p']. simpl in *.
    destruct (assoc_get String.eqb st name'); [reflexivity|]. exact IH.
Qed.

Lemma select_tracks (r : registry) (n : nameOrDescriptor) :
  stores (snd (select r n)) = stores r /\
  listeningStores (snd (select r n))
  = listening_add (listeningStores r) (getStoreName n).
Proof.
  unfold select. destruct r as [st p l]. simpl.
  destruct (assoc_get String.eqb st (getStoreName n)); [split; reflexivity|].
  destruct p as [p|]; [|split; reflexivity].
  destruct (select_name p (getStoreName n)). split; reflexivity.
Qed.

Lemma select_each_tracks (names : list nameOrDescriptor) : forall (r : registry) l,
  Forall (fun n => exists x, served r (getStoreName n) = Ok x) names ->
  listeningStores r = Some l -> NoDup l ->
  exists l' r',
    select_each names r = Ok (tt, r') /\
    listeningStores r' = Some l' /\
    stores r' = stores r /\
    NoDup l' /\
    (forall n, In n l' <-> In n l \/ In n (map getStoreName names)).
Proof.
  induction names as [|n t IH]; intros r l Hok Hl Hnd; simpl.
  - exists l, r. repeat split; try assumption; tauto.
  - inversion Hok as [|? ? [x Hx] Hrest]; subst.
    assert (E : fst (select r n) = Ok x).
    { unfold select. rewrite select_name_served. exact Hx. }
    rewrite E. simpl bind.
    assert (Hok' : Forall (fun m => exists y, served (snd (select r n)) (getStoreName m)
                                              = Ok y) t).
    { apply Forall_forall. intros m Hm. rewrite Forall_forall in Hrest.
      unfold select. rewrite served_after_select. apply (Hrest m Hm). }
    destruct (select_tracks r n) as [Hs Ht]. rewrite Hl in Ht. simpl in Ht.
    destruct (existsb (String.eqb (getStoreName n)) l) eqn:Ex.
    + destruct (IH _ l Hok' Ht Hnd) as [l' [r' [H0 [H1 [H2 [H3 H4]]]]]].
      exists l', r'. split; [exact H0|]. split; [exact H1|].
      split; [congruence|]. split; [exact H3|].
      intros y. rewrite H4. apply existsb_exists in Ex.
      destruct Ex as [z [Hz Ez]]. apply String.eqb_eq in Ez. subst z.
      split; [tauto|]. intros [H|[H|H]]; auto. subst y. auto.
    + assert (Hnin : ~ In (getStoreName n) l).
      { intros Hin. assert (X : existsb (String.eqb (getStoreName n)) l = true).
        { apply existsb_exists. exists (getStoreName n). split; [exact Hin|].
          apply String.eqb_refl. }
        congruence. }
      assert (Hnd' : NoDup (l ++ [getStoreName n])).
      { apply NoDup_app; [exact Hnd|repeat constructor; intros []|].
        intros y Hy [Hz|[]]. subst y. contradiction. }
      destruct (IH _ _ Hok' Ht Hnd') as [l' [r' [H0 [H1 [H2 [H3 H4]]]]]].
      exists l', r'. split; [exact H0|]. split; [exact H1|].
      split; [congruence|]. split; [exact H3|].
      intros y. rewrite H4, in_app_iff. simpl. tauto.
Qed.

(** [__unstableMarkListeningStores] around a callback that selects from
    the stores [names], when each of these [select] calls returns: it
    hands back, in [ref.current], each of those store names once and no
    other name, whether or not a store of that name exists; afterwards
    tracking is off and the stores are as before. *)
Theorem markListeningStores_records_selected (r : registry)
    (names : list nameOrDescriptor) :
  Forall (fun n => exists x, fst (select r n) = Ok x) names ->
  exists l r',
    markListeningStores r (select_each names) = Ok (tt, l, r') /\
    NoDup l /\
    (forall n, In n l <-> In n (map getStoreName names)) /\
    listeningStores r' = None /\
    stores r' = stores r.
Proof.
  intros Hok. unfold markListeningStores.
  assert (Hok' : Forall (fun n => exists x,
                           served (mkRegistry (stores r) (parent r) (Some []))
                                  (getStoreName n) = Ok x) names).
  { apply Forall_forall. intros n Hn. rewrite Forall_forall in Hok.
    destruct (Hok n Hn) as [x Hx]. exists x. unfold select in Hx.
    rewrite select_name_served in Hx. destruct r as [st p l]. exact Hx. }
  destruct (select_each_tracks names (mkRegistry (stores r) (parent r) (Some [])) []
              Hok' eq_refl (NoDup_nil _)) as [l [r' [H0 [H1 [H2 [H3 H4]]]]]].
  rewrite H0. simpl bind. rewrite H1. exists l. eexists. split; [reflexivity|].
  split; [exact H3|]. split; [|split; [reflexivity|exact H2]].
  intros n. rewrite H4. simpl. tauto.
Qed.

(** When one of the [select] calls throws, so does
    [__unstableMarkListeningStores]. *)
Lemma select_each_throws (names : list nameOrDescriptor) : forall (r : registry),
  Exists (fun n => served r (getStoreName n) = TypeError) names ->
  select_each names r = TypeError.
Proof.
  induction names as [|n t IH]; intros r H; [inversion H|]. simpl.
  unfold select at 1. rewrite select_name_served.
  destruct (served r (getStoreName n)) as [x| |] eqn:E.
  - simpl bind. apply IH. inversion H as [? ? Hn|? ? Ht]; subst.
    + rewrite E in Hn. discriminate Hn.
    + apply Exists_exists in Ht. destruct Ht as [m [Hm Em]].
      apply Exists_exists. exists m. split; [exact Hm|].
      unfold select. rewrite served_after_select. exact Em.
  - reflexivity.
  - exfalso. clear -E. revert E. generalize (getStoreName n).
    induction r as [st l|st p l IHr] using registry_chain_ind; intros name; simpl.
    + destruct (assoc_get String.eqb st name) as [s|]; [|discriminate].
      unfold call_getSelectors. destruct (getSelectors s); discriminate.
    + destruct (assoc_get String.eqb st name) as [s|]; [|apply IHr].
      unfold call_getSelectors. destruct (getSelectors s); discriminate.
Qed.

(** Tracking does not nest: when the callback itself marks listening
    stores on the same registry, the inner call leaves the tracking set
    [null], and the outer call throws on [Array.from(listeningStores)]
    instead of returning, whatever the inner callback does. *)
Theorem markListeningStores_nested_throws (A : Type) (r : registry)
    (callback : registry -> res (A * registry)) :
  markListeningStores r
    (fun r0 => ' (a, _, r1) <- markListeningStores r0 callback ;; Ok (a, r1))
  = match callback (mkRegistry (stores r) (parent r) (Some [])) with
    | OutOfFuel => OutOfFuel
    | _ => TypeError
    end.
Proof.
  unfold markListeningStores. simpl.
  destruct (callback _) as [[a r1]| |]; simpl; try reflexivity.
  destruct (listeningStores r1); reflexivity.
Qed.
End Stores.
Set Implicit Arguments.

Lemma registered_store_is_served_witness :
  exists store r1,
    registerStoreInstance RegistryFacts.parent_registry "local"
      (fun _ => RegistryFacts.store_a) = Ok (store, r1, []) /\
    emitter store = true /\
    fst (select r1 (StoreName "local")) = Ok (Some 1) /\
    dispatch r1 (StoreDescriptor "local") = Ok (Some 10).
Proof.
  apply (@registered_store_is_served nat nat RegistryFacts.parent_registry "local"
           (fun _ => RegistryFacts.store_a) 1 10); reflexivity.
Defined.

Lemma registration_keeps_other_stores_witness :
  exists r1,
    registerStoreInstance RegistryFacts.child_registry "todos"
      (fun _ => RegistryFacts.store_b) = Ok (mkStore (Some 2) (Some 20) true true, r1, []) /\
    fst (select r1 (StoreName "local")) = Ok (Some 1) /\
    dispatch r1 (StoreName "local") = Ok (Some 10).
Proof.
  eexists. split; [reflexivity|].
  destruct (@registration_keeps_other_stores nat nat RegistryFacts.child_registry _
              "todos" "local" (fun _ => RegistryFacts.store_b) _ _ eq_refl)
    as [H1 [H2 _]]; [discriminate|].
  split; [exact H1|exact H2].
Defined.

Definition names_1 : list nameOrDescriptor :=
  [StoreName "local"; StoreDescriptor "parentOnlyStore"; StoreName "local";
   StoreName "missing"].

Lemma markListeningStores_records_selected_witness :
  exists l r',
    markListeningStores RegistryFacts.child_registry (select_each nat nat names_1)
    = Ok (tt, l, r') /\
    NoDup l /\
    (forall n, In n l <-> In n (map getStoreName names_1)) /\
    listeningStores r' = None /\
    stores r' = stores RegistryFacts.child_registry.
Proof.
  apply (@markListeningStores_records_selected nat nat RegistryFacts.child_registry
           names_1).
  repeat constructor; eexists; reflexivity.
Defined.
End RegistryMore.

(** ** combineReducers: the slices of the result *)
Module CombineMore.
Import Combine CombineFacts.
Section Reducers.
Variable Action : Type.
Variable action : Action.

(** [state[key]] for the state the combined reducer works on; an
    [undefined] state is read as [{}]. *)
Definition slice_of (state : option jsobject) (key : string) : jsvalue :=
  match state with
  | Some o => prop_get o key
  | None => if inherited key then JInherited key else JVal VUndefined
  end.

(** The keys whose assignment adds an own property. *)
Definition adds_property (kr : string * Reducer Action) : bool :=
  negb (String.eqb (fst kr) "__proto__").

Lemma fold_own (state : jsobject) (l : list (string * Reducer Action)) : forall r ps p ch,
  NoDup (map fst ps ++ map fst l) ->
  own (fst (fold_left (combine_step state action) l (Created (JsObject r ps) p, ch)))
  = JsObject r (ps ++ map (fun kr => (fst kr, next_of state action kr))
                          (filter adds_property l)).
Proof.
  induction l as [| kr t IH]; intros r ps p ch Hnd; simpl.
  - rewrite app_nil_r. reflexivity.
  - assert (Ht : NoDup (map fst ps ++ map fst t)).
    { simpl in Hnd. apply NoDup_remove_1 in Hnd. exact Hnd. }
    unfold combine_step at 2. simpl. unfold prop_assign, adds_property.
    destruct (String.eqb (fst kr) "__proto__") eqn:E; simpl.
    + destruct (object_or_null _); [destruct (strict_eqb _ _)|]; simpl;
        apply IH; exact Ht.
    + unfold prop_set. simpl. rewrite (assoc_set_fresh String.eqb String.eqb_eq).
      * rewrite IH.
        -- rewrite <- app_assoc. reflexivity.
        -- rewrite map_app, <- app_assoc. exact Hnd.
      * simpl in Hnd. apply NoDup_remove_2 in Hnd.
        intros Hin. apply Hnd. apply in_or_app. auto.
Qed.

Lemma prop_get_mapped (state : jsobject) (reducers : list (string * Reducer Action))
    (ref : nat) (key : string) (reducer : Reducer Action) :
  NoDup (map fst reducers) -> In (key, reducer) reducers ->
  prop_get (JsObject ref (map (fun kr => (fst kr, next_of state action kr)) reducers)) key
  = reducer (prop_get state key) action.
Proof.
  unfold prop_get at 1. simpl. induction reducers as [|[k r] t IH]; intros Hnd Hin.
  - destruct Hin.
  - simpl. inversion Hnd as [|? ? Hk Ht]; subst. destruct Hin as [E|Hin].
    + inversion E; subst. rewrite String.eqb_refl. reflexivity.
    + destruct (String.eqb k key) eqn:Ek.
      * apply String.eqb_eq in Ek. subst k. exfalso. apply Hk.
        apply (in_map fst) in Hin. exact Hin.
      * apply IH; assumption.
Qed.

Lemma NoDup_filter_keys (l : list (string * Reducer Action)) f :
  NoDup (map fst l) -> NoDup (map fst (filter f l)).
Proof.
  induction l as [|kr t IH]; simpl; intros H; [constructor|].
  inversion H as [|? ? Hk Ht]; subst. destruct (f kr); simpl; [|auto].
  constructor; [|auto]. intros Hin. apply Hk.
  apply in_map_iff in Hin. destruct Hin as [x [Ex Hx]].
  apply filter_In in Hx. apply in_map_iff. exists x. tauto.
Qed.

End Reducers.

End CombineMore.
